(** * Protocol translation engine of the AI gateway: schema sanitizer,
      token accounting, streaming decoders and the tokenize endpoint.

    The development follows the Go sources:
    - [internal/extproc/translator/jsonschema_helper.go] (older sanitizer),
    - the Gemini JSON-schema helper of package [translator] (newer sanitizer),
    - [internal/translator/openai_awsanthropic.go] and the AWS InvokeModel
      OpenAI translators (streaming),
    - [internal/apischema/tokenize/tokenize.go],
      [internal/endpointspec/endpointspec.go] and the tokenize translators. *)

From Stdlib Require Import List String Ascii Bool ZArith Arith Lia DecimalString.
Import ListNotations.
Local Open Scope list_scope.
Local Open Scope string_scope.

(* ================================================================== *)
(** * Go values decoded from JSON *)
(* ================================================================== *)

(** A Go [any] holding decoded JSON.  A [float64] is identified by the text
    that [fmt] prints for it under [%v]; the modelled code only copies and
    prints numbers.  A [map[string]any] is an association list whose order is
    the order in which [range] visits the map; a statement that holds for
    every list therefore holds for every iteration order. *)
#[local] Unset Elimination Schemes.
Inductive json : Type :=
| JNull : json
| JBool : bool -> json
| JNum : string -> json
| JStr : string -> json
| JArr : list json -> json
| JObj : list (string * json) -> json.
#[local] Set Elimination Schemes.

Definition object := list (string * json).

(** What a Go call can do: return a value, return an error, panic, or (for
    the fuel-indexed functions) exceed the given recursion depth. *)
Inductive goError : Type :=
| ErrNotFragment          (* "invalid JSON schema: ref paths are expected to be URI fragments, ..." *)
| ErrRefNotFound (path : string)
                          (* "invalid JSON schema: Reference '%s' not found: intermediate component is not a map" *)
| ErrRefNotString         (* "'$ref' value must be a string" *)
| ErrSelfRecursive        (* "self recursive schema is currently not supported" *)
| ErrInvalidSchema (e : goError)
                          (* "invalid JSON schema: %w" *)
| ErrNotMap               (* "dereferenced schema was not a map[string]any" *)
| ErrItemsNotDict         (* "invalid JSON schema: 'items' must be a dict" *)
| ErrPropertiesNotDict    (* "invalid JSON schema: 'properties' must be a dict" *)
| ErrTypeListLength (n : nat)
                          (* "If the value of type is a list, the length of the list must be 2. Got %d." *)
| ErrTypeListShape        (* "If type is a list, it must contain one non-null type and 'null'." *)
| ErrTypeKind             (* "invalid JSON schema: the value of 'type' must be a list or a string" *)
| ErrAllOfNotList         (* "invalid JSON schema: 'allOf' must be a list" *)
| ErrAllOfLength (n : nat)
                          (* "Only one value for 'allOf' key is supported. Got %d." *)
| ErrAllOfItem            (* "invalid JSON schema: item in 'allOf' must be an object (map[string]any)" *)
| ErrAnyOfNotList         (* "invalid JSON schema: 'anyOf' must be a list" *)
| ErrAnyOfItem.           (* "invalid JSON schema: item in 'anyOf' must be a dict" *)

Inductive outcome (A : Type) : Type :=
| Ok (a : A)
| Err (e : goError)
| Panic
| TooDeep.
Arguments Ok {A} a.
Arguments Err {A} e.
Arguments Panic {A}.
Arguments TooDeep {A}.

Definition is_ok {A} (r : outcome A) : bool :=
  match r with Ok _ => true | _ => false end.

Definition is_err {A} (r : outcome A) : bool :=
  match r with Err _ => true | _ => false end.

(** ** Maps as association lists *)

(** [m[k]] with the comma-ok form. *)
Fixpoint map_get (k : string) (m : object) : option json :=
  match m with
  | [] => None
  | (k', v) :: m' => if String.eqb k k' then Some v else map_get k m'
  end.

(** [m[k] = v]. *)
Fixpoint map_set (k : string) (v : json) (m : object) : object :=
  match m with
  | [] => [(k, v)]
  | (k', v') :: m' =>
      if String.eqb k k' then (k', v) :: m' else (k', v') :: map_set k v m'
  end.

Definition keys (m : object) : list string := map fst m.

Definition mem (s : string) (l : list string) : bool := existsb (String.eqb s) l.

(** A set of strings ([map[string]struct{}]): insertion and [delete]. *)
Definition refset := list string.
Definition set_add (p : string) (s : refset) : refset := p :: s.
Definition set_del (p : string) (s : refset) : refset :=
  filter (fun q => negb (String.eqb p q)) s.

(** Keys of a Go map are pairwise distinct, at every depth. *)
Fixpoint nodupb (l : list string) : bool :=
  match l with
  | [] => true
  | x :: l' => negb (mem x l') && nodupb l'
  end.

Fixpoint wf_json (v : json) : bool :=
  match v with
  | JArr l => forallb wf_json l
  | JObj m =>
      nodupb (map fst m) &&
      (fix all (m : object) : bool :=
         match m with
         | [] => true
         | (_, x) :: m' => wf_json x && all m'
         end) m
  | _ => true
  end.

Definition wf_object (m : object) : bool := wf_json (JObj m).

(** ** [strings.Split(s, "/")] *)

Fixpoint split_go (sep : ascii) (s : string) (cur : string) : list string :=
  match s with
  | EmptyString => [cur]
  | String c s' =>
      if Ascii.eqb c sep then cur :: split_go sep s' ""
      else split_go sep s' (cur ++ String c "")
  end.

Definition strings_Split (s : string) (sep : ascii) : list string :=
  split_go sep s "".

(** ** [fmt.Sprintf("%v", x)] on decoded JSON *)

Fixpoint join (sep : string) (l : list string) : string :=
  match l with
  | [] => ""
  | [x] => x
  | x :: l' => x ++ sep ++ join sep l'
  end.

Fixpoint insert_sorted (kv : string * string) (l : list (string * string))
  : list (string * string) :=
  match l with
  | [] => [kv]
  | kv' :: l' =>
      if String.leb (fst kv) (fst kv') then kv :: l
      else kv' :: insert_sorted kv l'
  end.

Definition sort_by_key (l : list (string * string)) : list (string * string) :=
  fold_right insert_sorted [] l.

(** [%v]: strings print as themselves, [nil] as [<nil>], slices as
    [[a b]], maps as [map[k:v ...]] with sorted keys. *)
Fixpoint fmt_v (v : json) : string :=
  match v with
  | JNull => "<nil>"
  | JBool true => "true"
  | JBool false => "false"
  | JNum g => g
  | JStr s => s
  | JArr l => "[" ++ join " " (map fmt_v l) ++ "]"
  | JObj m =>
      "map[" ++
      join " " (map (fun kv : string * string => fst kv ++ ":" ++ snd kv)
                  (sort_by_key
                     ((fix pr (m : object) : list (string * string) :=
                         match m with
                         | [] => []
                         | (k, x) :: m' => (k, fmt_v x) :: pr m'
                         end) m)))
      ++ "]"
  end.

(** [t == "null"] for an interface value [t]. *)
Definition is_null_str (t : json) : bool :=
  match t with
  | JStr s => String.eqb s "null"
  | _ => false
  end.

(** ** Deep copy *)

(** [jsonSchemaDeepCopyMapStringAny]: [copied[key] = jsonSchemaDeepCopyAny(value)]
    for every entry; [rec] is [jsonSchemaDeepCopyAny]. *)
Fixpoint jsonSchemaDeepCopyMapStringAny (rec : json -> json)
  (original : object) (copied : object) {struct original} : object :=
  match original with
  | [] => copied
  | (key, value) :: rest =>
      jsonSchemaDeepCopyMapStringAny rec rest (map_set key (rec value) copied)
  end.

(** [jsonSchemaDeepCopyAny]: maps and slices are rebuilt, scalars are
    returned as they are.  The older helper calls [deepcopy.Anything], which
    does the same on decoded JSON. *)
Fixpoint jsonSchemaDeepCopyAny (value : json) : json :=
  match value with
  | JObj original =>
      JObj (jsonSchemaDeepCopyMapStringAny jsonSchemaDeepCopyAny original [])
  | JArr l => JArr (map jsonSchemaDeepCopyAny l)
  | _ => value
  end.

(** ** Propagating [err != nil] *)

Definition bind {A B : Type} (r : outcome A) (k : A -> outcome B) : outcome B :=
  match r with
  | Ok a => k a
  | Err e => Err e
  | Panic => Panic
  | TooDeep => TooDeep
  end.

Notation "'let*' x ':=' r 'in' k" := (bind r (fun x => k))
  (at level 10, x pattern, r at level 200, k at level 200).

(* ================================================================== *)
(** * Reference retrieval *)
(* ================================================================== *)

(** The loop of [retrieveRef] / [jsonSchemaRetrieveRef] over
    [components[1:]].  [out = val.(map[string]any)] is the one-result form of
    the type assertion: it panics when [val] is not a map. *)
Fixpoint retrieveRefLoop (path : string) (components : list string) (out : object)
  : outcome object :=
  match components with
  | [] => Ok out
  | component :: rest =>
      match map_get component out with
      | Some (JObj m) => retrieveRefLoop path rest m
      | Some _ => Panic
      | None => Err (ErrRefNotFound path)
      end
  end.

(** [jsonSchemaRetrieveRef] (newer helper). *)
Definition jsonSchemaRetrieveRef (path : string) (schema : object) : outcome json :=
  match strings_Split path "/" with
  | [] => Panic
  | c0 :: rest =>
      if negb (String.eqb c0 "#") then Err ErrNotFragment
      else
        let* out := retrieveRefLoop path rest schema in
        Ok (jsonSchemaDeepCopyAny (JObj out))
  end.

(** [retrieveRef] (older helper); [deepcopy.Anything] copies the map. *)
Definition retrieveRef (path : string) (schema : object) : outcome json :=
  match strings_Split path "/" with
  | [] => Panic
  | c0 :: rest =>
      if negb (String.eqb c0 "#") then Err ErrNotFragment
      else
        let* out := retrieveRefLoop path rest schema in
        Ok (jsonSchemaDeepCopyAny (JObj out))
  end.

(* ================================================================== *)
(** * Dereferencing, newer helper *)
(* ================================================================== *)

(** The functions below follow [jsonSchemaDereferenceHelper].  An activation
    on a map runs the [range] loop over its entries, an activation on a slice
    the loop over its elements.  [rec] is the recursive call on a nested map
    or slice, [jump] the recursive call on a retrieved reference, and
    [processedRefs] the shared set, threaded through the calls. *)

Definition walker (A : Type) := json -> refset -> outcome (A * refset).

(** The body of [for k, v := range dict], with the entries still to visit. *)
Fixpoint jsonSchemaDereferenceDict (rec jump : walker json)
  (fullSchema : object) (skipKeys : list string)
  (kvs : object) (objOut : object) (processedRefs : refset) {struct kvs}
  : outcome (json * refset) :=
  match kvs with
  | [] => Ok (JObj objOut, processedRefs)
  | (k, v) :: rest =>
      if mem k skipKeys
      then jsonSchemaDereferenceDict rec jump fullSchema skipKeys rest
             (map_set k v objOut) processedRefs
      else if String.eqb k "$ref" then
        match v with
        | JStr refPath =>
            if mem refPath processedRefs then Err ErrSelfRecursive
            else
              let* ref := jsonSchemaRetrieveRef refPath fullSchema in
              let* (fullRef, processedRefs') :=
                jump ref (set_add refPath processedRefs) in
              Ok (fullRef, set_del refPath processedRefs')
        | _ => Err ErrRefNotString
        end
      else
        match v with
        | JObj _ | JArr _ =>
            let* (res, processedRefs') := rec v processedRefs in
            jsonSchemaDereferenceDict rec jump fullSchema skipKeys rest
              (map_set k res objOut) processedRefs'
        | _ =>
            jsonSchemaDereferenceDict rec jump fullSchema skipKeys rest
              (map_set k v objOut) processedRefs
        end
  end.

(** The body of [for i, el := range list]. *)
Fixpoint jsonSchemaDereferenceList (rec : walker json)
  (els : list json) (listOut : list json) (processedRefs : refset) {struct els}
  : outcome (json * refset) :=
  match els with
  | [] => Ok (JArr listOut, processedRefs)
  | el :: rest =>
      let* (res, processedRefs') := rec el processedRefs in
      jsonSchemaDereferenceList rec rest (listOut ++ [res])%list processedRefs'
  end.

Fixpoint jsonSchemaDereferenceWalk (jump : walker json)
  (fullSchema : object) (skipKeys : list string)
  (obj : json) (processedRefs : refset) {struct obj} : outcome (json * refset) :=
  match obj with
  | JObj dict =>
      jsonSchemaDereferenceDict
        (jsonSchemaDereferenceWalk jump fullSchema skipKeys)
        jump fullSchema skipKeys dict [] processedRefs
  | JArr elems =>
      jsonSchemaDereferenceList
        (jsonSchemaDereferenceWalk jump fullSchema skipKeys)
        elems [] processedRefs
  | _ => Ok (obj, processedRefs)
  end.

(** [jsonSchemaDereferenceHelper]; [depth] bounds the number of references
    that are being resolved at the same time. *)
Fixpoint jsonSchemaDereferenceHelper (depth : nat)
  (fullSchema : object) (skipKeys : list string)
  (obj : json) (processedRefs : refset) {struct depth} : outcome (json * refset) :=
  match depth with
  | O => TooDeep
  | S depth' =>
      jsonSchemaDereferenceWalk
        (jsonSchemaDereferenceHelper depth' fullSchema skipKeys)
        fullSchema skipKeys obj processedRefs
  end.

(** [components[1]] when [len(components) > 1]. *)
Definition topLevelKey (refPath : string) : list string :=
  match strings_Split refPath "/" with
  | _ :: c1 :: _ => [c1]
  | _ => []
  end.

(** [jsonSchemaSkipKeys]: the loop over a map.  Nothing is ever deleted from
    [processedRefs] here. *)
Fixpoint jsonSchemaSkipKeysDict (rec jump : walker (list string))
  (fullSchema : object)
  (kvs : object) (keys : list string) (processedRefs : refset) {struct kvs}
  : outcome (list string * refset) :=
  match kvs with
  | [] => Ok (keys, processedRefs)
  | (k, v) :: rest =>
      if String.eqb k "$ref" then
        match v with
        | JStr refPath =>
            if mem refPath processedRefs then Err ErrSelfRecursive
            else
              let* ref := jsonSchemaRetrieveRef refPath fullSchema in
              let* (nestedKeys, processedRefs') :=
                jump ref (set_add refPath processedRefs) in
              jsonSchemaSkipKeysDict rec jump fullSchema rest
                ((keys ++ topLevelKey refPath) ++ nestedKeys)%list processedRefs'
        | _ => Err ErrRefNotString
        end
      else
        match v with
        | JObj _ | JArr _ =>
            let* (nestedKeys, processedRefs') := rec v processedRefs in
            jsonSchemaSkipKeysDict rec jump fullSchema rest
              (keys ++ nestedKeys)%list processedRefs'
        | _ => jsonSchemaSkipKeysDict rec jump fullSchema rest keys processedRefs
        end
  end.

Fixpoint skipKeysList (rec : walker (list string))
  (els : list json) (keys : list string) (processedRefs : refset) {struct els}
  : outcome (list string * refset) :=
  match els with
  | [] => Ok (keys, processedRefs)
  | el :: rest =>
      let* (nestedKeys, processedRefs') := rec el processedRefs in
      skipKeysList rec rest (keys ++ nestedKeys)%list processedRefs'
  end.

Fixpoint jsonSchemaSkipKeysWalk (jump : walker (list string))
  (fullSchema : object)
  (obj : json) (processedRefs : refset) {struct obj}
  : outcome (list string * refset) :=
  match obj with
  | JObj dict =>
      jsonSchemaSkipKeysDict (jsonSchemaSkipKeysWalk jump fullSchema) jump
        fullSchema dict [] processedRefs
  | JArr elems =>
      skipKeysList (jsonSchemaSkipKeysWalk jump fullSchema) elems [] processedRefs
  | _ => Ok ([], processedRefs)
  end.

Fixpoint jsonSchemaSkipKeys (depth : nat) (fullSchema : object)
  (obj : json) (processedRefs : refset) {struct depth}
  : outcome (list string * refset) :=
  match depth with
  | O => TooDeep
  | S depth' =>
      jsonSchemaSkipKeysWalk (jsonSchemaSkipKeys depth' fullSchema)
        fullSchema obj processedRefs
  end.

(** [jsonSchemaDereference]. *)
Definition jsonSchemaDereference (depth : nat) (schemaObj : object) : outcome json :=
  match jsonSchemaSkipKeys depth schemaObj (JObj schemaObj) [] with
  | Ok (skipKeys, _) =>
      let* (res, _) :=
        jsonSchemaDereferenceHelper depth schemaObj skipKeys (JObj schemaObj) [] in
      Ok res
  | Err e => Err (ErrInvalidSchema e)
  | Panic => Panic
  | TooDeep => TooDeep
  end.

(* ================================================================== *)
(** * Dereferencing, older helper *)
(* ================================================================== *)

(** [dereferenceRefsHelper]: the same walk, except that a [$ref] whose path is
    already in [processedRefs] is passed over ([continue]). *)
Fixpoint dereferenceRefsDict (rec jump : walker json)
  (fullSchema : object) (skipKeys : list string)
  (kvs : object) (objOut : object) (processedRefs : refset) {struct kvs}
  : outcome (json * refset) :=
  match kvs with
  | [] => Ok (JObj objOut, processedRefs)
  | (k, v) :: rest =>
      if mem k skipKeys
      then dereferenceRefsDict rec jump fullSchema skipKeys rest
             (map_set k v objOut) processedRefs
      else if String.eqb k "$ref" then
        match v with
        | JStr refPath =>
            if mem refPath processedRefs
            then dereferenceRefsDict rec jump fullSchema skipKeys rest
                   objOut processedRefs
            else
              let* ref := retrieveRef refPath fullSchema in
              let* (fullRef, processedRefs') :=
                jump ref (set_add refPath processedRefs) in
              Ok (fullRef, set_del refPath processedRefs')
        | _ => Err ErrRefNotString
        end
      else
        match v with
        | JObj _ | JArr _ =>
            let* (res, processedRefs') := rec v processedRefs in
            dereferenceRefsDict rec jump fullSchema skipKeys rest
              (map_set k res objOut) processedRefs'
        | _ =>
            dereferenceRefsDict rec jump fullSchema skipKeys rest
              (map_set k v objOut) processedRefs
        end
  end.

Fixpoint dereferenceRefsWalk (jump : walker json)
  (fullSchema : object) (skipKeys : list string)
  (obj : json) (processedRefs : refset) {struct obj} : outcome (json * refset) :=
  match obj with
  | JObj dict =>
      dereferenceRefsDict (dereferenceRefsWalk jump fullSchema skipKeys)
        jump fullSchema skipKeys dict [] processedRefs
  | JArr elems =>
      jsonSchemaDereferenceList (dereferenceRefsWalk jump fullSchema skipKeys)
        elems [] processedRefs
  | _ => Ok (obj, processedRefs)
  end.

Fixpoint dereferenceRefsHelper (depth : nat)
  (fullSchema : object) (skipKeys : list string)
  (obj : json) (processedRefs : refset) {struct depth} : outcome (json * refset) :=
  match depth with
  | O => TooDeep
  | S depth' =>
      dereferenceRefsWalk (dereferenceRefsHelper depth' fullSchema skipKeys)
        fullSchema skipKeys obj processedRefs
  end.

(** [inferSkipKeys]; a path already in [processedRefs] is passed over. *)
Fixpoint inferSkipKeysDict (rec jump : walker (list string))
  (fullSchema : object)
  (kvs : object) (keys : list string) (processedRefs : refset) {struct kvs}
  : outcome (list string * refset) :=
  match kvs with
  | [] => Ok (keys, processedRefs)
  | (k, v) :: rest =>
      if String.eqb k "$ref" then
        match v with
        | JStr refPath =>
            if mem refPath processedRefs
            then inferSkipKeysDict rec jump fullSchema rest keys processedRefs
            else
              let* ref := retrieveRef refPath fullSchema in
              let* (nestedKeys, processedRefs') :=
                jump ref (set_add refPath processedRefs) in
              inferSkipKeysDict rec jump fullSchema rest
                ((keys ++ topLevelKey refPath) ++ nestedKeys)%list processedRefs'
        | _ => Err ErrRefNotString
        end
      else
        match v with
        | JObj _ | JArr _ =>
            let* (nestedKeys, processedRefs') := rec v processedRefs in
            inferSkipKeysDict rec jump fullSchema rest
              (keys ++ nestedKeys)%list processedRefs'
        | _ => inferSkipKeysDict rec jump fullSchema rest keys processedRefs
        end
  end.

Fixpoint inferSkipKeysWalk (jump : walker (list string))
  (fullSchema : object)
  (obj : json) (processedRefs : refset) {struct obj}
  : outcome (list string * refset) :=
  match obj with
  | JObj dict =>
      inferSkipKeysDict (inferSkipKeysWalk jump fullSchema) jump
        fullSchema dict [] processedRefs
  | JArr elems =>
      skipKeysList (inferSkipKeysWalk jump fullSchema) elems [] processedRefs
  | _ => Ok ([], processedRefs)
  end.

Fixpoint inferSkipKeys (depth : nat) (fullSchema : object)
  (obj : json) (processedRefs : refset) {struct depth}
  : outcome (list string * refset) :=
  match depth with
  | O => TooDeep
  | S depth' =>
      inferSkipKeysWalk (inferSkipKeys depth' fullSchema) fullSchema obj processedRefs
  end.

(** [dereferenceRefs]. *)
Definition dereferenceRefs (depth : nat) (schemaObj : object) : outcome json :=
  match inferSkipKeys depth schemaObj (JObj schemaObj) [] with
  | Ok (skipKeys, _) =>
      let* (res, _) :=
        dereferenceRefsHelper depth schemaObj skipKeys (JObj schemaObj) [] in
      Ok res
  | Err e => Err (ErrInvalidSchema e)
  | Panic => Panic
  | TooDeep => TooDeep
  end.

(* ================================================================== *)
(** * Dialect projection *)
(* ================================================================== *)

(** [for resKey, resVal := range res { convertedSchema[resKey] = resVal }] *)
Definition merge_into (res : object) (convertedSchema : object) : object :=
  fold_left (fun acc kv => map_set (fst kv) (snd kv) acc) res convertedSchema.

(** [t, exists := subSchema["type"]; exists && t == "null"] *)
Definition type_is_null (subSchema : object) : bool :=
  match map_get "type" subSchema with
  | Some t => is_null_str t
  | None => false
  end.

(** [nonNullType != nil] *)
Definition not_nil (v : json) : bool :=
  match v with JNull => false | _ => true end.

(** The allow-list built in [jsonSchemaToGemini]. *)
Definition geminiAllowedSchemaFieldsSet : list string :=
  ["anyOf"; "default"; "description"; "enum"; "example"; "format"; "items";
   "maxItems"; "maxLength"; "maxProperties"; "maximum"; "minItems";
   "minLength"; "minProperties"; "minimum"; "nullable"; "pattern";
   "properties"; "propertyOrdering"; "required"; "title"; "type"].

(** The package-level [allowedSchemaFieldsSet] of the older helper. *)
Definition allowedSchemaFieldsSet : list string :=
  ["title"; "description"; "example"; "default"; "enum"; "items";
   "properties"; "required"; "type"; "nullable"; "allOf"; "anyOf"; "not"].

(** What one turn of [for key, value := range schema] does: go on to the next
    entry with the converted schema so far, or return from the function. *)
Inductive step : Type :=
| Continue (convertedSchema : object)
| Return (r : outcome object).

Definition and_then {A : Type} (r : outcome A) (k : A -> step) : step :=
  match r with
  | Ok a => k a
  | Err e => Return (Err e)
  | Panic => Return Panic
  | TooDeep => Return TooDeep
  end.

(** In all of the following [rec] is the recursive call of the projection. *)

(** [for pkey, pvalue := range properties]: values that are not maps are
    passed over. *)
Fixpoint propertiesLoop (rec : json -> outcome object)
  (ps : object) (out : object) {struct ps} : outcome object :=
  match ps with
  | [] => Ok out
  | (pkey, pvalue) :: ps' =>
      match pvalue with
      | JObj _ =>
          let* r := rec pvalue in
          propertiesLoop rec ps' (map_set pkey (JObj r) out)
      | _ => propertiesLoop rec ps' out
      end
  end.

(** [for _, t := range typeList]: [hasNull] and [nonNullType]; the third
    component is the projection of [nonNullType], used when it is a map. *)
Fixpoint typeListScan (rec : json -> outcome object)
  (ts : list json) (hasNull : bool) (nonNullType : json)
  (nonNullRes : outcome object) {struct ts} : bool * json * outcome object :=
  match ts with
  | [] => (hasNull, nonNullType, nonNullRes)
  | t :: ts' =>
      if is_null_str t then typeListScan rec ts' true nonNullType nonNullRes
      else typeListScan rec ts' hasNull t (rec t)
  end.

(** [case "type"] when the value is a list. *)
Definition typeListEntry (rec : json -> outcome object)
  (typeList : list json) (convertedSchema : object) : step :=
  if negb (Nat.eqb (List.length typeList) 2)
  then Return (Err (ErrTypeListLength (List.length typeList)))
  else
    match typeListScan rec typeList false JNull (Ok []) with
    | (hasNull, nonNullType, nonNullRes) =>
        if hasNull && not_nil nonNullType then
          match nonNullType with
          | JObj _ =>
              and_then nonNullRes (fun res =>
                Continue (map_set "nullable" (JBool true)
                            (merge_into res convertedSchema)))
          | _ =>
              Continue (map_set "nullable" (JBool true)
                          (map_set "type" (JStr (fmt_v nonNullType))
                             convertedSchema))
          end
        else Return (Err ErrTypeListShape)
    end.

(** [for _, v := range anyOfList] of [jsonSchemaToGapic]. *)
Fixpoint jsonSchemaToGapicAnyOf (rec : json -> outcome object)
  (vs : list json) (anyOfResults : list json) (nullable : bool) {struct vs}
  : outcome (list json * bool) :=
  match vs with
  | [] => Ok (anyOfResults, nullable)
  | v :: vs' =>
      match v with
      | JObj subSchema =>
          if type_is_null subSchema
          then jsonSchemaToGapicAnyOf rec vs' anyOfResults true
          else
            let* res := rec v in
            jsonSchemaToGapicAnyOf rec vs' (anyOfResults ++ [JObj res])%list nullable
      | _ => Err ErrAnyOfItem
      end
  end.

(** [if nullable { convertedSchema["nullable"] = true };
     convertedSchema["anyOf"] = anyOfResults] *)
Definition setAnyOf (anyOfResults : list json) (nullable : bool)
  (convertedSchema : object) : object :=
  map_set "anyOf" (JArr anyOfResults)
    (if nullable then map_set "nullable" (JBool true) convertedSchema
     else convertedSchema).

(** The [switch key] of [jsonSchemaToGapic] (newer helper). *)
Definition jsonSchemaToGapicEntry (rec : json -> outcome object)
  (allowedSet : list string) (key : string) (value : json)
  (convertedSchema : object) : step :=
  if String.eqb key "$defs" then Continue convertedSchema
  else if String.eqb key "items" then
    match value with
    | JObj _ =>
        and_then (rec value) (fun sub =>
          Continue (map_set "items" (JObj sub) convertedSchema))
    | _ => Return (Err ErrItemsNotDict)
    end
  else if String.eqb key "properties" then
    match value with
    | JObj properties =>
        and_then (propertiesLoop rec properties []) (fun props =>
          Continue (map_set "properties" (JObj props) convertedSchema))
    | _ => Return (Err ErrPropertiesNotDict)
    end
  else if String.eqb key "type" then
    match value with
    | JArr typeList => typeListEntry rec typeList convertedSchema
    | JStr _ => Continue (map_set "type" value convertedSchema)
    | _ => Return (Err ErrTypeKind)
    end
  else if String.eqb key "allOf" then
    match value with
    | JArr allOfList =>
        if Nat.ltb 1 (List.length allOfList)
        then Return (Err (ErrAllOfLength (List.length allOfList)))
        else
          match allOfList with
          | [] => Return Panic           (* [allOfList[0]] *)
          | first :: _ =>
              match first with
              | JObj _ => Return (rec first)
              | _ => Return (Err ErrAllOfItem)
              end
          end
    | _ => Return (Err ErrAllOfNotList)
    end
  else if String.eqb key "anyOf" then
    match value with
    | JArr anyOfList =>
        and_then (jsonSchemaToGapicAnyOf rec anyOfList [] false) (fun res =>
          Continue (setAnyOf (fst res) (snd res) convertedSchema))
    | _ => Return (Err ErrAnyOfNotList)
    end
  else if mem key allowedSet then Continue (map_set key value convertedSchema)
  else Continue convertedSchema.

(** [for key, value := range schema] with a [switch] body [entry]. *)
Fixpoint schemaLoop (entry : string -> json -> object -> step)
  (kvs : object) (convertedSchema : object) {struct kvs} : outcome object :=
  match kvs with
  | [] => Ok convertedSchema
  | (key, value) :: rest =>
      match entry key value convertedSchema with
      | Continue convertedSchema' => schemaLoop entry rest convertedSchema'
      | Return r => r
      end
  end.

(** [jsonSchemaToGapic] (newer helper).  The function is only ever applied to
    maps; the last branch is never reached from the code. *)
Fixpoint jsonSchemaToGapicNode (allowedSet : list string) (schema : json)
  {struct schema} : outcome object :=
  match schema with
  | JObj dict =>
      schemaLoop
        (jsonSchemaToGapicEntry (jsonSchemaToGapicNode allowedSet) allowedSet)
        dict []
  | _ => Ok []
  end.

Definition jsonSchemaToGapic (schema : object) (allowedSet : list string)
  : outcome object :=
  jsonSchemaToGapicNode allowedSet (JObj schema).

(** [jsonSchemaToGemini], up to the map handed to [jsonSchemaMapToSchema]
    (the conversion into the [genai.Schema] struct is the JSON library's). *)
Definition jsonSchemaToGeminiMap (depth : nat) (schema : object) : outcome object :=
  let* dereferencedSchema := jsonSchemaDereference depth schema in
  match dereferencedSchema with
  | JObj dereferencedMap =>
      jsonSchemaToGapic dereferencedMap geminiAllowedSchemaFieldsSet
  | _ => Err ErrNotMap
  end.

(** [for _, v := range anyOfList] of [formatJSONSchemaToGapic]: an item
    that is not a map is passed over. *)
Fixpoint formatJSONSchemaAnyOf (rec : json -> outcome object)
  (vs : list json) (anyOfResults : list json) (nullable : bool) {struct vs}
  : outcome (list json * bool) :=
  match vs with
  | [] => Ok (anyOfResults, nullable)
  | v :: vs' =>
      match v with
      | JObj subSchema =>
          if type_is_null subSchema
          then formatJSONSchemaAnyOf rec vs' anyOfResults true
          else
            let* res := rec v in
            formatJSONSchemaAnyOf rec vs' (anyOfResults ++ [JObj res])%list nullable
      | _ => formatJSONSchemaAnyOf rec vs' anyOfResults nullable
      end
  end.

(** The [switch key] of [formatJSONSchemaToGapic] (older helper): the same
    projection with the package-level allow-list; a value of an unexpected
    kind under [items], [properties], [allOf] or [anyOf] is passed over
    instead of rejected, and a [type] that is not a list is printed with
    [%v].  Its errors are [GcpConversionError] values with the same
    messages. *)
Definition formatJSONSchemaToGapicEntry (rec : json -> outcome object)
  (key : string) (value : json) (convertedSchema : object) : step :=
  if String.eqb key "$defs" then Continue convertedSchema
  else if String.eqb key "items" then
    match value with
    | JObj _ =>
        and_then (rec value) (fun sub =>
          Continue (map_set "items" (JObj sub) convertedSchema))
    | _ => Continue convertedSchema
    end
  else if String.eqb key "properties" then
    match value with
    | JObj properties =>
        and_then (propertiesLoop rec properties []) (fun props =>
          Continue (map_set "properties" (JObj props) convertedSchema))
    | _ => Continue convertedSchema
    end
  else if String.eqb key "type" then
    match value with
    | JArr typeList => typeListEntry rec typeList convertedSchema
    | _ => Continue (map_set "type" (JStr (fmt_v value)) convertedSchema)
    end
  else if String.eqb key "allOf" then
    match value with
    | JArr allOfList =>
        if Nat.ltb 1 (List.length allOfList)
        then Return (Err (ErrAllOfLength (List.length allOfList)))
        else
          match allOfList with
          | [] => Return Panic           (* [allOfList[0]] *)
          | first :: _ =>
              match first with
              | JObj _ => Return (rec first)
              | _ => Continue convertedSchema
              end
          end
    | _ => Continue convertedSchema
    end
  else if String.eqb key "anyOf" then
    match value with
    | JArr anyOfList =>
        and_then (formatJSONSchemaAnyOf rec anyOfList [] false) (fun res =>
          Continue (setAnyOf (fst res) (snd res) convertedSchema))
    | _ => Continue convertedSchema
    end
  else if mem key allowedSchemaFieldsSet
       then Continue (map_set key value convertedSchema)
  else Continue convertedSchema.

(** [formatJSONSchemaToGapic] (older helper). *)
Fixpoint formatJSONSchemaToGapicNode (schema : json) {struct schema}
  : outcome object :=
  match schema with
  | JObj dict =>
      schemaLoop (formatJSONSchemaToGapicEntry formatJSONSchemaToGapicNode) dict []
  | _ => Ok []
  end.

Definition formatJSONSchemaToGapic (schema : object) : outcome object :=
  formatJSONSchemaToGapicNode (JObj schema).

(** [sanitizeJSONSchema]. *)
Definition sanitizeJSONSchema (depth : nat) (schema : object) : outcome object :=
  let* dereferencedSchema := dereferenceRefs depth schema in
  match dereferencedSchema with
  | JObj dereferencedMap => formatJSONSchemaToGapic dereferencedMap
  | _ => Err ErrNotMap
  end.

(* ================================================================== *)
(** * Token usage *)
(* ================================================================== *)

Local Open Scope Z_scope.

(** [uint32(x)] *)
Definition uint32 (x : Z) : Z := x mod 2 ^ 32.

(** Modelled from the spec: [metrics.TokenUsage], the value type with the
    four optional counters (input, output, total, cached-input); the package
    that declares it is not part of the sources at hand, only its setters and
    accessors as the translators and tests call them.  A counter is [None]
    until its setter has run. *)
Record TokenUsage : Type := mkTokenUsage {
  inputTokens : option Z;
  outputTokens : option Z;
  totalTokens : option Z;
  cachedInputTokens : option Z
}.

Definition emptyTokenUsage : TokenUsage := mkTokenUsage None None None None.

Definition SetInputTokens (v : Z) (u : TokenUsage) : TokenUsage :=
  mkTokenUsage (Some v) (outputTokens u) (totalTokens u) (cachedInputTokens u).
Definition SetOutputTokens (v : Z) (u : TokenUsage) : TokenUsage :=
  mkTokenUsage (inputTokens u) (Some v) (totalTokens u) (cachedInputTokens u).
Definition SetTotalTokens (v : Z) (u : TokenUsage) : TokenUsage :=
  mkTokenUsage (inputTokens u) (outputTokens u) (Some v) (cachedInputTokens u).
Definition SetCachedInputTokens (v : Z) (u : TokenUsage) : TokenUsage :=
  mkTokenUsage (inputTokens u) (outputTokens u) (totalTokens u) (Some v).

(** All four counters are set, [total == input + output] and
    [cached-input <= input]. *)
Definition usage_invariant (u : TokenUsage) : bool :=
  match inputTokens u, outputTokens u, totalTokens u, cachedInputTokens u with
  | Some i, Some o, Some t, Some c => (t =? i + o) && (c <=? i)
  | _, _, _, _ => false
  end.

Definition all_set (u : TokenUsage) : bool :=
  match inputTokens u, outputTokens u, totalTokens u, cachedInputTokens u with
  | Some _, Some _, Some _, Some _ => true
  | _, _, _, _ => false
  end.

(** Modelled from the spec: [ExtractTokenUsageFromAnthropic], the accountant
    for a provider that reports cache-read and cache-creation tokens apart;
    only its tests are among the sources.  Total input is base input plus
    cache creation plus cache read, cached input is cache read plus cache
    creation, total is input plus output; the arguments are [int64] and the
    counters [uint32], as the tests call and read them. *)
Definition ExtractTokenUsageFromAnthropic
  (inputTokens outputTokens cacheReadTokens cacheCreationTokens : Z) : TokenUsage :=
  let totalInputTokens := inputTokens + cacheCreationTokens + cacheReadTokens in
  let totalCachedTokens := cacheReadTokens + cacheCreationTokens in
  SetCachedInputTokens (uint32 totalCachedTokens)
    (SetTotalTokens (uint32 (totalInputTokens + outputTokens))
       (SetOutputTokens (uint32 outputTokens)
          (SetInputTokens (uint32 totalInputTokens) emptyTokenUsage))).

(** [openai.Usage] as the translators read it. *)
Record Usage : Type := mkUsage {
  PromptTokens : Z;
  CompletionTokens : Z;
  TotalTokens : Z;
  PromptTokensDetails : option Z    (* [PromptTokensDetails.CachedTokens] *)
}.

(** The usage extraction of the AWS InvokeModel OpenAI translator
    ([ResponseBody], non-streaming branch, and [convertEventStreamToSSE]):
    the provider's counters are copied. *)
Definition setOpenAIUsage (usage : Usage) (tokenUsage : TokenUsage) : TokenUsage :=
  let tokenUsage := SetInputTokens (uint32 (PromptTokens usage)) tokenUsage in
  let tokenUsage := SetOutputTokens (uint32 (CompletionTokens usage)) tokenUsage in
  let tokenUsage := SetTotalTokens (uint32 (TotalTokens usage)) tokenUsage in
  match PromptTokensDetails usage with
  | Some cachedTokens => SetCachedInputTokens (uint32 cachedTokens) tokenUsage
  | None => tokenUsage
  end.

Local Close Scope Z_scope.

(* ================================================================== *)
(** * Streaming responses *)
(* ================================================================== *)

(** Byte strings are [string]s. *)
Definition bytes := string.

Fixpoint has_prefix (p s : string) : bool :=
  match p, s with
  | EmptyString, _ => true
  | String a p', String b s' => Ascii.eqb a b && has_prefix p' s'
  | String _ _, EmptyString => false
  end.

Fixpoint drop (n : nat) (s : string) : string :=
  match n, s with
  | O, _ => s
  | S n', String _ s' => drop n' s'
  | S _, EmptyString => EmptyString
  end.

(** [strings.HasSuffix] *)
Definition HasSuffix (s suffix : string) : bool :=
  (String.length suffix <=? String.length s)%nat &&
  String.eqb (drop (String.length s - String.length suffix) s) suffix.

(** [strings.CutPrefix] *)
Definition CutPrefix (s prefix : string) : option string :=
  if has_prefix prefix s then Some (drop (String.length prefix) s) else None.

(** [strconv.Itoa] on a length. *)
Definition Itoa (n : nat) : string := DecimalString.NilZero.string_of_uint (Nat.to_uint n).

Definition Header := (string * string)%type.
Definition contentLengthHeaderName : string := "content-length".

Definition newline : string := String (ascii_of_nat 10) "".
(** ["data: [DONE]\n\n"] and ["data: [DONE]\n"] *)
Definition doneSentinel : string := "data: [DONE]" ++ newline ++ newline.
Definition doneSentinelShort : string := "data: [DONE]" ++ newline.

(** The libraries the streaming translators call: the AWS EventStream
    decoder, [encoding/json], [encoding/base64] and [gjson]. *)
Record StreamLibs : Type := mkStreamLibs {
  (** [dec.Decode(r, nil)] on the unread bytes of [r]: the payload of the next
      message and the bytes left unread, or an error *)
  Decode : bytes -> option (bytes * bytes);
  (** [json.Unmarshal(msg.Payload, &payload)]: the ["bytes"] field *)
  unmarshalPayload : bytes -> option string;
  (** [base64.StdEncoding.DecodeString] *)
  base64Decode : string -> option bytes;
  (** [json.Unmarshal(decodedBytes, &chunk)]: [chunk.Usage] and [chunk.Model] *)
  unmarshalChunk : bytes -> option (option Usage * string);
  (** [gjson.GetBytes(decodedBytes, "type").String()] *)
  eventType : bytes -> string
}.

(** ** AWS InvokeModel OpenAI translator (EventStream in, SSE out) *)

Record awsInvokeState : Type := mkAwsInvokeState {
  aiStream : bool;
  aiRequestModel : string;
  aiResponseID : string;
  aiStreamingResponseModel : string
}.

(** The loop of [convertEventStreamToSSE].  One message is read per turn and
    every message has at least one byte, so [fuel] above the length of the
    data is never used up. *)
Fixpoint convertEventStreamLoop (L : StreamLibs) (fuel : nat) (data : bytes)
  (result : bytes) (tokenUsage : TokenUsage) (model : string)
  : bytes * TokenUsage * string :=
  match fuel with
  | O => (result, tokenUsage, model)
  | S fuel' =>
      match Decode L data with
      | None => (result, tokenUsage, model)
      | Some (msgPayload, rest) =>
          match unmarshalPayload L msgPayload with
          | None => convertEventStreamLoop L fuel' rest result tokenUsage model
          | Some payloadBytes =>
              match base64Decode L payloadBytes with
              | None => convertEventStreamLoop L fuel' rest result tokenUsage model
              | Some decodedBytes =>
                  let '(tokenUsage', model') :=
                    match unmarshalChunk L decodedBytes with
                    | Some (chunkUsage, chunkModel) =>
                        (match chunkUsage with
                         | Some usage => setOpenAIUsage usage tokenUsage
                         | None => tokenUsage
                         end,
                         if String.eqb chunkModel "" then model else chunkModel)
                    | None => (tokenUsage, model)
                    end in
                  convertEventStreamLoop L fuel' rest
                    (result ++ "data: " ++ decodedBytes ++ newline ++ newline)
                    tokenUsage' model'
              end
          end
      end
  end.

(** [convertEventStreamToSSE]: only the bytes of this call are decoded. *)
Definition convertEventStreamToSSE (L : StreamLibs) (o : awsInvokeState) (data : bytes)
  : bytes * TokenUsage * awsInvokeState :=
  if (String.length data =? 0)%nat then ("", emptyTokenUsage, o)
  else
    let '(result, tokenUsage, model) :=
      convertEventStreamLoop L (S (String.length data)) data "" emptyTokenUsage
        (aiStreamingResponseModel o) in
    (result, tokenUsage,
     mkAwsInvokeState (aiStream o) (aiRequestModel o) (aiResponseID o) model).

(** [ResponseBody] of [openAIToAWSInvokeOpenAITranslatorV1ChatCompletion],
    streaming branch ([o.stream] is true). *)
Definition awsInvokeResponseBody (L : StreamLibs) (o : awsInvokeState)
  (body : bytes) (endOfStream : bool)
  : list Header * bytes * TokenUsage * string * awsInvokeState :=
  let '(newBody, tokenUsage, o') := convertEventStreamToSSE L o body in
  let newBody :=
    if endOfStream && negb (HasSuffix newBody doneSentinel)
    then newBody ++ doneSentinel else newBody in
  let newHeaders :=
    if (0 <? String.length newBody)%nat
    then [(contentLengthHeaderName, Itoa (String.length newBody))] else [] in
  (newHeaders, newBody, tokenUsage, aiRequestModel o', o').

(** ** AWS OpenAI translator (SSE passed through) *)

(** The usage scan over the lines of the body. *)
Definition awsOpenAIScanUsage (L : StreamLibs) (buf : bytes) : TokenUsage :=
  fold_left
    (fun tokenUsage line =>
       match CutPrefix line "data: " with
       | Some dataStr =>
           if negb (String.eqb dataStr "[DONE]") then
             match unmarshalChunk L dataStr with
             | Some (Some usage, _) =>
                 SetTotalTokens (uint32 (TotalTokens usage))
                   (SetOutputTokens (uint32 (CompletionTokens usage))
                      (SetInputTokens (uint32 (PromptTokens usage)) tokenUsage))
             | _ => tokenUsage
             end
           else tokenUsage
       | None => tokenUsage
       end)
    (strings_Split buf (ascii_of_nat 10)) emptyTokenUsage.

(** [ResponseBody] of [openAIToAwsOpenAITranslatorV1ChatCompletion],
    streaming branch; the translator keeps no state between calls. *)
Definition awsOpenAIResponseBody (L : StreamLibs) (requestModel : string)
  (body : bytes) (endOfStream : bool)
  : list Header * bytes * TokenUsage * string :=
  let newBody := body in
  let tokenUsage := awsOpenAIScanUsage L body in
  let newBody :=
    if endOfStream && negb (HasSuffix newBody doneSentinelShort)
    then newBody ++ doneSentinelShort else newBody in
  let newHeaders :=
    if (0 <? String.length newBody)%nat
    then [(contentLengthHeaderName, Itoa (String.length newBody))] else [] in
  (newHeaders, newBody, tokenUsage, requestModel).

(** ** AWS Anthropic translator: buffered EventStream decoding *)

(** The loop of [extractAnthropicSSEFromEventStream]: [buffered] is
    [o.bufferedBody[lastRead:]], the bytes not yet consumed by a message. *)
Fixpoint extractAnthropicLoop (L : StreamLibs) (fuel : nat) (buffered : bytes)
  (result : bytes) : bytes * bytes :=
  match fuel with
  | O => (result, buffered)
  | S fuel' =>
      match Decode L buffered with
      | None => (result, buffered)
      | Some (msgPayload, rest) =>
          match unmarshalPayload L msgPayload with
          | None => extractAnthropicLoop L fuel' rest result
          | Some payloadBytes =>
              if String.eqb payloadBytes "" then extractAnthropicLoop L fuel' rest result
              else
                match base64Decode L payloadBytes with
                | None => extractAnthropicLoop L fuel' rest result
                | Some decodedBytes =>
                    extractAnthropicLoop L fuel' rest
                      (result ++ "event: " ++ eventType L decodedBytes ++ newline
                              ++ "data: " ++ decodedBytes ++ newline ++ newline)
                end
          end
      end
  end.

(** [extractAnthropicSSEFromEventStream]: the SSE text and the new
    [o.bufferedBody]. *)
Definition extractAnthropicSSEFromEventStream (L : StreamLibs) (bufferedBody : bytes)
  : bytes * bytes :=
  if (String.length bufferedBody =? 0)%nat then ("", bufferedBody)
  else extractAnthropicLoop L (S (String.length bufferedBody)) bufferedBody "".

(** The part of the streaming [ResponseBody] of the AWS Anthropic translator
    that feeds the stream parser: [o.bufferedBody = append(o.bufferedBody,
    buf...)], then the extraction. *)
Definition awsAnthropicFeed (L : StreamLibs) (bufferedBody : bytes) (buf : bytes)
  : bytes * bytes :=
  extractAnthropicSSEFromEventStream L (bufferedBody ++ buf).

(** Successive calls: the concatenated SSE text and the final buffer. *)
Fixpoint awsAnthropicFeedAll (L : StreamLibs) (bufferedBody : bytes)
  (reads : list bytes) : bytes * bytes :=
  match reads with
  | [] => ("", bufferedBody)
  | buf :: reads' =>
      let '(sse, bufferedBody') := awsAnthropicFeed L bufferedBody buf in
      let '(sse', final) := awsAnthropicFeedAll L bufferedBody' reads' in
      (sse ++ sse', final)
  end.

(** Successive calls of the AWS InvokeModel translator: concatenated output. *)
Fixpoint awsInvokeFeedAll (L : StreamLibs) (o : awsInvokeState)
  (calls : list (bytes * bool)) : bytes :=
  match calls with
  | [] => ""
  | (body, endOfStream) :: calls' =>
      let '(_, newBody, _, _, o') := awsInvokeResponseBody L o body endOfStream in
      newBody ++ awsInvokeFeedAll L o' calls'
  end.

Fixpoint awsOpenAIFeedAll (L : StreamLibs) (requestModel : string)
  (calls : list (bytes * bool)) : bytes :=
  match calls with
  | [] => ""
  | (body, endOfStream) :: calls' =>
      let '(_, newBody, _, _) := awsOpenAIResponseBody L requestModel body endOfStream in
      newBody ++ awsOpenAIFeedAll L requestModel calls'
  end.

(** A length-prefixed framing used to run the decoders on concrete streams:
    one length byte, then that many payload bytes; the payload is its own
    ["bytes"] field and its own base64 decoding. *)
Definition take (n : nat) (s : string) : string := substring 0 n s.

Definition lengthPrefixedDecode (data : bytes) : option (bytes * bytes) :=
  match data with
  | EmptyString => None
  | String c rest =>
      let n := nat_of_ascii c in
      if (n <=? String.length rest)%nat then Some (take n rest, drop n rest)
      else None
  end.

Definition lengthPrefixedLibs : StreamLibs :=
  mkStreamLibs lengthPrefixedDecode (fun p => Some p) (fun s => Some s)
    (fun _ => None) (fun _ => "message").

(* ================================================================== *)
(** * Tokenize endpoint *)
(* ================================================================== *)

(** [tokenize.TokenizeCompletionRequest] *)
Record TokenizeCompletionRequest : Type := mkTokenizeCompletionRequest {
  tcModel : string;
  tcPrompt : string;
  tcAddSpecialTokens : bool;
  tcReturnTokenStrs : option bool
}.

(** [tokenize.TokenizeChatRequest]; messages, tools and keyword arguments are
    kept as decoded JSON. *)
Record TokenizeChatRequest : Type := mkTokenizeChatRequest {
  tchModel : string;
  tchMessages : list json;
  tchAddGenerationPrompt : bool;
  tchReturnTokenStrs : option bool;
  tchContinueFinalMessage : bool;
  tchAddSpecialTokens : bool;
  tchChatTemplate : option string;
  tchChatTemplateKwargs : option json;
  tchMmProcessorKwargs : option json;
  tchTools : list json;
  tchMediaResolution : string
}.

(** [tokenize.TokenizeRequestUnion]: two embedded pointers. *)
Record TokenizeRequestUnion : Type := mkTokenizeRequestUnion {
  OfCompletion : option TokenizeCompletionRequest;
  OfChat : option TokenizeChatRequest
}.

Inductive tokenizeError : Type :=
| ErrContinueAndGenerate    (* "cannot set both continue_final_message and add_generation_prompt to true" *)
| ErrOnlyOneRequestType     (* "only one request type can be set" *)
| ErrOneRequestTypeMustBeSet (* "one request type must be set" *)
| ErrUnmarshalTokenize      (* "failed to unmarshal tokenize request: %w" *)
| ErrUnmarshalChat          (* "failed to unmarshal chat tokenize request: %w" *)
| ErrUnmarshalCompletion    (* "failed to unmarshal completion tokenize request: %w" *)
| ErrInvalidChatRequest (e : tokenizeError)
                            (* "invalid chat tokenize request: %w" *)
| ErrInvalidTokenizeRequest (e : tokenizeError)
                            (* "invalid tokenize request: %w" *)
| ErrSetModelName           (* "failed to set model name: %w" *)
| ErrOnlyChatSupported (backend : string)
                            (* "only TokenizeChatRequest is supported for ..." *)
| ErrConverting (backend : string)
                            (* "error converting to ... request: %w" / "error marshaling ..." *)
| ErrSetAnthropicVersion.   (* "failed to set anthropic_version: %w" *)

(** [TokenizeChatRequest.Validate] *)
Definition chatValidate (r : TokenizeChatRequest) : option tokenizeError :=
  if tchContinueFinalMessage r && tchAddGenerationPrompt r
  then Some ErrContinueAndGenerate else None.

(** [TokenizeRequestUnion.Validate] *)
Definition Validate (r : TokenizeRequestUnion) : option tokenizeError :=
  match OfCompletion r, OfChat r with
  | Some _, Some _ => Some ErrOnlyOneRequestType
  | None, None => Some ErrOneRequestTypeMustBeSet
  | _, _ => None
  end.

(** Exactly one variant of the union is populated. *)
Definition exactly_one (r : TokenizeRequestUnion) : bool :=
  match OfCompletion r, OfChat r with
  | Some _, None | None, Some _ => true
  | _, _ => false
  end.

(** What the tokenize code takes from libraries and from files that are not
    among the sources: [encoding/json], [sjson], [net/url], the GCP path
    builder and the message converters with their marshalling. *)
Record TokenizeLibs : Type := mkTokenizeLibs {
  (** [json.Unmarshal(body, &rawRequest)] into a [map[string]interface{}] *)
  unmarshalRaw : bytes -> option object;
  (** [json.Unmarshal(body, &chatReq)] *)
  unmarshalChatReq : bytes -> option TokenizeChatRequest;
  (** [json.Unmarshal(body, &completionReq)] *)
  unmarshalCompletionReq : bytes -> option TokenizeCompletionRequest;
  (** [sjson.SetBytesOptions(original, "model", override, sjsonOptions)] *)
  sjsonSetModel : bytes -> string -> option bytes;
  (** [sjson.SetBytes(body, "anthropic_version", version)] *)
  sjsonSetAnthropicVersion : bytes -> string -> option bytes;
  (** [url.PathEscape] *)
  PathEscape : string -> string;
  (** [buildGCPModelPathSuffix(publisher, model, method)] *)
  buildGCPModelPathSuffix : string -> string -> string -> string;
  (** [tokenizeToBedrockCountTokens] followed by [json.Marshal] *)
  bedrockCountTokensBody : TokenizeChatRequest -> option bytes;
  (** [tokenizeToAnthropicMessages] followed by [json.Marshal] *)
  anthropicCountTokensBody : TokenizeChatRequest -> string -> option bytes;
  (** [tokenizeToGeminiCountToken] followed by [json.Marshal] *)
  geminiCountTokenBody : TokenizeChatRequest -> string -> option bytes
}.

(** The result of [ParseBody]: original model, request, streaming flag,
    mutated body. *)
Definition parsed := (string * TokenizeRequestUnion * bool * option bytes)%type.

(** [TokenizeEndpointSpec.ParseBody] *)
Definition ParseBody (L : TokenizeLibs) (body : bytes) : parsed + tokenizeError :=
  match unmarshalRaw L body with
  | None => inr ErrUnmarshalTokenize
  | Some rawRequest =>
      let parsedReq : (TokenizeRequestUnion * string) + tokenizeError :=
        match map_get "messages" rawRequest with
        | Some _ =>
            match unmarshalChatReq L body with
            | None => inr ErrUnmarshalChat
            | Some chatReq =>
                match chatValidate chatReq with
                | Some e => inr (ErrInvalidChatRequest e)
                | None =>
                    inl (mkTokenizeRequestUnion None (Some chatReq), tchModel chatReq)
                end
            end
        | None =>
            match unmarshalCompletionReq L body with
            | None => inr ErrUnmarshalCompletion
            | Some completionReq =>
                inl (mkTokenizeRequestUnion (Some completionReq) None,
                     tcModel completionReq)
            end
        end in
      match parsedReq with
      | inr e => inr e
      | inl (req, model) =>
          match Validate req with
          | Some e => inr (ErrInvalidTokenizeRequest e)
          | None => inl (model, req, false, None)
          end
      end
  end.

(** ** The tokenize translators *)

Definition pathHeaderName : string := ":path".

(** The result of [RequestBody]: [newHeaders], [newBody] ([None] is [nil])
    and [err], together with the translator's [requestModel] afterwards. *)
Definition requestResult :=
  (list Header * option bytes * option tokenizeError * string)%type.

Definition appendContentLength (newHeaders : list Header) (newBody : option bytes)
  : list Header :=
  match newBody with
  | Some b =>
      if (0 <? String.length b)%nat
      then (newHeaders ++ [(contentLengthHeaderName, Itoa (String.length b))])%list
      else newHeaders
  | None => newHeaders
  end.

(** [TranslatorV1Tokenize.RequestBody]; [path] is ["/tokenize"]. *)
Definition TranslatorV1Tokenize_RequestBody (L : TokenizeLibs)
  (modelNameOverride requestModel path : string)
  (original : bytes) (req : TokenizeRequestUnion) (forceBodyMutation : bool)
  : requestResult :=
  match Validate req with
  | Some e => ([], None, Some (ErrInvalidTokenizeRequest e), requestModel)
  | None =>
      let model :=
        match OfCompletion req, OfChat req with
        | Some c, _ => tcModel c
        | None, Some c => tchModel c
        | None, None => ""
        end in
      let continue (newBody : option bytes) (requestModel : string) : requestResult :=
        let newHeaders := [(pathHeaderName, path)] in
        let newBody :=
          if forceBodyMutation &&
             match newBody with
             | Some b => (String.length b =? 0)%nat
             | None => true
             end
          then Some original else newBody in
        (appendContentLength newHeaders newBody, newBody, None, requestModel) in
      if negb (String.eqb modelNameOverride "") then
        match sjsonSetModel L original modelNameOverride with
        | None => ([], None, Some ErrSetModelName, model)
        | Some newBody => continue (Some newBody) modelNameOverride
        end
      else continue None model
  end.

(** The shape shared by the three provider translators: validation, chat
    only, model override, path, conversion, headers. *)
Definition providerRequestBody (backend : string)
  (mkPath : string -> string) (mkBody : TokenizeChatRequest -> string -> option bytes)
  (finish : bytes -> option bytes + tokenizeError)
  (modelNameOverride requestModel : string) (tokenizeReq : TokenizeRequestUnion)
  : requestResult :=
  match Validate tokenizeReq with
  | Some e => ([], None, Some (ErrInvalidTokenizeRequest e), requestModel)
  | None =>
      match OfChat tokenizeReq with
      | None => ([], None, Some (ErrOnlyChatSupported backend), requestModel)
      | Some chatReq =>
          let requestModel :=
            if negb (String.eqb modelNameOverride "")
            then modelNameOverride else tchModel chatReq in
          let path := mkPath requestModel in
          match mkBody chatReq requestModel with
          | None => ([], None, Some (ErrConverting backend), requestModel)
          | Some newBody =>
              match finish newBody with
              | inr e => ([], None, Some e, requestModel)
              | inl newBody =>
                  ([(pathHeaderName, path);
                    (contentLengthHeaderName,
                     Itoa (match newBody with
                           | Some b => String.length b
                           | None => 0
                           end))],
                   newBody, None, requestModel)
              end
          end
      end
  end.

(** [ToAWSBedrockTranslatorV1Tokenize.RequestBody] *)
Definition ToAWSBedrock_RequestBody (L : TokenizeLibs)
  (modelNameOverride requestModel : string)
  (original : bytes) (tokenizeReq : TokenizeRequestUnion) (forceBodyMutation : bool)
  : requestResult :=
  providerRequestBody "AWS Bedrock"
    (fun m => "/model/" ++ PathEscape L m ++ "/count-tokens")
    (fun c _ => bedrockCountTokensBody L c)
    (fun b => inl (Some b))
    modelNameOverride requestModel tokenizeReq.

(** [ToGCPAnthropicTranslatorV1Tokenize.RequestBody] *)
Definition ToGCPAnthropic_RequestBody (L : TokenizeLibs)
  (modelNameOverride requestModel apiVersion : string)
  (original : bytes) (tokenizeReq : TokenizeRequestUnion) (forceBodyMutation : bool)
  : requestResult :=
  providerRequestBody "gcp anthropic"
    (fun _ => buildGCPModelPathSuffix L "anthropic" "count-tokens" "rawPredict")
    (anthropicCountTokensBody L)
    (fun b =>
       match sjsonSetAnthropicVersion L b
               (if String.eqb apiVersion "" then "vertex-2023-10-16" else apiVersion)
       with
       | Some b' => inl (Some b')
       | None => inr ErrSetAnthropicVersion
       end)
    modelNameOverride requestModel tokenizeReq.

(** [ToGCPVertexAITranslatorV1Tokenize.RequestBody] *)
Definition ToGCPVertexAI_RequestBody (L : TokenizeLibs)
  (modelNameOverride requestModel : string)
  (original : bytes) (tokenizeReq : TokenizeRequestUnion) (forceBodyMutation : bool)
  : requestResult :=
  providerRequestBody "gemini"
    (fun m => buildGCPModelPathSuffix L "google" m "countTokens")
    (geminiCountTokenBody L)
    (fun b => inl (Some b))
    modelNameOverride requestModel tokenizeReq.

(** The four translators behind [TokenizeEndpointSpec.GetTranslator]. *)
Inductive tokenizeBackend : Type :=
| APISchemaOpenAI | APISchemaGCPVertexAI | APISchemaGCPAnthropic | APISchemaAWSBedrock.

Definition RequestBody (L : TokenizeLibs) (backend : tokenizeBackend)
  (modelNameOverride requestModel apiVersion : string)
  (original : bytes) (req : TokenizeRequestUnion) (forceBodyMutation : bool)
  : requestResult :=
  match backend with
  | APISchemaOpenAI =>
      TranslatorV1Tokenize_RequestBody L modelNameOverride requestModel "/tokenize"
        original req forceBodyMutation
  | APISchemaGCPVertexAI =>
      ToGCPVertexAI_RequestBody L modelNameOverride requestModel
        original req forceBodyMutation
  | APISchemaGCPAnthropic =>
      ToGCPAnthropic_RequestBody L modelNameOverride requestModel apiVersion
        original req forceBodyMutation
  | APISchemaAWSBedrock =>
      ToAWSBedrock_RequestBody L modelNameOverride requestModel
        original req forceBodyMutation
  end.

(** Stand-ins for the libraries, used to run the tokenize code on concrete
    requests: a body is ["chat"], ["completion"] or anything else. *)
Definition sampleChatReq : TokenizeChatRequest :=
  mkTokenizeChatRequest "m" [JObj [("role", JStr "user")]] false None false false
    None None None [] "".

Definition sampleCompletionReq : TokenizeCompletionRequest :=
  mkTokenizeCompletionRequest "m" "hello" false None.

Definition sampleTokenizeLibs : TokenizeLibs :=
  mkTokenizeLibs
    (fun body =>
       if String.eqb body "chat" then Some [("model", JStr "m"); ("messages", JArr [])]
       else if String.eqb body "completion" then Some [("model", JStr "m")]
       else None)
    (fun _ => Some sampleChatReq)
    (fun _ => Some sampleCompletionReq)
    (fun b m => Some (b ++ m))
    (fun b v => Some (b ++ v))
    (fun s => s)
    (fun p m meth => "publishers/" ++ p ++ "/models/" ++ m ++ ":" ++ meth)
    (fun _ => Some "{}")
    (fun _ _ => Some "{}")
    (fun _ _ => Some "{}").

(* ================================================================== *)
(** * Predicates on schemas and sample documents *)
(* ================================================================== *)

(** Some map inside [v] has the key [k]. *)
Fixpoint has_key (k : string) (v : json) : bool :=
  match v with
  | JObj m =>
      existsb (fun kv : string * json =>
                 let '(k', x) := kv in String.eqb k' k || has_key k x) m
  | JArr l => existsb (has_key k) l
  | _ => false
  end.

(** The paths of all [$ref] entries inside [v]. *)
Fixpoint refs_in (v : json) : list string :=
  match v with
  | JObj m =>
      flat_map (fun kv : string * json =>
                  let '(k, x) := kv in
                  ((if String.eqb k "$ref"
                    then match x with JStr p => [p] | _ => [] end
                    else []) ++ refs_in x)%list) m
  | JArr l => flat_map refs_in l
  | _ => []
  end.

Fixpoint dedup (l : list string) : list string :=
  match l with
  | [] => []
  | x :: l' => if mem x l' then dedup l' else x :: dedup l'
  end.

(** The number of distinct reference paths of the document that are not
    being resolved. *)
Definition ref_budget (fullSchema : object) (processedRefs : refset) : nat :=
  List.length
    (filter (fun p => negb (mem p processedRefs))
       (dedup (refs_in (JObj fullSchema)))).

(** The schema nodes of a projected schema are its root and, from a node, the
    value under [items], the values of the map under [properties] and the
    elements of the list under [anyOf].  [schema_ok allowed v]: every schema
    node of [v] is a map whose keys are all in [allowed]. *)
Fixpoint schema_ok (allowed : list string) (v : json) : bool :=
  match v with
  | JObj m =>
      forallb (fun kv : string * json =>
                 let '(k, x) := kv in
                 mem k allowed &&
                 (if String.eqb k "items" then schema_ok allowed x
                  else if String.eqb k "properties" then
                    match x with
                    | JObj ps =>
                        forallb (fun pkv : string * json =>
                                   let '(_, pv) := pkv in schema_ok allowed pv) ps
                    | _ => false
                    end
                  else if String.eqb k "anyOf" then
                    match x with
                    | JArr l => forallb (schema_ok allowed) l
                    | _ => false
                    end
                  else true)) m
  | _ => false
  end.

(** No schema node of [v] has the key [k]. *)
Fixpoint node_lacks (k : string) (v : json) : bool :=
  match v with
  | JObj m =>
      forallb (fun kv : string * json =>
                 let '(k', x) := kv in
                 negb (String.eqb k' k) &&
                 (if String.eqb k' "items" then node_lacks k x
                  else if String.eqb k' "properties" then
                    match x with
                    | JObj ps =>
                        forallb (fun pkv : string * json =>
                                   let '(_, pv) := pkv in node_lacks k pv) ps
                    | _ => true
                    end
                  else if String.eqb k' "anyOf" then
                    match x with
                    | JArr l => forallb (node_lacks k) l
                    | _ => true
                    end
                  else true)) m
  | _ => true
  end.

(** The shape of a projected schema.  At every schema node the keys are
    distinct and allow-listed, [$defs] and [allOf] do not occur, [type] is a
    string, [items] is a node, [properties] a map of nodes and [anyOf] a list
    of nodes; with [strict], no [anyOf] element has [type == "null"]. *)
Fixpoint projected (allowed : list string) (strict : bool) (v : json) : bool :=
  match v with
  | JObj m =>
      nodupb (map fst m) &&
      forallb (fun kv : string * json =>
                 let '(k, x) := kv in
                 mem k allowed &&
                 negb (String.eqb k "$defs") && negb (String.eqb k "allOf") &&
                 (if String.eqb k "items" then
                    match x with
                    | JObj _ => projected allowed strict x
                    | _ => false
                    end
                  else if String.eqb k "properties" then
                    match x with
                    | JObj ps =>
                        nodupb (map fst ps) &&
                        forallb (fun pkv : string * json =>
                                   let '(_, pv) := pkv in
                                   match pv with
                                   | JObj _ => projected allowed strict pv
                                   | _ => false
                                   end) ps
                    | _ => false
                    end
                  else if String.eqb k "type" then
                    match x with JStr _ => true | _ => false end
                  else if String.eqb k "anyOf" then
                    match x with
                    | JArr l =>
                        forallb (fun b =>
                                   match b with
                                   | JObj bm =>
                                       projected allowed strict b &&
                                       (negb strict || negb (type_is_null bm))
                                   | _ => false
                                   end) l
                    | _ => false
                    end
                  else true)) m
  | _ => false
  end.

(** No [anyOf] element of a schema node of [v] has [type == "null"]. *)
Definition null_branch_free (allowed : list string) (v : json) : bool :=
  projected allowed true v.

(** The keys the [switch] sets itself must be allow-listed for the output to
    stay within the allow-list. *)
Definition covers_switch_keys (allowed : list string) : bool :=
  mem "items" allowed && mem "properties" allowed && mem "type" allowed &&
  mem "anyOf" allowed && mem "nullable" allowed &&
  negb (mem "$defs" allowed) && negb (mem "$ref" allowed).

(** A [type] list the projection collapses: two elements, one of them
    ["null"], the other neither ["null"] nor [nil]. *)
Definition collapsible (typeList : list json) : bool :=
  match typeList with
  | [a; b] =>
      (is_null_str a && negb (is_null_str b) && not_nil b) ||
      (is_null_str b && negb (is_null_str a) && not_nil a)
  | _ => false
  end.

(** The element that is not ["null"]. *)
Definition concrete_of (typeList : list json) : json :=
  match typeList with
  | [a; b] => if is_null_str b then a else b
  | _ => JNull
  end.

(** An [anyOf] list with an element whose [type] is ["null"]. *)
Definition has_null_branch (anyOfList : list json) : bool :=
  existsb (fun v => match v with JObj m => type_is_null m | _ => false end)
    anyOfList.

(** The document of the circular-reference scenario, in both visiting orders
    of its root. *)
Definition cyclicDefs : json :=
  JObj [("A", JObj [("$ref", JStr "#/$defs/B")]);
        ("B", JObj [("$ref", JStr "#/$defs/A")])].

Definition cyclicSchema : object :=
  [("$ref", JStr "#/$defs/A"); ("$defs", cyclicDefs)].

Definition cyclicSchema' : object :=
  [("$defs", cyclicDefs); ("$ref", JStr "#/$defs/A")].

(** Two properties that refer to the same definition. *)
Definition siblingSchema : object :=
  [("properties",
    JObj [("a", JObj [("$ref", JStr "#/$defs/X")]);
          ("b", JObj [("$ref", JStr "#/$defs/X")])]);
   ("$defs", JObj [("X", JObj [("type", JStr "string")])])].

Definition is_object (v : json) : bool :=
  match v with JObj _ => true | _ => false end.

(** The [newBody] of a [ResponseBody] result. *)
Definition awsInvokeBody
  (r : list Header * bytes * TokenUsage * string * awsInvokeState) : bytes :=
  snd (fst (fst (fst r))).

Definition awsOpenAIBody (r : list Header * bytes * TokenUsage * string) : bytes :=
  snd (fst (fst r)).

(** The SSE text [convertEventStreamToSSE] returns. *)
Definition convertedSSE (L : StreamLibs) (o : awsInvokeState) (data : bytes) : bytes :=
  fst (fst (convertEventStreamToSSE L o data)).

(** A decoder reads at least one byte per message, and a message that is
    complete stays the same message when more bytes follow it. *)
Definition consuming (L : StreamLibs) : Prop :=
  forall data payload rest,
    Decode L data = Some (payload, rest) ->
    (String.length rest < String.length data)%nat.

Definition prefix_stable (L : StreamLibs) : Prop :=
  forall data payload rest more,
    Decode L data = Some (payload, rest) ->
    Decode L (data ++ more) = Some (payload, rest ++ more).

(** A frame of the length-prefixed framing, split in two reads. *)
Definition sampleFrame : bytes := String (ascii_of_nat 3) "abc".
Definition sampleFrameHead : bytes := String (ascii_of_nat 3) "a".
Definition sampleFrameTail : bytes := "bc".

Definition idleInvokeState : awsInvokeState := mkAwsInvokeState true "gpt-4" "" "".

(** The reads of a stream, one after the other. *)
Fixpoint concat_reads (reads : list bytes) : bytes :=
  match reads with
  | [] => ""
  | r :: reads' => r ++ concat_reads reads'
  end.

(** The values directly inside [v]. *)
Definition children (v : json) : list json :=
  match v with
  | JArr l => l
  | JObj m => map snd m
  | _ => []
  end.

(** The test [projected] makes on one entry of a schema node. *)
Definition entry_projected (allowed : list string) (strict : bool)
  (kv : string * json) : bool :=
  let '(k, x) := kv in
  mem k allowed &&
  negb (String.eqb k "$defs") && negb (String.eqb k "allOf") &&
  (if String.eqb k "items" then
     match x with
     | JObj _ => projected allowed strict x
     | _ => false
     end
   else if String.eqb k "properties" then
     match x with
     | JObj ps =>
         nodupb (map fst ps) &&
         forallb (fun pkv : string * json =>
                    let '(_, pv) := pkv in
                    match pv with
                    | JObj _ => projected allowed strict pv
                    | _ => false
                    end) ps
     | _ => false
     end
   else if String.eqb k "type" then
     match x with JStr _ => true | _ => false end
   else if String.eqb k "anyOf" then
     match x with
     | JArr l =>
         forallb (fun b =>
                    match b with
                    | JObj bm =>
                        projected allowed strict b &&
                        (negb strict || negb (type_is_null bm))
                    | _ => false
                    end) l
     | _ => false
     end
   else true).

(** A property value of a projected schema: a projected node. *)
Definition property_projected (allowed : list string) (strict : bool)
  (pkv : string * json) : bool :=
  let '(_, pv) := pkv in
  match pv with
  | JObj _ => projected allowed strict pv
  | _ => false
  end.

(** An [anyOf] element of a projected schema. *)
Definition branch_projected (allowed : list string) (strict : bool) (b : json) : bool :=
  match b with
  | JObj bm => projected allowed strict b && (negb strict || negb (type_is_null bm))
  | _ => false
  end.

(** A document as the JSON decoder builds it and without references: keys are
    distinct in every map and no map has the key [$ref]. *)
Definition clean (v : json) : bool := wf_json v && negb (has_key "$ref" v).

(** An entry through which a node expresses nullability: a [type] list with
    ["null"] in it, or an [anyOf] list with an element of type ["null"]. *)
Definition expresses_null (kv : string * json) : bool :=
  let '(k, v) := kv in
  match v with
  | JArr l =>
      (String.eqb k "type" && existsb is_null_str l) ||
      (String.eqb k "anyOf" && has_null_branch l)
  | _ => false
  end.

(** [nullable] is [true] in a converted schema. *)
Definition nullable_set (m : object) : Prop :=
  map_get "nullable" m = Some (JBool true).

(** The error of a [type] list that is not collapsed. *)
Definition typeListError (typeList : list json) : goError :=
  if Nat.eqb (List.length typeList) 2 then ErrTypeListShape
  else ErrTypeListLength (List.length typeList).

(** The test [clean] makes on one entry of a map. *)
Definition entry_clean (kv : string * json) : bool :=
  let '(k, x) := kv in negb (String.eqb k "$ref") && clean x.

(** Some map inside [v] has the key [$ref], other than inside a value that
    sits under one of the keys [skipKeys]. *)
Fixpoint has_ref_outside (skipKeys : list string) (v : json) : bool :=
  match v with
  | JObj m =>
      existsb (fun kv : string * json =>
                 let '(k, x) := kv in
                 negb (mem k skipKeys) &&
                 (String.eqb k "$ref" || has_ref_outside skipKeys x)) m
  | JArr l => existsb (has_ref_outside skipKeys) l
  | _ => false
  end.

(** The test [has_ref_outside] makes on one entry, negated. *)
Definition entry_resolved (skipKeys : list string) (kv : string * json) : bool :=
  let '(k, x) := kv in
  mem k skipKeys ||
  (negb (String.eqb k "$ref") && negb (has_ref_outside skipKeys x)).

(** A walker leaves the shared set as it found it when it returns a value. *)
Definition restores {A} (w : walker A) : Prop :=
  forall obj P v P', w obj P = Ok (v, P') -> P' = P.

(** A walker whose values have no unresolved reference. *)
Definition resolves (skipKeys : list string) (w : walker json) : Prop :=
  forall obj P v P', w obj P = Ok (v, P') -> has_ref_outside skipKeys v = false.

(** A walker that does not exceed the recursion depth when started on a part
    of the document with fewer than [d] reference paths not in progress. *)
Definition bounded (fullSchema : object) (d : nat) (w : walker json) : Prop :=
  forall ref P,
    incl (refs_in ref) (refs_in (JObj fullSchema)) ->
    ref_budget fullSchema P < d -> w ref P <> TooDeep.

(* ================================================================== *)
(** * Fragment paths *)
(* ================================================================== *)

(** The text [/c1/c2/.../cn]. *)
Fixpoint refPathTail (components : list string) : string :=
  match components with
  | [] => ""
  | c :: cs => "/" ++ c ++ refPathTail cs
  end.

(** The fragment path [#/c1/c2/.../cn]. *)
Definition refPath (components : list string) : string :=
  "#" ++ refPathTail components.

(** No byte of [s] is a slash. *)
Fixpoint no_slash (s : string) : bool :=
  match s with
  | EmptyString => true
  | String c s' => negb (Ascii.eqb c "/") && no_slash s'
  end.

(** [schema[c1][c2]...[cn]], when every step leads to a map. *)
Fixpoint lookup_path (components : list string) (m : object) : option object :=
  match components with
  | [] => Some m
  | c :: cs =>
      match map_get c m with
      | Some (JObj m') => lookup_path cs m'
      | _ => None
      end
  end.

(** A walker that only adds to the shared set. *)
Definition grows {A} (w : walker A) : Prop :=
  forall obj P a P', w obj P = Ok (a, P') -> incl P P'.

(** The keys with a case of their own in the [switch] of the projection. *)
Definition switchKeys : list string :=
  ["$defs"; "items"; "properties"; "type"; "allOf"; "anyOf"].

(** The entries of [schema] whose key is in [allowed]. *)
Definition allowed_entries (allowed : list string) (schema : object) : object :=
  filter (fun kv : string * json => mem (fst kv) allowed) schema.

(** The paths [refs] are pairwise distinct, none of them is in the set
    [P], and all of them are in the set [P'], which extends [P]. *)
Definition single_use (refs : list string) (P P' : refset) : Prop :=
  incl P P' /\ incl refs P' /\ NoDup refs /\ (forall p, In p refs -> ~ In p P).

(** The reference paths inside the definition that [refPath] names. *)
Definition defrefs (fullSchema : object) (refPath : string) : list string :=
  match jsonSchemaRetrieveRef refPath fullSchema with
  | Ok ref => refs_in ref
  | _ => []
  end.

(** The reference paths that a traversal of [v] comes across, in visiting
    order: each [$ref] path of [v], followed by the paths inside the
    definition it names. *)
Fixpoint uses (fullSchema : object) (v : json) : list string :=
  match v with
  | JObj m =>
      flat_map (fun kv : string * json =>
                  let '(k, x) := kv in
                  ((if String.eqb k "$ref"
                    then match x with
                         | JStr p => p :: defrefs fullSchema p
                         | _ => []
                         end
                    else []) ++ uses fullSchema x)%list) m
  | JArr l => flat_map (uses fullSchema) l
  | _ => []
  end.

(** A walker of the skip-key pass that, when it returns, has come across
    each path once, counting the paths inside the definitions referred to. *)
Definition accounts (fullSchema : object) (w : walker (list string)) : Prop :=
  forall obj P ks P',
    w obj P = Ok (ks, P') ->
    single_use (refs_in obj) P P' /\ single_use (uses fullSchema obj) P P'.

(** [bounded] for the walkers of the skip-key passes. *)
Definition bounded_pass (fullSchema : object) (d : nat)
  (w : walker (list string)) : Prop :=
  forall ref P,
    incl (refs_in ref) (refs_in (JObj fullSchema)) ->
    ref_budget fullSchema P < d -> w ref P <> TooDeep.

(* ================================================================== *)
(** * Nested unions of the embeddings request (package [openai]) *)
(* ================================================================== *)

(** What a call of this package can do: return a value, return an error, or
    panic on an index out of range. *)
Inductive res (E A : Type) : Type :=
| ROk (a : A)
| RErr (e : E)
| RPanic.
Arguments ROk {E A} a.
Arguments RErr {E A} e.
Arguments RPanic {E A}.

Inductive unionError : Type :=
| ErrTruncated (typ : string)         (* "truncated %s data" *)
| ErrInvalidType (typ : string)       (* "invalid %s type (must be string, object, or array)" *)
| ErrInvalidArrayElement (typ : string)
                                      (* "invalid %s array element" *)
| ErrCannotUnmarshal (typ target : string)
                                      (* "cannot unmarshal %s as <target>: %w" *)
| ErrEmptyMixedElement (typ : string) (* "empty element in mixed %s array" *)
| ErrMixedString (typ : string)       (* "cannot unmarshal string element in mixed %s array: %w" *)
| ErrMixedObject (typ : string)       (* "cannot unmarshal object element in mixed %s array: %w" *)
| ErrInvalidMixedElement (typ : string).
                                      (* "invalid element type in mixed %s array" *)

(** The values [unmarshalJSONNestedUnion] returns as [interface{}]; [Item]
    is [EmbeddingInputItem]. *)
Inductive unionValue (Item : Type) : Type :=
| UString (s : string)
| UItem (item : Item)
| UStrings (strs : list string)
| UItems (items : list Item)
| UIntArrays (intArrays : list (list Z))
| UInts (ints : list Z)
| UMixed (result : list (string + Item)).
Arguments UString {Item} s.
Arguments UItem {Item} item.
Arguments UStrings {Item} strs.
Arguments UItems {Item} items.
Arguments UIntArrays {Item} intArrays.
Arguments UInts {Item} ints.
Arguments UMixed {Item} result.

(** The library calls of the package, and the one field of
    [EmbeddingInputItem] that the code reads. *)
Record UnionLibs (Item : Type) : Type := mkUnionLibs {
  (** [item.Content] *)
  Content : Item -> string;
  (** [strconv.Unquote(string(data))] *)
  Unquote : bytes -> option string;
  (** [json.Unmarshal(data, &str)] *)
  unmarshalStr : bytes -> option string;
  (** [json.Unmarshal(data, &item)] *)
  unmarshalItem : bytes -> option Item;
  (** [json.Unmarshal(data, &strs)] *)
  unmarshalStrs : bytes -> option (list string);
  (** [json.Unmarshal(data, &items)] *)
  unmarshalItems : bytes -> option (list Item);
  (** [json.Unmarshal(data, &intArrays)] *)
  unmarshalIntArrays : bytes -> option (list (list Z));
  (** [json.Unmarshal(data, &ints)] *)
  unmarshalInts : bytes -> option (list Z);
  (** [json.Unmarshal(data, &arr)] with [arr []json.RawMessage] *)
  unmarshalRawArray : bytes -> option (list bytes)
}.
Arguments Content {Item} u.
Arguments Unquote {Item} u.
Arguments unmarshalStr {Item} u.
Arguments unmarshalItem {Item} u.
Arguments unmarshalStrs {Item} u.
Arguments unmarshalItems {Item} u.
Arguments unmarshalIntArrays {Item} u.
Arguments unmarshalInts {Item} u.
Arguments unmarshalRawArray {Item} u.

(** The byte of the double quote. *)
Definition quoteByte : ascii := ascii_of_nat 34.

(** [c == ' ' || c == '\t' || c == '\n' || c == '\r'] *)
Definition isJSONSpace (c : ascii) : bool :=
  Ascii.eqb c " " || Ascii.eqb c (ascii_of_nat 9) ||
  Ascii.eqb c (ascii_of_nat 10) || Ascii.eqb c (ascii_of_nat 13).

(** [for idx < len(data) && isJSONSpace(data[idx]) { idx++ }]; [n] is the
    number of bytes from [idx] to the end of [data]. *)
Fixpoint skipWhitespaceLoop (n : nat) (data : bytes) (idx : nat) : nat :=
  match n with
  | O => idx
  | S n' =>
      match String.get idx data with
      | Some c => if isJSONSpace c then skipWhitespaceLoop n' data (S idx) else idx
      | None => idx
      end
  end.

(** [skipLeadingWhitespace] *)
Definition skipLeadingWhitespace (typ : string) (data : bytes) (idx : nat)
  : res unionError nat :=
  let idx := skipWhitespaceLoop (String.length data - idx) data idx in
  if (String.length data <=? idx)%nat then RErr (ErrTruncated typ) else ROk idx.

(** [data[idx]] *)
Definition byteAt {E} (data : bytes) (idx : nat) : res E ascii :=
  match String.get idx data with
  | Some c => ROk c
  | None => RPanic
  end.

Definition rbind {E A B} (r : res E A) (k : A -> res E B) : res E B :=
  match r with
  | ROk a => k a
  | RErr e => RErr e
  | RPanic => RPanic
  end.

(** [unquoteOrUnmarshalJSONString] *)
Definition unquoteOrUnmarshalJSONString {Item} (L : UnionLibs Item)
  (typ : string) (data : bytes) : res unionError string :=
  match Unquote L data with
  | Some s => ROk s
  | None =>
      match unmarshalStr L data with
      | Some str => ROk str
      | None => RErr (ErrCannotUnmarshal typ "string")
      end
  end.

(** [unmarshalJSONInt64s] *)
Definition unmarshalJSONInt64s {Item} (L : UnionLibs Item)
  (typ : string) (data : bytes) : res unionError (list Z) :=
  match unmarshalInts L data with
  | Some ints => ROk ints
  | None => RErr (ErrCannotUnmarshal typ "[]int64")
  end.

(** The loop of [isMixedArray] over the raw elements. *)
Fixpoint isMixedArrayLoop (arr : list bytes) (hasString hasObject : bool)
  : res unionError bool :=
  match arr with
  | [] => ROk false
  | item :: rest =>
      let trimmed := item in
      let idx := skipWhitespaceLoop (String.length trimmed) trimmed 0 in
      if (String.length trimmed <=? idx)%nat
      then isMixedArrayLoop rest hasString hasObject
      else
        rbind (byteAt trimmed idx) (fun c =>
          let hasString := if Ascii.eqb c quoteByte then true else hasString in
          let hasObject :=
            if Ascii.eqb c quoteByte then hasObject
            else if Ascii.eqb c "{" then true else hasObject in
          if hasString && hasObject then ROk true
          else isMixedArrayLoop rest hasString hasObject)
  end.

(** [isMixedArray] *)
Definition isMixedArray {Item} (L : UnionLibs Item) (data : bytes)
  : res unionError bool :=
  match unmarshalRawArray L data with
  | None => ROk false
  | Some arr => isMixedArrayLoop arr false false
  end.

(** The loop of [unmarshalMixedArray]; [result] holds the elements converted
    so far. *)
Fixpoint unmarshalMixedArrayLoop {Item} (L : UnionLibs Item) (typ : string)
  (arr : list bytes) (result : list (string + Item))
  : res unionError (list (string + Item)) :=
  match arr with
  | [] => ROk result
  | item :: rest =>
      let idx := skipWhitespaceLoop (String.length item) item 0 in
      if (String.length item <=? idx)%nat then RErr (ErrEmptyMixedElement typ)
      else
        rbind (byteAt item idx) (fun c =>
          if Ascii.eqb c quoteByte then
            match unmarshalStr L item with
            | None => RErr (ErrMixedString typ)
            | Some str => unmarshalMixedArrayLoop L typ rest (result ++ [inl str])%list
            end
          else if Ascii.eqb c "{" then
            match unmarshalItem L item with
            | None => RErr (ErrMixedObject typ)
            | Some embeddingItem =>
                if String.eqb (Content L embeddingItem) ""
                then RErr (ErrInvalidMixedElement typ)
                else unmarshalMixedArrayLoop L typ rest
                       (result ++ [inr embeddingItem])%list
            end
          else RErr (ErrInvalidMixedElement typ))
  end.

(** [unmarshalMixedArray] *)
Definition unmarshalMixedArray {Item} (L : UnionLibs Item) (typ : string)
  (data : bytes) : res unionError (unionValue Item) :=
  match unmarshalRawArray L data with
  | None => RErr (ErrCannotUnmarshal typ "mixed array")
  | Some arr =>
      rbind (unmarshalMixedArrayLoop L typ arr []) (fun result => ROk (UMixed result))
  end.

(** [case '-', '0', ..., '9'] *)
Definition startsNumber (c : ascii) : bool :=
  Ascii.eqb c "-" ||
  ((48 <=? nat_of_ascii c)%nat && (nat_of_ascii c <=? 57)%nat).

(** [unmarshalJSONNestedUnion] *)
Definition unmarshalJSONNestedUnion {Item} (L : UnionLibs Item)
  (typ : string) (data : bytes) : res unionError (unionValue Item) :=
  rbind (skipLeadingWhitespace typ data 0) (fun idx =>
  rbind (byteAt data idx) (fun c =>
    if Ascii.eqb c quoteByte then
      rbind (unquoteOrUnmarshalJSONString L typ data) (fun s => ROk (UString s))
    else if Ascii.eqb c "{" then
      match unmarshalItem L data with
      | None => RErr (ErrCannotUnmarshal typ "EmbeddingInputItem")
      | Some item =>
          if String.eqb (Content L item) "" then RErr (ErrInvalidType typ)
          else ROk (UItem item)
      end
    else if Ascii.eqb c "[" then
      let idx := S idx in
      rbind (skipLeadingWhitespace typ data idx) (fun idx =>
      rbind (byteAt data idx) (fun c =>
        if Ascii.eqb c "]" then ROk (UStrings [])
        else if Ascii.eqb c quoteByte then
          rbind (isMixedArray L data) (fun mixed =>
            if mixed then unmarshalMixedArray L typ data
            else
              match unmarshalStrs L data with
              | None => RErr (ErrCannotUnmarshal typ "[]string")
              | Some strs => ROk (UStrings strs)
              end)
        else if Ascii.eqb c "{" then
          match unmarshalItems L data with
          | None => RErr (ErrCannotUnmarshal typ "[]EmbeddingInputItem")
          | Some items =>
              if existsb (fun item => String.eqb (Content L item) "") items
              then RErr (ErrInvalidArrayElement typ)
              else ROk (UItems items)
          end
        else if Ascii.eqb c "[" then
          match unmarshalIntArrays L data with
          | None => RErr (ErrCannotUnmarshal typ "[][]int64")
          | Some intArrays => ROk (UIntArrays intArrays)
          end
        else if startsNumber c then
          rbind (unmarshalJSONInt64s L typ data) (fun ints => ROk (UInts ints))
        else RErr (ErrInvalidArrayElement typ)))
    else RErr (ErrInvalidType typ))).

(** All bytes of [s] are JSON white space. *)
Definition allSpace (s : string) : bool :=
  forallb isJSONSpace (list_ascii_of_string s).

(** The first byte of [item] after its leading white space, if any. *)
Definition firstByte (item : bytes) : option ascii :=
  String.get (skipWhitespaceLoop (String.length item) item 0) item.

Definition startsWith (c : ascii) (item : bytes) : bool :=
  match firstByte item with
  | Some c' => Ascii.eqb c' c
  | None => false
  end.

(** Stand-ins for the library calls, used to run the parser on concrete
    bytes: an item is its own content and every decoding returns little. *)
Definition sampleUnionLibs : UnionLibs string :=
  mkUnionLibs string (fun item => item) (fun _ => None) (fun data => Some data)
    (fun data => Some data) (fun data => Some [data]) (fun data => Some [data])
    (fun _ => Some []) (fun _ => Some []) (fun data => Some [data]).


(* ================================================================== *)
(** * User-facing errors (package [internalapi]) *)
(* ================================================================== *)

(** The package-level error values. *)
Inductive sentinel : Type :=
| ErrInvalidRequestBody         (* "invalid request body format" *)
| ErrMissingRequiredField       (* "missing required field in request" *)
| ErrInvalidModelSchema         (* "request schema incompatible with target API" *)
| ErrUnsupportedToolFormat      (* "tool calling format not supported by target API" *)
| ErrUnsupportedMessageFormat   (* "message format not supported by target API" *)
| ErrInvalidParameterValue      (* "parameter value out of valid range for target API" *)
| ErrUnsupportedFeature.        (* "requested feature not supported by target API" *)

Definition sentinel_eqb (a b : sentinel) : bool :=
  match a, b with
  | ErrInvalidRequestBody, ErrInvalidRequestBody
  | ErrMissingRequiredField, ErrMissingRequiredField
  | ErrInvalidModelSchema, ErrInvalidModelSchema
  | ErrUnsupportedToolFormat, ErrUnsupportedToolFormat
  | ErrUnsupportedMessageFormat, ErrUnsupportedMessageFormat
  | ErrInvalidParameterValue, ErrInvalidParameterValue
  | ErrUnsupportedFeature, ErrUnsupportedFeature => true
  | _, _ => false
  end.

(** A Go [error] other than [nil]: one of the package-level values, an error
    that wraps nothing ([errors.New], [fmt.Errorf] without [%w]), an error
    that wraps one error ([fmt.Errorf] with one [%w]) or several
    ([errors.Join], several [%w]). *)
#[local] Unset Elimination Schemes.
Inductive goErr : Type :=
| Sentinel (s : sentinel)
| Plain (msg : string)
| Wrap (msg : string) (inner : goErr)
| Join (errs : list goErr).
#[local] Set Elimination Schemes.

(** [errors.Is(err, target)] for a package-level [target]: the tree of
    wrapped errors is searched for the value itself. *)
Fixpoint errorsIs (err : goErr) (target : sentinel) : bool :=
  match err with
  | Sentinel s => sentinel_eqb s target
  | Plain _ => false
  | Wrap _ inner => errorsIs inner target
  | Join errs => existsb (fun e => errorsIs e target) errs
  end.


(** [GetUserFacingError] of [user_facing_errors.go], with the one value
    [ErrInvalidRequestBody]: the error is returned as it is. *)
Definition GetUserFacingError' (err : option goErr) : option goErr :=
  match err with
  | None => None
  | Some e => if errorsIs e ErrInvalidRequestBody then Some e else None
  end.


(* ================================================================== *)
(** * Tokenizer information (package [tokenize]) *)
(* ================================================================== *)

(** [tokenize.TokenizerInfoResponse] *)
Record TokenizerInfoResponse : Type := mkTokenizerInfoResponse {
  TokenizerClass : string;
  ExtraConfig : object
}.

(** [TokenizerInfoResponse.UnmarshalJSON] after [json.Unmarshal(data,
    &allFields)], whose result is [allFields] ([None] is its error): the
    receiver afterwards, or [None] for the error, which leaves it alone. *)
Definition TokenizerInfoResponse_UnmarshalJSON (r : TokenizerInfoResponse)
  (allFields : option object) : option TokenizerInfoResponse :=
  match allFields with
  | None => None
  | Some allFields =>
      let tokenizerClass :=
        match map_get "tokenizer_class" allFields with
        | Some (JStr str) => str
        | _ => TokenizerClass r
        end in
      Some (mkTokenizerInfoResponse tokenizerClass
              (fold_left
                 (fun extra kv =>
                    if negb (String.eqb (fst kv) "tokenizer_class")
                    then map_set (fst kv) (snd kv) extra else extra)
                 allFields []))
  end.

(** [TokenizerInfoResponse.MarshalJSON] up to [json.Marshal(result)]: the map
    [result]. *)
Definition TokenizerInfoResponse_MarshalJSON (r : TokenizerInfoResponse) : object :=
  merge_into (ExtraConfig r) [("tokenizer_class", JStr (TokenizerClass r))].

Definition sampleTokenizerFields : object :=
  [("tokenizer_class", JStr "LlamaTokenizer"); ("model_max_length", JNum "4096")].

(* ================================================================== *)
(** * Embeddings for GCP Vertex AI *)
(* ================================================================== *)

Definition TaskTypeRetrievalDocument : string := "RETRIEVAL_DOCUMENT".

(** The dynamic type of [openai.EmbeddingRequestInput.Value]: a string, a
    slice of strings, or something else, named as [%T] prints it. *)
Inductive embeddingInput : Type :=
| InputString (v : string)
| InputStrings (v : list string)
| InputOther (typeName : string).

(** [genai.Content] as the converters build it: the [Text] of its parts. *)
Record genaiContent : Type := mkGenaiContent { Parts : list string }.

(** [genai.EmbedContentConfig]: the three fields the converters set. *)
Record EmbedContentConfig : Type := mkEmbedContentConfig {
  TaskType : string;
  OutputDimensionality : option Z;       (* [*int32] *)
  Title : string
}.

(** [gcp.EmbedContentRequest] *)
Record EmbedContentRequest : Type := mkEmbedContentRequest {
  ecrContent : genaiContent;
  ecrConfig : EmbedContentConfig
}.

(** [openai.EmbeddingCompletionRequest]: [Input], [Dimensions] ([*int]) and
    the [TaskType] of [GCPVertexAIEmbeddingVendorFields] ([None] is a [nil]
    pointer). *)
Record EmbeddingCompletionRequest : Type := mkEmbeddingCompletionRequest {
  ecInput : embeddingInput;
  ecDimensions : option Z;
  ecVendorFields : option string
}.

(** The dynamic type of a message's [Content.Value]. *)
Inductive contentValue : Type :=
| ContentNil
| ContentString (content : string)
| ContentOther (typeName : string).

(** [openai.ChatCompletionMessageParamUnion]: the first pointer that is set,
    in the order the converter tests them. *)
Inductive embeddingMessage : Type :=
| OfUser (content : contentValue)
| OfAssistant (content : contentValue)
| OfSystem (content : contentValue)
| OfTool (content : contentValue)
| OfDeveloper (content : contentValue)
| OfNothing.

(** [openai.EmbeddingChatRequest] *)
Record EmbeddingChatRequest : Type := mkEmbeddingChatRequest {
  echMessages : list embeddingMessage;
  echDimensions : option Z;
  echVendorFields : option string
}.

Inductive embeddingError : Type :=
| ErrUnsupportedInput (typeName : string)
    (* "unsupported input type for embedding: %T (supported: string, []string)" *)
| ErrUnsupportedUserContent (typeName : string)
| ErrUnsupportedAssistantContent (typeName : string)
| ErrUnsupportedSystemContent (typeName : string)
| ErrUnsupportedToolContent (typeName : string)
| ErrUnsupportedDeveloperContent (typeName : string)
| ErrUnsupportedMessageType.   (* "unsupported message type in union" *)

(** [%T] of a content value that is not a string. *)
Definition typeNameOf (content : contentValue) : string :=
  match content with
  | ContentNil => "<nil>"
  | ContentString _ => "string"
  | ContentOther typeName => typeName
  end.

(** [int32(x)] for an [int] [x]. *)
Definition int32 (x : Z) : Z := ((x + 2 ^ 31) mod 2 ^ 32 - 2 ^ 31)%Z.

(** [InputToGeminiContent] *)
Definition InputToGeminiContent (input : embeddingInput)
  : genaiContent + embeddingError :=
  match input with
  | InputString v => inl (mkGenaiContent [v])
  | InputStrings v =>
      inl (mkGenaiContent (fold_left (fun parts text => (parts ++ [text])%list) v []))
  | InputOther typeName => inr (ErrUnsupportedInput typeName)
  end.

(** [determineTaskType] *)
Definition determineTaskType (req : EmbeddingCompletionRequest + EmbeddingChatRequest)
  : string :=
  match req with
  | inl r =>
      match ecVendorFields r with
      | Some taskType => if negb (String.eqb taskType "") then taskType else ""
      | None => ""
      end
  | inr r =>
      match echVendorFields r with
      | Some taskType => if negb (String.eqb taskType "") then taskType else ""
      | None => ""
      end
  end.

(** [extractTitleFromContent]; [strings.TrimSpace] is taken from the
    library. *)
Definition extractTitleFromContent (TrimSpace : string -> string) (content : string)
  : string :=
  let lines := strings_Split (TrimSpace content) (ascii_of_nat 10) in
  match lines with
  | firstLine :: _ =>
      let firstLine := TrimSpace firstLine in
      if (String.length firstLine <? 100)%nat && negb (HasSuffix firstLine ".") &&
         negb (HasSuffix firstLine "!") && negb (HasSuffix firstLine "?")
      then firstLine else ""
  | [] => ""
  end.

(** [getTextFromContent] *)
Definition getTextFromContent (content : option genaiContent) : string :=
  match content with
  | None => ""
  | Some content =>
      let textParts :=
        fold_left
          (fun textParts part =>
             if negb (String.eqb part "") then (textParts ++ [part])%list
             else textParts)
          (Parts content) [] in
      join " " textParts
  end.

(** [openAIEmbeddingCompletionToGeminiMessage] *)
Definition openAIEmbeddingCompletionToGeminiMessage (TrimSpace : string -> string)
  (openAIReq : EmbeddingCompletionRequest) : EmbedContentRequest + embeddingError :=
  match InputToGeminiContent (ecInput openAIReq) with
  | inr err => inr err
  | inl geminiContent =>
      let taskType := determineTaskType (inl openAIReq) in
      let configTaskType := if negb (String.eqb taskType "") then taskType else "" in
      let configOutputDimensionality :=
        match ecDimensions openAIReq with
        | Some d => if (0 <? d)%Z then Some (int32 d) else None
        | None => None
        end in
      let configTitle :=
        if String.eqb configTaskType TaskTypeRetrievalDocument then
          let content := getTextFromContent (Some geminiContent) in
          if negb (String.eqb content "") then
            let title := extractTitleFromContent TrimSpace content in
            if negb (String.eqb title "") then title else ""
          else ""
        else "" in
      inl (mkEmbedContentRequest geminiContent
             (mkEmbedContentConfig configTaskType configOutputDimensionality
                configTitle))
  end.

(** What one turn of the loop of [openAIEmbeddingChatToGeminiMessage] writes
    to the builder, or the error it returns. *)
Definition messageText (msg : embeddingMessage) : string + embeddingError :=
  match msg with
  | OfUser (ContentString content) => inl content
  | OfUser ContentNil => inl ""
  | OfUser content => inr (ErrUnsupportedUserContent (typeNameOf content))
  | OfAssistant (ContentString content) => inl content
  | OfAssistant ContentNil => inl ""
  | OfAssistant content => inr (ErrUnsupportedAssistantContent (typeNameOf content))
  | OfSystem (ContentString content) => inl content
  | OfSystem content => inr (ErrUnsupportedSystemContent (typeNameOf content))
  | OfTool (ContentString content) => inl content
  | OfTool content => inr (ErrUnsupportedToolContent (typeNameOf content))
  | OfDeveloper (ContentString content) => inl content
  | OfDeveloper content => inr (ErrUnsupportedDeveloperContent (typeNameOf content))
  | OfNothing => inr ErrUnsupportedMessageType
  end.

(** The loop over [openAIReq.Messages]; [i] is the index of the first
    message of [msgs]. *)
Fixpoint chatTextLoop (i : nat) (msgs : list embeddingMessage) (textContent : string)
  : string + embeddingError :=
  match msgs with
  | [] => inl textContent
  | msg :: msgs' =>
      let textContent := if (0 <? i)%nat then textContent ++ newline else textContent in
      match messageText msg with
      | inr err => inr err
      | inl content => chatTextLoop (S i) msgs' (textContent ++ content)
      end
  end.

(** [openAIEmbeddingChatToGeminiMessage] *)
Definition openAIEmbeddingChatToGeminiMessage (TrimSpace : string -> string)
  (openAIReq : EmbeddingChatRequest) : EmbedContentRequest + embeddingError :=
  match chatTextLoop 0 (echMessages openAIReq) "" with
  | inr err => inr err
  | inl textContent =>
      let geminiContent := mkGenaiContent [textContent] in
      let taskType := determineTaskType (inr openAIReq) in
      let configTaskType := if negb (String.eqb taskType "") then taskType else "" in
      let configOutputDimensionality :=
        match echDimensions openAIReq with
        | Some d => if (0 <? d)%Z then Some (int32 d) else None
        | None => None
        end in
      let configTitle :=
        if String.eqb configTaskType TaskTypeRetrievalDocument then
          let title := extractTitleFromContent TrimSpace textContent in
          if negb (String.eqb title "") then title else ""
        else "" in
      inl (mkEmbedContentRequest geminiContent
             (mkEmbedContentConfig configTaskType configOutputDimensionality
                configTitle))
  end.

(** A message the chat converter takes, and the text it contributes. *)
Definition message_text (msg : embeddingMessage) (content : string) : Prop :=
  messageText msg = inl content.

(** A stand-in for [strings.TrimSpace] that removes nothing. *)
Definition noTrim (s : string) : string := s.

(** The configuration holds what the request asks for: the task type of the
    vendor fields, the dimensions when positive, and a title only for
    document retrieval, shorter than 100 bytes and not ending a sentence. *)
Definition config_of (vendorFields : option string) (dimensions : option Z)
  (config : EmbedContentConfig) : Prop :=
  TaskType config = match vendorFields with Some taskType => taskType | None => "" end /\
  OutputDimensionality config
  = match dimensions with
    | Some d => if (0 <? d)%Z then Some (int32 d) else None
    | None => None
    end /\
  (Title config <> "" ->
   TaskType config = TaskTypeRetrievalDocument /\
   (String.length (Title config) < 100)%nat /\
   HasSuffix (Title config) "." = false /\
   HasSuffix (Title config) "!" = false /\
   HasSuffix (Title config) "?" = false).

(* ================================================================== *)
(** * Tokenize for AWS Bedrock: the CountTokens request *)
(* ================================================================== *)

(** A part of a user message: [OfText] is set, or another member is. *)
Inductive userContentPart : Type :=
| UserPartText (text : string)
| UserPartOther.

(** The dynamic type of the [Content.Value] of a user message. *)
Inductive userContentValue : Type :=
| UserString (v : string)
| UserParts (contents : list userContentPart)
| UserOther.

(** [openai.ChatCompletionAssistantMessageParamContent]: whether [Type] is
    the text type, and [Text] ([*string]). *)
Record assistantContentPart : Type := mkAssistantContentPart {
  acIsText : bool;
  acText : option string
}.

(** The dynamic type of the [Content.Value] of an assistant message. *)
Inductive assistantContentValue : Type :=
| AssistantString (v : string)
| AssistantSingle (singleContent : assistantContentPart)
| AssistantSlice (sliceContent : list assistantContentPart)
| AssistantOther.

(** The dynamic type of the [Content.Value] of a system or tool message. *)
Inductive textContentValue : Type :=
| TextString (v : string)
| TextParts (contents : list string)
| TextOther (typeName : string).

(** [openai.ChatCompletionMessageParamUnion] as the [switch] of
    [tokenizeToBedrockCountTokens] sees it: the first case that applies. *)
Inductive bedrockChatMessage : Type :=
| MsgUser (content : userContentValue)
| MsgAssistant (content : assistantContentValue)
| MsgSystem (content : textContentValue)
| MsgTool (content : textContentValue) (ToolCallID : string)
| MsgOther.

(** [awsbedrock.ContentBlock]: a text or a tool result. *)
Inductive ContentBlock : Type :=
| BlockText (text : string)
| BlockToolResult (content : list string) (ToolUseID : string).

(** [awsbedrock.Message] *)
Record Message : Type := mkMessage {
  Role : string;
  MessageContent : list ContentBlock
}.

(** [awsbedrock.Tool]: name, description ([*string]), input schema. *)
Record Tool : Type := mkTool {
  ToolName : string;
  ToolDescription : option string;
  ToolInputSchema : json
}.

(** A tool of the request: [Function], [None] for a [nil] pointer. *)
Record FunctionDefinition : Type := mkFunctionDefinition {
  fnName : string;
  fnDescription : string;
  fnParameters : json
}.

(** [awsbedrock.CountTokensInput]; [None] is a [nil] slice or pointer. *)
Record CountTokensInput : Type := mkCountTokensInput {
  Messages : list Message;
  System : option (list string);
  ToolConfig : option (list Tool)
}.

Inductive bedrockError : Type :=
| ErrUnexpectedContentType            (* "unexpected content type" *)
| ErrUnexpectedSystemContentType      (* "unexpected content type for system message" *)
| ErrUnexpectedToolContentType (typeName : string)
                                      (* "unexpected content type for tool message: %T" *)
| ErrUnexpectedRole (role : string).  (* "unexpected role: %s" *)

(** [openAIMessageToBedrockMessageRoleUser] *)
Definition openAIMessageToBedrockMessageRoleUser (content : userContentValue)
  (role : string) : Message + bedrockError :=
  match content with
  | UserString v => inl (mkMessage role [BlockText v])
  | UserParts contents =>
      inl (mkMessage role
             (fold_left
                (fun chatContent contentPart =>
                   match contentPart with
                   | UserPartText text => (chatContent ++ [BlockText text])%list
                   | UserPartOther => chatContent
                   end)
                contents []))
  | UserOther => inr ErrUnexpectedContentType
  end.

(** [openAIMessageToBedrockMessageRoleAssistant] *)
Definition openAIMessageToBedrockMessageRoleAssistant (content : assistantContentValue)
  (role : string) : Message + bedrockError :=
  let contentParts :=
    match content with
    | AssistantString v =>
        if (0 <? String.length v)%nat then [mkAssistantContentPart true (Some v)] else []
    | AssistantSingle singleContent => [singleContent]
    | AssistantSlice sliceContent => sliceContent
    | AssistantOther => []
    end in
  let contentBlocks :=
    fold_left
      (fun contentBlocks content =>
         if acIsText content then
           match acText content with
           | Some text => (contentBlocks ++ [BlockText text])%list
           | None => contentBlocks
           end
         else contentBlocks)
      contentParts [] in
  inl (mkMessage role contentBlocks).

(** [openAIMessageToBedrockMessageRoleSystem]: the new [*bedrockSystem]. *)
Definition openAIMessageToBedrockMessageRoleSystem (content : textContentValue)
  (bedrockSystem : list string) : list string + bedrockError :=
  match content with
  | TextString v => inl (bedrockSystem ++ [v])%list
  | TextParts contents =>
      inl (fold_left (fun system text => (system ++ [text])%list) contents bedrockSystem)
  | TextOther _ => inr ErrUnexpectedSystemContentType
  end.

(** [openAIMessageToBedrockMessageRoleTool] *)
Definition openAIMessageToBedrockMessageRoleTool (content : textContentValue)
  (ToolCallID : string) (role : string) : Message + bedrockError :=
  match content with
  | TextString v => inl (mkMessage role [BlockToolResult [v] ToolCallID])
  | TextParts parts =>
      inl (mkMessage role
             [BlockToolResult
                (fold_left (fun content text => (content ++ [text])%list) parts [])
                ToolCallID])
  | TextOther typeName => inr (ErrUnexpectedToolContentType typeName)
  end.

(** [openAIToolsToBedrockToolConfiguration]: the new [ToolConfig.Tools]. *)
Definition openAIToolsToBedrockToolConfiguration (tools : list (option FunctionDefinition))
  : list Tool :=
  fold_left
    (fun tools toolDefinition =>
       match toolDefinition with
       | Some fn =>
           (tools ++
            [mkTool (fnName fn)
               (if negb (String.eqb (fnDescription fn) "") then Some (fnDescription fn)
                else None)
               (fnParameters fn)])%list
       | None => tools
       end)
    tools [].

(** The loop of [tokenizeToBedrockCountTokens] over the messages;
    [ExtractMessgaeRole] and [awsbedrock.ConversationRoleUser] come from
    packages that are not among the sources. *)
Fixpoint bedrockMessagesLoop (ExtractMessgaeRole : bedrockChatMessage -> string)
  (ConversationRoleUser : string) (msgs : list bedrockChatMessage)
  (messages : list Message) (system : option (list string))
  : (list Message * option (list string)) + bedrockError :=
  match msgs with
  | [] => inl (messages, system)
  | msg :: msgs' =>
      let role := ExtractMessgaeRole msg in
      let continue messages system :=
        bedrockMessagesLoop ExtractMessgaeRole ConversationRoleUser msgs' messages system in
      match msg with
      | MsgUser userMessage =>
          match openAIMessageToBedrockMessageRoleUser userMessage role with
          | inr err => inr err
          | inl bedrockMessage => continue (messages ++ [bedrockMessage])%list system
          end
      | MsgAssistant assistantMessage =>
          match openAIMessageToBedrockMessageRoleAssistant assistantMessage role with
          | inr err => inr err
          | inl bedrockMessage => continue (messages ++ [bedrockMessage])%list system
          end
      | MsgSystem systemMessage =>
          let system := match system with Some s => s | None => [] end in
          match openAIMessageToBedrockMessageRoleSystem systemMessage system with
          | inr err => inr err
          | inl system => continue messages (Some system)
          end
      | MsgTool toolMessage ToolCallID =>
          match openAIMessageToBedrockMessageRoleTool toolMessage ToolCallID
                  ConversationRoleUser with
          | inr err => inr err
          | inl bedrockMessage => continue (messages ++ [bedrockMessage])%list system
          end
      | MsgOther => inr (ErrUnexpectedRole role)
      end
  end.

(** [tokenizeToBedrockCountTokens] on the messages and tools of the
    request. *)
Definition tokenizeToBedrockCountTokens (ExtractMessgaeRole : bedrockChatMessage -> string)
  (ConversationRoleUser : string) (msgs : list bedrockChatMessage)
  (tools : list (option FunctionDefinition)) : CountTokensInput + bedrockError :=
  match bedrockMessagesLoop ExtractMessgaeRole ConversationRoleUser msgs [] None with
  | inr err => inr err
  | inl (messages, system) =>
      inl (mkCountTokensInput messages system
             (if (0 <? List.length tools)%nat
              then Some (openAIToolsToBedrockToolConfiguration tools) else None))
  end.

Definition isSystem (msg : bedrockChatMessage) : bool :=
  match msg with MsgSystem _ => true | _ => false end.

(** The texts of a system message. *)
Definition systemTexts (msg : bedrockChatMessage) : list string :=
  match msg with
  | MsgSystem (TextString v) => [v]
  | MsgSystem (TextParts contents) => contents
  | _ => []
  end.

(** The role the request gives a message that is not a system message. *)
Definition bedrockRole (ExtractMessgaeRole : bedrockChatMessage -> string)
  (ConversationRoleUser : string) (msg : bedrockChatMessage) : string :=
  match msg with
  | MsgTool _ _ => ConversationRoleUser
  | _ => ExtractMessgaeRole msg
  end.

(** A message the conversion refuses. *)
Definition refused (msg : bedrockChatMessage) : bool :=
  match msg with
  | MsgUser UserOther | MsgSystem (TextOther _) | MsgTool (TextOther _) _ | MsgOther => true
  | _ => false
  end.

Definition sampleRole (msg : bedrockChatMessage) : string :=
  match msg with
  | MsgUser _ => "user"
  | MsgAssistant _ => "assistant"
  | MsgSystem _ => "system"
  | MsgTool _ _ => "tool"
  | MsgOther => "developer"
  end.

Definition sampleConversation : list bedrockChatMessage :=
  [MsgSystem (TextString "be brief"); MsgUser (UserParts [UserPartOther]);
   MsgAssistant (AssistantString ""); MsgTool (TextString "42") "call-1";
   MsgSystem (TextParts ["a"; "b"])].

(** A read that ends where a message ends: it decodes as a sequence of
    whole messages. *)
Inductive aligned (L : StreamLibs) : bytes -> Prop :=
| aligned_empty : aligned L ""
| aligned_message data payload rest :
    Decode L data = Some (payload, rest) -> aligned L rest -> aligned L data.

(** The SSE text the loop of [convertEventStreamToSSE] returns. *)
Definition loopSSE (L : StreamLibs) (fuel : nat) (data result : bytes)
  (tokenUsage : TokenUsage) (model : string) : bytes :=
  fst (fst (convertEventStreamLoop L fuel data result tokenUsage model)).

(** Reads of a stream that is still open. *)
Definition openReads (reads : list bytes) : list (bytes * bool) :=
  map (fun r => (r, false)) reads.

(** The error of a [RequestBody] result. *)
Definition requestError (r : requestResult) : option tokenizeError := snd (fst r).

Definition sampleEmbeddingChat : EmbeddingChatRequest :=
  mkEmbeddingChatRequest
    [OfSystem (ContentString "a"); OfUser ContentNil; OfUser (ContentString "b")]
    None None.

Definition sampleEmbeddingCompletion : EmbeddingCompletionRequest :=
  mkEmbeddingCompletionRequest (InputStrings ["Release notes"; ""; "v2"])
    (Some 256%Z) (Some TaskTypeRetrievalDocument).

(* ================================================================== *)
(** * Properties *)
(* ================================================================== *)

(** ** Induction on decoded JSON *)

Lemma json_ind (P : json -> Prop)
  (Hnull : P JNull)
  (Hbool : forall b, P (JBool b))
  (Hnum : forall g, P (JNum g))
  (Hstr : forall s, P (JStr s))
  (Harr : forall l, Forall P l -> P (JArr l))
  (Hobj : forall m, Forall (fun kv => P (snd kv)) m -> P (JObj m)) :
  forall v, P v.
Proof.
  fix IH 1. intros [ | b | g | s | l | m ].
  - exact Hnull.
  - apply Hbool.
  - apply Hnum.
  - apply Hstr.
  - apply Harr. induction l as [ | x l IHl ]; constructor; [ apply IH | exact IHl ].
  - apply Hobj. induction m as [ | [k x] m IHm ]; constructor;
      [ apply IH | exact IHm ].
Qed.

(** ** Reference retrieval *)

(** A segment that is absent from the map reached so far is reported as an
    error. *)
Lemma retrieveRefLoop_absent path component rest out :
  map_get component out = None ->
  retrieveRefLoop path (component :: rest) out = Err (ErrRefNotFound path).
Proof. intros H. simpl. rewrite H. reflexivity. Qed.

(** A segment that is present but holds something else than a map makes the
    type assertion panic. *)
Lemma retrieveRefLoop_non_object path component rest out v :
  map_get component out = Some v -> is_object v = false ->
  retrieveRefLoop path (component :: rest) out = Panic.
Proof.
  intros H Hv. simpl. rewrite H. destruct v; try reflexivity. discriminate.
Qed.

(** When every segment leads to a map, the loop ends on the referenced map. *)
Lemma retrieveRefLoop_object path component rest out m :
  map_get component out = Some (JObj m) ->
  retrieveRefLoop path (component :: rest) out = retrieveRefLoop path rest m.
Proof. intros H. simpl. rewrite H. reflexivity. Qed.

(** The two retrieval functions are the same function. *)
Lemma retrieveRef_same path schema :
  retrieveRef path schema = jsonSchemaRetrieveRef path schema.
Proof. reflexivity. Qed.

(** The loop never exceeds a depth and, when it returns a map, the result of
    retrieval is the copy of that map. *)
Lemma jsonSchemaRetrieveRef_ok path schema c0 rest out :
  strings_Split path "/" = c0 :: rest -> c0 = "#" ->
  retrieveRefLoop path rest schema = Ok out ->
  jsonSchemaRetrieveRef path schema = Ok (jsonSchemaDeepCopyAny (JObj out)).
Proof.
  intros Hs -> Hl. unfold jsonSchemaRetrieveRef. rewrite Hs. simpl.
  rewrite Hl. reflexivity.
Qed.

(** C8 (evaluation at the failing input).  With the path [#/a/b] and the
    document [{"a": "x"}] the segment [a] is present but is a string, not a
    JSON object: both retrieval functions panic on the type assertion instead
    of returning an error.  An absent segment is reported as an error
    ([#/a/b] in [{"a": {}}]). *)
Theorem retrieveRef_panics_on_non_object_segment :
  jsonSchemaRetrieveRef "#/a/b" [("a", JStr "x")] = Panic /\
  retrieveRef "#/a/b" [("a", JStr "x")] = Panic /\
  jsonSchemaRetrieveRef "#/a" [("a", JNull)] = Panic /\
  jsonSchemaRetrieveRef "#/a/b" [("a", JObj [])] = Err (ErrRefNotFound "#/a/b").
Proof. repeat split; reflexivity. Qed.

(** ** Tokenize: union validation and body parsing *)

(** C9.  [Validate] rejects exactly the union states with both payloads or
    with none, and accepts a union with exactly one; the [RequestBody] of each
    of the four tokenize translators returns that validation error, wrapped,
    with no headers and no body (and leaves the translator's request model as
    it was) whenever validation fails. *)
Theorem tokenize_union_validated_before_translation :
  (forall c ch,
      Validate (mkTokenizeRequestUnion (Some c) (Some ch)) = Some ErrOnlyOneRequestType) /\
  Validate (mkTokenizeRequestUnion None None) = Some ErrOneRequestTypeMustBeSet /\
  (forall c, Validate (mkTokenizeRequestUnion (Some c) None) = None) /\
  (forall ch, Validate (mkTokenizeRequestUnion None (Some ch)) = None) /\
  (forall req, Validate req = None <-> exactly_one req = true) /\
  (forall L backend modelNameOverride requestModel apiVersion original req force,
      match Validate req with
      | Some e =>
          RequestBody L backend modelNameOverride requestModel apiVersion
            original req force
          = ([], None, Some (ErrInvalidTokenizeRequest e), requestModel)
      | None => True
      end).
Proof.
  repeat split; try reflexivity.
  - destruct req as [[c|] [ch|]]; cbv; intros H; congruence.
  - destruct req as [[c|] [ch|]]; cbv; intros H; congruence.
  - intros L backend ov rm av original req force.
    destruct (Validate req) as [e|] eqn:He; [ | exact I ].
    destruct backend; simpl;
      unfold TranslatorV1Tokenize_RequestBody, ToGCPVertexAI_RequestBody,
        ToGCPAnthropic_RequestBody, ToAWSBedrock_RequestBody, providerRequestBody;
      rewrite He; reflexivity.
Qed.

(** C10.  For a body that decodes to a JSON object, [ParseBody] looks only at
    the presence of the top-level key [messages]: with it the body is decoded
    and validated as a chat tokenize request, without it as a completion
    tokenize request, whether or not [prompt] is there.  On success exactly
    one variant of the union is populated, the populated variant is the chat
    one exactly when [messages] is present, the streaming flag is false and no
    mutated body is returned. *)
Theorem parse_body_classifies_by_messages_key
  (L : TokenizeLibs) (body : bytes) (rawRequest : object)
  (Hraw : unmarshalRaw L body = Some rawRequest) :
  ParseBody L body =
    match map_get "messages" rawRequest with
    | Some _ =>
        match unmarshalChatReq L body with
        | None => inr ErrUnmarshalChat
        | Some chatReq =>
            match chatValidate chatReq with
            | Some e => inr (ErrInvalidChatRequest e)
            | None =>
                inl (tchModel chatReq,
                     mkTokenizeRequestUnion None (Some chatReq), false, None)
            end
        end
    | None =>
        match unmarshalCompletionReq L body with
        | None => inr ErrUnmarshalCompletion
        | Some completionReq =>
            inl (tcModel completionReq,
                 mkTokenizeRequestUnion (Some completionReq) None, false, None)
        end
    end
  /\
  (forall model req stream mutated,
      ParseBody L body = inl (model, req, stream, mutated) ->
      exactly_one req = true /\
      stream = false /\ mutated = None /\
      (OfChat req <> None <-> map_get "messages" rawRequest <> None) /\
      (OfCompletion req <> None <-> map_get "messages" rawRequest = None)).
Proof.
  assert (E : ParseBody L body =
    match map_get "messages" rawRequest with
    | Some _ =>
        match unmarshalChatReq L body with
        | None => inr ErrUnmarshalChat
        | Some chatReq =>
            match chatValidate chatReq with
            | Some e => inr (ErrInvalidChatRequest e)
            | None =>
                inl (tchModel chatReq,
                     mkTokenizeRequestUnion None (Some chatReq), false, None)
            end
        end
    | None =>
        match unmarshalCompletionReq L body with
        | None => inr ErrUnmarshalCompletion
        | Some completionReq =>
            inl (tcModel completionReq,
                 mkTokenizeRequestUnion (Some completionReq) None, false, None)
        end
    end).
  { unfold ParseBody. rewrite Hraw.
    destruct (map_get "messages" rawRequest) as [x|].
    - destruct (unmarshalChatReq L body) as [c|]; [ | reflexivity ].
      destruct (chatValidate c); reflexivity.
    - destruct (unmarshalCompletionReq L body) as [c|]; reflexivity. }
  split; [ exact E | ].
  intros model req stream mutated H. rewrite E in H.
  destruct (map_get "messages" rawRequest) as [x|].
  - destruct (unmarshalChatReq L body) as [c|]; [ | discriminate ].
    destruct (chatValidate c); [ discriminate | ].
    injection H as <- <- <- <-. simpl.
    repeat split; try congruence; intros; congruence.
  - destruct (unmarshalCompletionReq L body) as [c|]; [ | discriminate ].
    injection H as <- <- <- <-. simpl.
    repeat split; try congruence; intros; congruence.
Qed.

Lemma parse_body_classifies_by_messages_key_witness :
  unmarshalRaw sampleTokenizeLibs "chat"
    = Some [("model", JStr "m"); ("messages", JArr [])] /\
  ParseBody sampleTokenizeLibs "chat"
    = inl ("m", mkTokenizeRequestUnion None (Some sampleChatReq), false, None) /\
  ParseBody sampleTokenizeLibs "completion"
    = inl ("m", mkTokenizeRequestUnion (Some sampleCompletionReq) None, false, None).
Proof.
  split; [ reflexivity | split ].
  - exact (proj1 (parse_body_classifies_by_messages_key sampleTokenizeLibs "chat"
                    [("model", JStr "m"); ("messages", JArr [])] eq_refl)).
  - exact (proj1 (parse_body_classifies_by_messages_key sampleTokenizeLibs "completion"
                    [("model", JStr "m")] eq_refl)).
Defined.

(** ** Token accounting *)

Local Open Scope Z_scope.

Lemma uint32_small x : 0 <= x < 2 ^ 32 -> uint32 x = x.
Proof. intros H. unfold uint32. apply Z.mod_small. exact H. Qed.

(** The copying constructor yields the provider's numbers, so the invariant
    holds for it exactly when the provider's numbers satisfy it. *)
Lemma setOpenAIUsage_invariant usage cached :
  PromptTokensDetails usage = Some cached ->
  0 <= PromptTokens usage < 2 ^ 32 ->
  0 <= CompletionTokens usage < 2 ^ 32 ->
  0 <= TotalTokens usage < 2 ^ 32 ->
  0 <= cached < 2 ^ 32 ->
  usage_invariant (setOpenAIUsage usage emptyTokenUsage)
  = (TotalTokens usage =? PromptTokens usage + CompletionTokens usage)
    && (cached <=? PromptTokens usage).
Proof.
  intros Hc Hp Ho Ht Hcr. unfold setOpenAIUsage. rewrite Hc.
  unfold usage_invariant. simpl.
  rewrite !uint32_small by assumption. reflexivity.
Qed.

(** C2, counterexample.  The AWS InvokeModel OpenAI translator builds its
    usage record by copying the counters of the provider's [usage] object; for
    a response that reports prompt 1, completion 1, total 5 and 3 cached
    tokens all four counters are set, the total is not input plus output and
    the cached input exceeds the input. *)
Lemma copied_usage_breaks_invariant :
  let u := setOpenAIUsage (mkUsage 1 1 5 (Some 3)) emptyTokenUsage in
  all_set u = true /\
  inputTokens u = Some 1 /\ outputTokens u = Some 1 /\
  totalTokens u = Some 5 /\ cachedInputTokens u = Some 3 /\
  usage_invariant u = false.
Proof. repeat split; reflexivity. Qed.

(** C2, amended.  For counters that are non-negative and whose sum fits a
    [uint32], the accountant for a provider that reports cache-read and
    cache-creation tokens apart returns input = i + c + r, cached-input =
    r + c and total = input + output, so all four counters are set, total is
    input plus output and cached-input is at most input.  A constructor that
    copies the provider's counters satisfies the invariant exactly when the
    provider's counters do. *)
Theorem token_accounting_invariant (i o r c : Z)
  (Hi : 0 <= i) (Ho : 0 <= o) (Hr : 0 <= r) (Hc : 0 <= c)
  (Hfit : i + c + r + o < 2 ^ 32) :
  let u := ExtractTokenUsageFromAnthropic i o r c in
  inputTokens u = Some (i + c + r) /\
  outputTokens u = Some o /\
  cachedInputTokens u = Some (r + c) /\
  totalTokens u = Some ((i + c + r) + o) /\
  all_set u = true /\
  usage_invariant u = true /\
  (forall usage cached,
      PromptTokensDetails usage = Some cached ->
      0 <= PromptTokens usage < 2 ^ 32 ->
      0 <= CompletionTokens usage < 2 ^ 32 ->
      0 <= TotalTokens usage < 2 ^ 32 ->
      0 <= cached < 2 ^ 32 ->
      usage_invariant (setOpenAIUsage usage emptyTokenUsage)
      = (TotalTokens usage =? PromptTokens usage + CompletionTokens usage)
        && (cached <=? PromptTokens usage)).
Proof.
  assert (Hin : uint32 (i + c + r) = i + c + r) by (apply uint32_small; lia).
  assert (Hout : uint32 o = o) by (apply uint32_small; lia).
  assert (Hca : uint32 (r + c) = r + c) by (apply uint32_small; lia).
  assert (Hto : uint32 (i + c + r + o) = i + c + r + o) by (apply uint32_small; lia).
  unfold ExtractTokenUsageFromAnthropic, usage_invariant, all_set. simpl.
  rewrite Hin, Hout, Hca, Hto.
  repeat split.
  - rewrite Z.eqb_refl. simpl. apply Z.leb_le. lia.
  - intros usage cached. apply setOpenAIUsage_invariant.
Qed.

Lemma token_accounting_invariant_witness :
  let u := ExtractTokenUsageFromAnthropic 70 25 10 5 in
  inputTokens u = Some 85 /\ cachedInputTokens u = Some 15 /\
  totalTokens u = Some 110 /\ usage_invariant u = true.
Proof.
  pose proof (token_accounting_invariant 70 25 10 5
                ltac:(lia) ltac:(lia) ltac:(lia) ltac:(lia) ltac:(reflexivity)) as H.
  simpl in H. destruct H as (H1 & _ & H3 & H4 & _ & H6 & _).
  repeat split; assumption.
Defined.

Local Close Scope Z_scope.

(** ** Byte strings *)

Lemma append_nil_r (s : string) : s ++ "" = s.
Proof. induction s as [ | c s IH ]; simpl; [ reflexivity | now rewrite IH ]. Qed.

Lemma append_assoc (a b c : string) : (a ++ b) ++ c = a ++ (b ++ c).
Proof. induction a as [ | x a IH ]; simpl; [ reflexivity | now rewrite IH ]. Qed.

Lemma length_append (a b : string) :
  String.length (a ++ b) = String.length a + String.length b.
Proof. induction a as [ | x a IH ]; simpl; [ reflexivity | now rewrite IH ]. Qed.

Lemma drop_append (a b : string) : drop (String.length a) (a ++ b) = b.
Proof. induction a as [ | x a IH ]; simpl; [ reflexivity | exact IH ]. Qed.

Lemma length_zero (s : string) : String.length s = 0 -> s = "".
Proof. destruct s; simpl; [ reflexivity | discriminate ]. Qed.

Lemma drop_split (n : nat) (s : string) :
  n <= String.length s -> exists p, s = p ++ drop n s /\ String.length p = n.
Proof.
  revert s. induction n as [ | n IH ]; intros s Hn.
  - exists "". split; reflexivity.
  - destruct s as [ | c s ]; simpl in Hn; [ lia | ].
    destruct (IH s ltac:(lia)) as (p & Hp & Hl).
    exists (String c p). simpl. split; [ now rewrite <- Hp | now rewrite Hl ].
Qed.

Lemma HasSuffix_iff (s suffix : string) :
  HasSuffix s suffix = true <-> exists p, s = p ++ suffix.
Proof.
  unfold HasSuffix. split.
  - intros H. apply andb_prop in H as [Hl He].
    apply Nat.leb_le in Hl. apply String.eqb_eq in He.
    destruct (drop_split (String.length s - String.length suffix) s ltac:(lia))
      as (p & Hp & _).
    exists p. rewrite He in Hp. exact Hp.
  - intros (p & ->). rewrite length_append. apply andb_true_intro. split.
    + apply Nat.leb_le. lia.
    + replace (String.length p + String.length suffix - String.length suffix)
        with (String.length p) by lia.
      rewrite drop_append. apply String.eqb_refl.
Qed.

Lemma HasSuffix_append (s suffix : string) : HasSuffix (s ++ suffix) suffix = true.
Proof. apply HasSuffix_iff. now exists s. Qed.

Lemma HasSuffix_append_l (a s suffix : string) :
  HasSuffix s suffix = true -> HasSuffix (a ++ s) suffix = true.
Proof.
  intros H. apply HasSuffix_iff in H as (p & ->). apply HasSuffix_iff.
  exists (a ++ p). symmetry. apply append_assoc.
Qed.

(** ** The terminal sentinel *)

Lemma awsInvokeBody_eq L o body endOfStream :
  awsInvokeBody (awsInvokeResponseBody L o body endOfStream)
  = if endOfStream && negb (HasSuffix (convertedSSE L o body) doneSentinel)
    then convertedSSE L o body ++ doneSentinel
    else convertedSSE L o body.
Proof.
  unfold awsInvokeResponseBody, convertedSSE, awsInvokeBody.
  destruct (convertEventStreamToSSE L o body) as [[out tu] o']. reflexivity.
Qed.

Lemma awsOpenAIBody_eq L requestModel body endOfStream :
  awsOpenAIBody (awsOpenAIResponseBody L requestModel body endOfStream)
  = if endOfStream && negb (HasSuffix body doneSentinelShort)
    then body ++ doneSentinelShort
    else body.
Proof. reflexivity. Qed.

(** C3, counterexample.  The AWS OpenAI translator ends a stream with
    ["data: [DONE]\n"], one line feed, not with ["data: [DONE]\n\n"]; and an
    end-of-stream call with an empty body that follows a call which already
    emitted the sentinel emits it a second time, in both translators. *)
Lemma sentinel_differs_and_repeats :
  let chunk := "data: {}" ++ newline ++ newline in
  awsOpenAIBody (awsOpenAIResponseBody lengthPrefixedLibs "gpt-4" chunk true)
    = chunk ++ "data: [DONE]" ++ newline /\
  HasSuffix (awsOpenAIBody (awsOpenAIResponseBody lengthPrefixedLibs "gpt-4" chunk true))
    doneSentinel = false /\
  awsInvokeFeedAll lengthPrefixedLibs idleInvokeState [("", true); ("", true)]
    = doneSentinel ++ doneSentinel /\
  awsOpenAIFeedAll lengthPrefixedLibs "gpt-4"
    [(chunk ++ doneSentinel, false); ("", true)]
    = chunk ++ doneSentinel ++ doneSentinelShort.
Proof. repeat split; reflexivity. Qed.

Lemma awsInvokeFeedAll_ends L o calls body :
  HasSuffix (awsInvokeFeedAll L o (calls ++ [(body, true)])%list) doneSentinel = true.
Proof.
  revert o. induction calls as [ | [b e] calls IH ]; intros o; simpl.
  - pose proof (awsInvokeBody_eq L o body true) as E. unfold awsInvokeBody in E.
    destruct (awsInvokeResponseBody L o body true) as [[[[h nb] tu] rm] o'].
    simpl in E. rewrite append_nil_r, E. simpl.
    destruct (HasSuffix (convertedSSE L o body) doneSentinel) eqn:Hs; simpl.
    + exact Hs.
    + apply HasSuffix_append.
  - destruct (awsInvokeResponseBody L o b e) as [[[[h nb] tu] rm] o'].
    apply HasSuffix_append_l. apply IH.
Qed.

Lemma awsOpenAIFeedAll_ends L requestModel calls body :
  HasSuffix (awsOpenAIFeedAll L requestModel (calls ++ [(body, true)])%list)
    doneSentinelShort = true.
Proof.
  induction calls as [ | [b e] calls IH ]; simpl.
  - rewrite append_nil_r.
    destruct (HasSuffix body doneSentinelShort) eqn:Hs; simpl.
    + exact Hs.
    + apply HasSuffix_append.
  - apply HasSuffix_append_l. apply IH.
Qed.

(** C3, amended.  On a call with [endOfStream = false] a streaming translator
    appends nothing to the converted body.  On a call with
    [endOfStream = true] it appends its terminal sentinel exactly when the
    body converted in that call does not already end with it, so the body of
    that call, and with it the output of every sequence of calls that ends
    with an end-of-stream call, ends with the sentinel.  The sentinel is
    ["data: [DONE]\n\n"] for the AWS InvokeModel OpenAI translator and
    ["data: [DONE]\n"] for the AWS OpenAI translator.  The test looks at the
    body of the current call only. *)
Theorem terminal_sentinel_per_call (L : StreamLibs) (o : awsInvokeState)
  (requestModel : string) (body : bytes) :
  doneSentinel
    = "data: [DONE]" ++ String (ascii_of_nat 10) (String (ascii_of_nat 10) "") /\
  doneSentinelShort = "data: [DONE]" ++ String (ascii_of_nat 10) "" /\
  awsInvokeBody (awsInvokeResponseBody L o body false) = convertedSSE L o body /\
  awsInvokeBody (awsInvokeResponseBody L o body true)
    = (if HasSuffix (convertedSSE L o body) doneSentinel
       then convertedSSE L o body
       else convertedSSE L o body ++ doneSentinel) /\
  HasSuffix (awsInvokeBody (awsInvokeResponseBody L o body true)) doneSentinel = true /\
  awsOpenAIBody (awsOpenAIResponseBody L requestModel body false) = body /\
  awsOpenAIBody (awsOpenAIResponseBody L requestModel body true)
    = (if HasSuffix body doneSentinelShort then body else body ++ doneSentinelShort) /\
  HasSuffix (awsOpenAIBody (awsOpenAIResponseBody L requestModel body true))
    doneSentinelShort = true /\
  (forall calls,
      HasSuffix (awsInvokeFeedAll L o (calls ++ [(body, true)])%list) doneSentinel
      = true) /\
  (forall calls,
      HasSuffix (awsOpenAIFeedAll L requestModel (calls ++ [(body, true)])%list)
        doneSentinelShort = true).
Proof.
  split; [ reflexivity | ]. split; [ reflexivity | ].
  split. { rewrite awsInvokeBody_eq. reflexivity. }
  split.
  { rewrite awsInvokeBody_eq. simpl.
    destruct (HasSuffix (convertedSSE L o body) doneSentinel); reflexivity. }
  split.
  { rewrite awsInvokeBody_eq. simpl.
    destruct (HasSuffix (convertedSSE L o body) doneSentinel) eqn:E; simpl;
      [ exact E | apply HasSuffix_append ]. }
  split. { reflexivity. }
  split.
  { rewrite awsOpenAIBody_eq. simpl.
    destruct (HasSuffix body doneSentinelShort); reflexivity. }
  split.
  { rewrite awsOpenAIBody_eq. simpl.
    destruct (HasSuffix body doneSentinelShort) eqn:E; simpl;
      [ exact E | apply HasSuffix_append ]. }
  split.
  - intros calls. apply awsInvokeFeedAll_ends.
  - intros calls. apply awsOpenAIFeedAll_ends.
Qed.

(** ** Buffered and unbuffered EventStream decoding *)

Lemma consuming_empty L : consuming L -> Decode L "" = None.
Proof.
  intros Hc. destruct (Decode L "") as [[p r]|] eqn:E; [ | reflexivity ].
  apply Hc in E. simpl in E. lia.
Qed.

(** The text emitted so far is only ever extended. *)
Lemma extractAnthropicLoop_acc L fuel buffered result :
  extractAnthropicLoop L fuel buffered result
  = (result ++ fst (extractAnthropicLoop L fuel buffered ""),
     snd (extractAnthropicLoop L fuel buffered "")).
Proof.
  revert buffered result. induction fuel as [ | fuel IH ]; intros buffered result.
  - simpl. now rewrite append_nil_r.
  - cbn [extractAnthropicLoop]. destruct (Decode L buffered) as [[p rest]|].
    + destruct (unmarshalPayload L p) as [pb|]; [ | apply IH ].
      destruct (String.eqb pb ""); [ apply IH | ].
      destruct (base64Decode L pb) as [d|]; [ | apply IH ].
      set (ev := "event: " ++ eventType L d ++ newline ++ "data: " ++ d
                 ++ newline ++ newline).
      rewrite (IH rest (result ++ ev)), (IH rest ("" ++ ev)).
      cbn [fst snd]. change ("" ++ ev) with ev.
      rewrite !append_assoc. reflexivity.
    + cbn [fst snd]. now rewrite append_nil_r.
Qed.

(** Fuel above the length of the buffer is never used up. *)
Lemma extractAnthropicLoop_fuel L (Hc : consuming L) fuel1 :
  forall fuel2 buffered result,
    String.length buffered < fuel1 -> String.length buffered < fuel2 ->
    extractAnthropicLoop L fuel1 buffered result
    = extractAnthropicLoop L fuel2 buffered result.
Proof.
  induction fuel1 as [ | fuel1 IH ]; intros fuel2 buffered result H1 H2; [ lia | ].
  destruct fuel2 as [ | fuel2 ]; [ lia | ]. simpl.
  destruct (Decode L buffered) as [[p rest]|] eqn:E; [ | reflexivity ].
  apply Hc in E.
  destruct (unmarshalPayload L p) as [pb|]; [ | apply IH; lia ].
  destruct (String.eqb pb ""); [ apply IH; lia | ].
  destruct (base64Decode L pb) as [d|]; apply IH; lia.
Qed.

(** Decoding [x ++ y] is decoding [x] and then decoding what [x] left
    unread followed by [y]. *)
Lemma extractAnthropicLoop_split L (Hc : consuming L) (Hp : prefix_stable L) fuel :
  forall x y result,
    String.length x < fuel ->
    extractAnthropicLoop L (S (String.length (x ++ y))) (x ++ y) result
    = let '(r1, remaining) := extractAnthropicLoop L fuel x result in
      extractAnthropicLoop L (S (String.length (remaining ++ y))) (remaining ++ y) r1.
Proof.
  induction fuel as [ | fuel IH ]; intros x y result Hx; [ lia | ].
  cbn [extractAnthropicLoop].
  destruct (Decode L x) as [[p rest]|] eqn:E.
  - rewrite (Hp _ _ _ y E). pose proof (Hc _ _ _ E) as Hlt.
    assert (Hf : forall r,
      extractAnthropicLoop L (String.length (x ++ y)) (rest ++ y) r
      = extractAnthropicLoop L (S (String.length (rest ++ y))) (rest ++ y) r).
    { intros r. apply extractAnthropicLoop_fuel; [ exact Hc | | lia ].
      rewrite !length_append. lia. }
    destruct (unmarshalPayload L p) as [pb|];
      [ | rewrite Hf; apply IH; lia ].
    destruct (String.eqb pb ""); [ rewrite Hf; apply IH; lia | ].
    destruct (base64Decode L pb) as [d|]; rewrite Hf; apply IH; lia.
  - reflexivity.
Qed.

Lemma extractAnthropic_is_loop L (Hc : consuming L) buffered :
  extractAnthropicSSEFromEventStream L buffered
  = extractAnthropicLoop L (S (String.length buffered)) buffered "".
Proof.
  unfold extractAnthropicSSEFromEventStream.
  destruct (String.length buffered =? 0)%nat eqn:E; [ | reflexivity ].
  apply Nat.eqb_eq in E. apply length_zero in E. subst buffered. simpl.
  now rewrite consuming_empty.
Qed.

(** One read of [x ++ y] gives what the two reads [x], [y] give. *)
Lemma awsAnthropicFeed_split L (Hc : consuming L) (Hp : prefix_stable L)
  bufferedBody x y :
  awsAnthropicFeed L bufferedBody (x ++ y)
  = let '(sse, bufferedBody') := awsAnthropicFeed L bufferedBody x in
    let '(sse', final) := awsAnthropicFeed L bufferedBody' y in
    (sse ++ sse', final).
Proof.
  unfold awsAnthropicFeed. rewrite !extractAnthropic_is_loop by exact Hc.
  rewrite <- append_assoc.
  rewrite (extractAnthropicLoop_split L Hc Hp (S (String.length (bufferedBody ++ x))))
    by lia.
  destruct (extractAnthropicLoop L (S (String.length (bufferedBody ++ x)))
              (bufferedBody ++ x) "") as [r1 remaining].
  rewrite extractAnthropic_is_loop by exact Hc.
  rewrite extractAnthropicLoop_acc.
  destruct (extractAnthropicLoop L (S (String.length (remaining ++ y)))
              (remaining ++ y) "") as [r2 final].
  reflexivity.
Qed.

(** The buffered decoder of the AWS Anthropic translator: for a framing that
    reads at least one byte per message and in which a complete message is
    not changed by the bytes that follow it, the text emitted over a sequence
    of reads and the bytes left in the buffer are those of a single read of
    the concatenation; bytes that do not yet form a message stay in the
    buffer. *)
Lemma awsAnthropic_reads_independent_of_boundaries
  L (Hc : consuming L) (Hp : prefix_stable L) reads :
  forall bufferedBody r,
    awsAnthropicFeedAll L bufferedBody (r :: reads)
    = awsAnthropicFeed L bufferedBody (concat_reads (r :: reads)).
Proof.
  induction reads as [ | r2 reads IH ]; intros bufferedBody r.
  - simpl. rewrite append_nil_r.
    destruct (awsAnthropicFeed L bufferedBody r) as [sse b'].
    now rewrite append_nil_r.
  - change (concat_reads (r :: r2 :: reads)) with (r ++ concat_reads (r2 :: reads)).
    rewrite awsAnthropicFeed_split by assumption.
    cbn [awsAnthropicFeedAll].
    destruct (awsAnthropicFeed L bufferedBody r) as [sse b'].
    specialize (IH b' r2). cbn [awsAnthropicFeedAll] in IH. rewrite IH.
    reflexivity.
Qed.

Lemma lengthPrefixed_consuming : consuming lengthPrefixedLibs.
Proof.
  intros data payload rest H. simpl in H. unfold lengthPrefixedDecode in H.
  destruct data as [ | c data ]; [ discriminate | ].
  destruct (nat_of_ascii c <=? String.length data)%nat eqn:E; [ | discriminate ].
  injection H as _ <-. simpl.
  assert (G : forall n s, String.length (drop n s) <= String.length s).
  { induction n as [ | n IHn ]; intros s; simpl; [ lia | ].
    destruct s; simpl; [ lia | ]. specialize (IHn s). lia. }
  specialize (G (nat_of_ascii c) data). lia.
Qed.

Lemma take_append n a b :
  n <= String.length a -> take n (a ++ b) = take n a.
Proof.
  unfold take. revert a. induction n as [ | n IH ]; intros a Hn.
  - destruct a; destruct b; reflexivity.
  - destruct a as [ | c a ]; simpl in Hn; [ lia | ]. simpl.
    f_equal. apply IH. lia.
Qed.

Lemma drop_append_le n a b :
  n <= String.length a -> drop n (a ++ b) = drop n a ++ b.
Proof.
  revert a. induction n as [ | n IH ]; intros a Hn; [ reflexivity | ].
  destruct a as [ | c a ]; simpl in Hn; [ lia | ]. simpl. apply IH. lia.
Qed.

Lemma lengthPrefixed_prefix_stable : prefix_stable lengthPrefixedLibs.
Proof.
  intros data payload rest more H. simpl in *. unfold lengthPrefixedDecode in *.
  destruct data as [ | c data ]; [ discriminate | ]. simpl.
  destruct (nat_of_ascii c <=? String.length data)%nat eqn:E; [ | discriminate ].
  apply Nat.leb_le in E. injection H as <- <-.
  rewrite length_append.
  destruct (nat_of_ascii c <=? String.length data + String.length more)%nat eqn:E2.
  - rewrite take_append, drop_append_le by exact E. reflexivity.
  - apply Nat.leb_gt in E2. lia.
Qed.

(** C4 (evaluation at the failing input).  [convertEventStreamToSSE] of the
    AWS InvokeModel OpenAI translator decodes the bytes of the current call
    only and keeps no buffer: when one message arrives in two reads [a] and
    [b], neither read decodes and the message is lost, whereas a single read
    of [a ++ b] emits its chunk.  What the translator emits depends on where
    the read boundary falls. *)
Theorem awsInvoke_loses_frame_split_across_reads
  (L : StreamLibs) (o : awsInvokeState) (a b payload field decoded : bytes)
  (Ha : a <> "")
  (Hda : Decode L a = None) (Hdb : Decode L b = None)
  (Hdab : Decode L (a ++ b) = Some (payload, ""))
  (Hde : Decode L "" = None)
  (Hpayload : unmarshalPayload L payload = Some field)
  (Hbase64 : base64Decode L field = Some decoded) :
  awsInvokeFeedAll L o [(a, false); (b, false)] = "" /\
  awsInvokeFeedAll L o [(a ++ b, false)] = "data: " ++ decoded ++ newline ++ newline.
Proof.
  assert (Hnz : forall s, s <> "" -> (String.length s =? 0)%nat = false).
  { intros s Hs. destruct s; [ congruence | reflexivity ]. }
  assert (Hconv : forall o' s, Decode L s = None ->
                    convertEventStreamToSSE L o' s = ("", emptyTokenUsage, o')).
  { intros o' s Hs. unfold convertEventStreamToSSE.
    destruct (String.length s =? 0)%nat; [ reflexivity | ].
    simpl. rewrite Hs. destruct o'; reflexivity. }
  split.
  - simpl. unfold awsInvokeResponseBody.
    rewrite (Hconv o a Hda). simpl. rewrite (Hconv o b Hdb). reflexivity.
  - simpl. unfold awsInvokeResponseBody, convertEventStreamToSSE.
    rewrite Hnz.
    2:{ destruct a; [ congruence | discriminate ]. }
    cbn [convertEventStreamLoop]. rewrite Hdab, Hpayload, Hbase64.
    destruct (String.length (a ++ b)) as [ | n ] eqn:El.
    { apply length_zero in El. destruct a; [ congruence | discriminate ]. }
    cbn [convertEventStreamLoop]. rewrite Hde.
    destruct (unmarshalChunk L decoded) as [[[u|] m]|]; simpl;
      rewrite ?append_nil_r; reflexivity.
Qed.

Lemma awsInvoke_loses_frame_split_across_reads_witness :
  awsInvokeFeedAll lengthPrefixedLibs idleInvokeState
    [(sampleFrameHead, false); (sampleFrameTail, false)] = "" /\
  awsInvokeFeedAll lengthPrefixedLibs idleInvokeState
    [(sampleFrameHead ++ sampleFrameTail, false)]
  = "data: " ++ "abc" ++ newline ++ newline.
Proof.
  apply (awsInvoke_loses_frame_split_across_reads lengthPrefixedLibs idleInvokeState
           sampleFrameHead sampleFrameTail "abc" "abc" "abc");
    first [ reflexivity | discriminate ].
Defined.

(** ** Maps *)

Lemma mem_In (s : string) (l : list string) : mem s l = true <-> In s l.
Proof.
  unfold mem. rewrite existsb_exists. split.
  - intros (x & Hx & He). apply String.eqb_eq in He. now subst.
  - intros H. exists s. split; [ exact H | apply String.eqb_refl ].
Qed.

Lemma mem_false (s : string) (l : list string) : mem s l = false <-> ~ In s l.
Proof.
  rewrite <- mem_In. destruct (mem s l); split; intros; congruence.
Qed.

Lemma mem_app s l1 l2 : mem s (l1 ++ l2)%list = mem s l1 || mem s l2.
Proof. unfold mem. apply existsb_app. Qed.

Lemma nodupb_NoDup (l : list string) : nodupb l = true <-> NoDup l.
Proof.
  induction l as [ | x l IH ]; simpl.
  - split; [ constructor | reflexivity ].
  - rewrite andb_true_iff, negb_true_iff, mem_false, IH. split.
    + intros [H1 H2]. now constructor.
    + intros H. inversion H; subst. now split.
Qed.

Lemma map_get_set_same k v m : map_get k (map_set k v m) = Some v.
Proof.
  induction m as [ | [k' v'] m IH ]; simpl.
  - now rewrite String.eqb_refl.
  - destruct (String.eqb k k') eqn:E; simpl; rewrite E; [ reflexivity | exact IH ].
Qed.

Lemma map_get_set_other k k' v m :
  k <> k' -> map_get k (map_set k' v m) = map_get k m.
Proof.
  intros Hne. apply String.eqb_neq in Hne.
  induction m as [ | [k2 v2] m IH ]; simpl.
  - now rewrite Hne.
  - destruct (String.eqb k' k2) eqn:E; simpl.
    + apply String.eqb_eq in E. subst k2. now rewrite Hne.
    + now rewrite IH.
Qed.

Lemma map_get_None_keys k m : map_get k m = None <-> mem k (keys m) = false.
Proof.
  induction m as [ | [k' v'] m IH ]; simpl.
  - split; reflexivity.
  - destruct (String.eqb k k'); simpl; [ split; discriminate | exact IH ].
Qed.

Lemma map_get_In k v m : map_get k m = Some v -> In (k, v) m.
Proof.
  induction m as [ | [k' v'] m IH ]; simpl; [ discriminate | ].
  destruct (String.eqb k k') eqn:E.
  - apply String.eqb_eq in E. subst. intros [= ->]. now left.
  - intros H. right. now apply IH.
Qed.

Lemma In_map_get k v m :
  nodupb (keys m) = true -> In (k, v) m -> map_get k m = Some v.
Proof.
  induction m as [ | [k' v'] m IH ]; simpl; [ intros _ [] | ].
  intros Hn [H | H].
  - injection H as -> ->. now rewrite String.eqb_refl.
  - apply andb_prop in Hn as [Hk Hn]. apply negb_true_iff in Hk.
    destruct (String.eqb k k') eqn:E.
    + apply String.eqb_eq in E. subst k'.
      apply mem_false in Hk. exfalso. apply Hk.
      change k with (fst (k, v)). now apply in_map.
    + now apply IH.
Qed.

Lemma map_set_absent k v m :
  mem k (keys m) = false -> map_set k v m = (m ++ [(k, v)])%list.
Proof.
  induction m as [ | [k' v'] m IH ]; simpl; [ reflexivity | ].
  destruct (String.eqb k k'); simpl; [ discriminate | ].
  intros H. now rewrite IH.
Qed.

Lemma keys_map_set k v m :
  keys (map_set k v m) = if mem k (keys m) then keys m else (keys m ++ [k])%list.
Proof.
  induction m as [ | [k' v'] m IH ]; simpl; [ reflexivity | ].
  destruct (String.eqb k k') eqn:E; simpl; [ reflexivity | ].
  rewrite IH. now destruct (mem k (keys m)).
Qed.

Lemma nodupb_snoc l k :
  nodupb l = true -> mem k l = false -> nodupb (l ++ [k])%list = true.
Proof.
  induction l as [ | x l IH ]; simpl; [ reflexivity | ].
  intros H Hk. apply andb_prop in H as [Hx Hl].
  apply orb_false_elim in Hk as [Hkx Hk].
  rewrite mem_app. simpl. rewrite String.eqb_sym, Hkx. simpl.
  apply negb_true_iff in Hx. rewrite Hx. simpl. now apply IH.
Qed.

Lemma nodupb_map_set k v m :
  nodupb (keys m) = true -> nodupb (keys (map_set k v m)) = true.
Proof.
  intros H. rewrite keys_map_set. destruct (mem k (keys m)) eqn:E;
    [ exact H | now apply nodupb_snoc ].
Qed.

(** Assigning an entry that passes a test to a map whose entries pass it. *)
Lemma forallb_map_set (f : string * json -> bool) k v m :
  f (k, v) = true -> forallb f m = true -> forallb f (map_set k v m) = true.
Proof.
  intros Hkv. induction m as [ | [k' v'] m IH ]; simpl.
  - now rewrite Hkv.
  - intros H. apply andb_prop in H as [H1 H2].
    destruct (String.eqb k k') eqn:E; simpl.
    + apply String.eqb_eq in E. subst k'. now rewrite Hkv, H2.
    + now rewrite H1, IH.
Qed.

Lemma forallb_merge_into (f : string * json -> bool) res m :
  forallb f res = true -> forallb f m = true -> forallb f (merge_into res m) = true.
Proof.
  unfold merge_into. revert m. induction res as [ | [k v] res IH ]; intros m Hr Hm.
  - exact Hm.
  - simpl in *. apply andb_prop in Hr as [H1 H2].
    apply IH; [ exact H2 | now apply forallb_map_set ].
Qed.

Lemma nodupb_merge_into res m :
  nodupb (keys m) = true -> nodupb (keys (merge_into res m)) = true.
Proof.
  unfold merge_into. revert m. induction res as [ | [k v] res IH ]; intros m Hm.
  - exact Hm.
  - simpl. apply IH. now apply nodupb_map_set.
Qed.

(** ** Induction that also gives the property for the direct children *)

Lemma deep_ind (Q : json -> Prop) :
  (forall v, Forall (fun c => Q c /\ Forall Q (children c)) (children v) -> Q v) ->
  forall v, Q v.
Proof.
  intros H.
  assert (G : forall v, Q v /\ Forall Q (children v)).
  { induction v as [ | | | | l IH | m IH ] using json_ind;
      try (split; [ apply H; constructor | constructor ]).
    - split.
      + apply H. exact IH.
      + simpl. eapply Forall_impl; [ | exact IH ]. intros a [Ha _]. exact Ha.
    - assert (IH' : Forall (fun c => Q c /\ Forall Q (children c)) (map snd m)).
      { apply Forall_map. exact IH. }
      split.
      + apply H. exact IH'.
      + simpl. eapply Forall_impl; [ | exact IH' ]. intros a [Ha _]. exact Ha. }
  intros v. apply G.
Qed.

(** ** The shape of a projected schema *)

Lemma projected_obj allowed strict m :
  projected allowed strict (JObj m)
  = nodupb (keys m) && forallb (entry_projected allowed strict) m.
Proof. reflexivity. Qed.

Lemma projected_empty allowed strict : projected allowed strict (JObj []) = true.
Proof. reflexivity. Qed.

Lemma covers_switch_keys_spec allowed :
  covers_switch_keys allowed = true ->
  mem "items" allowed = true /\ mem "properties" allowed = true /\
  mem "type" allowed = true /\ mem "anyOf" allowed = true /\
  mem "nullable" allowed = true /\
  mem "$defs" allowed = false /\ mem "$ref" allowed = false.
Proof.
  unfold covers_switch_keys. rewrite !andb_true_iff, !negb_true_iff. tauto.
Qed.

Lemma ep_items allowed strict sub :
  mem "items" allowed = true ->
  projected allowed strict (JObj sub) = true ->
  entry_projected allowed strict ("items", JObj sub) = true.
Proof. intros H1 H2. unfold entry_projected. rewrite H1. cbn -[projected]. exact H2. Qed.

Lemma ep_properties allowed strict ps :
  mem "properties" allowed = true ->
  nodupb (keys ps) = true ->
  forallb (property_projected allowed strict) ps = true ->
  entry_projected allowed strict ("properties", JObj ps) = true.
Proof.
  intros H1 H2 H3. unfold entry_projected. rewrite H1. cbn -[projected forallb nodupb].
  unfold keys in H2. rewrite H2. exact H3.
Qed.

Lemma ep_type allowed strict s :
  mem "type" allowed = true ->
  entry_projected allowed strict ("type", JStr s) = true.
Proof. intros H1. unfold entry_projected. rewrite H1. reflexivity. Qed.

Lemma ep_nullable allowed strict v :
  mem "nullable" allowed = true ->
  entry_projected allowed strict ("nullable", v) = true.
Proof. intros H1. unfold entry_projected. rewrite H1. reflexivity. Qed.

Lemma ep_anyOf allowed strict l :
  mem "anyOf" allowed = true ->
  forallb (branch_projected allowed strict) l = true ->
  entry_projected allowed strict ("anyOf", JArr l) = true.
Proof.
  intros H1 H2. unfold entry_projected. rewrite H1. cbn -[projected forallb]. exact H2.
Qed.

Lemma ep_other allowed strict key value :
  mem key allowed = true ->
  String.eqb key "$defs" = false -> String.eqb key "items" = false ->
  String.eqb key "properties" = false -> String.eqb key "type" = false ->
  String.eqb key "allOf" = false -> String.eqb key "anyOf" = false ->
  entry_projected allowed strict (key, value) = true.
Proof.
  intros H1 E1 E2 E3 E4 E5 E6. unfold entry_projected.
  rewrite H1, E1, E2, E3, E4, E5, E6. reflexivity.
Qed.

Lemma projected_map_set allowed strict k v m :
  entry_projected allowed strict (k, v) = true ->
  projected allowed strict (JObj m) = true ->
  projected allowed strict (JObj (map_set k v m)) = true.
Proof.
  rewrite !projected_obj. intros Hkv H. apply andb_prop in H as [H1 H2].
  apply andb_true_intro. split.
  - now apply nodupb_map_set.
  - now apply forallb_map_set.
Qed.

Lemma projected_merge_into allowed strict res m :
  projected allowed strict (JObj res) = true ->
  projected allowed strict (JObj m) = true ->
  projected allowed strict (JObj (merge_into res m)) = true.
Proof.
  rewrite !projected_obj. intros Hr H.
  apply andb_prop in Hr as [_ Hr]. apply andb_prop in H as [H1 H2].
  apply andb_true_intro. split.
  - now apply nodupb_merge_into.
  - now apply forallb_merge_into.
Qed.

Lemma forallb_snoc {A} (f : A -> bool) l x :
  forallb f (l ++ [x])%list = forallb f l && f x.
Proof. rewrite forallb_app. simpl. now rewrite andb_true_r. Qed.

(** From here on [rec] is any function whose results are projected. *)

Lemma propertiesLoop_projected allowed rec ps :
  Forall (fun v => forall out, rec v = Ok out ->
                     projected allowed false (JObj out) = true) (map snd ps) ->
  forall out0 props,
    nodupb (keys out0) = true ->
    forallb (property_projected allowed false) out0 = true ->
    propertiesLoop rec ps out0 = Ok props ->
    nodupb (keys props) = true /\
    forallb (property_projected allowed false) props = true.
Proof.
  induction ps as [ | [pkey pvalue] ps IH ]; intros Hrec out0 props Hn Hf Hl.
  - simpl in Hl. injection Hl as <-. now split.
  - inversion Hrec as [ | ? ? Hv Hrest ]; subst. simpl in Hv.
    cbn [propertiesLoop] in Hl.
    assert (Hskip : propertiesLoop rec ps out0 = Ok props ->
                    nodupb (keys props) = true /\
                    forallb (property_projected allowed false) props = true).
    { intros H. now apply (IH Hrest out0). }
    destruct pvalue; try (now apply Hskip).
    destruct (rec (JObj l)) as [r | | | ] eqn:Er; simpl in Hl; try discriminate.
    apply (IH Hrest (map_set pkey (JObj r) out0)); [ | | exact Hl ].
    + now apply nodupb_map_set.
    + apply forallb_map_set; [ | exact Hf ]. simpl. now apply Hv.
Qed.

Lemma typeListScan_projected allowed rec ts :
  Forall (fun v => forall out, rec v = Ok out ->
                     projected allowed false (JObj out) = true) ts ->
  forall hasNull nonNullType res0 hasNull' nonNullType' res',
    (forall r, res0 = Ok r -> projected allowed false (JObj r) = true) ->
    typeListScan rec ts hasNull nonNullType res0 = (hasNull', nonNullType', res') ->
    forall r, res' = Ok r -> projected allowed false (JObj r) = true.
Proof.
  induction ts as [ | t ts IH ]; intros Hrec h nn res0 h' nn' res' H0 Hs.
  - simpl in Hs. injection Hs as <- <- <-. exact H0.
  - inversion Hrec as [ | ? ? Ht Hrest ]; subst. simpl in Hs.
    destruct (is_null_str t).
    + now apply (IH Hrest _ _ _ _ _ _ H0 Hs).
    + now apply (IH Hrest _ _ _ _ _ _ Ht Hs).
Qed.

Lemma and_then_Continue {A} (r : outcome A) k acc' :
  and_then r k = Continue acc' -> exists a, r = Ok a /\ k a = Continue acc'.
Proof. destruct r; simpl; intros H; try discriminate. now exists a. Qed.

Lemma and_then_Return_ok {A} (r : outcome A) k out :
  and_then r k = Return (Ok out) -> exists a, r = Ok a /\ k a = Return (Ok out).
Proof. destruct r; simpl; intros H; try discriminate. now exists a. Qed.

(** The [type] case never returns a result; when it goes on, the converted
    schema is still projected and [nullable] is [true]. *)
Lemma typeListEntry_no_result rec typeList acc out :
  typeListEntry rec typeList acc <> Return (Ok out).
Proof.
  unfold typeListEntry.
  destruct (negb (List.length typeList =? 2)%nat); [ discriminate | ].
  destruct (typeListScan rec typeList false JNull (Ok [])) as [[h nn] res].
  destruct (h && not_nil nn); [ | discriminate ].
  destruct nn; try discriminate.
  destruct res; simpl; discriminate.
Qed.

Lemma typeListEntry_projected allowed rec typeList acc acc' :
  mem "type" allowed = true -> mem "nullable" allowed = true ->
  Forall (fun v => forall out, rec v = Ok out ->
                     projected allowed false (JObj out) = true) typeList ->
  projected allowed false (JObj acc) = true ->
  typeListEntry rec typeList acc = Continue acc' ->
  projected allowed false (JObj acc') = true.
Proof.
  intros Ht Hn Hrec Hacc. unfold typeListEntry.
  destruct (negb (List.length typeList =? 2)%nat); [ discriminate | ].
  destruct (typeListScan rec typeList false JNull (Ok [])) as [[h nn] res] eqn:Es.
  assert (Hres : forall r, res = Ok r -> projected allowed false (JObj r) = true).
  { eapply typeListScan_projected; [ exact Hrec | | exact Es ].
    intros r [= <-]. reflexivity. }
  destruct (h && not_nil nn); [ | discriminate ].
  assert (Hplain : Continue
                     (map_set "nullable" (JBool true)
                        (map_set "type" (JStr (fmt_v nn)) acc)) = Continue acc' ->
                   projected allowed false (JObj acc') = true).
  { intros [= <-]. apply projected_map_set; [ now apply ep_nullable | ].
    apply projected_map_set; [ now apply ep_type | exact Hacc ]. }
  destruct nn; try exact Hplain.
  intros H. apply and_then_Continue in H as (r & Hr & [= <-]).
  apply projected_map_set; [ now apply ep_nullable | ].
  apply projected_merge_into; [ now apply Hres | exact Hacc ].
Qed.

Lemma jsonSchemaToGapicAnyOf_projected allowed rec vs :
  Forall (fun v => forall out, rec v = Ok out ->
                     projected allowed false (JObj out) = true) vs ->
  forall results0 nullable0 results nullable,
    forallb (branch_projected allowed false) results0 = true ->
    jsonSchemaToGapicAnyOf rec vs results0 nullable0 = Ok (results, nullable) ->
    forallb (branch_projected allowed false) results = true.
Proof.
  induction vs as [ | v vs IH ]; intros Hrec r0 n0 results nullable H0 Hl.
  - simpl in Hl. injection Hl as <- <-. exact H0.
  - inversion Hrec as [ | ? ? Hv Hrest ]; subst. simpl in Hl.
    destruct v; try discriminate.
    destruct (type_is_null l).
    + now apply (IH Hrest _ _ _ _ H0 Hl).
    + destruct (rec (JObj l)) as [r | | | ] eqn:Er; simpl in Hl; try discriminate.
      apply (IH Hrest _ _ _ _ ) in Hl; [ exact Hl | ].
      rewrite forallb_snoc, H0. unfold branch_projected.
      rewrite (Hv _ eq_refl). reflexivity.
Qed.

Lemma formatJSONSchemaAnyOf_projected allowed rec vs :
  Forall (fun v => forall out, rec v = Ok out ->
                     projected allowed false (JObj out) = true) vs ->
  forall results0 nullable0 results nullable,
    forallb (branch_projected allowed false) results0 = true ->
    formatJSONSchemaAnyOf rec vs results0 nullable0 = Ok (results, nullable) ->
    forallb (branch_projected allowed false) results = true.
Proof.
  induction vs as [ | v vs IH ]; intros Hrec r0 n0 results nullable H0 Hl.
  - simpl in Hl. injection Hl as <- <-. exact H0.
  - inversion Hrec as [ | ? ? Hv Hrest ]; subst. simpl in Hl.
    destruct v; try (now apply (IH Hrest _ _ _ _ H0 Hl)).
    destruct (type_is_null l).
    + now apply (IH Hrest _ _ _ _ H0 Hl).
    + destruct (rec (JObj l)) as [r | | | ] eqn:Er; simpl in Hl; try discriminate.
      apply (IH Hrest _ _ _ _ ) in Hl; [ exact Hl | ].
      rewrite forallb_snoc, H0. unfold branch_projected.
      rewrite (Hv _ eq_refl). reflexivity.
Qed.

Lemma setAnyOf_projected allowed results nullable acc :
  mem "anyOf" allowed = true -> mem "nullable" allowed = true ->
  forallb (branch_projected allowed false) results = true ->
  projected allowed false (JObj acc) = true ->
  projected allowed false (JObj (setAnyOf results nullable acc)) = true.
Proof.
  intros Ha Hn Hr Hacc. unfold setAnyOf.
  apply projected_map_set; [ now apply ep_anyOf | ].
  destruct nullable; [ | exact Hacc ].
  apply projected_map_set; [ now apply ep_nullable | exact Hacc ].
Qed.

(** One turn of the loop keeps the converted schema projected, and a result
    returned from within the loop is projected. *)
Lemma jsonSchemaToGapicEntry_projected allowed rec key value acc :
  covers_switch_keys allowed = true ->
  (forall out, rec value = Ok out -> projected allowed false (JObj out) = true) ->
  Forall (fun v => forall out, rec v = Ok out ->
                     projected allowed false (JObj out) = true) (children value) ->
  projected allowed false (JObj acc) = true ->
  match jsonSchemaToGapicEntry rec allowed key value acc with
  | Continue acc' => projected allowed false (JObj acc') = true
  | Return (Ok out) => projected allowed false (JObj out) = true
  | Return _ => True
  end.
Proof.
  intros Hcov Hvalue Hchildren Hacc.
  apply covers_switch_keys_spec in Hcov as (Hi & Hp & Ht & Ha & Hn & _ & _).
  unfold jsonSchemaToGapicEntry.
  destruct (String.eqb key "$defs") eqn:E1; [ exact Hacc | ].
  destruct (String.eqb key "items") eqn:E2.
  { destruct value; try exact I.
    destruct (rec (JObj l)) as [sub | | | ] eqn:Er; simpl; try exact I.
    apply projected_map_set; [ | exact Hacc ]. apply ep_items; [ exact Hi | ].
    now apply Hvalue. }
  destruct (String.eqb key "properties") eqn:E3.
  { destruct value; try exact I.
    destruct (propertiesLoop rec l []) as [props | | | ] eqn:El; simpl; try exact I.
    destruct (propertiesLoop_projected allowed rec l Hchildren [] props
                eq_refl eq_refl El) as [Hn1 Hf1].
    apply projected_map_set; [ | exact Hacc ]. now apply ep_properties. }
  destruct (String.eqb key "type") eqn:E4.
  { destruct value; try exact I.
    - apply projected_map_set; [ now apply ep_type | exact Hacc ].
    - destruct (typeListEntry rec l acc) as [acc' | r] eqn:Et.
      + eapply typeListEntry_projected; eauto.
      + destruct r; try exact I. now apply typeListEntry_no_result in Et. }
  destruct (String.eqb key "allOf") eqn:E5.
  { destruct value; try exact I.
    destruct (1 <? List.length l)%nat; [ exact I | ].
    destruct l as [ | first l ]; [ exact I | ].
    destruct first; try exact I.
    destruct (rec (JObj l0)) as [out | | | ] eqn:Er; try exact I.
    simpl in Hchildren. inversion Hchildren as [ | ? ? Hfirst Hothers ]; subst.
    exact (Hfirst _ Er). }
  destruct (String.eqb key "anyOf") eqn:E6.
  { destruct value; try exact I.
    destruct (jsonSchemaToGapicAnyOf rec l [] false) as [[results nullable] | | | ]
      eqn:El; simpl; try exact I.
    apply setAnyOf_projected; try assumption.
    eapply jsonSchemaToGapicAnyOf_projected; [ exact Hchildren | | exact El ].
    reflexivity. }
  destruct (mem key allowed) eqn:Em; [ | exact Hacc ].
  apply projected_map_set; [ | exact Hacc ]. now apply ep_other.
Qed.

Lemma formatJSONSchemaToGapicEntry_projected rec key value acc :
  (forall out, rec value = Ok out ->
               projected allowedSchemaFieldsSet false (JObj out) = true) ->
  Forall (fun v => forall out, rec v = Ok out ->
                     projected allowedSchemaFieldsSet false (JObj out) = true)
    (children value) ->
  projected allowedSchemaFieldsSet false (JObj acc) = true ->
  match formatJSONSchemaToGapicEntry rec key value acc with
  | Continue acc' => projected allowedSchemaFieldsSet false (JObj acc') = true
  | Return (Ok out) => projected allowedSchemaFieldsSet false (JObj out) = true
  | Return _ => True
  end.
Proof.
  intros Hvalue Hchildren Hacc.
  assert (Hcov : covers_switch_keys allowedSchemaFieldsSet = true) by reflexivity.
  apply covers_switch_keys_spec in Hcov as (Hi & Hp & Ht & Ha & Hn & _ & _).
  unfold formatJSONSchemaToGapicEntry.
  destruct (String.eqb key "$defs") eqn:E1; [ exact Hacc | ].
  destruct (String.eqb key "items") eqn:E2.
  { destruct value; try exact Hacc.
    destruct (rec (JObj l)) as [sub | | | ] eqn:Er; cbn [and_then]; try exact I.
    apply projected_map_set; [ | exact Hacc ]. apply ep_items; [ exact Hi | ].
    now apply Hvalue. }
  destruct (String.eqb key "properties") eqn:E3.
  { destruct value; try exact Hacc.
    destruct (propertiesLoop rec l []) as [props | | | ] eqn:El; cbn [and_then]; try exact I.
    destruct (propertiesLoop_projected allowedSchemaFieldsSet rec l Hchildren [] props
                eq_refl eq_refl El) as [Hn1 Hf1].
    apply projected_map_set; [ | exact Hacc ]. now apply ep_properties. }
  destruct (String.eqb key "type") eqn:E4.
  { destruct value;
      try (apply projected_map_set; [ now apply ep_type | exact Hacc ]).
    destruct (typeListEntry rec l acc) as [acc' | r] eqn:Et.
    + eapply typeListEntry_projected; eauto.
    + destruct r; try exact I. now apply typeListEntry_no_result in Et. }
  destruct (String.eqb key "allOf") eqn:E5.
  { destruct value; try exact Hacc.
    destruct (1 <? List.length l)%nat; [ exact I | ].
    destruct l as [ | first l ]; [ exact I | ].
    destruct first; try exact Hacc.
    destruct (rec (JObj l0)) as [out | | | ] eqn:Er; try exact I.
    cbn [children] in Hchildren. inversion Hchildren as [ | ? ? Hfirst Hothers ]; subst.
    exact (Hfirst _ Er). }
  destruct (String.eqb key "anyOf") eqn:E6.
  { destruct value; try exact Hacc.
    destruct (formatJSONSchemaAnyOf rec l [] false) as [[results nullable] | | | ]
      eqn:El; cbn [and_then]; try exact I.
    apply setAnyOf_projected; try assumption.
    eapply formatJSONSchemaAnyOf_projected; [ exact Hchildren | | exact El ].
    reflexivity. }
  destruct (mem key allowedSchemaFieldsSet) eqn:Em; [ | exact Hacc ].
  apply projected_map_set; [ | exact Hacc ]. now apply ep_other.
Qed.

(** The loop, for any [switch] body that keeps a property [good] of the
    converted schema and only returns results that have it. *)
Lemma schemaLoop_invariant (good : object -> Prop)
  (entry : string -> json -> object -> step) kvs :
  Forall (fun kv => forall acc, good acc ->
            match entry (fst kv) (snd kv) acc with
            | Continue acc' => good acc'
            | Return (Ok out) => good out
            | Return _ => True
            end) kvs ->
  forall acc out, good acc -> schemaLoop entry kvs acc = Ok out -> good out.
Proof.
  induction kvs as [ | [key value] kvs IH ]; intros Hall acc out Hacc Hl.
  - simpl in Hl. now injection Hl as <-.
  - inversion Hall as [ | ? ? Hkv Hrest ]; subst. simpl in Hkv, Hl.
    specialize (Hkv acc Hacc).
    destruct (entry key value acc) as [acc' | r].
    + now apply (IH Hrest acc').
    + subst r. exact Hkv.
Qed.

Lemma Forall_children_entries (Q : json -> Prop) (m : object) :
  Forall Q (map snd m) -> Forall (fun kv => Q (snd kv)) m.
Proof. intros H. exact (proj1 (Forall_map snd Q m) H). Qed.

(** Every result of the newer projection is a projected schema. *)
Lemma jsonSchemaToGapicNode_projected allowed :
  covers_switch_keys allowed = true ->
  forall v out,
    jsonSchemaToGapicNode allowed v = Ok out ->
    projected allowed false (JObj out) = true.
Proof.
  intros Hcov.
  apply (deep_ind (fun v => forall out,
           jsonSchemaToGapicNode allowed v = Ok out ->
           projected allowed false (JObj out) = true)).
  intros v Hch out Hv.
  destruct v; simpl in Hv; try (injection Hv as <-; reflexivity).
  simpl in Hch. apply Forall_children_entries in Hch.
  eapply (schemaLoop_invariant
            (fun m => projected allowed false (JObj m) = true));
    [ | | exact Hv ]; [ | reflexivity ].
  eapply Forall_impl; [ | exact Hch ].
  intros [key value] [Hq Hqc] acc Hacc. simpl.
  now apply jsonSchemaToGapicEntry_projected.
Qed.

(** Every result of the older projection is a projected schema. *)
Lemma formatJSONSchemaToGapicNode_projected :
  forall v out,
    formatJSONSchemaToGapicNode v = Ok out ->
    projected allowedSchemaFieldsSet false (JObj out) = true.
Proof.
  apply (deep_ind (fun v => forall out,
           formatJSONSchemaToGapicNode v = Ok out ->
           projected allowedSchemaFieldsSet false (JObj out) = true)).
  intros v Hch out Hv.
  destruct v; simpl in Hv; try (injection Hv as <-; reflexivity).
  simpl in Hch. apply Forall_children_entries in Hch.
  eapply (schemaLoop_invariant
            (fun m => projected allowedSchemaFieldsSet false (JObj m) = true));
    [ | | exact Hv ]; [ | reflexivity ].
  eapply Forall_impl; [ | exact Hch ].
  intros [key value] [Hq Hqc] acc Hacc. simpl.
  now apply formatJSONSchemaToGapicEntry_projected.
Qed.

(** ** The [type] list and [nullable] *)

Lemma typeListEntry_collapsible_plain rec typeList acc :
  collapsible typeList = true -> is_object (concrete_of typeList) = false ->
  typeListEntry rec typeList acc
  = Continue (map_set "nullable" (JBool true)
                (map_set "type" (JStr (fmt_v (concrete_of typeList))) acc)).
Proof.
  destruct typeList as [ | a [ | b [ | c l ] ] ]; try discriminate.
  unfold collapsible, concrete_of, typeListEntry, typeListScan.
  cbn [List.length Nat.eqb negb].
  destruct (is_null_str a) eqn:Ea, (is_null_str b) eqn:Eb; cbn; try discriminate.
  - destruct b; cbn; try discriminate; reflexivity.
  - destruct a; cbn; try discriminate; reflexivity.
Qed.

Lemma typeListEntry_collapsible_map rec typeList acc m :
  collapsible typeList = true -> concrete_of typeList = JObj m ->
  typeListEntry rec typeList acc
  = and_then (rec (JObj m)) (fun res =>
      Continue (map_set "nullable" (JBool true) (merge_into res acc))).
Proof.
  destruct typeList as [ | a [ | b [ | c l ] ] ]; try discriminate.
  unfold collapsible, concrete_of, typeListEntry, typeListScan.
  cbn [List.length Nat.eqb negb].
  destruct (is_null_str a) eqn:Ea, (is_null_str b) eqn:Eb; cbn; try discriminate.
  - intros _ ->. reflexivity.
  - intros _ ->. reflexivity.
Qed.

Lemma typeListEntry_not_collapsible rec typeList acc :
  collapsible typeList = false ->
  typeListEntry rec typeList acc = Return (Err (typeListError typeList)).
Proof.
  unfold typeListEntry, typeListError.
  destruct typeList as [ | a [ | b [ | c l ] ] ]; try reflexivity.
  unfold collapsible, typeListScan. cbn [List.length Nat.eqb negb].
  destruct (is_null_str a) eqn:Ea, (is_null_str b) eqn:Eb; cbn;
    try reflexivity.
  - destruct b; cbn; try discriminate; reflexivity.
  - destruct a; cbn; try discriminate; reflexivity.
Qed.

(** When the [type] case goes on, [nullable] has been set. *)
Lemma typeListEntry_sets_nullable rec typeList acc acc' :
  typeListEntry rec typeList acc = Continue acc' -> nullable_set acc'.
Proof.
  unfold typeListEntry, nullable_set.
  destruct (negb (List.length typeList =? 2)%nat); [ discriminate | ].
  destruct (typeListScan rec typeList false JNull (Ok [])) as [[h nn] res].
  destruct (h && not_nil nn); [ | discriminate ].
  destruct nn; try (intros [= <-]; apply map_get_set_same).
  intros H. apply and_then_Continue in H as (r & _ & [= <-]).
  apply map_get_set_same.
Qed.

Lemma jsonSchemaToGapicAnyOf_nullable rec vs :
  forall results0 nullable0 results nullable,
    jsonSchemaToGapicAnyOf rec vs results0 nullable0 = Ok (results, nullable) ->
    nullable0 = true \/ has_null_branch vs = true -> nullable = true.
Proof.
  induction vs as [ | v vs IH ]; intros r0 n0 results nullable Hl Hn.
  - simpl in *. injection Hl as <- <-. destruct Hn; [ assumption | discriminate ].
  - simpl in Hl, Hn. destruct v; try discriminate.
    destruct (type_is_null l) eqn:Et.
    + eapply IH; [ exact Hl | now left ].
    + destruct (rec (JObj l)); simpl in Hl; try discriminate.
      eapply IH; [ exact Hl | exact Hn ].
Qed.

Lemma formatJSONSchemaAnyOf_nullable rec vs :
  forall results0 nullable0 results nullable,
    formatJSONSchemaAnyOf rec vs results0 nullable0 = Ok (results, nullable) ->
    nullable0 = true \/ has_null_branch vs = true -> nullable = true.
Proof.
  induction vs as [ | v vs IH ]; intros r0 n0 results nullable Hl Hn.
  - simpl in *. injection Hl as <- <-. destruct Hn; [ assumption | discriminate ].
  - simpl in Hl, Hn.
    destruct v; try (eapply IH; [ exact Hl | exact Hn ]).
    destruct (type_is_null l) eqn:Et.
    + eapply IH; [ exact Hl | now left ].
    + destruct (rec (JObj l)); simpl in Hl; try discriminate.
      eapply IH; [ exact Hl | exact Hn ].
Qed.

Lemma setAnyOf_nullable results nullable acc :
  nullable = true \/ nullable_set acc -> nullable_set (setAnyOf results nullable acc).
Proof.
  unfold setAnyOf, nullable_set. intros H.
  rewrite map_get_set_other by discriminate.
  destruct nullable; [ apply map_get_set_same | ].
  destruct H; [ discriminate | assumption ].
Qed.

Lemma setAnyOf_type results nullable acc :
  map_get "type" (setAnyOf results nullable acc) = map_get "type" acc.
Proof.
  unfold setAnyOf. rewrite map_get_set_other by discriminate.
  destruct nullable; [ | reflexivity ].
  now rewrite map_get_set_other by discriminate.
Qed.

Lemma nullable_set_map_set_other k v acc :
  String.eqb k "nullable" = false ->
  nullable_set acc -> nullable_set (map_set k v acc).
Proof.
  unfold nullable_set. intros Hk Hacc. rewrite map_get_set_other; [ exact Hacc | ].
  intros <-. discriminate.
Qed.

Lemma type_map_set_other k v acc :
  String.eqb k "type" = false -> map_get "type" (map_set k v acc) = map_get "type" acc.
Proof. intros Hk. apply map_get_set_other. intros <-. discriminate. Qed.

(** The three parts of the frame property for a turn that assigns at most
    the key of its own entry. *)
Ltac frame_own_key :=
  split; [ | split ];
  [ let Hk := fresh in
    intros Hk;
    first [ discriminate Hk
          | reflexivity
          | apply type_map_set_other; first [ exact Hk | reflexivity ] ]
  | let Hk := fresh in
    let Hacc := fresh in
    intros Hk Hacc;
    first [ discriminate Hk
          | exact Hacc
          | apply nullable_set_map_set_other;
            [ first [ exact Hk | reflexivity ] | exact Hacc ] ]
  | let Hx := fresh in
    intros Hx; cbn in Hx; discriminate Hx ].

(** What one turn of the newer loop may change: [type] is written only by
    the [type] entry, [nullable = true] is undone only by a [nullable] entry,
    and an entry that expresses nullability sets [nullable]. *)
Lemma jsonSchemaToGapicEntry_frame rec allowed key value acc acc' :
  jsonSchemaToGapicEntry rec allowed key value acc = Continue acc' ->
  (String.eqb key "type" = false -> map_get "type" acc' = map_get "type" acc) /\
  (String.eqb key "nullable" = false -> nullable_set acc -> nullable_set acc') /\
  (expresses_null (key, value) = true -> nullable_set acc').
Proof.
  unfold jsonSchemaToGapicEntry, expresses_null.
  destruct (String.eqb key "$defs") eqn:E1.
  { intros [= <-]. rewrite (proj1 (String.eqb_eq _ _) E1).
    destruct value; frame_own_key. }
  destruct (String.eqb key "items") eqn:E2.
  { rewrite (proj1 (String.eqb_eq _ _) E2).
    destruct value; try discriminate.
    intros H. apply and_then_Continue in H as (sub & _ & [= <-]). frame_own_key. }
  destruct (String.eqb key "properties") eqn:E3.
  { rewrite (proj1 (String.eqb_eq _ _) E3).
    destruct value; try discriminate.
    intros H. apply and_then_Continue in H as (sub & _ & [= <-]). frame_own_key. }
  destruct (String.eqb key "type") eqn:E4.
  { rewrite (proj1 (String.eqb_eq _ _) E4).
    destruct value; try discriminate.
    - intros [= <-]. frame_own_key.
    - intros H. apply typeListEntry_sets_nullable in H.
      split; [ | split ]; [ discriminate | tauto | tauto ]. }
  destruct (String.eqb key "allOf") eqn:E5.
  { destruct value; try discriminate.
    destruct (1 <? List.length l)%nat; [ discriminate | ].
    destruct l as [ | first l ]; [ discriminate | ].
    destruct first; discriminate. }
  destruct (String.eqb key "anyOf") eqn:E6.
  { rewrite (proj1 (String.eqb_eq _ _) E6).
    destruct value; try discriminate.
    intros H. apply and_then_Continue in H as ([results nullable] & Hl & [= <-]).
    cbn [fst snd]. rewrite setAnyOf_type.
    split; [ | split ]; try tauto.
    - intros _ Hacc. apply setAnyOf_nullable. now right.
    - cbn. intros Hn. apply setAnyOf_nullable. left.
      eapply jsonSchemaToGapicAnyOf_nullable; [ exact Hl | now right ]. }
  destruct (mem key allowed); intros [= <-];
    (split; [ | split ];
     [ intros _; first [ reflexivity | now apply type_map_set_other ]
     | intros Hk Hacc;
       first [ exact Hacc | now apply nullable_set_map_set_other ]
     | destruct value; cbn; discriminate ]).
Qed.

Lemma formatJSONSchemaToGapicEntry_frame rec key value acc acc' :
  formatJSONSchemaToGapicEntry rec key value acc = Continue acc' ->
  (String.eqb key "type" = false -> map_get "type" acc' = map_get "type" acc) /\
  (String.eqb key "nullable" = false -> nullable_set acc -> nullable_set acc') /\
  (expresses_null (key, value) = true -> nullable_set acc').
Proof.
  unfold formatJSONSchemaToGapicEntry, expresses_null.
  destruct (String.eqb key "$defs") eqn:E1.
  { intros [= <-]. rewrite (proj1 (String.eqb_eq _ _) E1).
    destruct value; frame_own_key. }
  destruct (String.eqb key "items") eqn:E2.
  { rewrite (proj1 (String.eqb_eq _ _) E2).
    destruct value; try (intros [= <-]; frame_own_key).
    intros H. apply and_then_Continue in H as (sub & _ & [= <-]). frame_own_key. }
  destruct (String.eqb key "properties") eqn:E3.
  { rewrite (proj1 (String.eqb_eq _ _) E3).
    destruct value; try (intros [= <-]; frame_own_key).
    intros H. apply and_then_Continue in H as (sub & _ & [= <-]). frame_own_key. }
  destruct (String.eqb key "type") eqn:E4.
  { rewrite (proj1 (String.eqb_eq _ _) E4).
    destruct value; try (intros [= <-]; frame_own_key).
    intros H. apply typeListEntry_sets_nullable in H.
    split; [ | split ]; [ discriminate | tauto | tauto ]. }
  destruct (String.eqb key "allOf") eqn:E5.
  { rewrite (proj1 (String.eqb_eq _ _) E5).
    destruct value; try (intros [= <-]; frame_own_key).
    destruct (1 <? List.length l)%nat; [ discriminate | ].
    destruct l as [ | first l ]; [ discriminate | ].
    destruct first; try discriminate; intros [= <-]; frame_own_key. }
  destruct (String.eqb key "anyOf") eqn:E6.
  { rewrite (proj1 (String.eqb_eq _ _) E6).
    destruct value; try (intros [= <-]; frame_own_key).
    intros H. apply and_then_Continue in H as ([results nullable] & Hl & [= <-]).
    cbn [fst snd]. rewrite setAnyOf_type.
    split; [ | split ]; try tauto.
    - intros _ Hacc. apply setAnyOf_nullable. now right.
    - cbn. intros Hn. apply setAnyOf_nullable. left.
      eapply formatJSONSchemaAnyOf_nullable; [ exact Hl | now right ]. }
  destruct (mem key allowedSchemaFieldsSet); intros [= <-];
    (split; [ | split ];
     [ intros _; first [ reflexivity | now apply type_map_set_other ]
     | intros Hk Hacc;
       first [ exact Hacc | now apply nullable_set_map_set_other ]
     | destruct value; cbn; discriminate ]).
Qed.

(** Only the [allOf] entry returns a result from within the loop. *)
Lemma jsonSchemaToGapicEntry_return rec allowed key value acc out :
  String.eqb key "allOf" = false ->
  jsonSchemaToGapicEntry rec allowed key value acc <> Return (Ok out).
Proof.
  intros E5. unfold jsonSchemaToGapicEntry. rewrite E5.
  destruct (String.eqb key "$defs"); [ discriminate | ].
  destruct (String.eqb key "items").
  { destruct value; try discriminate. destruct (rec (JObj l)); discriminate. }
  destruct (String.eqb key "properties").
  { destruct value; try discriminate.
    destruct (propertiesLoop rec l []); discriminate. }
  destruct (String.eqb key "type").
  { destruct value; try discriminate. apply typeListEntry_no_result. }
  destruct (String.eqb key "anyOf").
  { destruct value; try discriminate.
    destruct (jsonSchemaToGapicAnyOf rec l [] false); discriminate. }
  destruct (mem key allowed); discriminate.
Qed.

Lemma formatJSONSchemaToGapicEntry_return rec key value acc out :
  String.eqb key "allOf" = false ->
  formatJSONSchemaToGapicEntry rec key value acc <> Return (Ok out).
Proof.
  intros E5. unfold formatJSONSchemaToGapicEntry. rewrite E5.
  destruct (String.eqb key "$defs"); [ discriminate | ].
  destruct (String.eqb key "items").
  { destruct value; try discriminate. destruct (rec (JObj l)); discriminate. }
  destruct (String.eqb key "properties").
  { destruct value; try discriminate.
    destruct (propertiesLoop rec l []); discriminate. }
  destruct (String.eqb key "type").
  { destruct value; try discriminate. apply typeListEntry_no_result. }
  destruct (String.eqb key "anyOf").
  { destruct value; try discriminate.
    destruct (formatJSONSchemaAnyOf rec l [] false); discriminate. }
  destruct (mem key allowedSchemaFieldsSet); discriminate.
Qed.

(** ** From the shape to the allow-list *)

Lemma forallb_impl_In {A} (f g : A -> bool) l :
  (forall x, In x l -> f x = true -> g x = true) ->
  forallb f l = true -> forallb g l = true.
Proof.
  intros H Hf. apply forallb_forall. intros x Hx.
  apply H; [ exact Hx | ]. now apply (proj1 (forallb_forall f l) Hf).
Qed.

(** In a projected schema every schema node has allow-listed keys only. *)
Lemma projected_schema_ok allowed strict :
  forall v, projected allowed strict v = true -> schema_ok allowed v = true.
Proof.
  apply (deep_ind (fun v => projected allowed strict v = true ->
                            schema_ok allowed v = true)).
  intros v Hch Hp. destruct v; try discriminate.
  rewrite projected_obj in Hp. apply andb_prop in Hp as [_ Hp].
  cbn [children] in Hch. apply Forall_children_entries in Hch.
  rewrite Forall_forall in Hch.
  cbn [schema_ok]. revert Hp. apply forallb_impl_In.
  intros [k x] Hin Hkx. specialize (Hch _ Hin) as [Hx Hxc]. cbn [snd] in Hx, Hxc.
  unfold entry_projected in Hkx.
  apply andb_prop in Hkx as [Hkx H4]. apply andb_prop in Hkx as [Hkx _].
  apply andb_prop in Hkx as [Hm _]. rewrite Hm. cbn [andb].
  destruct (String.eqb k "items").
  { destruct x; try discriminate. now apply Hx. }
  destruct (String.eqb k "properties").
  { destruct x; try discriminate. apply andb_prop in H4 as [_ H4].
    cbn [children] in Hxc. apply Forall_children_entries in Hxc.
    rewrite Forall_forall in Hxc. revert H4. apply forallb_impl_In.
    intros [pk pv] Hpin Hpv. destruct pv; try discriminate.
    now apply (Hxc _ Hpin). }
  destruct (String.eqb k "type") eqn:Et;
    [ apply String.eqb_eq in Et; subst k; reflexivity | ].
  destruct (String.eqb k "anyOf"); [ | reflexivity ].
  destruct x; try discriminate. cbn [children] in Hxc.
  rewrite Forall_forall in Hxc. revert H4. apply forallb_impl_In.
  intros b Hb Hbp. destruct b; try discriminate.
  apply andb_prop in Hbp as [Hbp _]. now apply Hxc.
Qed.

(** A key outside the allow-list occurs at no schema node. *)
Lemma projected_node_lacks allowed strict key :
  mem key allowed = false ->
  forall v, projected allowed strict v = true -> node_lacks key v = true.
Proof.
  intros Hkey.
  apply (deep_ind (fun v => projected allowed strict v = true ->
                            node_lacks key v = true)).
  intros v Hch Hp. destruct v; try reflexivity.
  rewrite projected_obj in Hp. apply andb_prop in Hp as [_ Hp].
  cbn [children] in Hch. apply Forall_children_entries in Hch.
  rewrite Forall_forall in Hch.
  cbn [node_lacks]. revert Hp. apply forallb_impl_In.
  intros [k x] Hin Hkx. specialize (Hch _ Hin) as [Hx Hxc]. cbn [snd] in Hx, Hxc.
  unfold entry_projected in Hkx.
  apply andb_prop in Hkx as [Hkx H4]. apply andb_prop in Hkx as [Hkx _].
  apply andb_prop in Hkx as [Hm _].
  assert (Hne : String.eqb k key = false).
  { destruct (String.eqb k key) eqn:E; [ | reflexivity ].
    apply String.eqb_eq in E. congruence. }
  rewrite Hne. cbn [negb andb].
  destruct (String.eqb k "items").
  { destruct x; try discriminate. now apply Hx. }
  destruct (String.eqb k "properties").
  { destruct x; try discriminate. apply andb_prop in H4 as [_ H4].
    cbn [children] in Hxc. apply Forall_children_entries in Hxc.
    rewrite Forall_forall in Hxc. revert H4. apply forallb_impl_In.
    intros [pk pv] Hpin Hpv. destruct pv; try discriminate.
    now apply (Hxc _ Hpin). }
  destruct (String.eqb k "type") eqn:Et;
    [ apply String.eqb_eq in Et; subst k; reflexivity | ].
  destruct (String.eqb k "anyOf"); [ | reflexivity ].
  destruct x; try discriminate. cbn [children] in Hxc.
  rewrite Forall_forall in Hxc. revert H4. apply forallb_impl_In.
  intros b Hb Hbp. destruct b; try discriminate.
  apply andb_prop in Hbp as [Hbp _]. now apply Hxc.
Qed.

(** ** The loop and the entries that express nullability *)

Lemma schemaLoop_nullable (entry : string -> json -> object -> step)
  (Hframe : forall key value acc acc',
      entry key value acc = Continue acc' ->
      (String.eqb key "type" = false -> map_get "type" acc' = map_get "type" acc) /\
      (String.eqb key "nullable" = false -> nullable_set acc -> nullable_set acc') /\
      (expresses_null (key, value) = true -> nullable_set acc'))
  (Hret : forall key value acc out,
      String.eqb key "allOf" = false -> entry key value acc <> Return (Ok out)) :
  forall kvs acc out,
    mem "nullable" (keys kvs) = false -> mem "allOf" (keys kvs) = false ->
    schemaLoop entry kvs acc = Ok out ->
    nullable_set acc \/ existsb expresses_null kvs = true ->
    nullable_set out.
Proof.
  induction kvs as [ | [key value] kvs IH ]; intros acc out Hn Ha Hl Hor.
  - simpl in Hl. injection Hl as <-. destruct Hor; [ assumption | discriminate ].
  - cbn [keys map fst mem existsb] in Hn, Ha. fold (mem "nullable" (keys kvs)) in Hn.
    fold (mem "allOf" (keys kvs)) in Ha.
    apply orb_false_elim in Hn as [Hn1 Hn2]. apply orb_false_elim in Ha as [Ha1 Ha2].
    rewrite String.eqb_sym in Hn1. rewrite String.eqb_sym in Ha1.
    cbn [schemaLoop] in Hl.
    destruct (entry key value acc) as [acc' | r] eqn:Ee.
    + destruct (Hframe _ _ _ _ Ee) as (_ & Hkeep & Hset).
      apply (IH acc' out Hn2 Ha2 Hl).
      cbn [existsb] in Hor. destruct Hor as [Hacc | Hex].
      * left. now apply Hkeep.
      * apply orb_prop in Hex as [Hx | Hx]; [ left; now apply Hset | now right ].
    + subst r. exfalso. exact (Hret _ _ _ _ Ha1 Ee).
Qed.

(** After the loop, [type] and [nullable] are what the [type] list entry set,
    when the node has no [allOf] and no [nullable] entry. *)
Lemma schemaLoop_type_list (rec : json -> outcome object)
  (entry : string -> json -> object -> step)
  (Hframe : forall key value acc acc',
      entry key value acc = Continue acc' ->
      (String.eqb key "type" = false -> map_get "type" acc' = map_get "type" acc) /\
      (String.eqb key "nullable" = false -> nullable_set acc -> nullable_set acc') /\
      (expresses_null (key, value) = true -> nullable_set acc'))
  (Hret : forall key value acc out,
      String.eqb key "allOf" = false -> entry key value acc <> Return (Ok out))
  (Htype : forall l acc, entry "type" (JArr l) acc = typeListEntry rec l acc)
  (typeList : list json)
  (Hc : collapsible typeList = true)
  (Hplain : is_object (concrete_of typeList) = false) :
  forall kvs acc out,
    nodupb (keys kvs) = true ->
    mem "nullable" (keys kvs) = false -> mem "allOf" (keys kvs) = false ->
    schemaLoop entry kvs acc = Ok out ->
    In ("type", JArr typeList) kvs \/
    (mem "type" (keys kvs) = false /\
     map_get "type" acc = Some (JStr (fmt_v (concrete_of typeList))) /\
     nullable_set acc) ->
    map_get "type" out = Some (JStr (fmt_v (concrete_of typeList))) /\
    nullable_set out.
Proof.
  induction kvs as [ | [key value] kvs IH ]; intros acc out Hnd Hn Ha Hl Hor.
  - simpl in Hl. injection Hl as <-. destruct Hor as [[] | (_ & H1 & H2)]. now split.
  - cbn [keys map fst mem existsb nodupb] in Hnd, Hn, Ha.
    fold (keys kvs) in Hnd, Hn, Ha.
    fold (mem "nullable" (keys kvs)) in Hn. fold (mem "allOf" (keys kvs)) in Ha.
    fold (mem key (keys kvs)) in Hnd.
    apply andb_prop in Hnd as [Hk Hnd]. apply negb_true_iff in Hk.
    apply orb_false_elim in Hn as [Hn1 Hn2]. apply orb_false_elim in Ha as [Ha1 Ha2].
    rewrite String.eqb_sym in Hn1. rewrite String.eqb_sym in Ha1.
    cbn [schemaLoop] in Hl.
    destruct (entry key value acc) as [acc' | r] eqn:Ee;
      [ | subst r; exfalso; exact (Hret _ _ _ _ Ha1 Ee) ].
    destruct (Hframe _ _ _ _ Ee) as (Htkeep & Hkeep & _).
    apply (IH acc' out Hnd Hn2 Ha2 Hl).
    destruct Hor as [[Hhere | Hlater] | (Hnt & Hty & Hnu)].
    + injection Hhere as -> ->. right.
      rewrite Htype, (typeListEntry_collapsible_plain _ _ _ Hc Hplain) in Ee.
      injection Ee as <-. split; [ exact Hk | ]. split.
      * rewrite map_get_set_other by discriminate. apply map_get_set_same.
      * apply map_get_set_same.
    + now left.
    + right. cbn [keys map fst mem existsb] in Hnt. fold (mem "type" (keys kvs)) in Hnt.
      apply orb_false_elim in Hnt as [Hnt1 Hnt2]. rewrite String.eqb_sym in Hnt1.
      split; [ exact Hnt2 | ]. split.
      * rewrite (Htkeep Hnt1). exact Hty.
      * now apply Hkeep.
Qed.

(** A [type] list that is not collapsible makes the projection of its node
    fail, when the node has no [allOf] entry. *)
Lemma schemaLoop_type_list_error (rec : json -> outcome object)
  (entry : string -> json -> object -> step)
  (Hret : forall key value acc out,
      String.eqb key "allOf" = false -> entry key value acc <> Return (Ok out))
  (Htype : forall l acc, entry "type" (JArr l) acc = typeListEntry rec l acc)
  (typeList : list json)
  (Hc : collapsible typeList = false) :
  forall kvs acc,
    mem "allOf" (keys kvs) = false ->
    In ("type", JArr typeList) kvs ->
    is_ok (schemaLoop entry kvs acc) = false.
Proof.
  induction kvs as [ | [key value] kvs IH ]; intros acc Ha Hin; [ destruct Hin | ].
  cbn [keys map fst mem existsb] in Ha. fold (mem "allOf" (keys kvs)) in Ha.
  apply orb_false_elim in Ha as [Ha1 Ha2]. rewrite String.eqb_sym in Ha1.
  cbn [schemaLoop].
  destruct (entry key value acc) as [acc' | r] eqn:Ee.
  - destruct Hin as [Hhere | Hlater]; [ | now apply IH ].
    injection Hhere as -> ->.
    rewrite Htype, (typeListEntry_not_collapsible _ _ _ Hc) in Ee. discriminate.
  - destruct r; try reflexivity. exfalso. exact (Hret _ _ _ _ Ha1 Ee).
Qed.

(** ** Nullable collapsing *)

Lemma formatJSONSchemaToGapic_loop schema :
  formatJSONSchemaToGapic schema
  = schemaLoop (formatJSONSchemaToGapicEntry formatJSONSchemaToGapicNode) schema [].
Proof. reflexivity. Qed.

Lemma jsonSchemaToGapic_loop schema allowedSet :
  jsonSchemaToGapic schema allowedSet
  = schemaLoop
      (jsonSchemaToGapicEntry (jsonSchemaToGapicNode allowedSet) allowedSet) schema [].
Proof. reflexivity. Qed.

Lemma collapsible_has_null typeList :
  collapsible typeList = true -> existsb is_null_str typeList = true.
Proof.
  destruct typeList as [ | a [ | b [ | c l ] ] ]; try discriminate.
  unfold collapsible. simpl.
  destruct (is_null_str a), (is_null_str b); simpl; try reflexivity; discriminate.
Qed.

Lemma In_existsb {A} (f : A -> bool) x l : In x l -> f x = true -> existsb f l = true.
Proof. intros H1 H2. apply existsb_exists. now exists x. Qed.

(** C5, counterexample.  A node whose [type] is [["string","null"]] and that
    also has an [allOf] entry projects to the projection of the [allOf]
    element, in either visiting order and in both helpers: the result has the
    type of that element and no [nullable].  With [allOf] visited first, a
    [type] list without ["null"] is never looked at and no error results. *)
Lemma allOf_sibling_overrides_type_list :
  let typeNull := ("type", JArr [JStr "string"; JStr "null"]) in
  let typeBad := ("type", JArr [JStr "string"; JStr "number"]) in
  let allOf := ("allOf", JArr [JObj [("type", JStr "number")]]) in
  formatJSONSchemaToGapic [typeNull; allOf] = Ok [("type", JStr "number")] /\
  formatJSONSchemaToGapic [allOf; typeNull] = Ok [("type", JStr "number")] /\
  jsonSchemaToGapic [typeNull; allOf] geminiAllowedSchemaFieldsSet
    = Ok [("type", JStr "number")] /\
  jsonSchemaToGapic [allOf; typeNull] geminiAllowedSchemaFieldsSet
    = Ok [("type", JStr "number")] /\
  formatJSONSchemaToGapic [allOf; typeBad] = Ok [("type", JStr "number")] /\
  jsonSchemaToGapic [allOf; typeBad] geminiAllowedSchemaFieldsSet
    = Ok [("type", JStr "number")].
Proof. repeat split; reflexivity. Qed.

(** C5, amended.  Take a schema node with distinct keys that has a [type]
    list and neither an [allOf] nor a [nullable] entry of its own.  If the
    list has two elements, one ["null"] and the other neither ["null"] nor
    [nil], every successful projection of the node has [nullable = true], and
    when that other element is not a map, [type] is the element printed with
    [%v] (a string prints as itself); a node with that entry alone projects to
    exactly [type] and [nullable].  For a list of any other length or shape
    the projection of the node does not return a result, and for a node with
    that entry alone it returns the length or shape error.  This holds for
    both helpers and for every visiting order. *)
Theorem type_list_with_null_collapses (schema : object) (typeList : list json)
  (Hkeys : nodupb (keys schema) = true)
  (Htype : map_get "type" schema = Some (JArr typeList))
  (HallOf : map_get "allOf" schema = None)
  (Hnullable : map_get "nullable" schema = None) :
  (collapsible typeList = true ->
   (forall out, formatJSONSchemaToGapic schema = Ok out -> nullable_set out) /\
   (forall allowedSet out,
       jsonSchemaToGapic schema allowedSet = Ok out -> nullable_set out)) /\
  (collapsible typeList = true -> is_object (concrete_of typeList) = false ->
   (forall out, formatJSONSchemaToGapic schema = Ok out ->
                map_get "type" out = Some (JStr (fmt_v (concrete_of typeList))) /\
                nullable_set out) /\
   (forall allowedSet out, jsonSchemaToGapic schema allowedSet = Ok out ->
                map_get "type" out = Some (JStr (fmt_v (concrete_of typeList))) /\
                nullable_set out) /\
   formatJSONSchemaToGapic [("type", JArr typeList)]
     = Ok [("type", JStr (fmt_v (concrete_of typeList))); ("nullable", JBool true)] /\
   (forall allowedSet,
       jsonSchemaToGapic [("type", JArr typeList)] allowedSet
       = Ok [("type", JStr (fmt_v (concrete_of typeList)));
             ("nullable", JBool true)])) /\
  (collapsible typeList = false ->
   is_ok (formatJSONSchemaToGapic schema) = false /\
   (forall allowedSet, is_ok (jsonSchemaToGapic schema allowedSet) = false) /\
   formatJSONSchemaToGapic [("type", JArr typeList)] = Err (typeListError typeList) /\
   (forall allowedSet,
       jsonSchemaToGapic [("type", JArr typeList)] allowedSet
       = Err (typeListError typeList))).
Proof.
  pose proof (map_get_In _ _ _ Htype) as Hin.
  apply map_get_None_keys in HallOf. apply map_get_None_keys in Hnullable.
  split; [ | split ].
  - intros Hc. pose proof (collapsible_has_null _ Hc) as Hnull.
    assert (Hex : existsb expresses_null schema = true).
    { apply (In_existsb _ _ _ Hin). simpl. now rewrite Hnull. }
    split.
    + intros out Hout. rewrite formatJSONSchemaToGapic_loop in Hout.
      eapply schemaLoop_nullable; [ | | exact Hnullable | exact HallOf | exact Hout | ].
      * intros. now apply formatJSONSchemaToGapicEntry_frame with (rec := formatJSONSchemaToGapicNode) (value := value).
      * intros. now apply formatJSONSchemaToGapicEntry_return.
      * now right.
    + intros allowedSet out Hout. rewrite jsonSchemaToGapic_loop in Hout.
      eapply schemaLoop_nullable; [ | | exact Hnullable | exact HallOf | exact Hout | ].
      * intros. now apply jsonSchemaToGapicEntry_frame with (rec := jsonSchemaToGapicNode allowedSet) (allowed := allowedSet) (value := value).
      * intros. now apply jsonSchemaToGapicEntry_return.
      * now right.
  - intros Hc Hplain. split; [ | split; [ | split ] ].
    + intros out Hout. rewrite formatJSONSchemaToGapic_loop in Hout.
      eapply (schemaLoop_type_list formatJSONSchemaToGapicNode);
        [ | | | exact Hc | exact Hplain | exact Hkeys | exact Hnullable
          | exact HallOf | exact Hout | now left ].
      * intros. now apply formatJSONSchemaToGapicEntry_frame with (rec := formatJSONSchemaToGapicNode) (value := value).
      * intros. now apply formatJSONSchemaToGapicEntry_return.
      * reflexivity.
    + intros allowedSet out Hout. rewrite jsonSchemaToGapic_loop in Hout.
      eapply (schemaLoop_type_list (jsonSchemaToGapicNode allowedSet));
        [ | | | exact Hc | exact Hplain | exact Hkeys | exact Hnullable
          | exact HallOf | exact Hout | now left ].
      * intros. now apply jsonSchemaToGapicEntry_frame with (rec := jsonSchemaToGapicNode allowedSet) (allowed := allowedSet) (value := value).
      * intros. now apply jsonSchemaToGapicEntry_return.
      * reflexivity.
    + rewrite formatJSONSchemaToGapic_loop. cbn [schemaLoop].
      change (formatJSONSchemaToGapicEntry formatJSONSchemaToGapicNode "type"
                (JArr typeList) [])
        with (typeListEntry formatJSONSchemaToGapicNode typeList []).
      now rewrite (typeListEntry_collapsible_plain _ _ _ Hc Hplain).
    + intros allowedSet. rewrite jsonSchemaToGapic_loop. cbn [schemaLoop].
      change (jsonSchemaToGapicEntry (jsonSchemaToGapicNode allowedSet) allowedSet
                "type" (JArr typeList) [])
        with (typeListEntry (jsonSchemaToGapicNode allowedSet) typeList []).
      now rewrite (typeListEntry_collapsible_plain _ _ _ Hc Hplain).
  - intros Hc. split; [ | split; [ | split ] ].
    + rewrite formatJSONSchemaToGapic_loop.
      eapply (schemaLoop_type_list_error formatJSONSchemaToGapicNode);
        [ | | exact Hc | exact HallOf | exact Hin ].
      * intros. now apply formatJSONSchemaToGapicEntry_return.
      * reflexivity.
    + intros allowedSet. rewrite jsonSchemaToGapic_loop.
      eapply (schemaLoop_type_list_error (jsonSchemaToGapicNode allowedSet));
        [ | | exact Hc | exact HallOf | exact Hin ].
      * intros. now apply jsonSchemaToGapicEntry_return.
      * reflexivity.
    + rewrite formatJSONSchemaToGapic_loop. cbn [schemaLoop].
      change (formatJSONSchemaToGapicEntry formatJSONSchemaToGapicNode "type"
                (JArr typeList) [])
        with (typeListEntry formatJSONSchemaToGapicNode typeList []).
      now rewrite (typeListEntry_not_collapsible _ _ _ Hc).
    + intros allowedSet. rewrite jsonSchemaToGapic_loop. cbn [schemaLoop].
      change (jsonSchemaToGapicEntry (jsonSchemaToGapicNode allowedSet) allowedSet
                "type" (JArr typeList) [])
        with (typeListEntry (jsonSchemaToGapicNode allowedSet) typeList []).
      now rewrite (typeListEntry_not_collapsible _ _ _ Hc).
Qed.

Lemma type_list_with_null_collapses_witness :
  sanitizeJSONSchema 1 [("type", JArr [JStr "string"; JStr "null"])]
    = Ok [("type", JStr "string"); ("nullable", JBool true)] /\
  jsonSchemaToGapic [("type", JArr [JStr "string"; JStr "null"])]
    geminiAllowedSchemaFieldsSet
    = Ok [("type", JStr "string"); ("nullable", JBool true)] /\
  is_ok (formatJSONSchemaToGapic
           [("description", JStr "d"); ("type", JArr [JStr "string"; JStr "number"])])
    = false.
Proof.
  pose proof (type_list_with_null_collapses
                [("type", JArr [JStr "string"; JStr "null"])]
                [JStr "string"; JStr "null"]
                eq_refl eq_refl eq_refl eq_refl) as (_ & H & _).
  specialize (H eq_refl eq_refl). destruct H as (_ & _ & H3 & H4).
  pose proof (type_list_with_null_collapses
                [("description", JStr "d"); ("type", JArr [JStr "string"; JStr "number"])]
                [JStr "string"; JStr "number"]
                eq_refl eq_refl eq_refl eq_refl) as (_ & _ & H').
  specialize (H' eq_refl). destruct H' as (H5 & _).
  split; [ exact H3 | split; [ apply H4 | exact H5 ] ].
Defined.

(** ** The output of the sanitizer *)

Lemma sanitizeJSONSchema_projected depth schema out :
  sanitizeJSONSchema depth schema = Ok out ->
  projected allowedSchemaFieldsSet false (JObj out) = true.
Proof.
  unfold sanitizeJSONSchema. destruct (dereferenceRefs depth schema); try discriminate.
  simpl. destruct a; try discriminate.
  apply formatJSONSchemaToGapicNode_projected.
Qed.

Lemma jsonSchemaToGeminiMap_projected depth schema out :
  jsonSchemaToGeminiMap depth schema = Ok out ->
  projected geminiAllowedSchemaFieldsSet false (JObj out) = true.
Proof.
  unfold jsonSchemaToGeminiMap.
  destruct (jsonSchemaDereference depth schema); try discriminate.
  simpl. destruct a; try discriminate.
  apply jsonSchemaToGapicNode_projected. reflexivity.
Qed.

(** C6, counterexample.  A value kept verbatim under an allow-listed key is
    not looked into: the sanitized schema still has [$defs] and a key outside
    the allow-list inside the value of [default], and a [$ref] under a key
    that dereferencing skips survives as well.  A [nullable] entry of the
    node itself, visited after the [type] list, overwrites the [nullable =
    true] that the list had set. *)
Lemma verbatim_values_are_not_sanitized :
  let inner := JObj [("$defs", JObj []); ("additionalProperties", JBool false)] in
  let withRef :=
    [("default", JObj [("a", JObj [("$ref", JStr "#/default/b")]); ("b", JObj [])])] in
  sanitizeJSONSchema 1 [("default", inner)] = Ok [("default", inner)] /\
  jsonSchemaToGeminiMap 1 [("default", inner)] = Ok [("default", inner)] /\
  has_key "$defs" (JObj [("default", inner)]) = true /\
  has_key "additionalProperties" (JObj [("default", inner)]) = true /\
  mem "additionalProperties" allowedSchemaFieldsSet = false /\
  mem "additionalProperties" geminiAllowedSchemaFieldsSet = false /\
  sanitizeJSONSchema 2 withRef = Ok withRef /\
  jsonSchemaToGeminiMap 2 withRef = Ok withRef /\
  has_key "$ref" (JObj withRef) = true /\
  sanitizeJSONSchema 1
    [("type", JArr [JStr "string"; JStr "null"]); ("nullable", JBool false)]
  = Ok [("type", JStr "string"); ("nullable", JBool false)].
Proof. repeat split; reflexivity. Qed.

(** C6, amended.  When sanitizing succeeds, every schema node of the result
    (the root and, from a node, the value of [items], the values of
    [properties] and the elements of [anyOf]) is a map whose keys are all in
    the allow-list of the helper, so no schema node has the key [$ref] or
    [$defs]; values of other allow-listed keys are kept as they are.  A node
    that has no [nullable] and no [allOf] entry of its own and expresses
    nullability through a [type] list with ["null"] or an [anyOf] element of
    type ["null"] has [nullable = true] in every successful projection. *)
Theorem sanitized_schema_nodes_allow_listed (depth : nat) (schema : object) :
  match sanitizeJSONSchema depth schema with
  | Ok out =>
      schema_ok allowedSchemaFieldsSet (JObj out) = true /\
      node_lacks "$ref" (JObj out) = true /\ node_lacks "$defs" (JObj out) = true
  | _ => True
  end /\
  match jsonSchemaToGeminiMap depth schema with
  | Ok out =>
      schema_ok geminiAllowedSchemaFieldsSet (JObj out) = true /\
      node_lacks "$ref" (JObj out) = true /\ node_lacks "$defs" (JObj out) = true
  | _ => True
  end /\
  (forall node out,
      map_get "nullable" node = None -> map_get "allOf" node = None ->
      existsb expresses_null node = true ->
      formatJSONSchemaToGapic node = Ok out -> nullable_set out) /\
  (forall node allowedSet out,
      map_get "nullable" node = None -> map_get "allOf" node = None ->
      existsb expresses_null node = true ->
      jsonSchemaToGapic node allowedSet = Ok out -> nullable_set out).
Proof.
  split; [ | split; [ | split ] ].
  - destruct (sanitizeJSONSchema depth schema) as [out | | | ] eqn:E; try exact I.
    apply sanitizeJSONSchema_projected in E. split; [ | split ].
    + now apply projected_schema_ok in E.
    + now apply (projected_node_lacks allowedSchemaFieldsSet false "$ref").
    + now apply (projected_node_lacks allowedSchemaFieldsSet false "$defs").
  - destruct (jsonSchemaToGeminiMap depth schema) as [out | | | ] eqn:E; try exact I.
    apply jsonSchemaToGeminiMap_projected in E. split; [ | split ].
    + now apply projected_schema_ok in E.
    + now apply (projected_node_lacks geminiAllowedSchemaFieldsSet false "$ref").
    + now apply (projected_node_lacks geminiAllowedSchemaFieldsSet false "$defs").
  - intros node out Hn Ha Hex Hout.
    apply map_get_None_keys in Hn. apply map_get_None_keys in Ha.
    rewrite formatJSONSchemaToGapic_loop in Hout.
    eapply schemaLoop_nullable; [ | | exact Hn | exact Ha | exact Hout | now right ].
    + intros. now apply formatJSONSchemaToGapicEntry_frame
        with (rec := formatJSONSchemaToGapicNode) (value := value).
    + intros. now apply formatJSONSchemaToGapicEntry_return.
  - intros node allowedSet out Hn Ha Hex Hout.
    apply map_get_None_keys in Hn. apply map_get_None_keys in Ha.
    rewrite jsonSchemaToGapic_loop in Hout.
    eapply schemaLoop_nullable; [ | | exact Hn | exact Ha | exact Hout | now right ].
    + intros. now apply jsonSchemaToGapicEntry_frame
        with (rec := jsonSchemaToGapicNode allowedSet) (allowed := allowedSet)
             (value := value).
    + intros. now apply jsonSchemaToGapicEntry_return.
Qed.

Lemma sanitized_schema_nodes_allow_listed_witness :
  let node :=
    [("title", JStr "t");
     ("anyOf", JArr [JObj [("type", JStr "string")]; JObj [("type", JStr "null")]])] in
  sanitizeJSONSchema 1 node
  = Ok [("title", JStr "t"); ("nullable", JBool true);
        ("anyOf", JArr [JObj [("type", JStr "string")]])] /\
  nullable_set [("title", JStr "t"); ("nullable", JBool true);
                ("anyOf", JArr [JObj [("type", JStr "string")]])].
Proof.
  split; [ reflexivity | ].
  exact (proj1 (proj2 (proj2 (sanitized_schema_nodes_allow_listed 1 [])))
           [("title", JStr "t");
            ("anyOf", JArr [JObj [("type", JStr "string")]; JObj [("type", JStr "null")]])]
           _ eq_refl eq_refl eq_refl eq_refl).
Defined.

(** ** Projecting a projected schema *)

Lemma nodupb_app_head (acc : object) k (x : json) rest :
  nodupb (keys (acc ++ (k, x) :: rest)%list) = true -> mem k (keys acc) = false.
Proof.
  unfold keys. rewrite map_app. simpl. rewrite nodupb_NoDup. intros H.
  apply NoDup_remove_2 in H. apply mem_false. intros Hin. apply H.
  apply in_or_app. now left.
Qed.

Lemma app_snoc_assoc {A} (acc : list A) x rest :
  ((acc ++ [x]) ++ rest = acc ++ x :: rest)%list.
Proof. now rewrite <- app_assoc. Qed.

(** A loop whose every turn appends the entry it visits copies its input. *)
Lemma schemaLoop_copies (entry : string -> json -> object -> step) rest :
  forall acc,
    nodupb (keys (acc ++ rest)%list) = true ->
    Forall (fun kv => forall acc0, mem (fst kv) (keys acc0) = false ->
              entry (fst kv) (snd kv) acc0 = Continue (acc0 ++ [kv])%list) rest ->
    schemaLoop entry rest acc = Ok (acc ++ rest)%list.
Proof.
  induction rest as [ | [k x] rest IH ]; intros acc Hnd Hall.
  - simpl. now rewrite app_nil_r.
  - inversion Hall as [ | ? ? Hkx Hrest ]; subst. cbn [schemaLoop].
    cbn [fst snd] in Hkx. rewrite (Hkx acc (nodupb_app_head _ _ _ _ Hnd)).
    rewrite <- (app_snoc_assoc acc (k, x) rest). apply IH; [ | exact Hrest ].
    now rewrite app_snoc_assoc.
Qed.

Lemma propertiesLoop_copies rec rest :
  forall out0,
    nodupb (keys (out0 ++ rest)%list) = true ->
    Forall (fun pkv => exists pm, snd pkv = JObj pm /\ rec (JObj pm) = Ok pm) rest ->
    propertiesLoop rec rest out0 = Ok (out0 ++ rest)%list.
Proof.
  induction rest as [ | [pk pv] rest IH ]; intros out0 Hnd Hall.
  - simpl. now rewrite app_nil_r.
  - inversion Hall as [ | ? ? (pm & Hpv & Hrec) Hrest ]; subst.
    cbn [snd] in Hpv. subst pv. cbn [propertiesLoop]. rewrite Hrec. cbn [bind].
    rewrite map_set_absent by exact (nodupb_app_head _ _ _ _ Hnd).
    rewrite <- (app_snoc_assoc out0 (pk, JObj pm) rest). apply IH; [ | exact Hrest ].
    now rewrite app_snoc_assoc.
Qed.

Lemma formatJSONSchemaAnyOf_copies rec rest :
  forall results0 nullable0,
    Forall (fun b => exists bm, b = JObj bm /\ type_is_null bm = false /\
                                rec (JObj bm) = Ok bm) rest ->
    formatJSONSchemaAnyOf rec rest results0 nullable0
    = Ok ((results0 ++ rest)%list, nullable0).
Proof.
  induction rest as [ | b rest IH ]; intros r0 n0 Hall.
  - simpl. now rewrite app_nil_r.
  - inversion Hall as [ | ? ? (bm & -> & Hnull & Hrec) Hrest ]; subst.
    cbn [formatJSONSchemaAnyOf]. rewrite Hnull, Hrec. cbn [bind].
    rewrite IH by exact Hrest. now rewrite app_snoc_assoc.
Qed.

(** One turn of the older loop on an entry of a strictly projected schema
    assigns that very entry. *)
Lemma formatJSONSchemaToGapicEntry_copies rec k x acc0 :
  (forall m, x = JObj m -> projected allowedSchemaFieldsSet true x = true ->
             rec x = Ok m) ->
  Forall (fun c => forall m, c = JObj m ->
                     projected allowedSchemaFieldsSet true c = true ->
                     rec c = Ok m) (children x) ->
  entry_projected allowedSchemaFieldsSet true (k, x) = true ->
  mem k (keys acc0) = false ->
  formatJSONSchemaToGapicEntry rec k x acc0 = Continue (acc0 ++ [(k, x)])%list.
Proof.
  intros Hx Hxc Hp Hk. rewrite <- (map_set_absent _ _ _ Hk).
  unfold entry_projected in Hp.
  apply andb_prop in Hp as [Hp H4]. apply andb_prop in Hp as [Hp HallOf].
  apply andb_prop in Hp as [Hm Hdefs].
  apply negb_true_iff in HallOf. apply negb_true_iff in Hdefs.
  unfold formatJSONSchemaToGapicEntry. rewrite Hdefs.
  destruct (String.eqb k "items") eqn:E2.
  { apply String.eqb_eq in E2. subst k. destruct x; try discriminate.
    now rewrite (Hx _ eq_refl H4). }
  destruct (String.eqb k "properties") eqn:E3.
  { apply String.eqb_eq in E3. subst k. destruct x; try discriminate.
    apply andb_prop in H4 as [Hnd Hps].
    rewrite (propertiesLoop_copies rec l []); [ reflexivity | exact Hnd | ].
    cbn [children] in Hxc. apply Forall_children_entries in Hxc.
    rewrite Forall_forall in Hxc. rewrite forallb_forall in Hps.
    apply Forall_forall. intros [pk pv] Hin. specialize (Hps _ Hin).
    specialize (Hxc _ Hin). cbn [snd] in *. destruct pv; try discriminate.
    exists l0. split; [ reflexivity | now apply Hxc ]. }
  destruct (String.eqb k "type") eqn:E4.
  { apply String.eqb_eq in E4. subst k. destruct x; try discriminate. reflexivity. }
  rewrite HallOf.
  destruct (String.eqb k "anyOf") eqn:E6.
  { apply String.eqb_eq in E6. subst k. destruct x; try discriminate.
    rewrite (formatJSONSchemaAnyOf_copies rec l [] false); [ reflexivity | ].
    cbn [children] in Hxc. rewrite Forall_forall in Hxc.
    rewrite forallb_forall in H4. apply Forall_forall. intros b Hin.
    specialize (H4 _ Hin). specialize (Hxc _ Hin). destruct b; try discriminate.
    apply andb_prop in H4 as [Hb Hnull]. cbn in Hnull.
    apply negb_true_iff in Hnull.
    exists l0. split; [ reflexivity | split; [ exact Hnull | now apply Hxc ] ]. }
  now rewrite Hm.
Qed.

(** The older projection returns a strictly projected schema as it is. *)
Lemma formatJSONSchemaToGapicNode_fixpoint :
  forall v m, v = JObj m ->
    projected allowedSchemaFieldsSet true v = true ->
    formatJSONSchemaToGapicNode v = Ok m.
Proof.
  apply (deep_ind (fun v => forall m, v = JObj m ->
           projected allowedSchemaFieldsSet true v = true ->
           formatJSONSchemaToGapicNode v = Ok m)).
  intros v Hch m -> Hp. cbn [children] in Hch. apply Forall_children_entries in Hch.
  rewrite projected_obj in Hp. apply andb_prop in Hp as [Hnd Hall].
  cbn [formatJSONSchemaToGapicNode].
  rewrite (schemaLoop_copies _ m []); [ reflexivity | exact Hnd | ].
  rewrite Forall_forall in Hch. rewrite forallb_forall in Hall.
  apply Forall_forall. intros [k x] Hin acc0 Hk. cbn [fst snd] in *.
  destruct (Hch _ Hin) as [Hx Hxc]. cbn [snd] in Hx, Hxc.
  apply formatJSONSchemaToGapicEntry_copies; auto.
Qed.

(** ** Documents without references *)

Lemma wf_obj m :
  wf_json (JObj m) = nodupb (keys m) && forallb (fun kv => wf_json (snd kv)) m.
Proof.
  cbn [wf_json]. fold (keys m). f_equal.
  induction m as [ | [k x] m IH ]; [ reflexivity | ].
  cbn [forallb snd]. now rewrite <- IH.
Qed.

Lemma clean_obj m :
  clean (JObj m) = nodupb (keys m) && forallb entry_clean m.
Proof.
  unfold clean. rewrite wf_obj. cbn [has_key].
  rewrite <- andb_assoc. f_equal.
  induction m as [ | [k x] m IH ]; [ reflexivity | ].
  cbn [existsb forallb entry_clean snd]. rewrite <- IH. unfold clean.
  destruct (String.eqb k "$ref"), (wf_json x), (has_key "$ref" x),
    (forallb (fun kv => wf_json (snd kv)) m); reflexivity.
Qed.

Lemma clean_arr l : clean (JArr l) = forallb clean l.
Proof.
  unfold clean. cbn [wf_json has_key].
  induction l as [ | x l IH ]; [ reflexivity | ].
  cbn [existsb forallb]. rewrite <- IH. unfold clean.
  destruct (wf_json x), (has_key "$ref" x), (forallb wf_json l); reflexivity.
Qed.

Lemma clean_children v : clean v = true -> Forall (fun c => clean c = true) (children v).
Proof.
  destruct v; intros H; cbn [children]; try constructor.
  - rewrite clean_arr in H. now apply Forall_forall, forallb_forall.
  - rewrite clean_obj in H. apply andb_prop in H as [_ H].
    rewrite forallb_forall in H. apply Forall_forall. intros c Hc.
    apply in_map_iff in Hc as ([k x] & <- & Hin). specialize (H _ Hin).
    cbn in H. now apply andb_prop in H as [_ H].
Qed.

Lemma clean_map_set k v m :
  entry_clean (k, v) = true -> clean (JObj m) = true ->
  clean (JObj (map_set k v m)) = true.
Proof.
  rewrite !clean_obj. intros Hkv H. apply andb_prop in H as [H1 H2].
  apply andb_true_intro. split; [ now apply nodupb_map_set | now apply forallb_map_set ].
Qed.

Lemma clean_merge_into res m :
  clean (JObj res) = true -> clean (JObj m) = true ->
  clean (JObj (merge_into res m)) = true.
Proof.
  rewrite !clean_obj. intros Hr H.
  apply andb_prop in Hr as [_ Hr]. apply andb_prop in H as [H1 H2].
  apply andb_true_intro.
  split; [ now apply nodupb_merge_into | now apply forallb_merge_into ].
Qed.

Lemma propertiesLoop_clean rec ps :
  Forall (fun v => clean v = true -> forall out, rec v = Ok out ->
                     clean (JObj out) = true) (map snd ps) ->
  forallb entry_clean ps = true ->
  forall out0 props,
    clean (JObj out0) = true ->
    propertiesLoop rec ps out0 = Ok props ->
    clean (JObj props) = true.
Proof.
  induction ps as [ | [pkey pvalue] ps IH ]; intros Hrec Hin out0 props H0 Hl.
  - simpl in Hl. now injection Hl as <-.
  - inversion Hrec as [ | ? ? Hv Hrest ]; subst. cbn [snd] in Hv.
    cbn [forallb entry_clean] in Hin. apply andb_prop in Hin as [Hkv Hin].
    apply andb_prop in Hkv as [Hk Hcv].
    cbn [propertiesLoop] in Hl.
    destruct pvalue; try (now apply (IH Hrest Hin out0)).
    destruct (rec (JObj l)) as [r | | | ] eqn:Er; cbn [bind] in Hl; try discriminate.
    apply (IH Hrest Hin (map_set pkey (JObj r) out0)); [ | exact Hl ].
    apply clean_map_set; [ | exact H0 ].
    cbn [entry_clean]. rewrite Hk. cbn [andb]. now apply Hv.
Qed.

Lemma typeListScan_clean rec ts :
  Forall (fun v => clean v = true -> forall out, rec v = Ok out ->
                     clean (JObj out) = true) ts ->
  forallb clean ts = true ->
  forall hasNull nonNullType res0 hasNull' nonNullType' res',
    (forall r, res0 = Ok r -> clean (JObj r) = true) ->
    typeListScan rec ts hasNull nonNullType res0 = (hasNull', nonNullType', res') ->
    forall r, res' = Ok r -> clean (JObj r) = true.
Proof.
  induction ts as [ | t ts IH ]; intros Hrec Hc h nn res0 h' nn' res' H0 Hs.
  - simpl in Hs. injection Hs as <- <- <-. exact H0.
  - inversion Hrec as [ | ? ? Ht Hrest ]; subst.
    cbn [forallb] in Hc. apply andb_prop in Hc as [Hct Hc]. simpl in Hs.
    destruct (is_null_str t).
    + now apply (IH Hrest Hc _ _ _ _ _ _ H0 Hs).
    + apply (IH Hrest Hc _ _ _ _ _ _ (Ht Hct) Hs).
Qed.

Lemma typeListEntry_clean rec typeList acc acc' :
  Forall (fun v => clean v = true -> forall out, rec v = Ok out ->
                     clean (JObj out) = true) typeList ->
  forallb clean typeList = true ->
  clean (JObj acc) = true ->
  typeListEntry rec typeList acc = Continue acc' ->
  clean (JObj acc') = true.
Proof.
  intros Hrec Hc Hacc. unfold typeListEntry.
  destruct (negb (List.length typeList =? 2)%nat); [ discriminate | ].
  destruct (typeListScan rec typeList false JNull (Ok [])) as [[h nn] res] eqn:Es.
  assert (Hres : forall r, res = Ok r -> clean (JObj r) = true).
  { eapply typeListScan_clean; [ exact Hrec | exact Hc | | exact Es ].
    intros r [= <-]. reflexivity. }
  destruct (h && not_nil nn); [ | discriminate ].
  assert (Hplain : Continue
                     (map_set "nullable" (JBool true)
                        (map_set "type" (JStr (fmt_v nn)) acc)) = Continue acc' ->
                   clean (JObj acc') = true).
  { intros [= <-]. apply clean_map_set; [ reflexivity | ].
    apply clean_map_set; [ reflexivity | exact Hacc ]. }
  destruct nn; try exact Hplain.
  intros H. apply and_then_Continue in H as (r & Hr & [= <-]).
  apply clean_map_set; [ reflexivity | ].
  apply clean_merge_into; [ now apply Hres | exact Hacc ].
Qed.

Lemma formatJSONSchemaAnyOf_clean rec vs :
  Forall (fun v => clean v = true -> forall out, rec v = Ok out ->
                     clean (JObj out) = true) vs ->
  forallb clean vs = true ->
  forall results0 nullable0 results nullable,
    forallb clean results0 = true ->
    formatJSONSchemaAnyOf rec vs results0 nullable0 = Ok (results, nullable) ->
    forallb clean results = true.
Proof.
  induction vs as [ | v vs IH ]; intros Hrec Hc r0 n0 results nullable H0 Hl.
  - simpl in Hl. injection Hl as <- <-. exact H0.
  - inversion Hrec as [ | ? ? Hv Hrest ]; subst.
    cbn [forallb] in Hc. apply andb_prop in Hc as [Hcv Hc]. simpl in Hl.
    destruct v; try (now apply (IH Hrest Hc _ _ _ _ H0 Hl)).
    destruct (type_is_null l).
    + now apply (IH Hrest Hc _ _ _ _ H0 Hl).
    + destruct (rec (JObj l)) as [r | | | ] eqn:Er; simpl in Hl; try discriminate.
      apply (IH Hrest Hc _ _ _ _ ) in Hl; [ exact Hl | ].
      rewrite forallb_snoc, H0. cbn [andb]. now apply Hv.
Qed.

Lemma formatJSONSchemaToGapicEntry_clean rec key value acc :
  entry_clean (key, value) = true ->
  (forall out, rec value = Ok out -> clean (JObj out) = true) ->
  Forall (fun v => clean v = true -> forall out, rec v = Ok out ->
                     clean (JObj out) = true) (children value) ->
  clean (JObj acc) = true ->
  match formatJSONSchemaToGapicEntry rec key value acc with
  | Continue acc' => clean (JObj acc') = true
  | Return (Ok out) => clean (JObj out) = true
  | Return _ => True
  end.
Proof.
  intros Hin Hvalue Hchildren Hacc.
  cbn [entry_clean] in Hin. apply andb_prop in Hin as [Hkey Hcv].
  pose proof (clean_children _ Hcv) as Hcc.
  unfold formatJSONSchemaToGapicEntry.
  destruct (String.eqb key "$defs") eqn:E1; [ exact Hacc | ].
  destruct (String.eqb key "items") eqn:E2.
  { destruct value; try exact Hacc.
    destruct (rec (JObj l)) as [sub | | | ] eqn:Er; cbn [and_then]; try exact I.
    apply clean_map_set; [ | exact Hacc ]. cbn [entry_clean]. cbn. now apply Hvalue. }
  destruct (String.eqb key "properties") eqn:E3.
  { destruct value; try exact Hacc.
    destruct (propertiesLoop rec l []) as [props | | | ] eqn:El; cbn [and_then];
      try exact I.
    apply clean_map_set; [ | exact Hacc ]. cbn [entry_clean]. cbn [String.eqb negb andb].
    cbn.
    rewrite clean_obj in Hcv. apply andb_prop in Hcv as [_ Hcv].
    eapply propertiesLoop_clean; [ exact Hchildren | exact Hcv | | exact El ].
    reflexivity. }
  destruct (String.eqb key "type") eqn:E4.
  { destruct value;
      try (apply clean_map_set; [ reflexivity | exact Hacc ]).
    destruct (typeListEntry rec l acc) as [acc' | r] eqn:Et.
    + eapply typeListEntry_clean; [ exact Hchildren | | exact Hacc | exact Et ].
      now rewrite <- clean_arr.
    + destruct r; try exact I. now apply typeListEntry_no_result in Et. }
  destruct (String.eqb key "allOf") eqn:E5.
  { destruct value; try exact Hacc.
    destruct (1 <? List.length l)%nat; [ exact I | ].
    destruct l as [ | first l ]; [ exact I | ].
    destruct first; try exact Hacc.
    destruct (rec (JObj l0)) as [out | | | ] eqn:Er; try exact I.
    cbn [children] in Hchildren, Hcc.
    inversion Hchildren as [ | ? ? Hfirst Hothers ]; subst.
    inversion Hcc as [ | ? ? Hcfirst Hcothers ]; subst.
    exact (Hfirst Hcfirst _ Er). }
  destruct (String.eqb key "anyOf") eqn:E6.
  { destruct value; try exact Hacc.
    destruct (formatJSONSchemaAnyOf rec l [] false) as [[results nullable] | | | ]
      eqn:El; cbn [and_then]; try exact I.
    cbn [fst snd]. unfold setAnyOf.
    apply clean_map_set.
    - cbn [entry_clean]. cbn [String.eqb negb andb]. cbn. rewrite clean_arr.
      eapply formatJSONSchemaAnyOf_clean; [ exact Hchildren | | | exact El ].
      + now rewrite <- clean_arr.
      + reflexivity.
    - destruct nullable; [ | exact Hacc ].
      apply clean_map_set; [ reflexivity | exact Hacc ]. }
  destruct (mem key allowedSchemaFieldsSet) eqn:Em; [ | exact Hacc ].
  apply clean_map_set; [ | exact Hacc ]. cbn [entry_clean]. now rewrite Hkey, Hcv.
Qed.

(** The older projection of a document without references is again a
    document without references. *)
Lemma formatJSONSchemaToGapicNode_clean :
  forall v, clean v = true ->
    forall out, formatJSONSchemaToGapicNode v = Ok out -> clean (JObj out) = true.
Proof.
  apply (deep_ind (fun v => clean v = true -> forall out,
           formatJSONSchemaToGapicNode v = Ok out -> clean (JObj out) = true)).
  intros v Hch Hcv out Hv.
  destruct v; simpl in Hv; try (injection Hv as <-; reflexivity).
  cbn [children] in Hch. apply Forall_children_entries in Hch.
  rewrite clean_obj in Hcv. apply andb_prop in Hcv as [_ Hcv].
  rewrite forallb_forall in Hcv. rewrite Forall_forall in Hch.
  eapply (schemaLoop_invariant (fun m => clean (JObj m) = true));
    [ | | exact Hv ]; [ | reflexivity ].
  apply Forall_forall. intros [key value] Hin acc Hacc. cbn [fst snd].
  destruct (Hch _ Hin) as [Hq Hqc]. cbn [snd] in Hq, Hqc.
  pose proof (Hcv _ Hin) as Hkv.
  apply formatJSONSchemaToGapicEntry_clean; auto.
  cbn [entry_clean] in Hkv. apply andb_prop in Hkv as [_ Hkv]. now apply Hq.
Qed.

(** ** Dereferencing a document without references *)

Lemma jsonSchemaDereferenceList_copies (rec : walker json) els :
  forall listOut P,
    Forall (fun el => forall P', rec el P' = Ok (el, P')) els ->
    jsonSchemaDereferenceList rec els listOut P = Ok (JArr (listOut ++ els)%list, P).
Proof.
  induction els as [ | el els IH ]; intros listOut P Hall.
  - simpl. now rewrite app_nil_r.
  - inversion Hall as [ | ? ? Hel Hrest ]; subst. cbn [jsonSchemaDereferenceList].
    rewrite Hel. cbn [bind]. rewrite IH by exact Hrest. now rewrite app_snoc_assoc.
Qed.

Lemma dereferenceRefsDict_copies (rec jump : walker json) fullSchema rest :
  forall objOut P,
    nodupb (keys (objOut ++ rest)%list) = true ->
    Forall (fun kv => String.eqb (fst kv) "$ref" = false /\
                      forall P', rec (snd kv) P' = Ok (snd kv, P')) rest ->
    dereferenceRefsDict rec jump fullSchema [] rest objOut P
    = Ok (JObj (objOut ++ rest)%list, P).
Proof.
  induction rest as [ | [k v] rest IH ]; intros objOut P Hnd Hall.
  - simpl. now rewrite app_nil_r.
  - inversion Hall as [ | ? ? [Hk Hv] Hrest ]; subst. cbn [fst snd] in Hk, Hv.
    cbn [dereferenceRefsDict mem existsb]. rewrite Hk.
    assert (Hgo : dereferenceRefsDict rec jump fullSchema [] rest
                    (map_set k v objOut) P
                  = Ok (JObj (objOut ++ (k, v) :: rest)%list, P)).
    { rewrite map_set_absent by exact (nodupb_app_head _ _ _ _ Hnd).
      rewrite <- (app_snoc_assoc objOut (k, v) rest). apply IH; [ | exact Hrest ].
      now rewrite app_snoc_assoc. }
    destruct v; try exact Hgo; rewrite Hv; cbn [bind]; exact Hgo.
Qed.

(** With no key to skip, the older helper returns a document without
    references as it is, and leaves [processedRefs] as it was. *)
Lemma dereferenceRefsWalk_clean (jump : walker json) fullSchema :
  forall v, clean v = true ->
    forall P, dereferenceRefsWalk jump fullSchema [] v P = Ok (v, P).
Proof.
  induction v as [ | | | | l IH | m IH ] using json_ind; intros Hc P;
    try reflexivity.
  - cbn [dereferenceRefsWalk].
    rewrite jsonSchemaDereferenceList_copies; [ reflexivity | ].
    rewrite clean_arr in Hc. rewrite forallb_forall in Hc.
    rewrite Forall_forall in IH. apply Forall_forall. intros el Hin P'.
    apply IH; auto.
  - cbn [dereferenceRefsWalk].
    rewrite clean_obj in Hc. apply andb_prop in Hc as [Hnd Hc].
    rewrite dereferenceRefsDict_copies; [ reflexivity | exact Hnd | ].
    rewrite forallb_forall in Hc. rewrite Forall_forall in IH.
    apply Forall_forall. intros [k x] Hin. cbn [fst snd].
    specialize (Hc _ Hin). cbn [entry_clean] in Hc.
    apply andb_prop in Hc as [Hk Hx]. apply negb_true_iff in Hk.
    split; [ exact Hk | ]. intros P'. now apply (IH _ Hin).
Qed.

Lemma skipKeysList_none (rec : walker (list string)) els :
  forall keys0 P,
    Forall (fun el => forall P', rec el P' = Ok ([], P')) els ->
    skipKeysList rec els keys0 P = Ok (keys0, P).
Proof.
  induction els as [ | el els IH ]; intros keys0 P Hall; [ reflexivity | ].
  inversion Hall as [ | ? ? Hel Hrest ]; subst. cbn [skipKeysList].
  rewrite Hel. cbn [bind]. rewrite app_nil_r. now apply IH.
Qed.

Lemma inferSkipKeysDict_none (rec jump : walker (list string)) fullSchema rest :
  forall keys0 P,
    Forall (fun kv => String.eqb (fst kv) "$ref" = false /\
                      forall P', rec (snd kv) P' = Ok ([], P')) rest ->
    inferSkipKeysDict rec jump fullSchema rest keys0 P = Ok (keys0, P).
Proof.
  induction rest as [ | [k v] rest IH ]; intros keys0 P Hall; [ reflexivity | ].
  inversion Hall as [ | ? ? [Hk Hv] Hrest ]; subst. cbn [fst snd] in Hk, Hv.
  cbn [inferSkipKeysDict]. rewrite Hk.
  destruct v; try (now apply IH); rewrite Hv; cbn [bind]; rewrite app_nil_r;
    now apply IH.
Qed.

Lemma inferSkipKeysWalk_clean (jump : walker (list string)) fullSchema :
  forall v, clean v = true ->
    forall P, inferSkipKeysWalk jump fullSchema v P = Ok ([], P).
Proof.
  induction v as [ | | | | l IH | m IH ] using json_ind; intros Hc P;
    try reflexivity.
  - cbn [inferSkipKeysWalk]. apply skipKeysList_none.
    rewrite clean_arr in Hc. rewrite forallb_forall in Hc.
    rewrite Forall_forall in IH. apply Forall_forall. intros el Hin P'.
    apply IH; auto.
  - cbn [inferSkipKeysWalk]. apply inferSkipKeysDict_none.
    rewrite clean_obj in Hc. apply andb_prop in Hc as [Hnd Hc].
    rewrite forallb_forall in Hc. rewrite Forall_forall in IH.
    apply Forall_forall. intros [k x] Hin. cbn [fst snd].
    specialize (Hc _ Hin). cbn [entry_clean] in Hc.
    apply andb_prop in Hc as [Hk Hx]. apply negb_true_iff in Hk.
    split; [ exact Hk | ]. intros P'. now apply (IH _ Hin).
Qed.

Lemma dereferenceRefs_clean depth schema :
  clean (JObj schema) = true ->
  dereferenceRefs (S depth) schema = Ok (JObj schema).
Proof.
  intros Hc. unfold dereferenceRefs. cbn [inferSkipKeys dereferenceRefsHelper].
  rewrite inferSkipKeysWalk_clean by exact Hc.
  rewrite dereferenceRefsWalk_clean by exact Hc. reflexivity.
Qed.

(** ** Sanitizing twice *)

(** C7, counterexample.  An [anyOf] element that is an [allOf] of a schema
    of type ["null"] is inlined by the first pass as an element of type
    ["null"]; the second pass drops that element and sets [nullable].  The
    document has no [$ref], both passes succeed and the results differ. *)
Lemma sanitize_twice_differs :
  let s := [("anyOf", JArr [JObj [("allOf", JArr [JObj [("type", JStr "null")]])];
                            JObj [("type", JStr "string")]])] in
  let once := [("anyOf", JArr [JObj [("type", JStr "null")];
                               JObj [("type", JStr "string")]])] in
  let twice := [("nullable", JBool true);
                ("anyOf", JArr [JObj [("type", JStr "string")]])] in
  has_key "$ref" (JObj s) = false /\ wf_json (JObj s) = true /\
  sanitizeJSONSchema 1 s = Ok once /\
  sanitizeJSONSchema 1 once = Ok twice /\
  once <> twice.
Proof. repeat split; try reflexivity. discriminate. Qed.

(** C7, amended.  For a schema tree with no [$ref] anywhere (and, as in every
    decoded document, distinct keys in each map): if sanitizing succeeds and
    no [anyOf] element of a schema node of the result has type ["null"], then
    sanitizing the result succeeds and returns the result unchanged. *)
Theorem sanitize_idempotent_without_null_branches
  (depth : nat) (s out : object)
  (Hwf : wf_json (JObj s) = true)
  (Hnoref : has_key "$ref" (JObj s) = false)
  (Hs : sanitizeJSONSchema depth s = Ok out)
  (Hfree : null_branch_free allowedSchemaFieldsSet (JObj out) = true) :
  sanitizeJSONSchema depth out = Ok out.
Proof.
  assert (Hclean : clean (JObj s) = true).
  { unfold clean. now rewrite Hwf, Hnoref. }
  destruct depth as [ | depth ]; [ discriminate | ].
  unfold sanitizeJSONSchema in *.
  rewrite dereferenceRefs_clean in Hs by exact Hclean. cbn [bind] in Hs.
  pose proof (formatJSONSchemaToGapicNode_clean _ Hclean _ Hs) as Hout.
  rewrite dereferenceRefs_clean by exact Hout. cbn [bind].
  now apply formatJSONSchemaToGapicNode_fixpoint.
Qed.

Lemma sanitize_idempotent_without_null_branches_witness :
  let s := [("type", JArr [JStr "string"; JStr "null"]);
            ("additionalProperties", JBool false);
            ("anyOf", JArr [JObj [("type", JStr "null")];
                            JObj [("type", JStr "number"); ("$defs", JObj [])]])] in
  let out := [("type", JStr "string"); ("nullable", JBool true);
              ("anyOf", JArr [JObj [("type", JStr "number")]])] in
  sanitizeJSONSchema 1 s = Ok out /\ sanitizeJSONSchema 1 out = Ok out.
Proof.
  split; [ reflexivity | ].
  exact (sanitize_idempotent_without_null_branches 1
           [("type", JArr [JStr "string"; JStr "null"]);
            ("additionalProperties", JBool false);
            ("anyOf", JArr [JObj [("type", JStr "null")];
                            JObj [("type", JStr "number"); ("$defs", JObj [])]])]
           _ eq_refl eq_refl eq_refl eq_refl).
Defined.

(** ** The newer dereferencing helper: the set of references in progress *)

Lemma set_del_absent p P : mem p P = false -> set_del p P = P.
Proof.
  unfold set_del. induction P as [ | q P IH ]; [ reflexivity | ].
  cbn [mem existsb filter]. intros H. apply orb_false_elim in H as [H1 H2].
  rewrite H1. cbn [negb]. f_equal. now apply IH.
Qed.

Lemma set_del_add p P : mem p P = false -> set_del p (set_add p P) = P.
Proof.
  intros H. unfold set_add, set_del. cbn [filter]. rewrite String.eqb_refl.
  cbn [negb]. now apply set_del_absent.
Qed.

Lemma bind_Ok {A B} (r : outcome A) (k : A -> outcome B) b :
  bind r k = Ok b -> exists a, r = Ok a /\ k a = Ok b.
Proof. destruct r; simpl; intros H; try discriminate. now exists a. Qed.

Lemma jsonSchemaDereferenceList_restores rec els :
  Forall (fun el => forall P v P', rec el P = Ok (v, P') -> P' = P) els ->
  forall listOut P v P',
    jsonSchemaDereferenceList rec els listOut P = Ok (v, P') -> P' = P.
Proof.
  induction els as [ | el els IH ]; intros Hall listOut P v P' H.
  - simpl in H. now injection H as _ <-.
  - inversion Hall as [ | ? ? Hel Hrest ]; subst.
    cbn [jsonSchemaDereferenceList] in H.
    apply bind_Ok in H as ([res P1] & H1 & H2).
    apply Hel in H1. subst P1. now apply (IH Hrest _ _ _ _ H2).
Qed.

Lemma jsonSchemaDereferenceDict_restores rec jump fullSchema skipKeys kvs :
  restores jump ->
  Forall (fun kv => forall P v P', rec (snd kv) P = Ok (v, P') -> P' = P) kvs ->
  forall objOut P v P',
    jsonSchemaDereferenceDict rec jump fullSchema skipKeys kvs objOut P = Ok (v, P') ->
    P' = P.
Proof.
  intros Hjump. induction kvs as [ | [k x] kvs IH ]; intros Hall objOut P v P' H.
  - simpl in H. now injection H as _ <-.
  - inversion Hall as [ | ? ? Hx Hrest ]; subst. cbn [snd] in Hx.
    cbn [jsonSchemaDereferenceDict] in H.
    destruct (mem k skipKeys); [ now apply (IH Hrest _ _ _ _ H) | ].
    destruct (String.eqb k "$ref").
    + destruct x; try discriminate.
      destruct (mem s P) eqn:Em; [ discriminate | ].
      apply bind_Ok in H as (ref & _ & H).
      apply bind_Ok in H as ([fullRef P1] & H1 & H2).
      apply Hjump in H1. subst P1. injection H2 as _ <-.
      now apply set_del_add.
    + destruct x; try (now apply (IH Hrest _ _ _ _ H));
        apply bind_Ok in H as ([res P1] & H1 & H2);
        apply Hx in H1; subst P1; now apply (IH Hrest _ _ _ _ H2).
Qed.

Lemma jsonSchemaDereferenceWalk_restores jump fullSchema skipKeys :
  restores jump -> restores (jsonSchemaDereferenceWalk jump fullSchema skipKeys).
Proof.
  intros Hjump obj. induction obj as [ | | | | l IH | m IH ] using json_ind;
    intros P v P' H; try (simpl in H; now injection H as _ <-).
  - cbn [jsonSchemaDereferenceWalk] in H.
    eapply jsonSchemaDereferenceList_restores; [ | exact H ]. exact IH.
  - cbn [jsonSchemaDereferenceWalk] in H.
    eapply jsonSchemaDereferenceDict_restores; [ exact Hjump | | exact H ]. exact IH.
Qed.

(** The entry put into [processedRefs] for a reference is removed again when
    its resolution returns. *)
Lemma jsonSchemaDereferenceHelper_restores depth fullSchema skipKeys :
  restores (jsonSchemaDereferenceHelper depth fullSchema skipKeys).
Proof.
  induction depth as [ | depth IH ]; intros obj P v P' H; [ discriminate | ].
  cbn [jsonSchemaDereferenceHelper] in H.
  now apply (jsonSchemaDereferenceWalk_restores _ _ _ IH) in H.
Qed.

(** ** A reference that is being resolved is an error *)

Lemma keys_In k (x : json) m : In (k, x) m -> In k (keys m).
Proof. intros H. change k with (fst (k, x)). now apply in_map. Qed.

Lemma jsonSchemaDereferenceDict_cycle rec jump fullSchema skipKeys p kvs :
  mem "$ref" skipKeys = false ->
  Forall (fun kv => forall P v P', rec (snd kv) P = Ok (v, P') -> P' = P) kvs ->
  nodupb (keys kvs) = true ->
  In ("$ref", JStr p) kvs ->
  forall objOut P,
    mem p P = true ->
    is_ok (jsonSchemaDereferenceDict rec jump fullSchema skipKeys kvs objOut P) = false.
Proof.
  intros Hskip. induction kvs as [ | [k x] kvs IH ]; intros Hall Hnd Hin objOut P Hp;
    [ destruct Hin | ].
  inversion Hall as [ | ? ? Hx Hrest ]; subst. cbn [snd] in Hx.
  cbn [keys map fst nodupb] in Hnd. fold (keys kvs) in Hnd.
  apply andb_prop in Hnd as [Hk Hnd]. apply negb_true_iff, mem_false in Hk.
  cbn [jsonSchemaDereferenceDict].
  destruct (String.eqb k "$ref") eqn:Ek.
  - apply String.eqb_eq in Ek. subst k. rewrite Hskip.
    destruct Hin as [Hhere | Hlater].
    + injection Hhere as ->. now rewrite Hp.
    + exfalso. apply Hk. now apply keys_In in Hlater.
  - assert (Hin' : In ("$ref", JStr p) kvs).
    { destruct Hin as [Hhere | Hlater]; [ | exact Hlater ].
      injection Hhere as -> _. now rewrite String.eqb_refl in Ek. }
    destruct (mem k skipKeys); [ now apply IH | ].
    destruct x; try (now apply IH);
      match goal with
      | |- context [ rec ?x P ] =>
          destruct (rec x P) as [[res P1] | | | ] eqn:Er; cbn [bind];
            try reflexivity;
          apply Hx in Er; subst P1; now apply IH
      end.
Qed.

(** ** No reference is left unresolved *)

Lemma has_ref_outside_obj skipKeys m :
  negb (has_ref_outside skipKeys (JObj m)) = forallb (entry_resolved skipKeys) m.
Proof.
  cbn [has_ref_outside].
  induction m as [ | [k x] m IH ]; [ reflexivity | ].
  cbn [existsb forallb entry_resolved]. rewrite <- IH.
  destruct (mem k skipKeys), (String.eqb k "$ref"), (has_ref_outside skipKeys x);
    cbn; try reflexivity;
    match goal with |- context [ existsb ?f m ] => destruct (existsb f m) end;
    reflexivity.
Qed.

Lemma has_ref_outside_arr skipKeys l :
  negb (has_ref_outside skipKeys (JArr l))
  = forallb (fun x => negb (has_ref_outside skipKeys x)) l.
Proof.
  cbn [has_ref_outside].
  induction l as [ | x l IH ]; [ reflexivity | ].
  cbn [existsb forallb]. rewrite <- IH.
  destruct (has_ref_outside skipKeys x); cbn; try reflexivity;
    match goal with |- context [ existsb ?f l ] => destruct (existsb f l) end;
    reflexivity.
Qed.

Lemma jsonSchemaDereferenceList_resolves skipKeys rec els :
  Forall (fun el => forall P v P', rec el P = Ok (v, P') ->
                      has_ref_outside skipKeys v = false) els ->
  forall listOut P v P',
    forallb (fun x => negb (has_ref_outside skipKeys x)) listOut = true ->
    jsonSchemaDereferenceList rec els listOut P = Ok (v, P') ->
    has_ref_outside skipKeys v = false.
Proof.
  induction els as [ | el els IH ]; intros Hall listOut P v P' H0 H.
  - simpl in H. injection H as <- _. apply negb_true_iff.
    now rewrite has_ref_outside_arr.
  - inversion Hall as [ | ? ? Hel Hrest ]; subst.
    cbn [jsonSchemaDereferenceList] in H.
    apply bind_Ok in H as ([res P1] & H1 & H2).
    apply (IH Hrest _ _ _ _ ) in H2; [ exact H2 | ].
    rewrite forallb_snoc, H0. cbn [andb]. apply negb_true_iff. now apply Hel in H1.
Qed.

Lemma jsonSchemaDereferenceDict_resolves rec jump fullSchema skipKeys kvs :
  resolves skipKeys jump ->
  Forall (fun kv => forall P v P', rec (snd kv) P = Ok (v, P') ->
                      has_ref_outside skipKeys v = false) kvs ->
  forall objOut P v P',
    forallb (entry_resolved skipKeys) objOut = true ->
    jsonSchemaDereferenceDict rec jump fullSchema skipKeys kvs objOut P = Ok (v, P') ->
    has_ref_outside skipKeys v = false.
Proof.
  intros Hjump. induction kvs as [ | [k x] kvs IH ]; intros Hall objOut P v P' H0 H.
  - simpl in H. injection H as <- _. apply negb_true_iff.
    now rewrite has_ref_outside_obj.
  - inversion Hall as [ | ? ? Hx Hrest ]; subst. cbn [snd] in Hx.
    cbn [jsonSchemaDereferenceDict] in H.
    destruct (mem k skipKeys) eqn:Es.
    { apply (IH Hrest _ _ _ _ ) in H; [ exact H | ].
      apply forallb_map_set; [ | exact H0 ]. cbn [entry_resolved]. now rewrite Es. }
    destruct (String.eqb k "$ref") eqn:Ek.
    + destruct x; try discriminate.
      destruct (mem s P) eqn:Em; [ discriminate | ].
      apply bind_Ok in H as (ref & _ & H).
      apply bind_Ok in H as ([fullRef P1] & H1 & H2).
      injection H2 as <- _. now apply Hjump in H1.
    + assert (Hscalar : forall y, has_ref_outside skipKeys y = false ->
                jsonSchemaDereferenceDict rec jump fullSchema skipKeys kvs
                  (map_set k y objOut) P = Ok (v, P') ->
                has_ref_outside skipKeys v = false).
      { intros y Hy Hgo. apply (IH Hrest _ _ _ _ ) in Hgo; [ exact Hgo | ].
        apply forallb_map_set; [ | exact H0 ].
        cbn [entry_resolved]. now rewrite Es, Ek, Hy. }
      destruct x; try (now (eapply Hscalar; [ | exact H ]; reflexivity));
        apply bind_Ok in H as ([res P1] & H1 & H2);
        apply Hx in H1;
        (apply (IH Hrest _ _ _ _ ) in H2; [ exact H2 | ]);
        (apply forallb_map_set; [ | exact H0 ]);
        cbn [entry_resolved]; now rewrite Es, Ek, H1.
Qed.

Lemma jsonSchemaDereferenceWalk_resolves jump fullSchema skipKeys :
  resolves skipKeys jump ->
  resolves skipKeys (jsonSchemaDereferenceWalk jump fullSchema skipKeys).
Proof.
  intros Hjump obj. induction obj as [ | | | | l IH | m IH ] using json_ind;
    intros P v P' H; try (simpl in H; now injection H as <- _).
  - cbn [jsonSchemaDereferenceWalk] in H.
    eapply jsonSchemaDereferenceList_resolves; [ exact IH | | exact H ]. reflexivity.
  - cbn [jsonSchemaDereferenceWalk] in H.
    eapply jsonSchemaDereferenceDict_resolves; [ exact Hjump | exact IH | | exact H ].
    reflexivity.
Qed.

(** Whatever the newer helper returns has no [$ref] key left, except inside
    the values it copies verbatim under the keys to skip: a reference is
    resolved or the call fails, it is never passed over. *)
Lemma jsonSchemaDereferenceHelper_resolves depth fullSchema skipKeys :
  resolves skipKeys (jsonSchemaDereferenceHelper depth fullSchema skipKeys).
Proof.
  induction depth as [ | depth IH ]; intros obj P v P' H; [ discriminate | ].
  cbn [jsonSchemaDereferenceHelper] in H.
  now apply (jsonSchemaDereferenceWalk_resolves _ _ _ IH) in H.
Qed.

(** ** The recursion of the newer helper is bounded *)

Lemma jsonSchemaDeepCopyMapStringAny_copies (rec : json -> json) rest :
  forall copied,
    nodupb (keys (copied ++ rest)%list) = true ->
    Forall (fun kv => rec (snd kv) = snd kv) rest ->
    jsonSchemaDeepCopyMapStringAny rec rest copied = (copied ++ rest)%list.
Proof.
  induction rest as [ | [k x] rest IH ]; intros copied Hnd Hall.
  - simpl. now rewrite app_nil_r.
  - inversion Hall as [ | ? ? Hx Hrest ]; subst. cbn [snd] in Hx.
    cbn [jsonSchemaDeepCopyMapStringAny]. rewrite Hx.
    rewrite map_set_absent by exact (nodupb_app_head _ _ _ _ Hnd).
    rewrite <- (app_snoc_assoc copied (k, x) rest). apply IH; [ | exact Hrest ].
    now rewrite app_snoc_assoc.
Qed.

(** The copy of a decoded document is equal to the document. *)
Lemma jsonSchemaDeepCopyAny_id : forall v, wf_json v = true -> jsonSchemaDeepCopyAny v = v.
Proof.
  induction v as [ | | | | l IH | m IH ] using json_ind; intros Hwf;
    try reflexivity.
  - cbn [jsonSchemaDeepCopyAny]. f_equal. cbn [wf_json] in Hwf.
    rewrite forallb_forall in Hwf. rewrite Forall_forall in IH.
    rewrite <- (map_id l) at 2. apply map_ext_in. intros x Hx. apply IH; auto.
  - cbn [jsonSchemaDeepCopyAny]. f_equal. rewrite wf_obj in Hwf.
    apply andb_prop in Hwf as [Hnd Hwf].
    rewrite jsonSchemaDeepCopyMapStringAny_copies; [ reflexivity | exact Hnd | ].
    rewrite forallb_forall in Hwf. rewrite Forall_forall in IH.
    apply Forall_forall. intros kv Hin. apply IH; auto.
Qed.

Lemma refs_in_entry k x m : In (k, x) m -> incl (refs_in x) (refs_in (JObj m)).
Proof.
  intros Hin p Hp. cbn [refs_in]. apply in_flat_map. exists (k, x).
  split; [ exact Hin | ]. apply in_or_app. now right.
Qed.

Lemma refs_in_ref p m : In ("$ref", JStr p) m -> In p (refs_in (JObj m)).
Proof.
  intros Hin. cbn [refs_in]. apply in_flat_map. exists ("$ref", JStr p).
  split; [ exact Hin | ]. cbn. now left.
Qed.

Lemma refs_in_element x l : In x l -> incl (refs_in x) (refs_in (JArr l)).
Proof.
  intros Hin p Hp. cbn [refs_in]. apply in_flat_map. now exists x.
Qed.

Lemma retrieveRefLoop_part path components :
  forall out o,
    wf_json (JObj out) = true ->
    retrieveRefLoop path components out = Ok o ->
    wf_json (JObj o) = true /\ incl (refs_in (JObj o)) (refs_in (JObj out)).
Proof.
  induction components as [ | c components IH ]; intros out o Hwf H.
  - simpl in H. injection H as <-. split; [ exact Hwf | apply incl_refl ].
  - cbn [retrieveRefLoop] in H.
    destruct (map_get c out) as [x | ] eqn:Eg; [ | discriminate ].
    destruct x; try discriminate.
    apply map_get_In in Eg.
    assert (Hwfl : wf_json (JObj l) = true).
    { rewrite wf_obj in Hwf. apply andb_prop in Hwf as [_ Hwf].
      rewrite forallb_forall in Hwf. exact (Hwf _ Eg). }
    destruct (IH _ _ Hwfl H) as [H1 H2]. split; [ exact H1 | ].
    eapply incl_tran; [ exact H2 | ]. eapply refs_in_entry; exact Eg.
Qed.

(** A retrieved reference is a part of the document, and retrieval itself
    never exceeds a depth. *)
Lemma jsonSchemaRetrieveRef_part path fullSchema ref :
  wf_json (JObj fullSchema) = true ->
  jsonSchemaRetrieveRef path fullSchema = Ok ref ->
  incl (refs_in ref) (refs_in (JObj fullSchema)).
Proof.
  intros Hwf. unfold jsonSchemaRetrieveRef.
  destruct (strings_Split path "/") as [ | c0 rest ]; [ discriminate | ].
  destruct (negb (String.eqb c0 "#")); [ discriminate | ].
  intros H. apply bind_Ok in H as (out & Hl & Heq).
  destruct (retrieveRefLoop_part _ _ _ _ Hwf Hl) as [H1 H2].
  rewrite (jsonSchemaDeepCopyAny_id _ H1) in Heq. injection Heq as <-. exact H2.
Qed.

Lemma retrieveRefLoop_terminates path components :
  forall out, retrieveRefLoop path components out <> TooDeep.
Proof.
  induction components as [ | c components IH ]; intros out; [ discriminate | ].
  cbn [retrieveRefLoop]. destruct (map_get c out) as [x | ]; [ | discriminate ].
  destruct x; try discriminate. apply IH.
Qed.

Lemma jsonSchemaRetrieveRef_terminates path fullSchema :
  jsonSchemaRetrieveRef path fullSchema <> TooDeep.
Proof.
  unfold jsonSchemaRetrieveRef.
  destruct (strings_Split path "/") as [ | c0 rest ]; [ discriminate | ].
  destruct (negb (String.eqb c0 "#")); [ discriminate | ].
  pose proof (retrieveRefLoop_terminates path rest fullSchema) as H.
  destruct (retrieveRefLoop path rest fullSchema); simpl; congruence.
Qed.

Lemma In_dedup p l : In p l -> In p (dedup l).
Proof.
  induction l as [ | x l IH ]; [ intros [] | ]. cbn [dedup].
  intros [-> | H].
  - destruct (mem p l) eqn:E; [ apply IH; now apply mem_In | now left ].
  - destruct (mem x l); [ now apply IH | right; now apply IH ].
Qed.

Lemma filter_length_le {A} (f g : A -> bool) l :
  (forall x, g x = true -> f x = true) ->
  List.length (filter g l) <= List.length (filter f l).
Proof.
  intros H. induction l as [ | x l IH ]; [ reflexivity | ]. cbn [filter].
  destruct (g x) eqn:Eg.
  - rewrite (H _ Eg). simpl. lia.
  - destruct (f x); simpl; lia.
Qed.

Lemma filter_length_lt {A} (f g : A -> bool) l p :
  (forall x, g x = true -> f x = true) ->
  In p l -> f p = true -> g p = false ->
  List.length (filter g l) < List.length (filter f l).
Proof.
  intros H. induction l as [ | x l IH ]; intros Hin Hf Hg; [ destruct Hin | ].
  cbn [filter]. destruct Hin as [-> | Hin].
  - rewrite Hf, Hg. pose proof (filter_length_le f g l H). simpl. lia.
  - specialize (IH Hin Hf Hg). destruct (g x) eqn:Eg.
    + rewrite (H _ Eg). simpl. lia.
    + destruct (f x); simpl; lia.
Qed.

(** Starting to resolve a reference of the document uses up one path. *)
Lemma ref_budget_add fullSchema p P :
  In p (refs_in (JObj fullSchema)) -> mem p P = false ->
  ref_budget fullSchema (set_add p P) < ref_budget fullSchema P.
Proof.
  intros Hin Hp. unfold ref_budget, set_add.
  apply filter_length_lt with (p := p).
  - intros x Hx. apply negb_true_iff in Hx. cbn [mem existsb] in Hx.
    apply orb_false_elim in Hx as [_ Hx]. now apply negb_true_iff.
  - now apply In_dedup.
  - now rewrite Hp.
  - cbn [mem existsb]. now rewrite String.eqb_refl.
Qed.

Lemma bind_terminates {A B} (r : outcome A) (k : A -> outcome B) :
  r <> TooDeep -> (forall a, r = Ok a -> k a <> TooDeep) -> bind r k <> TooDeep.
Proof. destruct r; simpl; intros H1 H2; try congruence. now apply H2. Qed.

Lemma jsonSchemaDereferenceList_terminates rec els :
  Forall (fun el => (forall P v P', rec el P = Ok (v, P') -> P' = P)) els ->
  forall listOut P,
    Forall (fun el => rec el P <> TooDeep) els ->
    jsonSchemaDereferenceList rec els listOut P <> TooDeep.
Proof.
  induction els as [ | el els IH ]; intros Hres listOut P Hall; [ discriminate | ].
  inversion Hres as [ | ? ? Hel Hrest ]; subst.
  inversion Hall as [ | ? ? Ht Htrest ]; subst.
  cbn [jsonSchemaDereferenceList]. apply bind_terminates; [ exact Ht | ].
  intros [res P1] Hr. apply Hel in Hr. subst P1. now apply IH.
Qed.

Lemma jsonSchemaDereferenceDict_terminates rec jump fullSchema skipKeys d kvs :
  wf_json (JObj fullSchema) = true ->
  restores jump -> bounded fullSchema d jump ->
  Forall (fun kv => forall P v P', rec (snd kv) P = Ok (v, P') -> P' = P) kvs ->
  incl (refs_in (JObj kvs)) (refs_in (JObj fullSchema)) ->
  forall objOut P,
    ref_budget fullSchema P <= d ->
    Forall (fun kv => rec (snd kv) P <> TooDeep) kvs ->
    jsonSchemaDereferenceDict rec jump fullSchema skipKeys kvs objOut P <> TooDeep.
Proof.
  intros Hwf Hjr Hjb.
  induction kvs as [ | [k x] kvs IH ]; intros Hres Hincl objOut P Hb Hall;
    [ discriminate | ].
  inversion Hres as [ | ? ? Hx Hrest ]; subst. cbn [snd] in Hx.
  inversion Hall as [ | ? ? Ht Htrest ]; subst. cbn [snd] in Ht.
  assert (Hincl' : incl (refs_in (JObj kvs)) (refs_in (JObj fullSchema))).
  { intros p Hp. apply Hincl. cbn [refs_in flat_map]. apply in_or_app. now right. }
  cbn [jsonSchemaDereferenceDict].
  destruct (mem k skipKeys); [ now apply IH | ].
  destruct (String.eqb k "$ref") eqn:Ek.
  - destruct x; try discriminate.
    destruct (mem s P) eqn:Em; [ discriminate | ].
    apply bind_terminates; [ apply jsonSchemaRetrieveRef_terminates | ].
    intros ref Href. apply bind_terminates.
    + apply Hjb.
      * now apply (jsonSchemaRetrieveRef_part _ _ _ Hwf Href).
      * apply String.eqb_eq in Ek. subst k.
        assert (Hs : In s (refs_in (JObj fullSchema))).
        { apply Hincl. apply refs_in_ref. now left. }
        pose proof (ref_budget_add _ _ _ Hs Em). lia.
    + intros [fullRef P1] _. discriminate.
  - destruct x; try (now apply IH);
      (apply bind_terminates; [ exact Ht | ]);
      intros [res P1] Hr; apply Hx in Hr; subst P1; now apply IH.
Qed.

Lemma jsonSchemaDereferenceWalk_terminates jump fullSchema skipKeys d :
  wf_json (JObj fullSchema) = true ->
  restores jump -> bounded fullSchema d jump ->
  forall obj P,
    incl (refs_in obj) (refs_in (JObj fullSchema)) ->
    ref_budget fullSchema P <= d ->
    jsonSchemaDereferenceWalk jump fullSchema skipKeys obj P <> TooDeep.
Proof.
  intros Hwf Hjr Hjb.
  pose proof (jsonSchemaDereferenceWalk_restores jump fullSchema skipKeys Hjr) as Hw.
  induction obj as [ | | | | l IH | m IH ] using json_ind; intros P Hincl Hb;
    try discriminate.
  - cbn [jsonSchemaDereferenceWalk].
    apply jsonSchemaDereferenceList_terminates.
    + apply Forall_forall. intros el _ P0 v P'. apply Hw.
    + rewrite Forall_forall in IH. apply Forall_forall. intros el Hin.
      apply IH; [ exact Hin | | exact Hb ].
      eapply incl_tran; [ | exact Hincl ]. now apply refs_in_element.
  - cbn [jsonSchemaDereferenceWalk].
    eapply jsonSchemaDereferenceDict_terminates; eauto.
    + apply Forall_forall. intros kv _ P0 v P'. apply Hw.
    + rewrite Forall_forall in IH. apply Forall_forall. intros [k x] Hin.
      cbn [snd]. apply (IH _ Hin); [ | exact Hb ].
      eapply incl_tran; [ | exact Hincl ]. eapply refs_in_entry; exact Hin.
Qed.

(** On a part of the document, a depth above the number of distinct
    reference paths of the document that are not in progress is never
    exceeded: the recursion of the newer helper is bounded. *)
Lemma jsonSchemaDereferenceHelper_terminates fullSchema skipKeys :
  wf_json (JObj fullSchema) = true ->
  forall depth, bounded fullSchema depth
                  (jsonSchemaDereferenceHelper depth fullSchema skipKeys).
Proof.
  intros Hwf. induction depth as [ | depth IH ]; intros obj P Hincl Hb; [ lia | ].
  cbn [jsonSchemaDereferenceHelper].
  apply (jsonSchemaDereferenceWalk_terminates _ _ _ depth); auto.
  - apply jsonSchemaDereferenceHelper_restores.
  - lia.
Qed.

(** Elements that resolve one by one from the same set resolve as a list:
    what one element added to the set is gone when the next one starts. *)
Lemma jsonSchemaDereferenceList_siblings (rec : walker json) els :
  forall vs listOut P,
    Forall2 (fun el v => rec el P = Ok (v, P)) els vs ->
    jsonSchemaDereferenceList rec els listOut P = Ok (JArr (listOut ++ vs)%list, P).
Proof.
  induction els as [ | el els IH ]; intros vs listOut P Hall;
    inversion Hall as [ | ? v ? vs' Hel Hrest ]; subst.
  - simpl. now rewrite app_nil_r.
  - cbn [jsonSchemaDereferenceList]. rewrite Hel. cbn [bind].
    rewrite (IH _ _ _ Hrest). now rewrite app_snoc_assoc.
Qed.

Lemma keys_app_entry (acc : object) k (x x' : json) rest :
  keys (acc ++ (k, x') :: rest)%list = keys (acc ++ (k, x) :: rest)%list.
Proof. unfold keys. now rewrite !map_app. Qed.

(** The same for the entries of a map, none of which is a reference or
    under a key to skip. *)
Lemma jsonSchemaDereferenceDict_siblings jump fullSchema skipKeys kvs :
  forall kvs' objOut P,
    Forall2 (fun kv kv' : string * json =>
               fst kv' = fst kv /\ mem (fst kv) skipKeys = false /\
               String.eqb (fst kv) "$ref" = false /\
               jsonSchemaDereferenceWalk jump fullSchema skipKeys (snd kv) P
               = Ok (snd kv', P)) kvs kvs' ->
    nodupb (keys (objOut ++ kvs)%list) = true ->
    jsonSchemaDereferenceDict (jsonSchemaDereferenceWalk jump fullSchema skipKeys)
      jump fullSchema skipKeys kvs objOut P
    = Ok (JObj (objOut ++ kvs')%list, P).
Proof.
  induction kvs as [ | [k x] kvs IH ]; intros kvs' objOut P Hall Hnd;
    inversion Hall as [ | ? [k' x'] ? kvs1 (Hk & Hskip & Href & Hx) Hrest ]; subst.
  - simpl. now rewrite app_nil_r.
  - cbn [fst snd] in Hk, Hskip, Href, Hx. subst k'.
    pose proof (nodupb_app_head _ _ _ _ Hnd) as Habs.
    assert (Hnext : jsonSchemaDereferenceDict
                      (jsonSchemaDereferenceWalk jump fullSchema skipKeys)
                      jump fullSchema skipKeys kvs (map_set k x' objOut) P
                    = Ok (JObj (objOut ++ (k, x') :: kvs1)%list, P)).
    { rewrite (map_set_absent _ _ _ Habs).
      rewrite <- (app_snoc_assoc objOut (k, x') kvs1). apply IH; [ exact Hrest | ].
      rewrite app_snoc_assoc, (keys_app_entry objOut k x x'). exact Hnd. }
    cbn [jsonSchemaDereferenceDict]. rewrite Hskip, Href.
    destruct x; try (cbn [jsonSchemaDereferenceWalk] in Hx; injection Hx as <-;
                     exact Hnext);
      rewrite Hx; cbn [bind]; exact Hnext.
Qed.

(** [jsonSchemaSkipKeys], which [jsonSchemaDereference] runs before the
    helper, never removes a path from its set: on a document without a cycle
    in which two properties use the same path it fails with the error meant
    for self recursion, and so does [jsonSchemaDereference].  The helper
    alone resolves both properties, and so does the older
    [dereferenceRefs]. *)
Lemma jsonSchemaSkipKeys_keeps_paths :
  refs_in (JObj siblingSchema) = ["#/$defs/X"; "#/$defs/X"] /\
  jsonSchemaSkipKeys 3 siblingSchema (JObj siblingSchema) [] = Err ErrSelfRecursive /\
  jsonSchemaDereference 3 siblingSchema = Err (ErrInvalidSchema ErrSelfRecursive) /\
  jsonSchemaDereferenceHelper 3 siblingSchema ["$defs"] (JObj siblingSchema) []
  = Ok (JObj [("properties",
               JObj [("a", JObj [("type", JStr "string")]);
                     ("b", JObj [("type", JStr "string")])]);
              ("$defs", JObj [("X", JObj [("type", JStr "string")])])], []) /\
  dereferenceRefs 3 siblingSchema
  = Ok (JObj [("properties",
               JObj [("a", JObj [("type", JStr "string")]);
                     ("b", JObj [("type", JStr "string")])]);
              ("$defs", JObj [("X", JObj [("type", JStr "string")])])]).
Proof. repeat split; vm_compute; reflexivity. Qed.

(** C1, the claim as stated fails.  On the document of the
    circular-reference scenario, in either visiting order of its root, the
    dereferencing of [sanitizeJSONSchema] returns a value, the empty map, and
    so does [sanitizeJSONSchema]: [dereferenceRefsHelper] passes over a
    reference that is being resolved ([continue]) instead of failing.
    [jsonSchemaDereference] fails on the same document. *)
Lemma older_helper_skips_cyclic_reference :
  dereferenceRefs 3 cyclicSchema = Ok (JObj []) /\
  dereferenceRefs 3 cyclicSchema' = Ok (JObj []) /\
  dereferenceRefsHelper 3 cyclicSchema [] (JObj cyclicSchema) [] = Ok (JObj [], []) /\
  sanitizeJSONSchema 3 cyclicSchema = Ok [] /\
  jsonSchemaDereference 3 cyclicSchema = Err (ErrInvalidSchema ErrSelfRecursive).
Proof. repeat split; vm_compute; reflexivity. Qed.

(** C1, amended.  For [jsonSchemaDereferenceHelper] (the helper of
    [jsonSchemaDereference]) on a decoded document, with [$ref] not among
    the keys to skip and any positive depth:
    - a map that is only a reference whose path is being resolved fails with
      the error "self recursive schema is currently not supported", and a
      map that has such a reference among its entries never yields a value;
    - a value that is returned has no [$ref] key outside the values copied
      under the keys to skip, so no reference is passed over, and the set of
      paths being resolved is the one the call started with: the entry of a
      reference is removed when its resolution returns;
    - on a part of the document, the number of references being resolved at
      once never exceeds the number of distinct reference paths of the
      document that are not being resolved;
    - elements of a list, and entries of a map, that each resolve from a set
      resolve together from that set, also when they use the same path.
    [dereferenceRefsHelper], the helper of [sanitizeJSONSchema], does not
    fail on a reference that is being resolved: it passes over it. *)
Theorem in_progress_reference_is_an_error (fullSchema : object)
  (skipKeys : list string) (depth : nat) :
  wf_json (JObj fullSchema) = true ->
  mem "$ref" skipKeys = false ->
  let deref := jsonSchemaDereferenceHelper (S depth) fullSchema skipKeys in
  (forall p P, mem p P = true ->
     deref (JObj [("$ref", JStr p)]) P = Err ErrSelfRecursive) /\
  (forall p P kvs,
     nodupb (keys kvs) = true -> In ("$ref", JStr p) kvs -> mem p P = true ->
     is_ok (deref (JObj kvs) P) = false) /\
  (forall obj P v P',
     deref obj P = Ok (v, P') -> has_ref_outside skipKeys v = false /\ P' = P) /\
  (forall obj P,
     incl (refs_in obj) (refs_in (JObj fullSchema)) ->
     ref_budget fullSchema P <= depth -> deref obj P <> TooDeep) /\
  (forall els vs P,
     Forall2 (fun el v => deref el P = Ok (v, P)) els vs ->
     deref (JArr els) P = Ok (JArr vs, P)) /\
  (forall kvs kvs' P,
     nodupb (keys kvs) = true ->
     Forall2 (fun kv kv' : string * json =>
                fst kv' = fst kv /\ mem (fst kv) skipKeys = false /\
                String.eqb (fst kv) "$ref" = false /\
                deref (snd kv) P = Ok (snd kv', P)) kvs kvs' ->
     deref (JObj kvs) P = Ok (JObj kvs', P)).
Proof.
  intros Hwf Hskip deref.
  pose proof (jsonSchemaDereferenceHelper_restores depth fullSchema skipKeys) as Hj.
  pose proof (jsonSchemaDereferenceWalk_restores _ fullSchema skipKeys Hj) as Hw.
  split; [ | split; [ | split; [ | split; [ | split ] ] ] ].
  - intros p P Hp. unfold deref.
    cbn [jsonSchemaDereferenceHelper jsonSchemaDereferenceWalk
         jsonSchemaDereferenceDict].
    rewrite Hskip. cbn [String.eqb Ascii.eqb Bool.eqb]. now rewrite Hp.
  - intros p P kvs Hnd Hin Hp. unfold deref.
    cbn [jsonSchemaDereferenceHelper jsonSchemaDereferenceWalk].
    apply jsonSchemaDereferenceDict_cycle with (p := p); auto.
    apply Forall_forall. intros kv _ P0 v P'. apply Hw.
  - intros obj P v P' H. split.
    + exact (jsonSchemaDereferenceHelper_resolves _ _ _ _ _ _ _ H).
    + exact (jsonSchemaDereferenceHelper_restores _ _ _ _ _ _ _ H).
  - intros obj P Hincl Hb.
    apply (jsonSchemaDereferenceHelper_terminates _ skipKeys Hwf (S depth));
      [ exact Hincl | lia ].
  - intros els vs P Hall. unfold deref in *.
    cbn [jsonSchemaDereferenceHelper] in *. cbn [jsonSchemaDereferenceWalk].
    now rewrite (jsonSchemaDereferenceList_siblings _ _ _ _ _ Hall).
  - intros kvs kvs' P Hnd Hall. unfold deref in *.
    cbn [jsonSchemaDereferenceHelper] in *. cbn [jsonSchemaDereferenceWalk].
    exact (jsonSchemaDereferenceDict_siblings _ _ _ _ _ [] _ Hall Hnd).
Qed.

Lemma in_progress_reference_is_an_error_witness :
  jsonSchemaDereferenceHelper 3 cyclicSchema ["$defs"]
    (JObj [("$ref", JStr "#/$defs/A")]) ["#/$defs/B"; "#/$defs/A"]
  = Err ErrSelfRecursive /\
  jsonSchemaDereferenceHelper 3 cyclicSchema ["$defs"] (JObj cyclicSchema) []
  <> TooDeep.
Proof.
  pose proof (in_progress_reference_is_an_error cyclicSchema ["$defs"] 2
                eq_refl eq_refl) as (H1 & _ & _ & H4 & _).
  split.
  - apply H1. reflexivity.
  - apply H4; [ apply incl_refl | vm_compute; lia ].
Defined.

(* ================================================================== *)
(** * Further properties of the schema helpers *)
(* ================================================================== *)

(** ** Copies and fragment paths *)

(** X1.  [jsonSchemaDeepCopyAny] returns a value equal to the one it is
    given, for every decoded value (maps have distinct keys), and copying a
    copy changes nothing. *)
Theorem deep_copy_equals_original (v : json) :
  wf_json v = true ->
  jsonSchemaDeepCopyAny v = v /\
  jsonSchemaDeepCopyAny (jsonSchemaDeepCopyAny v) = jsonSchemaDeepCopyAny v /\
  wf_json (jsonSchemaDeepCopyAny v) = true.
Proof.
  intros Hwf. pose proof (jsonSchemaDeepCopyAny_id v Hwf) as E.
  rewrite !E. now repeat split.
Qed.

Lemma deep_copy_equals_original_witness :
  jsonSchemaDeepCopyAny (JObj siblingSchema) = JObj siblingSchema.
Proof. exact (proj1 (deep_copy_equals_original (JObj siblingSchema) eq_refl)). Defined.

Lemma split_go_no_slash c :
  no_slash c = true ->
  forall rest cur, split_go "/" (c ++ rest) cur = split_go "/" rest (cur ++ c).
Proof.
  induction c as [ | ch c IH ]; intros Hc rest cur.
  - simpl. now rewrite append_nil_r.
  - cbn [no_slash] in Hc. apply andb_prop in Hc as [Hch Hc].
    apply negb_true_iff in Hch. cbn [append split_go]. rewrite Hch.
    rewrite (IH Hc). f_equal. rewrite append_assoc. reflexivity.
Qed.

Lemma split_go_refPathTail components :
  Forall (fun c => no_slash c = true) components ->
  forall cur, split_go "/" (refPathTail components) cur = cur :: components.
Proof.
  induction components as [ | c cs IH ]; intros Hall cur; [ reflexivity | ].
  inversion Hall as [ | ? ? Hc Hcs ]; subst.
  cbn [refPathTail append split_go]. cbn [Ascii.eqb Bool.eqb]. cbn [andb].
  f_equal. rewrite (split_go_no_slash c Hc). cbn [append]. now apply IH.
Qed.

(** Splitting a path built from slash-free components gives them back. *)
Lemma strings_Split_refPath c0 components :
  no_slash c0 = true -> Forall (fun c => no_slash c = true) components ->
  strings_Split (c0 ++ refPathTail components) "/" = c0 :: components.
Proof.
  intros H0 Hall. unfold strings_Split.
  rewrite (split_go_no_slash c0 H0). cbn [append].
  now apply split_go_refPathTail.
Qed.

Lemma retrieveRefLoop_lookup path components :
  forall schema node,
    lookup_path components schema = Some node ->
    retrieveRefLoop path components schema = Ok node.
Proof.
  induction components as [ | c cs IH ]; intros schema node H.
  - simpl in H. now injection H as <-.
  - cbn [lookup_path] in H. cbn [retrieveRefLoop].
    destruct (map_get c schema) as [x | ]; [ | discriminate ].
    destruct x; try discriminate. now apply IH.
Qed.

Lemma retrieveRefLoop_lookup_None path components :
  forall schema,
    lookup_path components schema = None ->
    is_ok (retrieveRefLoop path components schema) = false.
Proof.
  induction components as [ | c cs IH ]; intros schema H; [ discriminate | ].
  cbn [lookup_path] in H. cbn [retrieveRefLoop].
  destruct (map_get c schema) as [x | ]; [ | reflexivity ].
  destruct x; try reflexivity. now apply IH.
Qed.

(** X2.  For components without a slash, the path [#/c1/.../cn] retrieves
    the map [schema[c1]...[cn]] of a decoded document, unchanged, with both
    retrieval functions; when some step of that chain is absent or is not a
    map nothing is retrieved; and a path whose text before the first slash
    is not exactly [#] is rejected as not being a fragment. *)
Theorem fragment_path_retrieves_nested_node
  (schema : object) (components : list string)
  (Hwf : wf_json (JObj schema) = true)
  (Hcomp : Forall (fun c => no_slash c = true) components) :
  (forall node,
      lookup_path components schema = Some node ->
      jsonSchemaRetrieveRef (refPath components) schema = Ok (JObj node) /\
      retrieveRef (refPath components) schema = Ok (JObj node)) /\
  (lookup_path components schema = None ->
   is_ok (jsonSchemaRetrieveRef (refPath components) schema) = false /\
   is_ok (retrieveRef (refPath components) schema) = false) /\
  (forall c0, no_slash c0 = true -> c0 <> "#" ->
     jsonSchemaRetrieveRef (c0 ++ refPathTail components) schema = Err ErrNotFragment /\
     retrieveRef (c0 ++ refPathTail components) schema = Err ErrNotFragment).
Proof.
  assert (Hsplit : strings_Split (refPath components) "/" = "#" :: components).
  { unfold refPath. now apply strings_Split_refPath. }
  split; [ | split ].
  - intros node Hnode.
    pose proof (retrieveRefLoop_lookup (refPath components) _ _ _ Hnode) as Hl.
    destruct (retrieveRefLoop_part _ _ _ _ Hwf Hl) as [Hwfn _].
    change (retrieveRef (refPath components) schema)
      with (jsonSchemaRetrieveRef (refPath components) schema).
    split;
      (rewrite (jsonSchemaRetrieveRef_ok _ _ _ _ _ Hsplit eq_refl Hl);
       now rewrite (jsonSchemaDeepCopyAny_id _ Hwfn)).
  - intros Hnone.
    pose proof (retrieveRefLoop_lookup_None (refPath components) _ _ Hnone) as Hl.
    change (retrieveRef (refPath components) schema)
      with (jsonSchemaRetrieveRef (refPath components) schema).
    unfold jsonSchemaRetrieveRef. rewrite Hsplit.
    cbn [String.eqb Ascii.eqb Bool.eqb negb andb].
    destruct (retrieveRefLoop (refPath components) components schema);
      try discriminate; now split.
  - intros c0 H0 Hne.
    change (retrieveRef (c0 ++ refPathTail components) schema)
      with (jsonSchemaRetrieveRef (c0 ++ refPathTail components) schema).
    unfold jsonSchemaRetrieveRef.
    rewrite (strings_Split_refPath c0 components H0 Hcomp).
    apply String.eqb_neq in Hne. rewrite Hne. now split.
Qed.

Lemma fragment_path_retrieves_nested_node_witness :
  jsonSchemaRetrieveRef "#/$defs/X" siblingSchema = Ok (JObj [("type", JStr "string")]) /\
  is_ok (jsonSchemaRetrieveRef "#/$defs/Y" siblingSchema) = false /\
  jsonSchemaRetrieveRef "/$defs/X" siblingSchema = Err ErrNotFragment.
Proof.
  pose proof (fragment_path_retrieves_nested_node siblingSchema ["$defs"; "X"]
                eq_refl ltac:(repeat constructor)) as (H1 & _ & H3).
  pose proof (fragment_path_retrieves_nested_node siblingSchema ["$defs"; "Y"]
                eq_refl ltac:(repeat constructor)) as (_ & H2 & _).
  split; [ | split ].
  - exact (proj1 (H1 _ eq_refl)).
  - exact (proj1 (H2 eq_refl)).
  - exact (proj1 (H3 "" eq_refl ltac:(discriminate))).
Defined.

(** ** Documents without references, and references to such definitions *)

(** An entry that the dereferencing loop copies: its key is to be skipped, or
    it is no reference and the recursive call returns its value as it is. *)
Lemma jsonSchemaDereferenceDict_keeps (rec jump : walker json) fullSchema skipKeys rest :
  forall objOut P,
    nodupb (keys (objOut ++ rest)%list) = true ->
    Forall (fun kv => mem (fst kv) skipKeys = true \/
                      (String.eqb (fst kv) "$ref" = false /\
                       forall P', rec (snd kv) P' = Ok (snd kv, P'))) rest ->
    jsonSchemaDereferenceDict rec jump fullSchema skipKeys rest objOut P
    = Ok (JObj (objOut ++ rest)%list, P).
Proof.
  induction rest as [ | [k v] rest IH ]; intros objOut P Hnd Hall.
  - simpl. now rewrite app_nil_r.
  - inversion Hall as [ | ? ? Hkv Hrest ]; subst. cbn [fst snd] in Hkv.
    assert (Hgo : jsonSchemaDereferenceDict rec jump fullSchema skipKeys rest
                    (map_set k v objOut) P
                  = Ok (JObj (objOut ++ (k, v) :: rest)%list, P)).
    { rewrite map_set_absent by exact (nodupb_app_head _ _ _ _ Hnd).
      rewrite <- (app_snoc_assoc objOut (k, v) rest). apply IH; [ | exact Hrest ].
      now rewrite app_snoc_assoc. }
    cbn [jsonSchemaDereferenceDict].
    destruct (mem k skipKeys) eqn:Es; [ exact Hgo | ].
    destruct Hkv as [Hs | [Hk Hv]]; [ discriminate | ]. rewrite Hk.
    destruct v; try exact Hgo; rewrite Hv; cbn [bind]; exact Hgo.
Qed.

Lemma dereferenceRefsDict_keeps (rec jump : walker json) fullSchema skipKeys rest :
  forall objOut P,
    nodupb (keys (objOut ++ rest)%list) = true ->
    Forall (fun kv => mem (fst kv) skipKeys = true \/
                      (String.eqb (fst kv) "$ref" = false /\
                       forall P', rec (snd kv) P' = Ok (snd kv, P'))) rest ->
    dereferenceRefsDict rec jump fullSchema skipKeys rest objOut P
    = Ok (JObj (objOut ++ rest)%list, P).
Proof.
  induction rest as [ | [k v] rest IH ]; intros objOut P Hnd Hall.
  - simpl. now rewrite app_nil_r.
  - inversion Hall as [ | ? ? Hkv Hrest ]; subst. cbn [fst snd] in Hkv.
    assert (Hgo : dereferenceRefsDict rec jump fullSchema skipKeys rest
                    (map_set k v objOut) P
                  = Ok (JObj (objOut ++ (k, v) :: rest)%list, P)).
    { rewrite map_set_absent by exact (nodupb_app_head _ _ _ _ Hnd).
      rewrite <- (app_snoc_assoc objOut (k, v) rest). apply IH; [ | exact Hrest ].
      now rewrite app_snoc_assoc. }
    cbn [dereferenceRefsDict].
    destruct (mem k skipKeys) eqn:Es; [ exact Hgo | ].
    destruct Hkv as [Hs | [Hk Hv]]; [ discriminate | ]. rewrite Hk.
    destruct v; try exact Hgo; rewrite Hv; cbn [bind]; exact Hgo.
Qed.

Lemma clean_entries m :
  clean (JObj m) = true ->
  nodupb (keys m) = true /\
  Forall (fun kv : string * json =>
            String.eqb (fst kv) "$ref" = false /\ clean (snd kv) = true) m.
Proof.
  rewrite clean_obj. intros H. apply andb_prop in H as [Hnd H].
  split; [ exact Hnd | ]. rewrite forallb_forall in H. apply Forall_forall.
  intros [k x] Hin. specialize (H _ Hin). cbn [entry_clean] in H.
  apply andb_prop in H as [Hk Hx]. apply negb_true_iff in Hk. now split.
Qed.

(** Whatever the keys to skip, both helpers return a value without
    references as it is and leave [processedRefs] as it was. *)
Lemma jsonSchemaDereferenceWalk_keeps (jump : walker json) fullSchema skipKeys :
  forall v, clean v = true ->
    forall P, jsonSchemaDereferenceWalk jump fullSchema skipKeys v P = Ok (v, P).
Proof.
  induction v as [ | | | | l IH | m IH ] using json_ind; intros Hc P;
    try reflexivity.
  - cbn [jsonSchemaDereferenceWalk].
    rewrite jsonSchemaDereferenceList_copies; [ reflexivity | ].
    rewrite clean_arr in Hc. rewrite forallb_forall in Hc.
    rewrite Forall_forall in IH. apply Forall_forall. intros el Hin P'.
    apply IH; auto.
  - cbn [jsonSchemaDereferenceWalk].
    destruct (clean_entries _ Hc) as [Hnd Hall].
    rewrite jsonSchemaDereferenceDict_keeps; [ reflexivity | exact Hnd | ].
    rewrite Forall_forall in IH, Hall. apply Forall_forall. intros kv Hin.
    destruct (Hall _ Hin) as [Hk Hx]. right. split; [ exact Hk | ].
    intros P'. now apply (IH _ Hin).
Qed.

Lemma dereferenceRefsWalk_keeps (jump : walker json) fullSchema skipKeys :
  forall v, clean v = true ->
    forall P, dereferenceRefsWalk jump fullSchema skipKeys v P = Ok (v, P).
Proof.
  induction v as [ | | | | l IH | m IH ] using json_ind; intros Hc P;
    try reflexivity.
  - cbn [dereferenceRefsWalk].
    rewrite jsonSchemaDereferenceList_copies; [ reflexivity | ].
    rewrite clean_arr in Hc. rewrite forallb_forall in Hc.
    rewrite Forall_forall in IH. apply Forall_forall. intros el Hin P'.
    apply IH; auto.
  - cbn [dereferenceRefsWalk].
    destruct (clean_entries _ Hc) as [Hnd Hall].
    rewrite dereferenceRefsDict_keeps; [ reflexivity | exact Hnd | ].
    rewrite Forall_forall in IH, Hall. apply Forall_forall. intros kv Hin.
    destruct (Hall _ Hin) as [Hk Hx]. right. split; [ exact Hk | ].
    intros P'. now apply (IH _ Hin).
Qed.

Lemma jsonSchemaSkipKeysDict_none (rec jump : walker (list string)) fullSchema rest :
  forall keys0 P,
    Forall (fun kv => String.eqb (fst kv) "$ref" = false /\
                      forall P', rec (snd kv) P' = Ok ([], P')) rest ->
    jsonSchemaSkipKeysDict rec jump fullSchema rest keys0 P = Ok (keys0, P).
Proof.
  induction rest as [ | [k v] rest IH ]; intros keys0 P Hall; [ reflexivity | ].
  inversion Hall as [ | ? ? [Hk Hv] Hrest ]; subst. cbn [fst snd] in Hk, Hv.
  cbn [jsonSchemaSkipKeysDict]. rewrite Hk.
  destruct v; try (now apply IH); rewrite Hv; cbn [bind]; rewrite app_nil_r;
    now apply IH.
Qed.

Lemma jsonSchemaSkipKeysWalk_clean (jump : walker (list string)) fullSchema :
  forall v, clean v = true ->
    forall P, jsonSchemaSkipKeysWalk jump fullSchema v P = Ok ([], P).
Proof.
  induction v as [ | | | | l IH | m IH ] using json_ind; intros Hc P;
    try reflexivity.
  - cbn [jsonSchemaSkipKeysWalk]. apply skipKeysList_none.
    rewrite clean_arr in Hc. rewrite forallb_forall in Hc.
    rewrite Forall_forall in IH. apply Forall_forall. intros el Hin P'.
    apply IH; auto.
  - cbn [jsonSchemaSkipKeysWalk]. apply jsonSchemaSkipKeysDict_none.
    destruct (clean_entries _ Hc) as [Hnd Hall].
    rewrite Forall_forall in IH, Hall. apply Forall_forall. intros kv Hin.
    destruct (Hall _ Hin) as [Hk Hx]. split; [ exact Hk | ].
    intros P'. now apply (IH _ Hin).
Qed.

(** X3.  A decoded document with no [$ref] key anywhere is returned as it
    is by both dereferencing functions, and a value with no [$ref] inside is
    returned as it is by both helpers, whatever the keys to skip and the
    references in progress, which stay as they were. *)
Theorem dereference_without_references_is_identity
  (depth : nat) (schema : object) (Hclean : clean (JObj schema) = true) :
  jsonSchemaDereference (S depth) schema = Ok (JObj schema) /\
  dereferenceRefs (S depth) schema = Ok (JObj schema) /\
  (forall fullSchema skipKeys v P, clean v = true ->
     jsonSchemaDereferenceHelper (S depth) fullSchema skipKeys v P = Ok (v, P) /\
     dereferenceRefsHelper (S depth) fullSchema skipKeys v P = Ok (v, P)).
Proof.
  split; [ | split ].
  - unfold jsonSchemaDereference. cbn [jsonSchemaSkipKeys jsonSchemaDereferenceHelper].
    rewrite jsonSchemaSkipKeysWalk_clean by exact Hclean.
    rewrite jsonSchemaDereferenceWalk_keeps by exact Hclean. reflexivity.
  - unfold dereferenceRefs. cbn [inferSkipKeys dereferenceRefsHelper].
    rewrite inferSkipKeysWalk_clean by exact Hclean.
    rewrite dereferenceRefsWalk_keeps by exact Hclean. reflexivity.
  - intros fullSchema skipKeys v P Hv.
    cbn [jsonSchemaDereferenceHelper dereferenceRefsHelper]. split.
    + now apply jsonSchemaDereferenceWalk_keeps.
    + now apply dereferenceRefsWalk_keeps.
Qed.

Lemma dereference_without_references_is_identity_witness :
  let doc := [("type", JStr "object");
              ("properties", JObj [("a", JObj [("type", JStr "string")])]);
              ("required", JArr [JStr "a"])] in
  jsonSchemaDereference 1 doc = Ok (JObj doc) /\ dereferenceRefs 1 doc = Ok (JObj doc).
Proof.
  pose proof (dereference_without_references_is_identity 0
                [("type", JStr "object");
                 ("properties", JObj [("a", JObj [("type", JStr "string")])]);
                 ("required", JArr [JStr "a"])] eq_refl) as (H1 & H2 & _).
  split; assumption.
Defined.

(** The loop of the newer helper on a map that holds a reference not in
    progress: the entries visited before it are copied into a map that is
    thrown away, and the resolved reference is returned. *)
Lemma jsonSchemaDereferenceDict_ref (rec jump : walker json)
  fullSchema skipKeys p ref r P P1 kvs :
  mem "$ref" skipKeys = false -> mem p P = false ->
  jsonSchemaRetrieveRef p fullSchema = Ok ref ->
  jump ref (set_add p P) = Ok (r, P1) ->
  nodupb (keys kvs) = true -> In ("$ref", JStr p) kvs ->
  Forall (fun kv => String.eqb (fst kv) "$ref" = false ->
                    forall P', rec (snd kv) P' = Ok (snd kv, P')) kvs ->
  forall objOut,
    jsonSchemaDereferenceDict rec jump fullSchema skipKeys kvs objOut P
    = Ok (r, set_del p P1).
Proof.
  intros Hskip Hp Href Hjump.
  induction kvs as [ | [k x] kvs IH ]; intros Hnd Hin Hall objOut; [ destruct Hin | ].
  inversion Hall as [ | ? ? Hkx Hrest ]; subst. cbn [fst snd] in Hkx.
  cbn [keys map fst nodupb] in Hnd. fold (keys kvs) in Hnd.
  apply andb_prop in Hnd as [Hk Hnd]. apply negb_true_iff, mem_false in Hk.
  cbn [jsonSchemaDereferenceDict]. destruct Hin as [Hin | Hin].
  - injection Hin as -> ->. rewrite Hskip, String.eqb_refl, Hp, Href.
    cbn [bind]. rewrite Hjump. reflexivity.
  - assert (Hne : String.eqb k "$ref" = false).
    { apply String.eqb_neq. intros ->. apply Hk. eapply keys_In; exact Hin. }
    destruct (mem k skipKeys); [ now apply IH | ]. rewrite Hne.
    specialize (Hkx Hne).
    destruct x; try (now apply IH); rewrite Hkx; cbn [bind]; now apply IH.
Qed.

Lemma dereferenceRefsDict_ref (rec jump : walker json)
  fullSchema skipKeys p ref r P P1 kvs :
  mem "$ref" skipKeys = false -> mem p P = false ->
  retrieveRef p fullSchema = Ok ref ->
  jump ref (set_add p P) = Ok (r, P1) ->
  nodupb (keys kvs) = true -> In ("$ref", JStr p) kvs ->
  Forall (fun kv => String.eqb (fst kv) "$ref" = false ->
                    forall P', rec (snd kv) P' = Ok (snd kv, P')) kvs ->
  forall objOut,
    dereferenceRefsDict rec jump fullSchema skipKeys kvs objOut P
    = Ok (r, set_del p P1).
Proof.
  intros Hskip Hp Href Hjump.
  induction kvs as [ | [k x] kvs IH ]; intros Hnd Hin Hall objOut; [ destruct Hin | ].
  inversion Hall as [ | ? ? Hkx Hrest ]; subst. cbn [fst snd] in Hkx.
  cbn [keys map fst nodupb] in Hnd. fold (keys kvs) in Hnd.
  apply andb_prop in Hnd as [Hk Hnd]. apply negb_true_iff, mem_false in Hk.
  cbn [dereferenceRefsDict]. destruct Hin as [Hin | Hin].
  - injection Hin as -> ->. rewrite Hskip, String.eqb_refl, Hp, Href.
    cbn [bind]. rewrite Hjump. reflexivity.
  - assert (Hne : String.eqb k "$ref" = false).
    { apply String.eqb_neq. intros ->. apply Hk. eapply keys_In; exact Hin. }
    destruct (mem k skipKeys); [ now apply IH | ]. rewrite Hne.
    specialize (Hkx Hne).
    destruct x; try (now apply IH); rewrite Hkx; cbn [bind]; now apply IH.
Qed.

(** X4.  A map that holds a [$ref] to a definition without references is
    replaced by that definition, by both helpers: the other entries of the
    map (here without references themselves) are dropped, whether they are
    visited before or after the reference, and the set of references in
    progress is left as it was. *)
Theorem reference_replaced_by_definition
  (depth : nat) (fullSchema : object) (skipKeys : list string)
  (kvs : object) (p : string) (ref : json) (P : refset)
  (Hskip : mem "$ref" skipKeys = false)
  (Hkeys : nodupb (keys kvs) = true)
  (Hin : In ("$ref", JStr p) kvs)
  (Hp : mem p P = false)
  (Hothers : Forall (fun kv : string * json =>
                       String.eqb (fst kv) "$ref" = false -> clean (snd kv) = true) kvs)
  (Href : jsonSchemaRetrieveRef p fullSchema = Ok ref)
  (Hclean : clean ref = true) :
  jsonSchemaDereferenceHelper (S (S depth)) fullSchema skipKeys (JObj kvs) P
  = Ok (ref, P) /\
  dereferenceRefsHelper (S (S depth)) fullSchema skipKeys (JObj kvs) P
  = Ok (ref, P).
Proof.
  split.
  - cbn [jsonSchemaDereferenceHelper jsonSchemaDereferenceWalk].
    rewrite (jsonSchemaDereferenceDict_ref _ _ fullSchema skipKeys p ref ref P
               (set_add p P) kvs Hskip Hp Href); auto.
    + now rewrite set_del_add.
    + now apply jsonSchemaDereferenceWalk_keeps.
    + rewrite Forall_forall in Hothers. apply Forall_forall. intros kv Hkv Hne P'.
      apply jsonSchemaDereferenceWalk_keeps. now apply Hothers.
  - cbn [dereferenceRefsHelper dereferenceRefsWalk].
    rewrite (dereferenceRefsDict_ref _ _ fullSchema skipKeys p ref ref P
               (set_add p P) kvs Hskip Hp Href); auto.
    + now rewrite set_del_add.
    + now apply dereferenceRefsWalk_keeps.
    + rewrite Forall_forall in Hothers. apply Forall_forall. intros kv Hkv Hne P'.
      apply dereferenceRefsWalk_keeps. now apply Hothers.
Qed.

Lemma reference_replaced_by_definition_witness :
  jsonSchemaDereferenceHelper 2 siblingSchema ["$defs"]
    (JObj [("description", JStr "d"); ("$ref", JStr "#/$defs/X"); ("title", JStr "t")]) []
  = Ok (JObj [("type", JStr "string")], []).
Proof.
  refine (proj1 (reference_replaced_by_definition 0 siblingSchema ["$defs"]
                   [("description", JStr "d"); ("$ref", JStr "#/$defs/X");
                    ("title", JStr "t")]
                   "#/$defs/X" (JObj [("type", JStr "string")]) []
                   eq_refl eq_refl _ eq_refl _ eq_refl eq_refl)).
  - right. left. reflexivity.
  - repeat constructor.
Defined.

(** ** The skip-key pass of the newer helper uses every path once *)

Lemma NoDup_append {A} (l1 l2 : list A) :
  NoDup l1 -> NoDup l2 -> (forall x, In x l1 -> ~ In x l2) -> NoDup (l1 ++ l2)%list.
Proof.
  induction l1 as [ | a l1 IH ]; intros H1 H2 Hd; [ exact H2 | ].
  inversion H1 as [ | ? ? Ha Hl1 ]; subst. cbn [app]. constructor.
  - intros Hin. apply in_app_or in Hin as [Hin | Hin]; [ now apply Ha | ].
    apply (Hd a); [ now left | exact Hin ].
  - apply IH; auto. intros x Hx. apply Hd. now right.
Qed.

Lemma single_use_nil P : single_use [] P P.
Proof.
  split; [ apply incl_refl | split; [ intros x [] | split; [ constructor | intros x [] ] ] ].
Qed.

Lemma single_use_app r1 r2 P P1 P2 :
  single_use r1 P P1 -> single_use r2 P1 P2 -> single_use (r1 ++ r2)%list P P2.
Proof.
  intros (Hi1 & Hr1 & Hn1 & Hd1) (Hi2 & Hr2 & Hn2 & Hd2).
  split; [ | split; [ | split ] ].
  - eapply incl_tran; eassumption.
  - apply incl_app; [ eapply incl_tran; eassumption | exact Hr2 ].
  - apply NoDup_append; auto. intros x Hx1 Hx2. apply (Hd2 x Hx2). now apply Hr1.
  - intros p Hp. apply in_app_or in Hp as [Hp | Hp]; [ now apply Hd1 | ].
    intros HP. apply (Hd2 p Hp). now apply Hi1.
Qed.

Lemma single_use_ref p P P1 :
  mem p P = false -> incl (p :: P) P1 -> single_use [p] P P1.
Proof.
  intros Hp Hi. apply mem_false in Hp. split; [ | split; [ | split ] ].
  - intros x Hx. apply Hi. now right.
  - intros x [<- | []]. apply Hi. now left.
  - constructor; [ intros [] | constructor ].
  - intros x [<- | []]. exact Hp.
Qed.

Lemma single_use_start r P0 P P1 :
  incl P0 P -> single_use r P P1 -> single_use r P0 P1.
Proof.
  intros Hi (H1 & H2 & H3 & H4). split; [ | split; [ | split ] ]; auto.
  - eapply incl_tran; eassumption.
  - intros p Hp HP. apply (H4 p Hp). now apply Hi.
Qed.

Lemma refs_in_cons k v rest :
  refs_in (JObj ((k, v) :: rest))
  = (((if String.eqb k "$ref"
       then match v with JStr p => [p] | _ => [] end
       else []) ++ refs_in v) ++ refs_in (JObj rest))%list.
Proof. reflexivity. Qed.

Lemma uses_cons fullSchema k v rest :
  uses fullSchema (JObj ((k, v) :: rest))
  = (((if String.eqb k "$ref"
       then match v with JStr p => p :: defrefs fullSchema p | _ => [] end
       else []) ++ uses fullSchema v) ++ uses fullSchema (JObj rest))%list.
Proof. reflexivity. Qed.

Lemma skipKeysList_accounts fullSchema (rec : walker (list string)) els :
  Forall (fun el => forall P ks P', rec el P = Ok (ks, P') ->
            single_use (refs_in el) P P' /\ single_use (uses fullSchema el) P P') els ->
  forall keys0 P ks P',
    skipKeysList rec els keys0 P = Ok (ks, P') ->
    single_use (refs_in (JArr els)) P P' /\
    single_use (uses fullSchema (JArr els)) P P'.
Proof.
  induction els as [ | el els IH ]; intros Hall keys0 P ks P' H.
  - simpl in H. injection H as _ <-. split; apply single_use_nil.
  - inversion Hall as [ | ? ? Hel Hrest ]; subst. cbn [skipKeysList] in H.
    apply bind_Ok in H as ([nk P1] & H1 & H2).
    destruct (Hel _ _ _ H1) as [Ha Hb].
    destruct (IH Hrest _ _ _ _ H2) as [Hc Hd].
    split.
    + change (refs_in (JArr (el :: els)))
        with (refs_in el ++ refs_in (JArr els))%list.
      eapply single_use_app; eassumption.
    + change (uses fullSchema (JArr (el :: els)))
        with (uses fullSchema el ++ uses fullSchema (JArr els))%list.
      eapply single_use_app; eassumption.
Qed.

Lemma jsonSchemaSkipKeysDict_accounts fullSchema (rec jump : walker (list string)) kvs :
  accounts fullSchema jump ->
  Forall (fun kv => forall P ks P', rec (snd kv) P = Ok (ks, P') ->
            single_use (refs_in (snd kv)) P P' /\
            single_use (uses fullSchema (snd kv)) P P') kvs ->
  forall keys0 P ks P',
    jsonSchemaSkipKeysDict rec jump fullSchema kvs keys0 P = Ok (ks, P') ->
    single_use (refs_in (JObj kvs)) P P' /\
    single_use (uses fullSchema (JObj kvs)) P P'.
Proof.
  intros Hjump. induction kvs as [ | [k v] kvs IH ]; intros Hall keys0 P ks P' H.
  - simpl in H. injection H as _ <-. split; apply single_use_nil.
  - inversion Hall as [ | ? ? Hv Hrest ]; subst. cbn [snd] in Hv.
    rewrite refs_in_cons, uses_cons. cbn [jsonSchemaSkipKeysDict] in H.
    destruct (String.eqb k "$ref") eqn:Ek.
    + destruct v as [ | | | s | | ]; try discriminate.
      destruct (mem s P) eqn:Es; [ discriminate | ].
      apply bind_Ok in H as (ref & Href & H).
      apply bind_Ok in H as ([nk P1] & Hj & H).
      destruct (Hjump _ _ _ _ Hj) as [Ha Hb].
      destruct (IH Hrest _ _ _ _ H) as [Hc Hd].
      assert (Hs : single_use [s] P (set_add s P)).
      { apply single_use_ref; [ exact Es | apply incl_refl ]. }
      split.
      * change (refs_in (JStr s)) with (@nil string). rewrite app_nil_r.
        eapply single_use_app; [ | exact Hc ].
        apply single_use_ref; [ exact Es | ]. now destruct Ha.
      * change (uses fullSchema (JStr s)) with (@nil string). rewrite app_nil_r.
        unfold defrefs. rewrite Href.
        eapply single_use_app; [ | exact Hd ].
        change (s :: refs_in ref) with ([s] ++ refs_in ref)%list.
        eapply single_use_app; [ exact Hs | exact Ha ].
    + destruct v as [ | | | | l | m ];
        try exact (IH Hrest _ _ _ _ H).
      * apply bind_Ok in H as ([nk P1] & H1 & H2).
        destruct (Hv _ _ _ H1) as [Ha Hb].
        destruct (IH Hrest _ _ _ _ H2) as [Hc Hd].
        cbn [app]. split; eapply single_use_app; eassumption.
      * apply bind_Ok in H as ([nk P1] & H1 & H2).
        destruct (Hv _ _ _ H1) as [Ha Hb].
        destruct (IH Hrest _ _ _ _ H2) as [Hc Hd].
        cbn [app]. split; eapply single_use_app; eassumption.
Qed.

Lemma jsonSchemaSkipKeysWalk_accounts fullSchema (jump : walker (list string)) :
  accounts fullSchema jump ->
  accounts fullSchema (jsonSchemaSkipKeysWalk jump fullSchema).
Proof.
  intros Hjump obj. induction obj as [ | | | | l IH | m IH ] using json_ind;
    intros P ks P' H;
    try (simpl in H; injection H as _ <-; split; apply single_use_nil).
  - cbn [jsonSchemaSkipKeysWalk] in H.
    eapply skipKeysList_accounts; [ | exact H ]. exact IH.
  - cbn [jsonSchemaSkipKeysWalk] in H.
    eapply jsonSchemaSkipKeysDict_accounts; [ exact Hjump | | exact H ]. exact IH.
Qed.

Lemma jsonSchemaSkipKeys_accounts depth fullSchema :
  accounts fullSchema (jsonSchemaSkipKeys depth fullSchema).
Proof.
  induction depth as [ | depth IH ]; intros obj P ks P' H; [ discriminate | ].
  cbn [jsonSchemaSkipKeys] in H.
  now apply (jsonSchemaSkipKeysWalk_accounts _ _ IH) in H.
Qed.

(** X5.  When [jsonSchemaSkipKeys] returns, no reference path was come
    across twice, counting both the [$ref] entries of the value walked and
    those inside the definitions they name; none of these paths was in the
    set at the start; all of them are in the set at the end, from which
    nothing was removed. *)
Theorem jsonSchemaSkipKeys_accepts_single_use_only
  (depth : nat) (fullSchema : object) (obj : json) (P P' : refset)
  (ks : list string)
  (H : jsonSchemaSkipKeys depth fullSchema obj P = Ok (ks, P')) :
  NoDup (refs_in obj) /\ NoDup (uses fullSchema obj) /\
  (forall p, In p (uses fullSchema obj) -> mem p P = false /\ mem p P' = true) /\
  incl P P'.
Proof.
  destruct (jsonSchemaSkipKeys_accounts _ _ _ _ _ _ H)
    as [(_ & _ & Hn1 & _) (Hi & Hr & Hn2 & Hd)].
  split; [ exact Hn1 | split; [ exact Hn2 | split; [ | exact Hi ] ] ].
  intros p Hp. split; [ apply mem_false; now apply Hd | apply mem_In; now apply Hr ].
Qed.

Lemma jsonSchemaSkipKeys_accepts_single_use_only_witness :
  let doc := [("properties", JObj [("a", JObj [("$ref", JStr "#/$defs/X")])]);
              ("$defs", JObj [("X", JObj [("type", JStr "string")])])] in
  jsonSchemaSkipKeys 2 doc (JObj doc) [] = Ok (["$defs"], ["#/$defs/X"]) /\
  NoDup (uses doc (JObj doc)).
Proof.
  split; [ reflexivity | ].
  exact (proj1 (proj2 (jsonSchemaSkipKeys_accepts_single_use_only 2
           [("properties", JObj [("a", JObj [("$ref", JStr "#/$defs/X")])]);
            ("$defs", JObj [("X", JObj [("type", JStr "string")])])]
           (JObj [("properties", JObj [("a", JObj [("$ref", JStr "#/$defs/X")])]);
                  ("$defs", JObj [("X", JObj [("type", JStr "string")])])])
           [] ["#/$defs/X"] ["$defs"] eq_refl))).
Defined.

Lemma count_occ_uses fullSchema q :
  forall v,
    count_occ string_dec (uses fullSchema v) q
    = count_occ string_dec (refs_in v) q
      + count_occ string_dec (flat_map (defrefs fullSchema) (refs_in v)) q.
Proof.
  induction v as [ | | | | l IH | m IH ] using json_ind; try reflexivity.
  - induction l as [ | el l IHl ]; [ reflexivity | ].
    inversion IH as [ | ? ? Hel Hrest ]; subst.
    change (uses fullSchema (JArr (el :: l)))
      with (uses fullSchema el ++ uses fullSchema (JArr l))%list.
    change (refs_in (JArr (el :: l))) with (refs_in el ++ refs_in (JArr l))%list.
    rewrite flat_map_app, !count_occ_app, Hel, (IHl Hrest). lia.
  - induction m as [ | [k x] m IHm ]; [ reflexivity | ].
    inversion IH as [ | ? ? Hx Hrest ]; subst. cbn [snd] in Hx.
    rewrite refs_in_cons, uses_cons, !flat_map_app, !count_occ_app, Hx, (IHm Hrest).
    destruct (String.eqb k "$ref"); [ | cbn [flat_map count_occ]; lia ].
    destruct x; cbn [flat_map count_occ app]; try lia.
    rewrite app_nil_r. destruct (string_dec s q); lia.
Qed.

(** X6.  [jsonSchemaDereference] returns a value only for a document in
    which no reference path occurs twice and every definition that a
    reference names is itself free of references: a second use of a path, or
    a definition that refers to another one, makes it fail. *)
Theorem jsonSchemaDereference_requires_flat_definitions
  (depth : nat) (schema : object) (v : json)
  (Hwf : wf_json (JObj schema) = true)
  (H : jsonSchemaDereference depth schema = Ok v) :
  NoDup (refs_in (JObj schema)) /\
  (forall p ref,
      In p (refs_in (JObj schema)) ->
      jsonSchemaRetrieveRef p schema = Ok ref -> refs_in ref = []).
Proof.
  unfold jsonSchemaDereference in H.
  destruct (jsonSchemaSkipKeys depth schema (JObj schema) []) as [[sk P'] | | | ] eqn:E;
    try discriminate.
  destruct (jsonSchemaSkipKeys_accounts _ _ _ _ _ _ E)
    as [(_ & _ & Hn1 & _) (_ & _ & Hn2 & _)].
  split; [ exact Hn1 | ].
  intros p ref Hp Href. destruct (refs_in ref) as [ | q l ] eqn:Er; [ reflexivity | ].
  exfalso.
  assert (Hq : In q (refs_in ref)) by (rewrite Er; now left).
  pose proof (jsonSchemaRetrieveRef_part _ _ _ Hwf Href q Hq) as Hroot.
  assert (Hdef : In q (flat_map (defrefs schema) (refs_in (JObj schema)))).
  { apply in_flat_map. exists p. split; [ exact Hp | ].
    unfold defrefs. now rewrite Href. }
  apply (count_occ_In string_dec) in Hroot, Hdef.
  pose proof (proj1 (NoDup_count_occ string_dec _) Hn2 q) as Hle.
  rewrite count_occ_uses in Hle. lia.
Qed.

Lemma jsonSchemaDereference_requires_flat_definitions_witness :
  let doc := [("properties", JObj [("a", JObj [("$ref", JStr "#/$defs/X")])]);
              ("$defs", JObj [("X", JObj [("type", JStr "string")])])] in
  jsonSchemaDereference 2 doc
  = Ok (JObj [("properties", JObj [("a", JObj [("type", JStr "string")])]);
              ("$defs", JObj [("X", JObj [("type", JStr "string")])])]) /\
  NoDup (refs_in (JObj doc)).
Proof.
  split; [ reflexivity | ].
  exact (proj1 (jsonSchemaDereference_requires_flat_definitions 2
           [("properties", JObj [("a", JObj [("$ref", JStr "#/$defs/X")])]);
            ("$defs", JObj [("X", JObj [("type", JStr "string")])])]
           _ eq_refl eq_refl)).
Defined.

(** ** Both sanitizers end on every document *)

Lemma ref_budget_incl fullSchema P P1 :
  incl P P1 -> ref_budget fullSchema P1 <= ref_budget fullSchema P.
Proof.
  intros Hi. unfold ref_budget. apply filter_length_le. intros x Hx.
  apply negb_true_iff in Hx. apply negb_true_iff.
  apply mem_false. apply mem_false in Hx. intros HP. apply Hx. now apply Hi.
Qed.

Lemma refs_in_tail k v rest R :
  incl (refs_in (JObj ((k, v) :: rest))) R ->
  incl (refs_in v) R /\ incl (refs_in (JObj rest)) R.
Proof.
  rewrite refs_in_cons. intros H. split; intros p Hp; apply H.
  - apply in_or_app. left. apply in_or_app. now right.
  - apply in_or_app. now right.
Qed.

(** *** The older dereferencing helper *)

Lemma dereferenceRefsDict_restores rec jump fullSchema skipKeys kvs :
  restores jump ->
  Forall (fun kv => forall P v P', rec (snd kv) P = Ok (v, P') -> P' = P) kvs ->
  forall objOut P v P',
    dereferenceRefsDict rec jump fullSchema skipKeys kvs objOut P = Ok (v, P') ->
    P' = P.
Proof.
  intros Hjump. induction kvs as [ | [k x] kvs IH ]; intros Hall objOut P v P' H.
  - simpl in H. now injection H as _ <-.
  - inversion Hall as [ | ? ? Hx Hrest ]; subst. cbn [snd] in Hx.
    cbn [dereferenceRefsDict] in H.
    destruct (mem k skipKeys); [ now apply (IH Hrest) in H | ].
    destruct (String.eqb k "$ref").
    + destruct x; try discriminate.
      destruct (mem s P) eqn:Es; [ now apply (IH Hrest) in H | ].
      apply bind_Ok in H as (ref & _ & H).
      apply bind_Ok in H as ([fullRef P1] & Hj & H).
      injection H as _ <-. apply Hjump in Hj. subst P1. now apply set_del_add.
    + destruct x; try (now apply (IH Hrest) in H);
        apply bind_Ok in H as ([res P1] & H1 & H2);
        apply Hx in H1; subst P1; now apply (IH Hrest) in H2.
Qed.

Lemma dereferenceRefsWalk_restores jump fullSchema skipKeys :
  restores jump -> restores (dereferenceRefsWalk jump fullSchema skipKeys).
Proof.
  intros Hjump obj. induction obj as [ | | | | l IH | m IH ] using json_ind;
    intros P v P' H; try (simpl in H; now injection H as _ <-).
  - cbn [dereferenceRefsWalk] in H.
    eapply jsonSchemaDereferenceList_restores; [ | exact H ]. exact IH.
  - cbn [dereferenceRefsWalk] in H.
    eapply dereferenceRefsDict_restores; [ exact Hjump | | exact H ]. exact IH.
Qed.

Lemma dereferenceRefsHelper_restores depth fullSchema skipKeys :
  restores (dereferenceRefsHelper depth fullSchema skipKeys).
Proof.
  induction depth as [ | depth IH ]; intros obj P v P' H; [ discriminate | ].
  cbn [dereferenceRefsHelper] in H.
  now apply (dereferenceRefsWalk_restores _ _ _ IH) in H.
Qed.

Lemma dereferenceRefsDict_terminates rec jump fullSchema skipKeys d kvs :
  wf_json (JObj fullSchema) = true ->
  restores jump -> bounded fullSchema d jump ->
  Forall (fun kv => forall P v P', rec (snd kv) P = Ok (v, P') -> P' = P) kvs ->
  incl (refs_in (JObj kvs)) (refs_in (JObj fullSchema)) ->
  forall objOut P,
    ref_budget fullSchema P <= d ->
    Forall (fun kv => rec (snd kv) P <> TooDeep) kvs ->
    dereferenceRefsDict rec jump fullSchema skipKeys kvs objOut P <> TooDeep.
Proof.
  intros Hwf Hjr Hjb.
  induction kvs as [ | [k x] kvs IH ]; intros Hres Hincl objOut P Hb Hall;
    [ discriminate | ].
  inversion Hres as [ | ? ? Hx Hrest ]; subst. cbn [snd] in Hx.
  inversion Hall as [ | ? ? Ht Htrest ]; subst. cbn [snd] in Ht.
  destruct (refs_in_tail _ _ _ _ Hincl) as [_ Hincl'].
  cbn [dereferenceRefsDict].
  destruct (mem k skipKeys); [ now apply IH | ].
  destruct (String.eqb k "$ref") eqn:Ek.
  - destruct x; try discriminate.
    destruct (mem s P) eqn:Em; [ now apply IH | ].
    apply bind_terminates; [ apply jsonSchemaRetrieveRef_terminates | ].
    intros ref Href. apply bind_terminates.
    + apply Hjb.
      * now apply (jsonSchemaRetrieveRef_part _ _ _ Hwf Href).
      * apply String.eqb_eq in Ek. subst k.
        assert (Hs : In s (refs_in (JObj fullSchema))).
        { apply Hincl. apply refs_in_ref. now left. }
        pose proof (ref_budget_add _ _ _ Hs Em). lia.
    + intros [fullRef P1] _. discriminate.
  - destruct x; try (now apply IH);
      (apply bind_terminates; [ exact Ht | ]);
      intros [res P1] Hr; apply Hx in Hr; subst P1; now apply IH.
Qed.

Lemma dereferenceRefsWalk_terminates jump fullSchema skipKeys d :
  wf_json (JObj fullSchema) = true ->
  restores jump -> bounded fullSchema d jump ->
  forall obj P,
    incl (refs_in obj) (refs_in (JObj fullSchema)) ->
    ref_budget fullSchema P <= d ->
    dereferenceRefsWalk jump fullSchema skipKeys obj P <> TooDeep.
Proof.
  intros Hwf Hjr Hjb.
  pose proof (dereferenceRefsWalk_restores jump fullSchema skipKeys Hjr) as Hw.
  induction obj as [ | | | | l IH | m IH ] using json_ind; intros P Hincl Hb;
    try discriminate.
  - cbn [dereferenceRefsWalk].
    apply jsonSchemaDereferenceList_terminates.
    + apply Forall_forall. intros el _ P0 v P'. apply Hw.
    + rewrite Forall_forall in IH. apply Forall_forall. intros el Hin.
      apply IH; [ exact Hin | | exact Hb ].
      eapply incl_tran; [ | exact Hincl ]. now apply refs_in_element.
  - cbn [dereferenceRefsWalk].
    eapply dereferenceRefsDict_terminates; eauto.
    + apply Forall_forall. intros kv _ P0 v P'. apply Hw.
    + rewrite Forall_forall in IH. apply Forall_forall. intros [k x] Hin.
      cbn [snd]. apply (IH _ Hin); [ | exact Hb ].
      eapply incl_tran; [ | exact Hincl ]. eapply refs_in_entry; exact Hin.
Qed.

Lemma dereferenceRefsHelper_terminates fullSchema skipKeys :
  wf_json (JObj fullSchema) = true ->
  forall depth, bounded fullSchema depth
                  (dereferenceRefsHelper depth fullSchema skipKeys).
Proof.
  intros Hwf. induction depth as [ | depth IH ]; intros obj P Hincl Hb; [ lia | ].
  cbn [dereferenceRefsHelper].
  apply (dereferenceRefsWalk_terminates _ _ _ depth); auto.
  - apply dereferenceRefsHelper_restores.
  - lia.
Qed.

(** *** The skip-key passes *)

Lemma skipKeysList_grows (rec : walker (list string)) els :
  Forall (fun el => forall P ks P', rec el P = Ok (ks, P') -> incl P P') els ->
  forall keys0 P ks P',
    skipKeysList rec els keys0 P = Ok (ks, P') -> incl P P'.
Proof.
  induction els as [ | el els IH ]; intros Hall keys0 P ks P' H.
  - simpl in H. injection H as _ <-. apply incl_refl.
  - inversion Hall as [ | ? ? Hel Hrest ]; subst. cbn [skipKeysList] in H.
    apply bind_Ok in H as ([nk P1] & H1 & H2).
    eapply incl_tran; [ exact (Hel _ _ _ H1) | exact (IH Hrest _ _ _ _ H2) ].
Qed.

Lemma inferSkipKeysDict_grows (rec jump : walker (list string)) fullSchema kvs :
  grows jump ->
  Forall (fun kv => forall P ks P', rec (snd kv) P = Ok (ks, P') -> incl P P') kvs ->
  forall keys0 P ks P',
    inferSkipKeysDict rec jump fullSchema kvs keys0 P = Ok (ks, P') -> incl P P'.
Proof.
  intros Hjump. induction kvs as [ | [k v] kvs IH ]; intros Hall keys0 P ks P' H.
  - simpl in H. injection H as _ <-. apply incl_refl.
  - inversion Hall as [ | ? ? Hv Hrest ]; subst. cbn [snd] in Hv.
    cbn [inferSkipKeysDict] in H. destruct (String.eqb k "$ref").
    + destruct v; try discriminate.
      destruct (mem s P); [ exact (IH Hrest _ _ _ _ H) | ].
      apply bind_Ok in H as (ref & _ & H).
      apply bind_Ok in H as ([nk P1] & Hj & H).
      apply Hjump in Hj. apply (IH Hrest) in H.
      intros x Hx. apply H, Hj. now right.
    + destruct v; try exact (IH Hrest _ _ _ _ H);
        apply bind_Ok in H as ([nk P1] & H1 & H2);
        (eapply incl_tran; [ exact (Hv _ _ _ H1) | exact (IH Hrest _ _ _ _ H2) ]).
Qed.

Lemma inferSkipKeysWalk_grows (jump : walker (list string)) fullSchema :
  grows jump -> grows (inferSkipKeysWalk jump fullSchema).
Proof.
  intros Hjump obj. induction obj as [ | | | | l IH | m IH ] using json_ind;
    intros P ks P' H;
    try (simpl in H; injection H as _ <-; apply incl_refl).
  - cbn [inferSkipKeysWalk] in H.
    eapply skipKeysList_grows; [ | exact H ]. exact IH.
  - cbn [inferSkipKeysWalk] in H.
    eapply inferSkipKeysDict_grows; [ exact Hjump | | exact H ]. exact IH.
Qed.

Lemma inferSkipKeys_grows depth fullSchema : grows (inferSkipKeys depth fullSchema).
Proof.
  induction depth as [ | depth IH ]; intros obj P ks P' H; [ discriminate | ].
  cbn [inferSkipKeys] in H. now apply (inferSkipKeysWalk_grows _ _ IH) in H.
Qed.

Lemma accounts_grows fullSchema (w : walker (list string)) :
  accounts fullSchema w -> grows w.
Proof. intros Hw obj P ks P' H. now destruct (Hw _ _ _ _ H) as [[Hi _] _]. Qed.

Lemma skipKeysList_terminates fullSchema d (rec : walker (list string)) els :
  Forall (fun el => forall P ks P', rec el P = Ok (ks, P') -> incl P P') els ->
  Forall (fun el => forall P, ref_budget fullSchema P <= d -> rec el P <> TooDeep) els ->
  forall keys0 P,
    ref_budget fullSchema P <= d -> skipKeysList rec els keys0 P <> TooDeep.
Proof.
  induction els as [ | el els IH ]; intros Hg Hall keys0 P Hb; [ discriminate | ].
  inversion Hg as [ | ? ? Hel Hgrest ]; subst.
  inversion Hall as [ | ? ? Ht Htrest ]; subst.
  cbn [skipKeysList]. apply bind_terminates; [ now apply Ht | ].
  intros [nk P1] Hr. apply IH; auto.
  pose proof (ref_budget_incl fullSchema _ _ (Hel _ _ _ Hr)). lia.
Qed.

Lemma jsonSchemaSkipKeysDict_terminates (rec jump : walker (list string))
  fullSchema d kvs :
  wf_json (JObj fullSchema) = true ->
  grows jump -> bounded_pass fullSchema d jump ->
  Forall (fun kv => forall P ks P', rec (snd kv) P = Ok (ks, P') -> incl P P') kvs ->
  Forall (fun kv => forall P, ref_budget fullSchema P <= d ->
                      rec (snd kv) P <> TooDeep) kvs ->
  incl (refs_in (JObj kvs)) (refs_in (JObj fullSchema)) ->
  forall keys0 P,
    ref_budget fullSchema P <= d ->
    jsonSchemaSkipKeysDict rec jump fullSchema kvs keys0 P <> TooDeep.
Proof.
  intros Hwf Hjg Hjb.
  induction kvs as [ | [k x] kvs IH ]; intros Hg Hall Hincl keys0 P Hb;
    [ discriminate | ].
  inversion Hg as [ | ? ? Hx Hgrest ]; subst. cbn [snd] in Hx.
  inversion Hall as [ | ? ? Ht Htrest ]; subst. cbn [snd] in Ht.
  destruct (refs_in_tail _ _ _ _ Hincl) as [_ Hincl'].
  cbn [jsonSchemaSkipKeysDict].
  destruct (String.eqb k "$ref") eqn:Ek.
  - destruct x; try discriminate.
    destruct (mem s P) eqn:Em; [ discriminate | ].
    assert (Hs : In s (refs_in (JObj fullSchema))).
    { apply String.eqb_eq in Ek. subst k. apply Hincl. apply refs_in_ref. now left. }
    pose proof (ref_budget_add _ _ _ Hs Em) as Hlt.
    apply bind_terminates; [ apply jsonSchemaRetrieveRef_terminates | ].
    intros ref Href. apply bind_terminates.
    + apply Hjb; [ now apply (jsonSchemaRetrieveRef_part _ _ _ Hwf Href) | lia ].
    + intros [nk P1] Hj. apply IH; auto.
      pose proof (ref_budget_incl fullSchema _ _ (Hjg _ _ _ _ Hj)). lia.
  - destruct x; try (now apply IH);
      (apply bind_terminates; [ now apply Ht | ]);
      intros [nk P1] Hr; apply IH; auto;
      pose proof (ref_budget_incl fullSchema _ _ (Hx _ _ _ Hr)); lia.
Qed.

Lemma inferSkipKeysDict_terminates (rec jump : walker (list string))
  fullSchema d kvs :
  wf_json (JObj fullSchema) = true ->
  grows jump -> bounded_pass fullSchema d jump ->
  Forall (fun kv => forall P ks P', rec (snd kv) P = Ok (ks, P') -> incl P P') kvs ->
  Forall (fun kv => forall P, ref_budget fullSchema P <= d ->
                      rec (snd kv) P <> TooDeep) kvs ->
  incl (refs_in (JObj kvs)) (refs_in (JObj fullSchema)) ->
  forall keys0 P,
    ref_budget fullSchema P <= d ->
    inferSkipKeysDict rec jump fullSchema kvs keys0 P <> TooDeep.
Proof.
  intros Hwf Hjg Hjb.
  induction kvs as [ | [k x] kvs IH ]; intros Hg Hall Hincl keys0 P Hb;
    [ discriminate | ].
  inversion Hg as [ | ? ? Hx Hgrest ]; subst. cbn [snd] in Hx.
  inversion Hall as [ | ? ? Ht Htrest ]; subst. cbn [snd] in Ht.
  destruct (refs_in_tail _ _ _ _ Hincl) as [_ Hincl'].
  cbn [inferSkipKeysDict].
  destruct (String.eqb k "$ref") eqn:Ek.
  - destruct x; try discriminate.
    destruct (mem s P) eqn:Em; [ now apply IH | ].
    assert (Hs : In s (refs_in (JObj fullSchema))).
    { apply String.eqb_eq in Ek. subst k. apply Hincl. apply refs_in_ref. now left. }
    pose proof (ref_budget_add _ _ _ Hs Em) as Hlt.
    apply bind_terminates; [ apply jsonSchemaRetrieveRef_terminates | ].
    intros ref Href. apply bind_terminates.
    + apply Hjb; [ now apply (jsonSchemaRetrieveRef_part _ _ _ Hwf Href) | lia ].
    + intros [nk P1] Hj. apply IH; auto.
      pose proof (ref_budget_incl fullSchema _ _ (Hjg _ _ _ _ Hj)). lia.
  - destruct x; try (now apply IH);
      (apply bind_terminates; [ now apply Ht | ]);
      intros [nk P1] Hr; apply IH; auto;
      pose proof (ref_budget_incl fullSchema _ _ (Hx _ _ _ Hr)); lia.
Qed.

Lemma jsonSchemaSkipKeysWalk_terminates (jump : walker (list string)) fullSchema d :
  wf_json (JObj fullSchema) = true ->
  accounts fullSchema jump -> bounded_pass fullSchema d jump ->
  forall obj P,
    incl (refs_in obj) (refs_in (JObj fullSchema)) ->
    ref_budget fullSchema P <= d ->
    jsonSchemaSkipKeysWalk jump fullSchema obj P <> TooDeep.
Proof.
  intros Hwf Hja Hjb.
  pose proof (accounts_grows _ _ (jsonSchemaSkipKeysWalk_accounts _ _ Hja)) as Hw.
  induction obj as [ | | | | l IH | m IH ] using json_ind; intros P Hincl Hb;
    try discriminate.
  - cbn [jsonSchemaSkipKeysWalk].
    apply (skipKeysList_terminates fullSchema d); [ | | exact Hb ].
    + apply Forall_forall. intros el _ P0 ks P'. apply Hw.
    + rewrite Forall_forall in IH. apply Forall_forall. intros el Hin P0 Hb0.
      apply IH; [ exact Hin | | exact Hb0 ].
      eapply incl_tran; [ | exact Hincl ]. now apply refs_in_element.
  - cbn [jsonSchemaSkipKeysWalk].
    apply (jsonSchemaSkipKeysDict_terminates _ _ _ d); auto.
    + now apply accounts_grows with (fullSchema := fullSchema).
    + apply Forall_forall. intros kv _ P0 ks P'. apply Hw.
    + rewrite Forall_forall in IH. apply Forall_forall. intros [k x] Hin P0 Hb0.
      cbn [snd]. apply (IH _ Hin); [ | exact Hb0 ].
      eapply incl_tran; [ | exact Hincl ]. eapply refs_in_entry; exact Hin.
Qed.

Lemma inferSkipKeysWalk_terminates (jump : walker (list string)) fullSchema d :
  wf_json (JObj fullSchema) = true ->
  grows jump -> bounded_pass fullSchema d jump ->
  forall obj P,
    incl (refs_in obj) (refs_in (JObj fullSchema)) ->
    ref_budget fullSchema P <= d ->
    inferSkipKeysWalk jump fullSchema obj P <> TooDeep.
Proof.
  intros Hwf Hjg Hjb.
  pose proof (inferSkipKeysWalk_grows _ fullSchema Hjg) as Hw.
  induction obj as [ | | | | l IH | m IH ] using json_ind; intros P Hincl Hb;
    try discriminate.
  - cbn [inferSkipKeysWalk].
    apply (skipKeysList_terminates fullSchema d); [ | | exact Hb ].
    + apply Forall_forall. intros el _ P0 ks P'. apply Hw.
    + rewrite Forall_forall in IH. apply Forall_forall. intros el Hin P0 Hb0.
      apply IH; [ exact Hin | | exact Hb0 ].
      eapply incl_tran; [ | exact Hincl ]. now apply refs_in_element.
  - cbn [inferSkipKeysWalk].
    apply (inferSkipKeysDict_terminates _ _ _ d); auto.
    + apply Forall_forall. intros kv _ P0 ks P'. apply Hw.
    + rewrite Forall_forall in IH. apply Forall_forall. intros [k x] Hin P0 Hb0.
      cbn [snd]. apply (IH _ Hin); [ | exact Hb0 ].
      eapply incl_tran; [ | exact Hincl ]. eapply refs_in_entry; exact Hin.
Qed.

Lemma jsonSchemaSkipKeys_terminates fullSchema :
  wf_json (JObj fullSchema) = true ->
  forall depth, bounded_pass fullSchema depth (jsonSchemaSkipKeys depth fullSchema).
Proof.
  intros Hwf. induction depth as [ | depth IH ]; intros obj P Hincl Hb; [ lia | ].
  cbn [jsonSchemaSkipKeys].
  apply (jsonSchemaSkipKeysWalk_terminates _ _ depth); auto.
  - apply jsonSchemaSkipKeys_accounts.
  - lia.
Qed.

Lemma inferSkipKeys_terminates fullSchema :
  wf_json (JObj fullSchema) = true ->
  forall depth, bounded_pass fullSchema depth (inferSkipKeys depth fullSchema).
Proof.
  intros Hwf. induction depth as [ | depth IH ]; intros obj P Hincl Hb; [ lia | ].
  cbn [inferSkipKeys].
  apply (inferSkipKeysWalk_terminates _ _ depth); auto.
  - apply inferSkipKeys_grows.
  - lia.
Qed.

(** *** The projections *)

Lemma and_then_terminates {A} (r : outcome A) (k : A -> step) :
  r <> TooDeep -> (forall a, k a <> Return TooDeep) -> and_then r k <> Return TooDeep.
Proof. destruct r; simpl; intros H1 H2; auto; congruence. Qed.

Lemma propertiesLoop_terminates (rec : json -> outcome object) ps :
  Forall (fun v => rec v <> TooDeep) (map snd ps) ->
  forall out, propertiesLoop rec ps out <> TooDeep.
Proof.
  induction ps as [ | [pkey pvalue] ps IH ]; intros Hall out; [ discriminate | ].
  cbn [map snd] in Hall. inversion Hall as [ | ? ? Hv Hrest ]; subst.
  cbn [propertiesLoop].
  destruct pvalue; try (now apply IH).
  apply bind_terminates; [ exact Hv | ]. intros r _. now apply IH.
Qed.

Lemma typeListScan_terminates (rec : json -> outcome object) ts :
  Forall (fun v => rec v <> TooDeep) ts ->
  forall hasNull nonNullType nonNullRes,
    nonNullRes <> TooDeep ->
    snd (typeListScan rec ts hasNull nonNullType nonNullRes) <> TooDeep.
Proof.
  induction ts as [ | t ts IH ]; intros Hall h nn res Hres; [ exact Hres | ].
  inversion Hall as [ | ? ? Ht Hrest ]; subst. cbn [typeListScan].
  destruct (is_null_str t); now apply IH.
Qed.

Lemma typeListEntry_terminates (rec : json -> outcome object) typeList acc :
  Forall (fun v => rec v <> TooDeep) typeList ->
  typeListEntry rec typeList acc <> Return TooDeep.
Proof.
  intros Hall. unfold typeListEntry.
  destruct (negb (List.length typeList =? 2)%nat); [ discriminate | ].
  pose proof (typeListScan_terminates rec typeList Hall false JNull (Ok [])
                ltac:(discriminate)) as Hs.
  destruct (typeListScan rec typeList false JNull (Ok [])) as [[h nn] res].
  cbn [snd] in Hs.
  destruct (h && not_nil nn); [ | discriminate ].
  destruct nn; try discriminate.
  apply and_then_terminates; [ exact Hs | discriminate ].
Qed.

Lemma jsonSchemaToGapicAnyOf_terminates (rec : json -> outcome object) vs :
  Forall (fun v => rec v <> TooDeep) vs ->
  forall results nullable,
    jsonSchemaToGapicAnyOf rec vs results nullable <> TooDeep.
Proof.
  induction vs as [ | v vs IH ]; intros Hall results nullable; [ discriminate | ].
  inversion Hall as [ | ? ? Hv Hrest ]; subst. cbn [jsonSchemaToGapicAnyOf].
  destruct v; try discriminate.
  destruct (type_is_null l); [ now apply IH | ].
  apply bind_terminates; [ exact Hv | ]. intros r _. now apply IH.
Qed.

Lemma formatJSONSchemaAnyOf_terminates (rec : json -> outcome object) vs :
  Forall (fun v => rec v <> TooDeep) vs ->
  forall results nullable,
    formatJSONSchemaAnyOf rec vs results nullable <> TooDeep.
Proof.
  induction vs as [ | v vs IH ]; intros Hall results nullable; [ discriminate | ].
  inversion Hall as [ | ? ? Hv Hrest ]; subst. cbn [formatJSONSchemaAnyOf].
  destruct v; try (now apply IH).
  destruct (type_is_null l); [ now apply IH | ].
  apply bind_terminates; [ exact Hv | ]. intros r _. now apply IH.
Qed.

Lemma jsonSchemaToGapicEntry_terminates rec allowed key value acc :
  rec value <> TooDeep ->
  Forall (fun v => rec v <> TooDeep) (children value) ->
  jsonSchemaToGapicEntry rec allowed key value acc <> Return TooDeep.
Proof.
  intros Hvalue Hchildren. unfold jsonSchemaToGapicEntry.
  destruct (String.eqb key "$defs"); [ discriminate | ].
  destruct (String.eqb key "items").
  { destruct value; try discriminate.
    apply and_then_terminates; [ exact Hvalue | discriminate ]. }
  destruct (String.eqb key "properties").
  { destruct value; try discriminate.
    apply and_then_terminates; [ | discriminate ].
    now apply propertiesLoop_terminates. }
  destruct (String.eqb key "type").
  { destruct value; try discriminate. now apply typeListEntry_terminates. }
  destruct (String.eqb key "allOf").
  { destruct value; try discriminate.
    destruct (1 <? List.length l)%nat; [ discriminate | ].
    destruct l as [ | first l ]; [ discriminate | ].
    destruct first; try discriminate.
    cbn [children] in Hchildren. inversion Hchildren as [ | ? ? Hfirst _ ]; subst.
    congruence. }
  destruct (String.eqb key "anyOf").
  { destruct value; try discriminate.
    apply and_then_terminates; [ | discriminate ].
    now apply jsonSchemaToGapicAnyOf_terminates. }
  destruct (mem key allowed); discriminate.
Qed.

Lemma formatJSONSchemaToGapicEntry_terminates rec key value acc :
  rec value <> TooDeep ->
  Forall (fun v => rec v <> TooDeep) (children value) ->
  formatJSONSchemaToGapicEntry rec key value acc <> Return TooDeep.
Proof.
  intros Hvalue Hchildren. unfold formatJSONSchemaToGapicEntry.
  destruct (String.eqb key "$defs"); [ discriminate | ].
  destruct (String.eqb key "items").
  { destruct value; try discriminate.
    apply and_then_terminates; [ exact Hvalue | discriminate ]. }
  destruct (String.eqb key "properties").
  { destruct value; try discriminate.
    apply and_then_terminates; [ | discriminate ].
    now apply propertiesLoop_terminates. }
  destruct (String.eqb key "type").
  { destruct value; try discriminate. now apply typeListEntry_terminates. }
  destruct (String.eqb key "allOf").
  { destruct value; try discriminate.
    destruct (1 <? List.length l)%nat; [ discriminate | ].
    destruct l as [ | first l ]; [ discriminate | ].
    destruct first; try discriminate.
    cbn [children] in Hchildren. inversion Hchildren as [ | ? ? Hfirst _ ]; subst.
    congruence. }
  destruct (String.eqb key "anyOf").
  { destruct value; try discriminate.
    apply and_then_terminates; [ | discriminate ].
    now apply formatJSONSchemaAnyOf_terminates. }
  destruct (mem key allowedSchemaFieldsSet); discriminate.
Qed.

Lemma schemaLoop_terminates (entry : string -> json -> object -> step) kvs :
  Forall (fun kv => forall acc, entry (fst kv) (snd kv) acc <> Return TooDeep) kvs ->
  forall acc, schemaLoop entry kvs acc <> TooDeep.
Proof.
  induction kvs as [ | [key value] kvs IH ]; intros Hall acc; [ discriminate | ].
  inversion Hall as [ | ? ? Hkv Hrest ]; subst. cbn [fst snd] in Hkv.
  cbn [schemaLoop]. specialize (Hkv acc).
  destruct (entry key value acc) as [acc' | r]; [ now apply IH | congruence ].
Qed.

Lemma jsonSchemaToGapicNode_terminates allowed :
  forall v, jsonSchemaToGapicNode allowed v <> TooDeep.
Proof.
  apply (deep_ind (fun v => jsonSchemaToGapicNode allowed v <> TooDeep)).
  intros v Hch. destruct v; try discriminate.
  cbn [jsonSchemaToGapicNode]. cbn [children] in Hch.
  apply Forall_children_entries in Hch. apply schemaLoop_terminates.
  eapply Forall_impl; [ | exact Hch ].
  intros [key value] [Hq Hqc] acc. cbn [fst snd].
  now apply jsonSchemaToGapicEntry_terminates.
Qed.

Lemma formatJSONSchemaToGapicNode_terminates :
  forall v, formatJSONSchemaToGapicNode v <> TooDeep.
Proof.
  apply (deep_ind (fun v => formatJSONSchemaToGapicNode v <> TooDeep)).
  intros v Hch. destruct v; try discriminate.
  cbn [formatJSONSchemaToGapicNode]. cbn [children] in Hch.
  apply Forall_children_entries in Hch. apply schemaLoop_terminates.
  eapply Forall_impl; [ | exact Hch ].
  intros [key value] [Hq Hqc] acc. cbn [fst snd].
  now apply formatJSONSchemaToGapicEntry_terminates.
Qed.

(** X7.  On a decoded document both sanitizers end, cyclic references or
    not: the references being resolved one inside the other are never more
    than the distinct reference paths of the document, so a depth above that
    number is never exceeded, in dereferencing and in the projection that
    follows. *)
Theorem sanitizers_end_on_every_document (depth : nat) (schema : object)
  (Hwf : wf_json (JObj schema) = true)
  (Hdepth : ref_budget schema [] < depth) :
  dereferenceRefs depth schema <> TooDeep /\
  sanitizeJSONSchema depth schema <> TooDeep /\
  jsonSchemaDereference depth schema <> TooDeep /\
  jsonSchemaToGeminiMap depth schema <> TooDeep.
Proof.
  assert (Hroot : incl (refs_in (JObj schema)) (refs_in (JObj schema)))
    by apply incl_refl.
  assert (H1 : dereferenceRefs depth schema <> TooDeep).
  { unfold dereferenceRefs.
    pose proof (inferSkipKeys_terminates schema Hwf depth _ [] Hroot Hdepth) as Hs.
    destruct (inferSkipKeys depth schema (JObj schema) []) as [[sk P'] | | | ];
      try congruence.
    apply bind_terminates.
    - now apply (dereferenceRefsHelper_terminates schema sk Hwf depth).
    - intros [res P1] _. discriminate. }
  assert (H2 : jsonSchemaDereference depth schema <> TooDeep).
  { unfold jsonSchemaDereference.
    pose proof (jsonSchemaSkipKeys_terminates schema Hwf depth _ [] Hroot Hdepth) as Hs.
    destruct (jsonSchemaSkipKeys depth schema (JObj schema) []) as [[sk P'] | | | ];
      try congruence.
    apply bind_terminates.
    - now apply (jsonSchemaDereferenceHelper_terminates schema sk Hwf depth).
    - intros [res P1] _. discriminate. }
  split; [ exact H1 | split; [ | split; [ exact H2 | ] ] ].
  - unfold sanitizeJSONSchema. apply bind_terminates; [ exact H1 | ].
    intros v _. destruct v; try discriminate.
    apply formatJSONSchemaToGapicNode_terminates.
  - unfold jsonSchemaToGeminiMap. apply bind_terminates; [ exact H2 | ].
    intros v _. destruct v; try discriminate.
    apply jsonSchemaToGapicNode_terminates.
Qed.

Lemma sanitizers_end_on_every_document_witness :
  ref_budget cyclicSchema [] = 2 /\
  sanitizeJSONSchema 3 cyclicSchema <> TooDeep /\
  jsonSchemaToGeminiMap 3 cyclicSchema <> TooDeep.
Proof.
  pose proof (sanitizers_end_on_every_document 3 cyclicSchema eq_refl
                ltac:(vm_compute; lia)) as (_ & H2 & _ & H4).
  split; [ reflexivity | split; assumption ].
Defined.

(** ** Keys without a case of their own, and [allOf] *)

Lemma mem_switchKeys key :
  mem key switchKeys = false ->
  String.eqb key "$defs" = false /\ String.eqb key "items" = false /\
  String.eqb key "properties" = false /\ String.eqb key "type" = false /\
  String.eqb key "allOf" = false /\ String.eqb key "anyOf" = false.
Proof.
  unfold switchKeys. cbn [mem existsb]. intros H.
  repeat (apply orb_false_elim in H as [? H]). now repeat split.
Qed.

(** A loop whose entries are each either appended or passed over. *)
Lemma schemaLoop_filters (f : string * json -> bool)
  (entry : string -> json -> object -> step) rest :
  Forall (fun kv => forall acc,
            entry (fst kv) (snd kv) acc
            = Continue (if f kv then map_set (fst kv) (snd kv) acc else acc)) rest ->
  nodupb (keys rest) = true ->
  forall acc,
    (forall k, In k (keys acc) -> ~ In k (keys rest)) ->
    schemaLoop entry rest acc = Ok (acc ++ filter f rest)%list.
Proof.
  induction rest as [ | [k v] rest IH ]; intros Hall Hnd acc Hdis.
  - simpl. now rewrite app_nil_r.
  - inversion Hall as [ | ? ? Hkv Hrest ]; subst. cbn [fst snd] in Hkv.
    cbn [keys map fst nodupb] in Hnd. fold (keys rest) in Hnd.
    apply andb_prop in Hnd as [Hk Hnd]. apply negb_true_iff, mem_false in Hk.
    cbn [schemaLoop filter]. rewrite Hkv. destruct (f (k, v)).
    + rewrite map_set_absent.
      * rewrite IH; auto; [ now rewrite app_snoc_assoc | ].
        intros k' Hk'. unfold keys in Hk'. rewrite map_app in Hk'.
        apply in_app_or in Hk' as [Hk' | [<- | []]]; [ | exact Hk ].
        intros Hin. apply (Hdis k' Hk'). now right.
      * apply mem_false. intros Hin. apply (Hdis k Hin). now left.
    + apply IH; auto. intros k' Hk' Hin. apply (Hdis k' Hk'). now right.
Qed.

(** X8.  A schema node none of whose keys has a case of its own in the
    projection ([$defs], [items], [properties], [type], [allOf], [anyOf])
    projects to its entries with an allow-listed key, in their order and
    with their values as they are; the entries with other keys are dropped
    without an error. *)
Theorem plain_keys_are_filtered_by_allow_list
  (schema : object) (allowedSet : list string)
  (Hkeys : nodupb (keys schema) = true)
  (Hplain : Forall (fun kv : string * json => mem (fst kv) switchKeys = false) schema) :
  jsonSchemaToGapic schema allowedSet = Ok (allowed_entries allowedSet schema) /\
  formatJSONSchemaToGapic schema
  = Ok (allowed_entries allowedSchemaFieldsSet schema).
Proof.
  split.
  - rewrite jsonSchemaToGapic_loop. unfold allowed_entries.
    rewrite (schemaLoop_filters (fun kv => mem (fst kv) allowedSet));
      [ reflexivity | | exact Hkeys | intros k [] ].
    eapply Forall_impl; [ | exact Hplain ]. intros [k v] Hk acc. cbn [fst snd] in *.
    apply mem_switchKeys in Hk as (H1 & H2 & H3 & H4 & H5 & H6).
    unfold jsonSchemaToGapicEntry. rewrite H1, H2, H3, H4, H5, H6.
    now destruct (mem k allowedSet).
  - rewrite formatJSONSchemaToGapic_loop. unfold allowed_entries.
    rewrite (schemaLoop_filters (fun kv => mem (fst kv) allowedSchemaFieldsSet));
      [ reflexivity | | exact Hkeys | intros k [] ].
    eapply Forall_impl; [ | exact Hplain ]. intros [k v] Hk acc. cbn [fst snd] in *.
    apply mem_switchKeys in Hk as (H1 & H2 & H3 & H4 & H5 & H6).
    unfold formatJSONSchemaToGapicEntry. rewrite H1, H2, H3, H4, H5, H6.
    now destruct (mem k allowedSchemaFieldsSet).
Qed.

Lemma plain_keys_are_filtered_by_allow_list_witness :
  let schema := [("title", JStr "T"); ("additionalProperties", JBool false);
                 ("maxItems", JNum "3"); ("enum", JArr [JStr "a"])] in
  jsonSchemaToGapic schema geminiAllowedSchemaFieldsSet
  = Ok [("title", JStr "T"); ("maxItems", JNum "3"); ("enum", JArr [JStr "a"])] /\
  formatJSONSchemaToGapic schema
  = Ok [("title", JStr "T"); ("enum", JArr [JStr "a"])].
Proof.
  exact (plain_keys_are_filtered_by_allow_list
           [("title", JStr "T"); ("additionalProperties", JBool false);
            ("maxItems", JNum "3"); ("enum", JArr [JStr "a"])]
           geminiAllowedSchemaFieldsSet eq_refl ltac:(repeat constructor)).
Defined.

(** A loop with an entry that always returns: whatever the loop returns as a
    value is what that entry returned, since no other entry returns one. *)
Lemma schemaLoop_returns (entry : string -> json -> object -> step)
  (key : string) (value : json) (r : outcome object)
  (Hret : forall k v acc out,
      String.eqb k key = false -> entry k v acc <> Return (Ok out))
  (Hkey : forall acc, entry key value acc = Return r) :
  forall kvs acc out,
    nodupb (keys kvs) = true -> In (key, value) kvs ->
    schemaLoop entry kvs acc = Ok out -> r = Ok out.
Proof.
  induction kvs as [ | [k v] kvs IH ]; intros acc out Hnd Hin H; [ destruct Hin | ].
  cbn [keys map fst nodupb] in Hnd. fold (keys kvs) in Hnd.
  apply andb_prop in Hnd as [Hk Hnd]. apply negb_true_iff, mem_false in Hk.
  cbn [schemaLoop] in H. destruct Hin as [Hin | Hin].
  - injection Hin as -> ->. now rewrite Hkey in H.
  - assert (Hne : String.eqb k key = false).
    { apply String.eqb_neq. intros ->. apply Hk. eapply keys_In; exact Hin. }
    destruct (entry k v acc) as [acc' | r'] eqn:E; [ now apply (IH acc' out) | ].
    subst r'. exfalso. now apply (Hret k v acc out Hne).
Qed.

(** X9.  A schema node with an [allOf] list is replaced by the projection of
    the single element of that list: when the node projects to a value, that
    value is the projection of the element, whatever else the node holds.
    With an [allOf] list of any other length the node never projects to a
    value (an empty list is indexed at 0, a longer one is an error). *)
Theorem allOf_replaces_the_node
  (schema : object) (allowedSet : list string) (allOfList : list json)
  (Hkeys : nodupb (keys schema) = true)
  (HallOf : map_get "allOf" schema = Some (JArr allOfList)) :
  (List.length allOfList <> 1 ->
   is_ok (jsonSchemaToGapic schema allowedSet) = false /\
   is_ok (formatJSONSchemaToGapic schema) = false) /\
  (forall subSchema out,
      allOfList = [JObj subSchema] ->
      (jsonSchemaToGapic schema allowedSet = Ok out ->
       jsonSchemaToGapic subSchema allowedSet = Ok out) /\
      (formatJSONSchemaToGapic schema = Ok out ->
       formatJSONSchemaToGapic subSchema = Ok out)) /\
  (jsonSchemaToGapic [("allOf", JArr [])] allowedSet = Panic /\
   formatJSONSchemaToGapic [("allOf", JArr [])] = Panic).
Proof.
  pose proof (map_get_In _ _ _ HallOf) as Hin.
  split; [ | split ].
  - intros Hlen.
    assert (Hentry : exists r, is_ok r = false /\
              (forall rec acc, jsonSchemaToGapicEntry rec allowedSet "allOf"
                                 (JArr allOfList) acc = Return r) /\
              (forall rec acc, formatJSONSchemaToGapicEntry rec "allOf"
                                 (JArr allOfList) acc = Return r)).
    { destruct allOfList as [ | a [ | b l ] ].
      - exists Panic. now repeat split.
      - now contradiction Hlen.
      - exists (Err (ErrAllOfLength (List.length (a :: b :: l)))). now repeat split. }
    destruct Hentry as (r & Hr & Hn & Ho). split.
    + rewrite jsonSchemaToGapic_loop.
      destruct (schemaLoop _ schema []) as [out | | | ] eqn:E; try reflexivity.
      apply (schemaLoop_returns _ "allOf" (JArr allOfList) r) in E; auto.
      * subst r. discriminate.
      * intros k v acc out'. apply jsonSchemaToGapicEntry_return.
    + rewrite formatJSONSchemaToGapic_loop.
      destruct (schemaLoop _ schema []) as [out | | | ] eqn:E; try reflexivity.
      apply (schemaLoop_returns _ "allOf" (JArr allOfList) r) in E; auto.
      * subst r. discriminate.
      * intros k v acc out'. apply formatJSONSchemaToGapicEntry_return.
  - intros subSchema out ->. split; intros H.
    + rewrite jsonSchemaToGapic_loop in H.
      apply (schemaLoop_returns _ "allOf" (JArr [JObj subSchema])
               (jsonSchemaToGapicNode allowedSet (JObj subSchema))) in H; auto.
      intros k v acc out'. apply jsonSchemaToGapicEntry_return.
    + rewrite formatJSONSchemaToGapic_loop in H.
      apply (schemaLoop_returns _ "allOf" (JArr [JObj subSchema])
               (formatJSONSchemaToGapicNode (JObj subSchema))) in H; auto.
      intros k v acc out'. apply formatJSONSchemaToGapicEntry_return.
  - split; reflexivity.
Qed.

Lemma allOf_replaces_the_node_witness :
  let schema := [("description", JStr "d");
                 ("allOf", JArr [JObj [("type", JStr "number")]]);
                 ("title", JStr "t")] in
  jsonSchemaToGapic schema geminiAllowedSchemaFieldsSet = Ok [("type", JStr "number")] /\
  is_ok (formatJSONSchemaToGapic
           [("allOf", JArr [JObj []; JObj []]); ("title", JStr "t")]) = false.
Proof.
  split; [ reflexivity | ].
  exact (proj2 (proj1 (allOf_replaces_the_node
                         [("allOf", JArr [JObj []; JObj []]); ("title", JStr "t")]
                         geminiAllowedSchemaFieldsSet [JObj []; JObj []]
                         eq_refl eq_refl) ltac:(discriminate))).
Defined.

(* ================================================================== *)
(** * Properties of the nested-union parser *)
(* ================================================================== *)

Lemma get_in_range (s : string) : forall idx,
  idx < String.length s -> exists c, String.get idx s = Some c.
Proof.
  induction s as [ | a s IH ]; intros idx H; simpl in H; [ lia | ].
  destruct idx as [ | idx ]; [ now exists a | ]. simpl. apply IH. lia.
Qed.

Lemma get_out_of_range (s : string) : forall idx,
  String.length s <= idx -> String.get idx s = None.
Proof.
  induction s as [ | a s IH ]; intros idx H; [ now destruct idx | ].
  simpl in H. destruct idx as [ | idx ]; [ lia | ]. simpl. apply IH. lia.
Qed.

Lemma get_Some_in_range (s : string) idx c :
  String.get idx s = Some c -> idx < String.length s.
Proof.
  intros H. destruct (Nat.lt_ge_cases idx (String.length s)) as [Hlt | Hge];
    [ exact Hlt | ].
  rewrite (get_out_of_range s idx Hge) in H. discriminate.
Qed.

Lemma skipWhitespaceLoop_ge n data : forall idx, idx <= skipWhitespaceLoop n data idx.
Proof.
  induction n as [ | n IH ]; intros idx; cbn [skipWhitespaceLoop]; [ lia | ].
  destruct (String.get idx data) as [c | ]; [ | lia ].
  destruct (isJSONSpace c); [ | lia ]. specialize (IH (S idx)). lia.
Qed.

Lemma skipWhitespaceLoop_le n data : forall idx, skipWhitespaceLoop n data idx <= idx + n.
Proof.
  induction n as [ | n IH ]; intros idx; cbn [skipWhitespaceLoop]; [ lia | ].
  destruct (String.get idx data) as [c | ]; [ | lia ].
  destruct (isJSONSpace c); [ | lia ]. specialize (IH (S idx)). lia.
Qed.

(** Every byte the loop steps over is white space. *)
Lemma skipWhitespaceLoop_skipped n data : forall idx j,
  idx <= j < skipWhitespaceLoop n data idx ->
  exists c, String.get j data = Some c /\ isJSONSpace c = true.
Proof.
  induction n as [ | n IH ]; intros idx j Hj; cbn [skipWhitespaceLoop] in Hj; [ lia | ].
  destruct (String.get idx data) as [c | ] eqn:Eg; [ | lia ].
  destruct (isJSONSpace c) eqn:Ew; [ | lia ].
  destruct (Nat.eq_dec j idx) as [-> | Hne]; [ now exists c | ].
  apply (IH (S idx)). lia.
Qed.

(** The loop stops before the end only on a byte that is not white space. *)
Lemma skipWhitespaceLoop_stops n data : forall idx,
  skipWhitespaceLoop n data idx < idx + n ->
  match String.get (skipWhitespaceLoop n data idx) data with
  | Some c => isJSONSpace c = false
  | None => True
  end.
Proof.
  induction n as [ | n IH ]; intros idx H; cbn [skipWhitespaceLoop] in *; [ lia | ].
  destruct (String.get idx data) as [c | ] eqn:Eg; [ | now rewrite Eg ].
  destruct (isJSONSpace c) eqn:Ew; [ | now rewrite Eg ].
  apply IH. lia.
Qed.

(** X10.  [skipLeadingWhitespace] never panics.  When it returns an index,
    the index is at or after the start, inside the data, on a byte that is
    not white space, and every byte between the start and it is white
    space; it returns the error "truncated ... data" exactly when no byte
    from the start on is anything else than white space. *)
Theorem skipLeadingWhitespace_finds_first_byte (typ : string) (data : bytes) (idx : nat) :
  match skipLeadingWhitespace typ data idx with
  | ROk i =>
      idx <= i < String.length data /\
      (exists c, String.get i data = Some c /\ isJSONSpace c = false) /\
      (forall j, idx <= j < i ->
                 exists c, String.get j data = Some c /\ isJSONSpace c = true)
  | RErr e =>
      e = ErrTruncated typ /\
      (forall j c, idx <= j -> String.get j data = Some c -> isJSONSpace c = true)
  | RPanic => False
  end.
Proof.
  unfold skipLeadingWhitespace.
  set (n := String.length data - idx). set (i := skipWhitespaceLoop n data idx).
  pose proof (skipWhitespaceLoop_ge n data idx) as Hge.
  pose proof (skipWhitespaceLoop_le n data idx) as Hle.
  pose proof (skipWhitespaceLoop_skipped n data idx) as Hsk.
  pose proof (skipWhitespaceLoop_stops n data idx) as Hst.
  fold i in Hge, Hle, Hsk, Hst.
  destruct (String.length data <=? i)%nat eqn:E.
  - apply Nat.leb_le in E. split; [ reflexivity | ].
    intros j c Hj Hg. apply get_Some_in_range in Hg as Hlt.
    destruct (Hsk j ltac:(lia)) as (c' & Hc' & Hw). congruence.
  - apply Nat.leb_gt in E. split; [ lia | split; [ | exact Hsk ] ].
    destruct (get_in_range data i E) as (c & Hc). exists c. split; [ exact Hc | ].
    assert (Hlt : i < idx + n) by (unfold n; lia).
    specialize (Hst Hlt). now rewrite Hc in Hst.
Qed.

Lemma get_after_prefix pre c rest :
  String.get (String.length pre) (pre ++ String c rest) = Some c.
Proof. induction pre as [ | a pre IH ]; [ reflexivity | exact IH ]. Qed.

(** The loop steps over a run of white space and stops on the byte after
    it. *)
Lemma skipWhitespaceLoop_run w : forall pre c rest n,
  allSpace w = true -> isJSONSpace c = false -> String.length w < n ->
  skipWhitespaceLoop n (pre ++ w ++ String c rest) (String.length pre)
  = String.length pre + String.length w.
Proof.
  induction w as [ | a w IH ]; intros pre c rest n Hw Hc Hn.
  - destruct n as [ | n ]; [ simpl in Hn; lia | ]. cbn [skipWhitespaceLoop append].
    rewrite get_after_prefix, Hc. simpl. lia.
  - destruct n as [ | n ]; [ simpl in Hn; lia | ].
    unfold allSpace in Hw. cbn [list_ascii_of_string forallb] in Hw.
    apply andb_prop in Hw as [Ha Hw].
    cbn [skipWhitespaceLoop append]. rewrite get_after_prefix, Ha.
    replace (pre ++ String a (w ++ String c rest))
      with ((pre ++ String a "") ++ w ++ String c rest)
      by (now rewrite append_assoc).
    replace (S (String.length pre)) with (String.length (pre ++ String a ""))
      by (rewrite length_append; simpl; lia).
    rewrite IH; auto; [ | simpl in Hn; lia ].
    rewrite length_append. simpl. lia.
Qed.

Lemma skipWhitespaceLoop_all w : forall pre n,
  allSpace w = true ->
  String.length (pre ++ w)
  <= skipWhitespaceLoop (String.length w + n) (pre ++ w) (String.length pre).
Proof.
  induction w as [ | a w IH ]; intros pre n Hw.
  - rewrite append_nil_r. apply skipWhitespaceLoop_ge.
  - unfold allSpace in Hw. cbn [list_ascii_of_string forallb] in Hw.
    apply andb_prop in Hw as [Ha Hw].
    cbn [String.length Nat.add skipWhitespaceLoop].
    rewrite get_after_prefix, Ha.
    replace (pre ++ String a w) with ((pre ++ String a "") ++ w)
      by (now rewrite append_assoc).
    replace (S (String.length pre)) with (String.length (pre ++ String a ""))
      by (rewrite length_append; simpl; lia).
    now apply IH.
Qed.

Lemma skipLeadingWhitespace_run typ w pre c rest :
  allSpace w = true -> isJSONSpace c = false ->
  skipLeadingWhitespace typ (pre ++ w ++ String c rest) (String.length pre)
  = ROk (String.length pre + String.length w).
Proof.
  intros Hw Hc. unfold skipLeadingWhitespace.
  rewrite (skipWhitespaceLoop_run w pre c rest); auto.
  - rewrite !length_append. simpl.
    destruct (Nat.leb_spec (String.length pre + (String.length w + S (String.length rest)))
                (String.length pre + String.length w)); [ lia | reflexivity ].
  - rewrite !length_append. simpl. lia.
Qed.

Lemma byteAt_run {E} w pre c rest :
  @byteAt E (pre ++ w ++ String c rest) (String.length pre + String.length w) = ROk c.
Proof.
  unfold byteAt. rewrite <- length_append, <- append_assoc.
  now rewrite get_after_prefix.
Qed.

Lemma skipLeadingWhitespace_run0 typ w c rest :
  allSpace w = true -> isJSONSpace c = false ->
  skipLeadingWhitespace typ (w ++ String c rest) 0 = ROk (String.length w).
Proof. intros Hw Hc. exact (skipLeadingWhitespace_run typ w "" c rest Hw Hc). Qed.

Lemma byteAt_run0 {E} w c rest :
  @byteAt E (w ++ String c rest) (String.length w) = ROk c.
Proof. exact (byteAt_run w "" c rest). Qed.

Lemma isMixedArrayLoop_no_panic arr :
  forall hasString hasObject, isMixedArrayLoop arr hasString hasObject <> RPanic.
Proof.
  induction arr as [ | item arr IH ]; intros hs ho; [ discriminate | ].
  cbn [isMixedArrayLoop].
  destruct (Nat.leb_spec (String.length item)
              (skipWhitespaceLoop (String.length item) item 0)) as [Hle | Hlt];
    [ apply IH | ].
  unfold byteAt. destruct (get_in_range item _ Hlt) as (c & ->). cbn [rbind].
  match goal with |- (if ?b then _ else _) <> _ => destruct b end;
    [ discriminate | apply IH ].
Qed.

Lemma unmarshalMixedArrayLoop_no_panic {Item} (L : UnionLibs Item) typ arr :
  forall result, unmarshalMixedArrayLoop L typ arr result <> RPanic.
Proof.
  induction arr as [ | item arr IH ]; intros result; [ discriminate | ].
  cbn [unmarshalMixedArrayLoop].
  destruct (Nat.leb_spec (String.length item)
              (skipWhitespaceLoop (String.length item) item 0)) as [Hle | Hlt];
    [ discriminate | ].
  unfold byteAt. destruct (get_in_range item _ Hlt) as (c & ->). cbn [rbind].
  destruct (Ascii.eqb c quoteByte).
  - destruct (unmarshalStr L item); [ apply IH | discriminate ].
  - destruct (Ascii.eqb c "{"); [ | discriminate ].
    destruct (unmarshalItem L item); [ | discriminate ].
    destruct (String.eqb (Content L i) ""); [ discriminate | apply IH ].
Qed.

Lemma rbind_no_panic {E A B} (r : res E A) (k : A -> res E B) :
  r <> RPanic -> (forall a, r = ROk a -> k a <> RPanic) -> rbind r k <> RPanic.
Proof. destruct r; simpl; intros H1 H2; auto; congruence. Qed.

Lemma byteAt_after_skip typ data idx i :
  skipLeadingWhitespace typ data idx = ROk i ->
  exists c, @byteAt unionError data i = ROk c.
Proof.
  intros H. pose proof (skipLeadingWhitespace_finds_first_byte typ data idx) as Hs.
  rewrite H in Hs. destruct Hs as (_ & (c & Hc & _) & _).
  exists c. unfold byteAt. now rewrite Hc.
Qed.

Lemma skipLeadingWhitespace_no_panic typ data idx :
  skipLeadingWhitespace typ data idx <> RPanic.
Proof.
  unfold skipLeadingWhitespace.
  now destruct (String.length data <=? _)%nat.
Qed.

(** X11.  [unmarshalJSONNestedUnion] never indexes its data out of range,
    whatever the bytes and whatever the library calls return.  Data that is
    empty or all white space is the error "truncated ... data"; the kind of
    value is chosen by the first byte that is not white space, and a first
    byte other than a quote, a brace or a bracket is the error "invalid ...
    type"; an opening bracket followed, after white space, by a closing
    bracket is the empty list of strings, whatever bytes come after it. *)
Theorem unmarshalJSONNestedUnion_dispatch {Item} (L : UnionLibs Item)
  (typ : string) :
  (forall data, unmarshalJSONNestedUnion L typ data <> RPanic) /\
  (forall data, allSpace data = true ->
     unmarshalJSONNestedUnion L typ data = RErr (ErrTruncated typ)) /\
  (forall w c rest,
     allSpace w = true -> isJSONSpace c = false ->
     Ascii.eqb c quoteByte = false -> Ascii.eqb c "{" = false ->
     Ascii.eqb c "[" = false ->
     unmarshalJSONNestedUnion L typ (w ++ String c rest) = RErr (ErrInvalidType typ)) /\
  (forall w1 w2 rest,
     allSpace w1 = true -> allSpace w2 = true ->
     unmarshalJSONNestedUnion L typ (w1 ++ "[" ++ w2 ++ "]" ++ rest)
     = ROk (UStrings [])) /\
  (forall w1 w2,
     allSpace w1 = true -> allSpace w2 = true ->
     unmarshalJSONNestedUnion L typ (w1 ++ "[" ++ w2) = RErr (ErrTruncated typ)).
Proof.
  split; [ | split; [ | split; [ | split ] ] ].
  - intros data. unfold unmarshalJSONNestedUnion.
    apply rbind_no_panic; [ apply skipLeadingWhitespace_no_panic | ].
    intros idx Hidx. destruct (byteAt_after_skip _ _ _ _ Hidx) as (c & ->).
    cbn [rbind]. destruct (Ascii.eqb c quoteByte).
    { unfold unquoteOrUnmarshalJSONString.
      destruct (Unquote L data); [ discriminate | ].
      destruct (unmarshalStr L data); discriminate. }
    destruct (Ascii.eqb c "{").
    { destruct (unmarshalItem L data); [ | discriminate ].
      destruct (String.eqb (Content L i) ""); discriminate. }
    destruct (Ascii.eqb c "["); [ | discriminate ].
    apply rbind_no_panic; [ apply skipLeadingWhitespace_no_panic | ].
    intros idx2 Hidx2. destruct (byteAt_after_skip _ _ _ _ Hidx2) as (c2 & ->).
    cbn [rbind]. destruct (Ascii.eqb c2 "]"); [ discriminate | ].
    destruct (Ascii.eqb c2 quoteByte).
    { apply rbind_no_panic.
      - unfold isMixedArray. destruct (unmarshalRawArray L data); [ | discriminate ].
        apply isMixedArrayLoop_no_panic.
      - intros mixed _. destruct mixed.
        + unfold unmarshalMixedArray.
          destruct (unmarshalRawArray L data); [ | discriminate ].
          apply rbind_no_panic; [ apply unmarshalMixedArrayLoop_no_panic | ].
          discriminate.
        + destruct (unmarshalStrs L data); discriminate. }
    destruct (Ascii.eqb c2 "{").
    { destruct (unmarshalItems L data); [ | discriminate ].
      destruct (existsb _ l); discriminate. }
    destruct (Ascii.eqb c2 "[").
    { destruct (unmarshalIntArrays L data); discriminate. }
    destruct (startsNumber c2); [ | discriminate ].
    unfold unmarshalJSONInt64s. destruct (unmarshalInts L data); discriminate.
  - intros data Hall. unfold unmarshalJSONNestedUnion, skipLeadingWhitespace.
    pose proof (skipWhitespaceLoop_all data "" 0 Hall) as Hle.
    cbn [append String.length] in Hle. rewrite Nat.add_0_r in Hle.
    rewrite Nat.sub_0_r. apply Nat.leb_le in Hle. now rewrite Hle.
  - intros w c rest Hw Hc Hq Hb Hk. unfold unmarshalJSONNestedUnion.
    rewrite (skipLeadingWhitespace_run0 typ w c rest Hw Hc). cbn [rbind].
    rewrite (byteAt_run0 w c rest). cbn [rbind]. now rewrite Hq, Hb, Hk.
  - intros w1 w2 rest H1 H2. unfold unmarshalJSONNestedUnion.
    change ("[" ++ w2 ++ "]" ++ rest) with (String "[" (w2 ++ String "]" rest)).
    rewrite (skipLeadingWhitespace_run0 typ w1 "[" _ H1 eq_refl). cbn [rbind].
    rewrite (byteAt_run0 w1 "[" _). cbn [rbind].
    change (Ascii.eqb "[" quoteByte) with false.
    change (Ascii.eqb "[" "{") with false.
    change (Ascii.eqb "[" "[") with true. cbv iota.
    replace (w1 ++ String "[" (w2 ++ String "]" rest))
      with ((w1 ++ "[") ++ w2 ++ String "]" rest)
      by (rewrite append_assoc; reflexivity).
    replace (S (String.length w1)) with (String.length (w1 ++ "["))
      by (rewrite length_append; simpl; lia).
    rewrite (skipLeadingWhitespace_run typ w2 (w1 ++ "[") "]" rest H2 eq_refl).
    cbn [rbind]. rewrite (byteAt_run w2 (w1 ++ "[") "]" rest). reflexivity.
  - intros w1 w2 H1 H2. unfold unmarshalJSONNestedUnion.
    change ("[" ++ w2) with (String "[" w2).
    rewrite (skipLeadingWhitespace_run0 typ w1 "[" _ H1 eq_refl). cbn [rbind].
    rewrite (byteAt_run0 w1 "[" _). cbn [rbind].
    change (Ascii.eqb "[" quoteByte) with false.
    change (Ascii.eqb "[" "{") with false.
    change (Ascii.eqb "[" "[") with true. cbv iota.
    unfold skipLeadingWhitespace.
    replace (w1 ++ String "[" w2) with ((w1 ++ "[") ++ w2)
      by (rewrite append_assoc; reflexivity).
    pose proof (skipWhitespaceLoop_all w2 (w1 ++ "[") 0 H2) as Hle.
    rewrite Nat.add_0_r in Hle.
    replace (String.length ((w1 ++ "[") ++ w2) - S (String.length w1))
      with (String.length w2) by (rewrite !length_append; simpl; lia).
    replace (S (String.length w1)) with (String.length (w1 ++ "["))
      by (rewrite length_append; simpl; lia).
    apply Nat.leb_le in Hle. now rewrite Hle.
Qed.

Lemma unmarshalJSONNestedUnion_dispatch_witness :
  unmarshalJSONNestedUnion sampleUnionLibs "input"
    (" " ++ "[" ++ " " ++ "]" ++ " trailing")
  = ROk (UStrings []) /\
  unmarshalJSONNestedUnion sampleUnionLibs "input" (" " ++ String "7" "")
  = RErr (ErrInvalidType "input").
Proof.
  pose proof (unmarshalJSONNestedUnion_dispatch sampleUnionLibs "input")
    as (_ & _ & H3 & H4 & _).
  split.
  - apply H4; reflexivity.
  - apply H3; reflexivity.
Defined.

Lemma firstByte_in_range item :
  skipWhitespaceLoop (String.length item) item 0 < String.length item ->
  exists c, firstByte item = Some c /\
            @byteAt unionError item (skipWhitespaceLoop (String.length item) item 0)
            = ROk c.
Proof.
  intros Hlt. destruct (get_in_range item _ Hlt) as (c & Hc).
  exists c. unfold firstByte, byteAt. now rewrite Hc.
Qed.

Lemma firstByte_out_of_range item :
  String.length item <= skipWhitespaceLoop (String.length item) item 0 ->
  firstByte item = None.
Proof. intros Hle. unfold firstByte. now apply get_out_of_range. Qed.

Lemma isMixedArrayLoop_spec arr :
  forall hasString hasObject,
    hasString && hasObject = false ->
    isMixedArrayLoop arr hasString hasObject
    = ROk ((hasString || existsb (startsWith quoteByte) arr) &&
           (hasObject || existsb (startsWith "{") arr)).
Proof.
  induction arr as [ | item arr IH ]; intros hs ho Hboth.
  - cbn [isMixedArrayLoop existsb]. now rewrite !orb_false_r, Hboth.
  - cbn [isMixedArrayLoop existsb]. unfold startsWith at 1 3.
    destruct (Nat.leb_spec (String.length item)
                (skipWhitespaceLoop (String.length item) item 0)) as [Hle | Hlt].
    + rewrite (firstByte_out_of_range item Hle). cbn [orb]. now apply IH.
    + destruct (firstByte_in_range item Hlt) as (c & -> & ->). cbn [rbind].
      destruct (Ascii.eqb c quoteByte) eqn:Eq.
      * assert (Eb : Ascii.eqb c "{" = false).
        { apply Ascii.eqb_eq in Eq. subst c. reflexivity. }
        rewrite Eb. cbn [orb andb]. rewrite orb_true_r. cbn [andb].
        destruct ho.
        -- reflexivity.
        -- rewrite IH by reflexivity. reflexivity.
      * destruct (Ascii.eqb c "{") eqn:Eb.
        -- cbn [orb]. rewrite orb_true_r, andb_true_r. destruct hs.
           ++ reflexivity.
           ++ rewrite IH by reflexivity. cbn [orb]. now rewrite andb_true_r.
        -- cbn [orb]. rewrite Hboth. now apply IH.
Qed.

(** X12.  [isMixedArray] never fails: it answers whether the raw elements of
    the array hold both an element that starts, after its white space, with
    a quote and one that starts with a brace; returning as soon as both
    were seen does not change the answer, and data that does not decode as
    an array is not mixed. *)
Theorem isMixedArray_has_string_and_object {Item} (L : UnionLibs Item) (data : bytes) :
  isMixedArray L data
  = ROk (match unmarshalRawArray L data with
         | Some arr =>
             existsb (startsWith quoteByte) arr && existsb (startsWith "{") arr
         | None => false
         end).
Proof.
  unfold isMixedArray. destruct (unmarshalRawArray L data) as [arr | ];
    [ | reflexivity ].
  now rewrite isMixedArrayLoop_spec.
Qed.





(* ================================================================== *)
(** * Properties of the user-facing errors *)
(* ================================================================== *)

Lemma sentinel_eqb_eq a b : sentinel_eqb a b = true <-> a = b.
Proof. destruct a, b; simpl; split; intros H; congruence. Qed.

Lemma sentinel_eqb_refl a : sentinel_eqb a a = true.
Proof. now apply sentinel_eqb_eq. Qed.



(** X15.  [GetUserFacingError] of [user_facing_errors.go] returns the error
    it was given, wrapped details included, exactly when the error wraps
    [ErrInvalidRequestBody], and [nil] otherwise; an error that wraps only
    other values, or nothing, is never returned. *)
Theorem GetUserFacingError_returns_wrapped_invalid_body (err : option goErr) :
  (forall e, GetUserFacingError' err = Some e ->
             err = Some e /\ errorsIs e ErrInvalidRequestBody = true) /\
  (GetUserFacingError' err = None <->
   match err with
   | None => True
   | Some e => errorsIs e ErrInvalidRequestBody = false
   end) /\
  (forall msg, GetUserFacingError' (Some (Wrap msg (Sentinel ErrInvalidRequestBody)))
               = Some (Wrap msg (Sentinel ErrInvalidRequestBody))) /\
  (forall msg, GetUserFacingError' (Some (Plain msg)) = None) /\
  GetUserFacingError' (GetUserFacingError' err) = GetUserFacingError' err.
Proof.
  split; [ | split; [ | split; [ | split ] ] ]; try reflexivity.
  - intros e H. destruct err as [e0 | ]; [ | discriminate ].
    unfold GetUserFacingError' in H.
    destruct (errorsIs e0 ErrInvalidRequestBody) eqn:E; [ | discriminate ].
    injection H as <-. now split.
  - destruct err as [e0 | ]; [ | split; auto ]. unfold GetUserFacingError'.
    destruct (errorsIs e0 ErrInvalidRequestBody); split; intros H;
      try discriminate; reflexivity.
  - destruct err as [e0 | ]; [ | reflexivity ]. unfold GetUserFacingError'.
    destruct (errorsIs e0 ErrInvalidRequestBody) eqn:E; [ | reflexivity ].
    now rewrite E.
Qed.

(* ================================================================== *)
(** * Properties of the buffered AWS Anthropic decoder *)
(* ================================================================== *)

(** With fuel above the length of the buffer the loop stops only where no
    message can be decoded. *)
Lemma extractAnthropicLoop_drains L (Hc : consuming L) fuel :
  forall buffered result,
    (String.length buffered < fuel)%nat ->
    Decode L (snd (extractAnthropicLoop L fuel buffered result)) = None.
Proof.
  induction fuel as [ | fuel IH ]; intros buffered result Hlt; [ lia | ].
  cbn [extractAnthropicLoop].
  destruct (Decode L buffered) as [[payload rest] | ] eqn:Hd; [ | exact Hd ].
  assert (Hrest : (String.length rest < fuel)%nat).
  { specialize (Hc _ _ _ Hd). lia. }
  destruct (unmarshalPayload L payload) as [field | ]; [ | now apply IH ].
  destruct (String.eqb field ""); [ now apply IH | ].
  destruct (base64Decode L field); now apply IH.
Qed.

Lemma awsAnthropicFeed_drains L (Hc : consuming L) bufferedBody buf :
  Decode L (snd (awsAnthropicFeed L bufferedBody buf)) = None.
Proof.
  unfold awsAnthropicFeed. rewrite extractAnthropic_is_loop by exact Hc.
  apply extractAnthropicLoop_drains; [ exact Hc | lia ].
Qed.

(** X16.  The AWS Anthropic translator keeps the bytes that do not yet form
    a message in [bufferedBody]: for a framing that reads at least one byte
    per message and in which a complete message is not changed by the bytes
    after it, two ways of cutting the same byte stream into reads give the
    same SSE text and leave the same bytes buffered, and after every read
    the buffer starts with no complete message. *)
Theorem awsAnthropic_output_independent_of_read_boundaries
  (L : StreamLibs) (Hc : consuming L) (Hp : prefix_stable L)
  (bufferedBody : bytes) (reads1 reads2 : list bytes)
  (H1 : reads1 <> []) (H2 : reads2 <> [])
  (Hsame : concat_reads reads1 = concat_reads reads2) :
  awsAnthropicFeedAll L bufferedBody reads1 = awsAnthropicFeedAll L bufferedBody reads2 /\
  Decode L (snd (awsAnthropicFeedAll L bufferedBody reads1)) = None.
Proof.
  destruct reads1 as [ | r1 reads1 ]; [ congruence | ].
  destruct reads2 as [ | r2 reads2 ]; [ congruence | ].
  rewrite !awsAnthropic_reads_independent_of_boundaries by assumption.
  rewrite Hsame. split; [ reflexivity | ].
  now apply awsAnthropicFeed_drains.
Qed.

Lemma awsAnthropic_output_independent_of_read_boundaries_witness :
  awsAnthropicFeedAll lengthPrefixedLibs "" [sampleFrameHead; sampleFrameTail]
  = awsAnthropicFeedAll lengthPrefixedLibs "" [sampleFrame] /\
  Decode lengthPrefixedLibs
    (snd (awsAnthropicFeedAll lengthPrefixedLibs "" [sampleFrameHead; sampleFrameTail]))
  = None.
Proof.
  apply (awsAnthropic_output_independent_of_read_boundaries lengthPrefixedLibs
           lengthPrefixed_consuming lengthPrefixed_prefix_stable ""
           [sampleFrameHead; sampleFrameTail] [sampleFrame]);
    first [ discriminate | reflexivity ].
Defined.

(* ================================================================== *)
(** * Properties of the tokenize translators *)
(* ================================================================== *)

(** X17.  The three provider translators of the tokenize endpoint (GCP
    Vertex AI, GCP Anthropic, AWS Bedrock) take chat requests only: a valid
    completion request is refused with no headers and no body, and the
    translator's request model stays as it was, whereas the OpenAI
    translator passes it on.  For a chat request they ignore the original
    body and the force flag, and on success they return the converted body
    with the [:path] header followed by a [content-length] header of that
    body's length, the request model being the override when one is set and
    the model of the request otherwise. *)
Theorem provider_tokenize_translators_take_chat_only
  (L : TokenizeLibs) (backend : tokenizeBackend)
  (modelNameOverride requestModel apiVersion : string) (original : bytes) (force : bool)
  (Hprovider : backend <> APISchemaOpenAI) :
  (forall c, exists name,
      RequestBody L backend modelNameOverride requestModel apiVersion original
        (mkTokenizeRequestUnion (Some c) None) force
      = ([], None, Some (ErrOnlyChatSupported name), requestModel)) /\
  (forall c,
      RequestBody L APISchemaOpenAI "" requestModel apiVersion original
        (mkTokenizeRequestUnion (Some c) None) false
      = ([(pathHeaderName, "/tokenize")], None, None, tcModel c)) /\
  (forall req original' force',
      RequestBody L backend modelNameOverride requestModel apiVersion original req force
      = RequestBody L backend modelNameOverride requestModel apiVersion
          original' req force') /\
  (forall ch newHeaders newBody requestModel',
      RequestBody L backend modelNameOverride requestModel apiVersion original
        (mkTokenizeRequestUnion None (Some ch)) force
      = (newHeaders, newBody, None, requestModel') ->
      requestModel' = (if String.eqb modelNameOverride "" then tchModel ch
                       else modelNameOverride) /\
      exists path b,
        newBody = Some b /\
        newHeaders = [(pathHeaderName, path);
                      (contentLengthHeaderName, Itoa (String.length b))]).
Proof.
  split; [ | split; [ | split ] ].
  - intros c. destruct backend; [ congruence | | | ]; eexists; reflexivity.
  - reflexivity.
  - intros req original' force'. destruct backend; [ congruence | | | ]; reflexivity.
  - intros ch hs body rm' H.
    destruct backend; [ congruence | | | ]; cbn in H;
      unfold ToGCPVertexAI_RequestBody, ToGCPAnthropic_RequestBody,
        ToAWSBedrock_RequestBody, providerRequestBody in H; cbn in H.
    + destruct (geminiCountTokenBody L ch _) as [b | ]; [ | discriminate ].
      injection H as <- <- <-. split; [ now destruct (String.eqb _ "") | ].
      eexists _, b. split; reflexivity.
    + destruct (anthropicCountTokensBody L ch _) as [b | ]; [ | discriminate ].
      destruct (sjsonSetAnthropicVersion L b _) as [b' | ]; [ | discriminate ].
      injection H as <- <- <-. split; [ now destruct (String.eqb _ "") | ].
      eexists _, b'. split; reflexivity.
    + destruct (bedrockCountTokensBody L ch) as [b | ]; [ | discriminate ].
      injection H as <- <- <-. split; [ now destruct (String.eqb _ "") | ].
      eexists _, b. split; reflexivity.
Qed.

Lemma provider_tokenize_translators_take_chat_only_witness :
  APISchemaAWSBedrock <> APISchemaOpenAI /\
  RequestBody sampleTokenizeLibs APISchemaAWSBedrock "" "" "" "completion"
    (mkTokenizeRequestUnion None (Some sampleChatReq)) false
  = ([(pathHeaderName, "/model/m/count-tokens"); (contentLengthHeaderName, "2")],
     Some "{}", None, "m") /\
  exists name,
    RequestBody sampleTokenizeLibs APISchemaAWSBedrock "" "" "" "completion"
      (mkTokenizeRequestUnion (Some sampleCompletionReq) None) false
    = ([], None, Some (ErrOnlyChatSupported name), "").
Proof.
  split; [ discriminate | split; [ reflexivity | ] ].
  exact (proj1 (provider_tokenize_translators_take_chat_only sampleTokenizeLibs
                  APISchemaAWSBedrock "" "" "" "completion" false
                  ltac:(discriminate)) sampleCompletionReq).
Defined.

(* ================================================================== *)
(** * Properties of the tokenizer information codec *)
(* ================================================================== *)

Lemma merge_into_get res m k :
  nodupb (keys res) = true ->
  map_get k (merge_into res m)
  = match map_get k res with
    | Some v => Some v
    | None => map_get k m
    end.
Proof.
  unfold merge_into. revert m.
  induction res as [ | [k' v'] res IH ]; intros m Hnd; [ reflexivity | ].
  simpl in Hnd. apply andb_prop in Hnd as [Hk' Hnd]. apply negb_true_iff in Hk'.
  cbn [fold_left fst snd map_get]. rewrite IH by exact Hnd.
  destruct (String.eqb k k') eqn:E.
  - apply String.eqb_eq in E. subst k'.
    apply map_get_None_keys in Hk'. now rewrite Hk', map_get_set_same.
  - apply String.eqb_neq in E. now rewrite map_get_set_other by exact E.
Qed.

Lemma extra_fields_get (allFields extra : object) k :
  nodupb (keys allFields) = true ->
  map_get k
    (fold_left
       (fun extra kv =>
          if negb (String.eqb (fst kv) "tokenizer_class")
          then map_set (fst kv) (snd kv) extra else extra)
       allFields extra)
  = match (if String.eqb k "tokenizer_class" then None else map_get k allFields) with
    | Some v => Some v
    | None => map_get k extra
    end.
Proof.
  revert extra.
  induction allFields as [ | [k' v'] allFields IH ]; intros extra Hnd.
  - simpl. now destruct (String.eqb k "tokenizer_class").
  - simpl in Hnd. apply andb_prop in Hnd as [Hk' Hnd]. apply negb_true_iff in Hk'.
    cbn [fold_left fst snd map_get]. rewrite IH by exact Hnd.
    destruct (String.eqb k "tokenizer_class") eqn:Etc.
    + apply String.eqb_eq in Etc. subst k.
      destruct (String.eqb k' "tokenizer_class") eqn:E'; cbn [negb];
        [ reflexivity | ].
      apply map_get_set_other. intros Heq. subst k'.
      now rewrite String.eqb_refl in E'.
    + destruct (String.eqb k k') eqn:E.
      * apply String.eqb_eq in E. subst k'. rewrite Etc. cbn [negb].
        apply map_get_None_keys in Hk'. now rewrite Hk', map_get_set_same.
      * destruct (map_get k allFields); [ reflexivity | ].
        apply String.eqb_neq in E.
        destruct (negb (String.eqb k' "tokenizer_class")); [ | reflexivity ].
        now apply map_get_set_other.
Qed.

Lemma extra_fields_nodup (allFields extra : object) :
  nodupb (keys extra) = true ->
  nodupb (keys
    (fold_left
       (fun extra kv =>
          if negb (String.eqb (fst kv) "tokenizer_class")
          then map_set (fst kv) (snd kv) extra else extra)
       allFields extra)) = true.
Proof.
  revert extra. induction allFields as [ | [k' v'] allFields IH ]; intros extra Hnd;
    [ exact Hnd | ].
  cbn [fold_left fst snd]. apply IH.
  destruct (negb (String.eqb k' "tokenizer_class")); [ | exact Hnd ].
  now apply nodupb_map_set.
Qed.

(** X18.  Decoding a tokenizer configuration and encoding it again gives
    back every field of the decoded object when its [tokenizer_class] is a
    string: the extra configuration holds exactly the other fields.  A
    [tokenizer_class] that is missing or not a string is not kept: the
    encoded object then carries the class the receiver had before.  On
    encoding, an extra field named [tokenizer_class] takes the place of the
    class. *)
Theorem tokenizer_info_fields_round_trip
  (r : TokenizerInfoResponse) (allFields : object)
  (Hnd : nodupb (keys allFields) = true) :
  exists r',
    TokenizerInfoResponse_UnmarshalJSON r (Some allFields) = Some r' /\
    (forall k, map_get k (ExtraConfig r')
               = if String.eqb k "tokenizer_class" then None else map_get k allFields) /\
    (forall k, k <> "tokenizer_class" ->
               map_get k (TokenizerInfoResponse_MarshalJSON r') = map_get k allFields) /\
    (forall s, map_get "tokenizer_class" allFields = Some (JStr s) ->
               forall k, map_get k (TokenizerInfoResponse_MarshalJSON r')
                         = map_get k allFields) /\
    ((forall s, map_get "tokenizer_class" allFields <> Some (JStr s)) ->
     map_get "tokenizer_class" (TokenizerInfoResponse_MarshalJSON r')
     = Some (JStr (TokenizerClass r))) /\
    (forall r0 v,
        nodupb (keys (ExtraConfig r0)) = true ->
        map_get "tokenizer_class" (ExtraConfig r0) = Some v ->
        map_get "tokenizer_class" (TokenizerInfoResponse_MarshalJSON r0) = Some v).
Proof.
  eexists. split; [ reflexivity | ].
  assert (Hextra : forall k,
    map_get k
      (fold_left
         (fun extra kv =>
            if negb (String.eqb (fst kv) "tokenizer_class")
            then map_set (fst kv) (snd kv) extra else extra)
         allFields [])
    = if String.eqb k "tokenizer_class" then None else map_get k allFields).
  { intros k. rewrite extra_fields_get by exact Hnd.
    destruct (String.eqb k "tokenizer_class"); [ reflexivity | ].
    now destruct (map_get k allFields). }
  assert (Hmarshal : forall k tc,
    map_get k (TokenizerInfoResponse_MarshalJSON
                 (mkTokenizerInfoResponse tc
                    (fold_left
                       (fun extra kv =>
                          if negb (String.eqb (fst kv) "tokenizer_class")
                          then map_set (fst kv) (snd kv) extra else extra)
                       allFields [])))
    = if String.eqb k "tokenizer_class" then Some (JStr tc) else map_get k allFields).
  { intros k tc. unfold TokenizerInfoResponse_MarshalJSON. cbn [ExtraConfig TokenizerClass].
    rewrite merge_into_get by (now apply extra_fields_nodup).
    rewrite Hextra. cbn [map_get].
    destruct (String.eqb k "tokenizer_class"); [ reflexivity | ].
    now destruct (map_get k allFields). }
  split; [ exact Hextra | ].
  split; [ | split; [ | split ] ].
  - intros k Hk. rewrite Hmarshal. apply String.eqb_neq in Hk. now rewrite Hk.
  - intros s Hs k. rewrite Hmarshal, Hs.
    destruct (String.eqb k "tokenizer_class") eqn:E; [ | reflexivity ].
    apply String.eqb_eq in E. subst k. now rewrite Hs.
  - intros Hno. rewrite Hmarshal. cbn.
    destruct (map_get "tokenizer_class" allFields) as [[ | | | s | | ] | ] eqn:E;
      try reflexivity.
    exfalso. exact (Hno s eq_refl).
  - intros r0 v Hnd0 Hv. unfold TokenizerInfoResponse_MarshalJSON.
    rewrite merge_into_get by exact Hnd0. now rewrite Hv.
Qed.

Lemma tokenizer_info_fields_round_trip_witness :
  nodupb (keys sampleTokenizerFields) = true /\
  exists r',
    TokenizerInfoResponse_UnmarshalJSON (mkTokenizerInfoResponse "" [])
      (Some sampleTokenizerFields) = Some r' /\
    forall k, map_get k (TokenizerInfoResponse_MarshalJSON r')
              = map_get k sampleTokenizerFields.
Proof.
  split; [ reflexivity | ].
  destruct (tokenizer_info_fields_round_trip (mkTokenizerInfoResponse "" [])
              sampleTokenizerFields eq_refl) as (r' & Hr & _ & _ & Hrt & _).
  exists r'. split; [ exact Hr | ]. exact (Hrt "LlamaTokenizer" eq_refl).
Defined.

(* ================================================================== *)
(** * Properties of the embedding converters *)
(* ================================================================== *)

Lemma Forall2_nil_iff {A B} (R : A -> B -> Prop) l l' :
  Forall2 R l l' -> (l = [] <-> l' = []).
Proof. intros H. destruct H; split; congruence. Qed.

(** The loop writes the texts of the messages, a newline before each one
    but the first of the request. *)
Lemma chatTextLoop_spec msgs :
  forall i textContent texts,
    Forall2 message_text msgs texts ->
    chatTextLoop i msgs textContent
    = inl (textContent ++
           match texts with
           | [] => ""
           | _ => (if (0 <? i)%nat then newline else "") ++ join newline texts
           end).
Proof.
  induction msgs as [ | msg msgs IH ]; intros i textContent texts H;
    inversion H as [ | m t ms ts Hm Hrest ]; subst.
  - simpl. now rewrite append_nil_r.
  - cbn [chatTextLoop]. unfold message_text in Hm. rewrite Hm.
    rewrite (IH (S i) _ ts Hrest). f_equal.
    change (0 <? S i)%nat with true. cbn [join].
    destruct (0 <? i)%nat; destruct ts as [ | t' ts ];
      rewrite ?append_nil_r, ?append_assoc; reflexivity.
Qed.

Lemma chatTextLoop_error pre :
  forall i textContent texts bad rest err,
    Forall2 message_text pre texts ->
    messageText bad = inr err ->
    chatTextLoop i (pre ++ bad :: rest)%list textContent = inr err.
Proof.
  induction pre as [ | msg pre IH ]; intros i textContent texts bad rest err H Hbad;
    inversion H as [ | m t ms ts Hm Hrest ]; subst.
  - cbn [app chatTextLoop]. now rewrite Hbad.
  - cbn [app chatTextLoop]. unfold message_text in Hm. rewrite Hm.
    now apply (IH _ _ ts).
Qed.

(** X19.  [openAIEmbeddingChatToGeminiMessage] embeds a chat request as one
    part whose text is the texts of the messages joined by newlines, in
    order; a user or assistant message without content counts as the empty
    text, and a request without messages gives one empty part.  When a
    message has no text (content that is not a string, a system, tool or
    developer message without content, or an empty union), the error of the
    first such message is returned. *)
Theorem embedding_chat_text_is_messages_joined
  (TrimSpace : string -> string) (openAIReq : EmbeddingChatRequest) :
  (forall texts,
      Forall2 message_text (echMessages openAIReq) texts ->
      exists gcr,
        openAIEmbeddingChatToGeminiMessage TrimSpace openAIReq = inl gcr /\
        Parts (ecrContent gcr) = [join newline texts]) /\
  (forall pre texts bad rest err,
      echMessages openAIReq = (pre ++ bad :: rest)%list ->
      Forall2 message_text pre texts ->
      messageText bad = inr err ->
      openAIEmbeddingChatToGeminiMessage TrimSpace openAIReq = inr err) /\
  message_text (OfUser ContentNil) "" /\
  message_text (OfAssistant ContentNil) "" /\
  (forall content,
      (exists err, messageText (OfSystem content) = inr err) <->
      (forall s, content <> ContentString s)).
Proof.
  split; [ | split; [ | split; [ | split ] ] ]; try reflexivity.
  - intros texts H. unfold openAIEmbeddingChatToGeminiMessage.
    rewrite (chatTextLoop_spec _ 0 "" texts H). eexists. split; [ reflexivity | ].
    cbn [ecrContent Parts]. destruct texts; reflexivity.
  - intros pre texts bad rest err Hm Hpre Hbad.
    unfold openAIEmbeddingChatToGeminiMessage. rewrite Hm.
    now rewrite (chatTextLoop_error pre 0 "" texts bad rest err Hpre Hbad).
  - intros content. split.
    + intros [err H] s ->. discriminate.
    + intros H. destruct content as [ | s | t ]; [ eexists; reflexivity | | eexists; reflexivity ].
      exfalso. exact (H s eq_refl).
Qed.

Lemma extractTitleFromContent_short TrimSpace content :
  extractTitleFromContent TrimSpace content <> "" ->
  (String.length (extractTitleFromContent TrimSpace content) < 100)%nat /\
  HasSuffix (extractTitleFromContent TrimSpace content) "." = false /\
  HasSuffix (extractTitleFromContent TrimSpace content) "!" = false /\
  HasSuffix (extractTitleFromContent TrimSpace content) "?" = false.
Proof.
  unfold extractTitleFromContent.
  destruct (strings_Split (TrimSpace content) (ascii_of_nat 10)) as [ | l0 ls ];
    [ intros H; now contradiction H | ].
  destruct ((String.length (TrimSpace l0) <? 100)%nat) eqn:E1;
    [ | intros H; now contradiction H ].
  destruct (HasSuffix (TrimSpace l0) ".") eqn:E2;
    [ intros H; now contradiction H | ].
  destruct (HasSuffix (TrimSpace l0) "!") eqn:E3;
    [ intros H; now contradiction H | ].
  destruct (HasSuffix (TrimSpace l0) "?") eqn:E4;
    [ intros H; now contradiction H | ].
  cbn [andb negb]. intros _. apply Nat.ltb_lt in E1. auto.
Qed.

Lemma title_only_for_documents TrimSpace (taskType content : string) (guard : bool) :
  (if String.eqb taskType TaskTypeRetrievalDocument
   then if guard then extractTitleFromContent TrimSpace content else ""
   else "") <> "" ->
  taskType = TaskTypeRetrievalDocument /\
  (String.length
     (if String.eqb taskType TaskTypeRetrievalDocument
      then if guard then extractTitleFromContent TrimSpace content else ""
      else "") < 100)%nat /\
  HasSuffix
    (if String.eqb taskType TaskTypeRetrievalDocument
     then if guard then extractTitleFromContent TrimSpace content else ""
     else "") "." = false /\
  HasSuffix
    (if String.eqb taskType TaskTypeRetrievalDocument
     then if guard then extractTitleFromContent TrimSpace content else ""
     else "") "!" = false /\
  HasSuffix
    (if String.eqb taskType TaskTypeRetrievalDocument
     then if guard then extractTitleFromContent TrimSpace content else ""
     else "") "?" = false.
Proof.
  destruct (String.eqb taskType TaskTypeRetrievalDocument) eqn:Et;
    [ | intros Hne; now contradiction Hne ].
  apply String.eqb_eq in Et.
  destruct guard; [ | intros Hne; now contradiction Hne ].
  intros Hne. split; [ exact Et | ].
  now apply extractTitleFromContent_short.
Qed.

Lemma int32_in_range d : (- 2 ^ 31 <= d < 2 ^ 31)%Z -> int32 d = d.
Proof. intros H. unfold int32. rewrite Z.mod_small by lia. lia. Qed.

Lemma int32_bounds d : (- 2 ^ 31 <= int32 d < 2 ^ 31)%Z.
Proof.
  unfold int32. pose proof (Z.mod_pos_bound (d + 2 ^ 31) (2 ^ 32) ltac:(lia)). lia.
Qed.

(** X20.  Both embedding converters build the same configuration: the task
    type is the one of the vendor fields (empty without them), a title is
    set only for the task type [RETRIEVAL_DOCUMENT] and is then shorter than
    100 bytes and does not end in a full stop, exclamation or question mark,
    and the output dimensionality is set exactly when the request's
    dimensions are positive.  It is the request's value when that is below
    2^31; a larger value is cut to 32 bits, so what is sent is smaller than
    what was asked for and may be zero or negative. *)
Theorem embedding_config_follows_request (TrimSpace : string -> string) :
  (forall openAIReq gcr,
      openAIEmbeddingCompletionToGeminiMessage TrimSpace openAIReq = inl gcr ->
      config_of (ecVendorFields openAIReq) (ecDimensions openAIReq) (ecrConfig gcr)) /\
  (forall openAIReq gcr,
      openAIEmbeddingChatToGeminiMessage TrimSpace openAIReq = inl gcr ->
      config_of (echVendorFields openAIReq) (echDimensions openAIReq) (ecrConfig gcr)) /\
  (forall d, (0 < d < 2 ^ 31)%Z -> int32 d = d) /\
  (forall d, (2 ^ 31 <= d)%Z -> (int32 d < d)%Z) /\
  int32 (2 ^ 31) = (- 2 ^ 31)%Z /\ int32 (2 ^ 32) = 0%Z.
Proof.
  assert (Htask : forall v : option string,
            (if negb (String.eqb
                        match v with
                        | Some t => if negb (String.eqb t "") then t else ""
                        | None => ""
                        end "")
             then match v with
                  | Some t => if negb (String.eqb t "") then t else ""
                  | None => ""
                  end
             else "")
            = match v with Some t => t | None => "" end).
  { intros [t | ]; [ | reflexivity ].
    destruct (String.eqb t "") eqn:E; cbn; [ | now rewrite E ].
    apply String.eqb_eq in E. now subst. }
  assert (Htitle : forall title,
            (if negb (String.eqb title "") then title else "") = title).
  { intros title. destruct (String.eqb title "") eqn:E; [ | reflexivity ].
    apply String.eqb_eq in E. now subst. }
  split; [ | split; [ | split; [ | split; [ | split ] ] ] ].
  - intros req gcr H. unfold openAIEmbeddingCompletionToGeminiMessage in H.
    destruct (InputToGeminiContent (ecInput req)) as [c | e]; [ | discriminate ].
    injection H as <-. cbn [ecrConfig]. unfold determineTaskType.
    rewrite Htask, Htitle. unfold config_of. cbn [TaskType OutputDimensionality Title].
    split; [ reflexivity | split; [ reflexivity | ] ].
    exact (title_only_for_documents TrimSpace
             match ecVendorFields req with Some t => t | None => "" end
             (getTextFromContent (Some c))
             (negb (String.eqb (getTextFromContent (Some c)) ""))).
  - intros req gcr H. unfold openAIEmbeddingChatToGeminiMessage in H.
    destruct (chatTextLoop 0 (echMessages req) "") as [c | e]; [ | discriminate ].
    injection H as <-. cbn [ecrConfig]. unfold determineTaskType.
    rewrite Htask, Htitle. unfold config_of. cbn [TaskType OutputDimensionality Title].
    split; [ reflexivity | split; [ reflexivity | ] ].
    exact (title_only_for_documents TrimSpace
             match echVendorFields req with Some t => t | None => "" end c true).
  - intros d Hd. apply int32_in_range. lia.
  - intros d Hd. pose proof (int32_bounds d). lia.
  - reflexivity.
  - reflexivity.
Qed.

Lemma fold_left_snoc {A} (l acc : list A) :
  fold_left (fun parts text => (parts ++ [text])%list) l acc = (acc ++ l)%list.
Proof.
  revert acc. induction l as [ | x l IH ]; intros acc; simpl.
  - now rewrite app_nil_r.
  - rewrite IH. now rewrite <- app_assoc.
Qed.

Lemma fold_left_nonempty (l acc : list string) :
  fold_left
    (fun textParts part =>
       if negb (String.eqb part "") then (textParts ++ [part])%list else textParts)
    l acc
  = (acc ++ filter (fun part => negb (String.eqb part "")) l)%list.
Proof.
  revert acc. induction l as [ | x l IH ]; intros acc; simpl.
  - now rewrite app_nil_r.
  - rewrite IH. destruct (negb (String.eqb x "")); [ | reflexivity ].
    now rewrite <- app_assoc.
Qed.

(** X21.  [InputToGeminiContent] turns a string into one part and a slice of
    strings into one part per string, in order and with the empty ones; any
    other input (token ids) is refused, and with it the whole request.  The
    text [getTextFromContent] reads back, from which the title is taken, is
    the non-empty parts joined by single spaces, and empty for no content. *)
Theorem embedding_input_becomes_parts (TrimSpace : string -> string) :
  (forall v, InputToGeminiContent (InputString v) = inl (mkGenaiContent [v])) /\
  (forall v, InputToGeminiContent (InputStrings v) = inl (mkGenaiContent v)) /\
  (forall typeName openAIReq,
      ecInput openAIReq = InputOther typeName ->
      openAIEmbeddingCompletionToGeminiMessage TrimSpace openAIReq
      = inr (ErrUnsupportedInput typeName)) /\
  (forall openAIReq gcr,
      openAIEmbeddingCompletionToGeminiMessage TrimSpace openAIReq = inl gcr ->
      InputToGeminiContent (ecInput openAIReq) = inl (ecrContent gcr)) /\
  (forall parts,
      getTextFromContent (Some (mkGenaiContent parts))
      = join " " (filter (fun part => negb (String.eqb part "")) parts)) /\
  getTextFromContent None = "".
Proof.
  split; [ | split; [ | split; [ | split; [ | split ] ] ] ]; try reflexivity.
  - intros v. unfold InputToGeminiContent. now rewrite fold_left_snoc.
  - intros typeName req H. unfold openAIEmbeddingCompletionToGeminiMessage.
    now rewrite H.
  - intros req gcr H. unfold openAIEmbeddingCompletionToGeminiMessage in H.
    destruct (InputToGeminiContent (ecInput req)) as [c | e]; [ | discriminate ].
    now injection H as <-.
  - intros parts. unfold getTextFromContent. cbn [Parts].
    now rewrite fold_left_nonempty.
Qed.

(* ================================================================== *)
(** * Properties of the Bedrock CountTokens conversion *)
(* ================================================================== *)

Lemma systemTexts_none msgs :
  existsb isSystem msgs = false -> flat_map systemTexts msgs = [].
Proof.
  induction msgs as [ | msg msgs IH ]; [ reflexivity | ].
  cbn [existsb flat_map]. intros H. apply orb_false_elim in H as [H1 H2].
  rewrite (IH H2). destruct msg; try discriminate; reflexivity.
Qed.

Lemma bedrockMessagesLoop_spec E U msgs :
  forall messages system,
    existsb refused msgs = false ->
    exists M,
      bedrockMessagesLoop E U msgs messages system
      = inl ((messages ++ M)%list,
             if existsb isSystem msgs
             then Some (match system with Some s => s | None => [] end
                        ++ flat_map systemTexts msgs)%list
             else system) /\
      map Role M
      = map (bedrockRole E U) (filter (fun msg => negb (isSystem msg)) msgs).
Proof.
  induction msgs as [ | msg msgs IH ]; intros messages system Hok.
  - exists []. cbn. now rewrite app_nil_r.
  - cbn [existsb] in Hok. apply orb_false_elim in Hok as [Hmsg Hok].
    assert (Hpush : forall m : Message,
              Role m = bedrockRole E U msg -> isSystem msg = false ->
              exists M,
                bedrockMessagesLoop E U msgs (messages ++ [m])%list system
                = inl ((messages ++ M)%list,
                       if existsb isSystem (msg :: msgs)
                       then Some (match system with Some s => s | None => [] end
                                  ++ flat_map systemTexts (msg :: msgs))%list
                       else system) /\
                map Role M
                = map (bedrockRole E U)
                    (filter (fun msg => negb (isSystem msg)) (msg :: msgs))).
    { intros m Hrole Hsys.
      destruct (IH (messages ++ [m])%list system Hok) as (M & HM & Hroles).
      exists (m :: M). split.
      - rewrite HM. cbn [existsb flat_map filter]. rewrite Hsys. cbn [orb].
        rewrite <- app_assoc. cbn [app].
        replace (systemTexts msg) with (@nil string)
          by (destruct msg; try reflexivity; discriminate).
        reflexivity.
      - cbn [filter]. rewrite Hsys. cbn [negb map]. now rewrite Hrole, Hroles. }
    destruct msg as [c | c | c | c id | ]; try discriminate.
    + cbn [bedrockMessagesLoop].
      destruct c as [v | contents | ]; try discriminate;
        cbn [openAIMessageToBedrockMessageRoleUser]; now apply Hpush.
    + cbn [bedrockMessagesLoop].
      unfold openAIMessageToBedrockMessageRoleAssistant. now apply Hpush.
    + cbn [bedrockMessagesLoop].
      assert (Hsys : forall texts,
                systemTexts (MsgSystem c) = texts ->
                exists M,
                  bedrockMessagesLoop E U msgs messages
                    (Some (match system with Some s => s | None => [] end ++ texts)%list)
                  = inl ((messages ++ M)%list,
                         if existsb isSystem (MsgSystem c :: msgs)
                         then Some (match system with Some s => s | None => [] end
                                    ++ flat_map systemTexts (MsgSystem c :: msgs))%list
                         else system) /\
                  map Role M
                  = map (bedrockRole E U)
                      (filter (fun msg => negb (isSystem msg)) (MsgSystem c :: msgs))).
      { intros texts Htexts.
        destruct (IH messages
                    (Some (match system with Some s => s | None => [] end ++ texts)%list)
                    Hok) as (M & HM & Hroles).
        exists M. split; [ | exact Hroles ].
        rewrite HM. cbn [existsb isSystem orb flat_map]. rewrite Htexts.
        destruct (existsb isSystem msgs) eqn:Es.
        - now rewrite <- app_assoc.
        - now rewrite (systemTexts_none _ Es), app_nil_r. }
      destruct c as [v | contents | t ]; try discriminate;
        cbn [openAIMessageToBedrockMessageRoleSystem].
      * now apply Hsys.
      * rewrite fold_left_snoc. now apply Hsys.
    + cbn [bedrockMessagesLoop].
      destruct c as [v | contents | t ]; try discriminate;
        cbn [openAIMessageToBedrockMessageRoleTool]; now apply Hpush.
Qed.

Lemma bedrockMessagesLoop_refused E U msgs :
  forall messages system,
    existsb refused msgs = true ->
    exists err, bedrockMessagesLoop E U msgs messages system = inr err.
Proof.
  induction msgs as [ | msg msgs IH ]; intros messages system Hbad; [ discriminate | ].
  cbn [existsb] in Hbad. cbn [bedrockMessagesLoop].
  destruct msg as [c | c | c | c id | ].
  - destruct c as [v | contents | ]; cbn [openAIMessageToBedrockMessageRoleUser];
      try (apply IH; exact Hbad); eexists; reflexivity.
  - unfold openAIMessageToBedrockMessageRoleAssistant. apply IH. exact Hbad.
  - destruct c as [v | contents | t ]; cbn [openAIMessageToBedrockMessageRoleSystem];
      try (apply IH; exact Hbad); eexists; reflexivity.
  - destruct c as [v | contents | t ]; cbn [openAIMessageToBedrockMessageRoleTool];
      try (apply IH; exact Hbad); eexists; reflexivity.
  - eexists; reflexivity.
Qed.

(** X22.  [tokenizeToBedrockCountTokens] fails exactly when some message is
    refused: a user, system or tool message whose content is neither a
    string nor a list of parts, or a message of another kind (a developer
    message).  Otherwise the request has one Bedrock message for each
    message that is not a system message, in order, with the message's own
    role except that a tool message is given the user role; the texts of
    all system messages are gathered, in order, in [System], which stays
    [nil] when there is none; and a tool configuration is set exactly when
    the request has tools. *)
Theorem bedrock_count_tokens_keeps_order
  (ExtractMessgaeRole : bedrockChatMessage -> string) (ConversationRoleUser : string)
  (msgs : list bedrockChatMessage) (tools : list (option FunctionDefinition)) :
  (existsb refused msgs = true <->
   exists err,
     tokenizeToBedrockCountTokens ExtractMessgaeRole ConversationRoleUser msgs tools
     = inr err) /\
  (forall bedrockReq,
      tokenizeToBedrockCountTokens ExtractMessgaeRole ConversationRoleUser msgs tools
      = inl bedrockReq ->
      map Role (Messages bedrockReq)
      = map (bedrockRole ExtractMessgaeRole ConversationRoleUser)
          (filter (fun msg => negb (isSystem msg)) msgs) /\
      System bedrockReq
      = (if existsb isSystem msgs then Some (flat_map systemTexts msgs) else None) /\
      (ToolConfig bedrockReq = None <-> tools = [])).
Proof.
  unfold tokenizeToBedrockCountTokens.
  destruct (existsb refused msgs) eqn:Hbad.
  - destruct (bedrockMessagesLoop_refused ExtractMessgaeRole ConversationRoleUser
                msgs [] None Hbad) as [err Herr].
    rewrite Herr. split.
    + split; [ intros _; now exists err | reflexivity ].
    + intros out H. discriminate.
  - destruct (bedrockMessagesLoop_spec ExtractMessgaeRole ConversationRoleUser
                msgs [] None Hbad) as (M & HM & Hroles).
    rewrite HM. split.
    + split; [ discriminate | intros [err H]; discriminate ].
    + intros out H. injection H as <-. cbn [Messages System ToolConfig app].
      split; [ exact Hroles | split; [ reflexivity | ] ].
      destruct tools; cbn; split; congruence.
Qed.

Lemma bedrock_count_tokens_keeps_order_witness :
  exists bedrockReq,
    tokenizeToBedrockCountTokens sampleRole "user" sampleConversation [] = inl bedrockReq /\
    map Role (Messages bedrockReq) = ["user"; "assistant"; "user"] /\
    System bedrockReq = Some ["be brief"; "a"; "b"] /\
    ToolConfig bedrockReq = None.
Proof.
  eexists. split; [ reflexivity | ].
  destruct (proj2 (bedrock_count_tokens_keeps_order sampleRole "user"
                     sampleConversation []) _ eq_refl) as (Hr & Hs & Ht).
  split; [ exact Hr | split; [ exact Hs | ] ]. now apply Ht.
Defined.

(* ================================================================== *)
(** * The AWS InvokeModel stream on reads that end with a message *)
(* ================================================================== *)

(** The text is appended to [result] and does not depend on the usage and
    the model carried along. *)
Lemma loopSSE_acc L fuel :
  forall data result tokenUsage model tokenUsage' model',
    loopSSE L fuel data result tokenUsage model
    = result ++ loopSSE L fuel data "" tokenUsage' model'.
Proof.
  unfold loopSSE.
  induction fuel as [ | fuel IH ]; intros data result u m u' m'.
  - simpl. now rewrite append_nil_r.
  - cbn [convertEventStreamLoop].
    destruct (Decode L data) as [[payload rest] | ];
      [ | simpl; now rewrite append_nil_r ].
    destruct (unmarshalPayload L payload) as [field | ]; [ | apply IH ].
    destruct (base64Decode L field) as [decoded | ]; [ | apply IH ].
    destruct (unmarshalChunk L decoded) as [[chunkUsage chunkModel] | ].
    + rewrite (IH rest (result ++ _) _ _ u' m').
      rewrite (IH rest ("" ++ _) _ _ u' m').
      rewrite (append_assoc result). reflexivity.
    + rewrite (IH rest (result ++ _) _ _ u' m').
      rewrite (IH rest ("" ++ _) _ _ u' m').
      rewrite (append_assoc result). reflexivity.
Qed.

(** Fuel above the length of the data is never used up. *)
Lemma loopSSE_fuel L (Hc : consuming L) fuel1 :
  forall fuel2 data result tokenUsage model,
    (String.length data < fuel1)%nat -> (String.length data < fuel2)%nat ->
    loopSSE L fuel1 data result tokenUsage model
    = loopSSE L fuel2 data result tokenUsage model.
Proof.
  unfold loopSSE.
  induction fuel1 as [ | fuel1 IH ]; intros fuel2 data result u m H1 H2; [ lia | ].
  destruct fuel2 as [ | fuel2 ]; [ lia | ].
  cbn [convertEventStreamLoop].
  destruct (Decode L data) as [[payload rest] | ] eqn:Hd; [ | reflexivity ].
  assert (Hrest : (String.length rest < String.length data)%nat)
    by exact (Hc _ _ _ Hd).
  destruct (unmarshalPayload L payload) as [field | ]; [ | apply IH; lia ].
  destruct (base64Decode L field) as [decoded | ]; [ | apply IH; lia ].
  destruct (unmarshalChunk L decoded) as [[chunkUsage chunkModel] | ];
    apply IH; lia.
Qed.

Lemma loopSSE_split L (Hc : consuming L) (Hp : prefix_stable L) a b :
  aligned L a ->
  forall fuel tokenUsage model,
    (String.length (a ++ b) < fuel)%nat ->
    loopSSE L fuel (a ++ b) "" tokenUsage model
    = loopSSE L (S (String.length a)) a "" tokenUsage model
      ++ loopSSE L (S (String.length b)) b "" tokenUsage model.
Proof.
  induction 1 as [ | data payload rest Hd Hrest IH ]; intros fuel u m Hfuel.
  - cbn [append String.length]. unfold loopSSE at 2.
    cbn [convertEventStreamLoop]. rewrite (consuming_empty L Hc). cbn [fst append].
    apply loopSSE_fuel; [ exact Hc | exact Hfuel | lia ].
  - destruct fuel as [ | fuel ]; [ lia | ].
    pose proof (Hc _ _ _ Hd) as Hlt.
    pose proof (Hp _ _ _ b Hd) as Hdb.
    pose proof (Hc _ _ _ Hdb) as Hltb.
    assert (Hstep : forall res u1 m1,
              loopSSE L fuel (rest ++ b) res u1 m1
              = loopSSE L (String.length data) rest res u1 m1
                ++ loopSSE L (S (String.length b)) b "" u m).
    { intros res u1 m1.
      rewrite (loopSSE_acc L fuel (rest ++ b) res u1 m1 u m).
      rewrite (loopSSE_acc L (String.length data) rest res u1 m1 u m).
      rewrite (IH fuel u m) by lia.
      rewrite (loopSSE_fuel L Hc (String.length data) (S (String.length rest))
                 rest "" u m) by lia.
      now rewrite append_assoc. }
    unfold loopSSE at 1 2. cbn [convertEventStreamLoop]. rewrite Hd, Hdb.
    destruct (unmarshalPayload L payload) as [field | ]; [ | apply Hstep ].
    destruct (base64Decode L field) as [decoded | ]; [ | apply Hstep ].
    destruct (unmarshalChunk L decoded) as [[chunkUsage chunkModel] | ];
      apply Hstep.
Qed.

Lemma convertedSSE_is_loop L (Hc : consuming L) o data :
  convertedSSE L o data
  = loopSSE L (S (String.length data)) data "" emptyTokenUsage
      (aiStreamingResponseModel o).
Proof.
  unfold convertedSSE, convertEventStreamToSSE, loopSSE.
  destruct (String.length data =? 0)%nat eqn:E.
  - apply Nat.eqb_eq in E. apply length_zero in E. subst data.
    cbn [String.length convertEventStreamLoop]. now rewrite (consuming_empty L Hc).
  - destruct (convertEventStreamLoop L (S (String.length data)) data ""
                emptyTokenUsage (aiStreamingResponseModel o)) as [[r u] m].
    reflexivity.
Qed.

Lemma convertedSSE_any_state L (Hc : consuming L) o o' data :
  convertedSSE L o data = convertedSSE L o' data.
Proof.
  rewrite !convertedSSE_is_loop by exact Hc.
  rewrite (loopSSE_acc L _ data "" _ _ emptyTokenUsage (aiStreamingResponseModel o')).
  reflexivity.
Qed.

Lemma awsInvokeFeedAll_open L o r reads :
  awsInvokeFeedAll L o (openReads (r :: reads))
  = convertedSSE L o r
    ++ awsInvokeFeedAll L (snd (convertEventStreamToSSE L o r)) (openReads reads).
Proof.
  cbn [openReads map awsInvokeFeedAll]. unfold awsInvokeResponseBody, convertedSSE.
  destruct (convertEventStreamToSSE L o r) as [[newBody u] o'].
  cbn [andb fst snd]. reflexivity.
Qed.

(** X23.  When every read of the AWS InvokeModel stream ends where a message
    ends, reading in pieces loses nothing: the SSE text of a read of
    [a ++ b] is the text of [a] followed by the text of [b], and the text
    emitted over a sequence of such reads is that of one read of their
    concatenation, whatever the translator has seen before.  (The framing
    reads at least one byte per message, and a complete message is not
    changed by the bytes after it.) *)
Theorem awsInvoke_message_aligned_reads_compose
  (L : StreamLibs) (Hc : consuming L) (Hp : prefix_stable L)
  (reads : list bytes) (Haligned : Forall (aligned L) reads) :
  (forall o a b,
      aligned L a ->
      convertedSSE L o (a ++ b) = convertedSSE L o a ++ convertedSSE L o b) /\
  (forall o, awsInvokeFeedAll L o (openReads reads)
             = convertedSSE L o (concat_reads reads)).
Proof.
  assert (Hsplit : forall o a b,
            aligned L a ->
            convertedSSE L o (a ++ b) = convertedSSE L o a ++ convertedSSE L o b).
  { intros o a b Ha. rewrite !convertedSSE_is_loop by exact Hc.
    apply loopSSE_split; try assumption. lia. }
  split; [ exact Hsplit | ].
  induction Haligned as [ | r reads Hr Hreads IH ]; intros o.
  - cbn [openReads map awsInvokeFeedAll concat_reads].
    rewrite convertedSSE_is_loop by exact Hc. unfold loopSSE.
    cbn [String.length convertEventStreamLoop]. now rewrite (consuming_empty L Hc).
  - rewrite awsInvokeFeedAll_open. cbn [concat_reads].
    rewrite (Hsplit o r _ Hr). rewrite IH. f_equal.
    apply convertedSSE_any_state. exact Hc.
Qed.

Lemma aligned_sampleFrame : aligned lengthPrefixedLibs sampleFrame.
Proof.
  apply (aligned_message lengthPrefixedLibs sampleFrame "abc" "");
    [ reflexivity | apply aligned_empty ].
Qed.

Lemma awsInvoke_message_aligned_reads_compose_witness :
  awsInvokeFeedAll lengthPrefixedLibs idleInvokeState (openReads [sampleFrame; sampleFrame])
  = convertedSSE lengthPrefixedLibs idleInvokeState (sampleFrame ++ sampleFrame ++ "").
Proof.
  exact (proj2 (awsInvoke_message_aligned_reads_compose lengthPrefixedLibs
                  lengthPrefixed_consuming lengthPrefixed_prefix_stable
                  [sampleFrame; sampleFrame]
                  (Forall_cons _ aligned_sampleFrame
                     (Forall_cons _ aligned_sampleFrame (Forall_nil _))))
               idleInvokeState).
Defined.

Lemma embedding_chat_text_is_messages_joined_witness :
  exists gcr,
    openAIEmbeddingChatToGeminiMessage noTrim sampleEmbeddingChat = inl gcr /\
    Parts (ecrContent gcr) = ["a" ++ newline ++ newline ++ "b"].
Proof.
  apply (proj1 (embedding_chat_text_is_messages_joined noTrim sampleEmbeddingChat)
           ["a"; ""; "b"]).
  repeat constructor.
Defined.

Lemma embedding_config_follows_request_witness :
  exists gcr,
    openAIEmbeddingCompletionToGeminiMessage noTrim sampleEmbeddingCompletion = inl gcr /\
    Title (ecrConfig gcr) = "Release notes v2" /\
    config_of (Some TaskTypeRetrievalDocument) (Some 256%Z) (ecrConfig gcr).
Proof.
  eexists. split; [ reflexivity | split; [ reflexivity | ] ].
  exact (proj1 (embedding_config_follows_request noTrim)
           sampleEmbeddingCompletion _ eq_refl).
Defined.

(* ================================================================== *)
(** * Parsing and translating a tokenize request *)
(* ================================================================== *)

(** X24.  What [ParseBody] of the tokenize endpoint returns always passes
    the validation the translators start with: no translator answers it
    with the error for an invalid union, and [ParseBody] itself never
    returns that error.  A chat request it returns never sets both
    [continue_final_message] and [add_generation_prompt].  The OpenAI
    translator, without a model override and without forced mutation, then
    leaves the body alone, sets only the [:path] header and keeps as request
    model the model [ParseBody] reported. *)
Theorem parsed_tokenize_request_passes_translators
  (L : TokenizeLibs) (body : bytes) :
  (forall e, ParseBody L body <> inr (ErrInvalidTokenizeRequest e)) /\
  (forall model req stream mutated,
      ParseBody L body = inl (model, req, stream, mutated) ->
      Validate req = None /\
      (forall ch, OfChat req = Some ch ->
                  tchContinueFinalMessage ch && tchAddGenerationPrompt ch = false) /\
      (forall backend modelNameOverride requestModel apiVersion force e,
          requestError (RequestBody L backend modelNameOverride requestModel apiVersion
                          body req force)
          <> Some (ErrInvalidTokenizeRequest e)) /\
      (forall requestModel apiVersion,
          RequestBody L APISchemaOpenAI "" requestModel apiVersion body req false
          = ([(pathHeaderName, "/tokenize")], None, None, model))).
Proof.
  assert (Hparse : forall model req stream mutated,
            ParseBody L body = inl (model, req, stream, mutated) ->
            (exists ch, req = mkTokenizeRequestUnion None (Some ch) /\
                        model = tchModel ch /\ chatValidate ch = None) \/
            (exists c, req = mkTokenizeRequestUnion (Some c) None /\ model = tcModel c)).
  { intros model req stream mutated H. unfold ParseBody in H.
    destruct (unmarshalRaw L body) as [raw | ]; [ | discriminate ].
    destruct (map_get "messages" raw).
    - destruct (unmarshalChatReq L body) as [ch | ]; [ | discriminate ].
      destruct (chatValidate ch) eqn:Hv; [ discriminate | ].
      cbn in H. injection H as <- <- _ _. left. now exists ch.
    - destruct (unmarshalCompletionReq L body) as [c | ]; [ | discriminate ].
      cbn in H. injection H as <- <- _ _. right. now exists c. }
  split.
  - intros e H. unfold ParseBody in H.
    destruct (unmarshalRaw L body) as [raw | ]; [ | discriminate ].
    destruct (map_get "messages" raw).
    + destruct (unmarshalChatReq L body) as [ch | ]; [ | discriminate ].
      destruct (chatValidate ch); discriminate.
    + destruct (unmarshalCompletionReq L body) as [c | ]; discriminate.
  - intros model req stream mutated H.
    assert (Hvalid : Validate req = None).
    { destruct (Hparse _ _ _ _ H) as [(ch & -> & _) | (c & -> & _)]; reflexivity. }
    split; [ exact Hvalid | split; [ | split ] ].
    + intros ch Hch.
      destruct (Hparse _ _ _ _ H) as [(ch' & -> & _ & Hv) | (c & -> & _)];
        [ | discriminate ].
      cbn in Hch. injection Hch as ->. unfold chatValidate in Hv.
      destruct (tchContinueFinalMessage ch && tchAddGenerationPrompt ch);
        [ discriminate | reflexivity ].
    + intros backend ov rm av force e Herr.
      destruct backend; cbn in Herr;
        unfold TranslatorV1Tokenize_RequestBody, ToGCPVertexAI_RequestBody,
          ToGCPAnthropic_RequestBody, ToAWSBedrock_RequestBody, providerRequestBody in Herr;
        rewrite Hvalid in Herr.
      * destruct (negb (String.eqb ov "")); [ | discriminate ].
        destruct (sjsonSetModel L body ov); discriminate.
      * destruct (OfChat req) as [ch | ]; [ | discriminate ].
        destruct (geminiCountTokenBody L ch _); discriminate.
      * destruct (OfChat req) as [ch | ]; [ | discriminate ].
        destruct (anthropicCountTokensBody L ch _) as [b | ]; [ | discriminate ].
        destruct (sjsonSetAnthropicVersion L b _); discriminate.
      * destruct (OfChat req) as [ch | ]; [ | discriminate ].
        destruct (bedrockCountTokensBody L ch); discriminate.
    + intros rm av.
      destruct (Hparse _ _ _ _ H) as [(ch & -> & -> & _) | (c & -> & ->)]; reflexivity.
Qed.
